(** * The slot-based stage builder (sbe_stage_builder.cpp)

    A shallow embedding of [mongo::stage_builder::SlotBasedStageBuilder]:
    the lowering of a query-solution tree to a tree of SBE plan stages,
    with the requirements that flow down and the slots that flow up. *)

From Stdlib Require Import String Ascii List ListDec Bool Arith Lia NArith ZArith.
Import ListNotations.
Local Open Scope string_scope.
Local Open Scope list_scope.
Local Open Scope nat_scope.

Set Implicit Arguments.
Set Warnings "-register-all".

(* ===================================================================== *)
(** * Identifiers and expressions *)
(* ===================================================================== *)

(** [sbe::value::SlotId], [FrameId], [SpoolId], [PlanNodeId]. *)
Definition SlotId := nat.
Definition FrameId := nat.
Definition SpoolId := nat.
Definition PlanNodeId := nat.
Definition SlotVector := list SlotId.

(** [sbe::value::SortDirection]. *)
Inductive SortDirection := Ascending | Descending.

(** One element of a BSON key pattern: field name and its value (1, -1 or
    the string hashed). *)
Inductive KeyValue := KeyAsc | KeyDesc | KeyHashed.
Record BSONElement := mkElem { fieldName : string; keyValue : KeyValue }.
Definition BSONObj := list BSONElement.

(** [FieldPath]: a dotted path with at least one component. *)
Record FieldPath := mkFieldPath { fp_first : string; fp_rest : list string }.
Definition getPathLength (fp : FieldPath) : nat := S (length (fp_rest fp)).
Definition getFieldName (fp : FieldPath) (i : nat) : string :=
  nth i (fp_first fp :: fp_rest fp) "".

(** One part of a [SortPattern]: a field path (absent for $meta parts) and
    the direction. *)
Record SortPatternPart := mkPart { fieldPath : option FieldPath; isAscending : bool }.
Definition SortPattern := list SortPatternPart.

(** Constants that the builder embeds into expressions. *)
Inductive Constant :=
| CNothing
| CNull
| CUndefined
| CBoolean (b : bool)
| CInt32 (n : nat)
| CInt64 (n : nat)
| CString (s : string)
| CArray (docs : list nat)
| CSortSpec (pattern : SortPattern) (hasCollator : bool)
| CFtsMatcher (query spec : nat)
| CShardFilterer.

Inductive ErrorCode := BadValue | ErrorNumber (n : N).

Inductive BinaryOp := logicOr | logicAnd | cmp3w | less | greater | lessEq | add.
Inductive UnaryOp := logicNot.

(** [sbe::EExpression]. *)
Inductive EExpression :=
| EConstant (c : Constant)
| EVariable (slot : SlotId)
| ELocalVar (frame : FrameId) (idx : nat)
| EFunction (name : string) (args : list EExpression)
| EPrimBinary (op : BinaryOp) (lhs rhs : EExpression)
| EPrimUnary (op : UnaryOp) (arg : EExpression)
| EIf (cond thenBranch elseBranch : EExpression)
| EFail (code : ErrorCode) (msg : string)
| ELocalBind (frame : FrameId) (binds : list EExpression) (body : EExpression).

(** Helpers of sbe_stage_builder_helpers.h. *)
Definition makeConstant (s : string) : EExpression := EConstant (CString s).
Definition makeVariable (s : SlotId) : EExpression := EVariable s.
Definition makeFunction (name : string) (args : list EExpression) := EFunction name args.
Definition makeBinaryOp (op : BinaryOp) (l r : EExpression) := EPrimBinary op l r.
Definition makeNot (e : EExpression) := EPrimUnary logicNot e.
Definition makeFillEmptyNull (e : EExpression) := EFunction "fillEmpty" [e; EConstant CNull].
Definition makeFillEmptyUndefined (e : EExpression) :=
  EFunction "fillEmpty" [e; EConstant CUndefined].

(* ===================================================================== *)
(** * Index-key rehydration *)
(* ===================================================================== *)

Module Rehydrate.

(** Association lists keyed by field component, in insertion order. *)
Section Assoc.
Variable A : Type.

Fixpoint find (k : string) (l : list (string * A)) : option A :=
  match l with
  | [] => None
  | (k', v) :: l' => if String.eqb k k' then Some v else find k l'
  end.

Fixpoint replace (k : string) (v : A) (l : list (string * A)) : list (string * A) :=
  match l with
  | [] => []
  | (k', v') :: l' =>
      if String.eqb k k' then (k', v) :: l' else (k', v') :: replace k v l'
  end.
End Assoc.

(** [IndexKeyPatternTreeNode].  The source keeps a map [children] and
    the vector [childrenOrder] of its keys in insertion order; [emplace]
    is the only writer of both, and it is only called for a component that
    [children.find] did not find.  The two are kept here as one
    association list in insertion order. *)
Inductive IndexKeyPatternTreeNode :=
| Node (children : list (string * IndexKeyPatternTreeNode))
       (indexKeySlot : option SlotId).

Definition children (n : IndexKeyPatternTreeNode) :=
  match n with Node c _ => c end.
Definition indexKeySlot (n : IndexKeyPatternTreeNode) :=
  match n with Node _ s => s end.

Definition emptyNode : IndexKeyPatternTreeNode := Node [] None.

(** Modelled from the spec: [FieldRef] (mongo/db/field_ref.h) is not part of
    the sources; a dotted path is split at every dot, and the empty string
    has no part. *)
Fixpoint splitDots (s : string) : string * list string :=
  match s with
  | EmptyString => (EmptyString, [])
  | String c s' =>
      let (h, t) := splitDots s' in
      if Ascii.eqb c "."%char then (EmptyString, h :: t) else (String c h, t)
  end.

Definition FieldRef (s : string) : list string :=
  match s with
  | EmptyString => []
  | _ => let (h, t) := splitDots s in h :: t
  end.

(** The body of the loop of [buildKeyPatternTree] for one element: walk the
    parts of the path from [node]; a child that is found and already has a
    slot sets [skipElem] and leaves the tree as it is; a part that is not
    found is emplaced; at the end of the path the slot is stored.  [oslot]
    is [slots[i]], read only when the element is not skipped; [None] there
    is a read past the end of the vector. *)
Fixpoint insertPath (parts : list string) (oslot : option SlotId)
         (node : IndexKeyPatternTreeNode) : option IndexKeyPatternTreeNode :=
  match parts with
  | [] =>
      match oslot with
      | Some s => Some (Node (children node) (Some s))
      | None => None
      end
  | part :: rest =>
      match find part (children node) with
      | Some child =>
          match indexKeySlot child with
          | Some _ => Some node
          | None =>
              match insertPath rest oslot child with
              | Some child' =>
                  Some (Node (replace part child' (children node)) (indexKeySlot node))
              | None => None
              end
          end
      | None =>
          match insertPath rest oslot emptyNode with
          | Some child' =>
              Some (Node (children node ++ [(part, child')]) (indexKeySlot node))
          | None => None
          end
      end
  end.

Fixpoint buildKeyPatternTreeFrom (keyPattern : BSONObj) (slots : SlotVector) (i : nat)
         (root : IndexKeyPatternTreeNode) : option IndexKeyPatternTreeNode :=
  match keyPattern with
  | [] => Some root
  | elem :: more =>
      match insertPath (FieldRef (fieldName elem)) (nth_error slots i) root with
      | Some root' => buildKeyPatternTreeFrom more slots (S i) root'
      | None => None
      end
  end.

Definition buildKeyPatternTree (keyPattern : BSONObj) (slots : SlotVector)
  : option IndexKeyPatternTreeNode :=
  buildKeyPatternTreeFrom keyPattern slots 0 emptyNode.

Fixpoint buildNewObjExpr (kpTree : IndexKeyPatternTreeNode) : EExpression :=
  match kpTree with
  | Node children _ =>
      EFunction "newObj"
        (flat_map
           (fun entry : string * IndexKeyPatternTreeNode =>
              match entry with
              | (name, child) =>
                  [ makeConstant name;
                    match indexKeySlot child with
                    | Some s => makeVariable s
                    | None => buildNewObjExpr child
                    end ]
              end)
           children)
  end.

(** The expression of [rehydrateIndexKey]. *)
Definition rehydrateExpr (indexKeyPattern : BSONObj) (indexKeySlots : SlotVector)
  : option EExpression :=
  option_map buildNewObjExpr (buildKeyPatternTree indexKeyPattern indexKeySlots).

End Rehydrate.

(* ===================================================================== *)
(** * Plan stages *)
(* ===================================================================== *)

Inductive FieldBehavior := drop | keep.

(** [sbe::PlanStage], one constructor per stage class the builder makes.
    The stage library itself is outside the builder; a stage is the record
    of the arguments it was constructed with. *)
Inductive PlanStage :=
| CoScanStage (nodeId : PlanNodeId)
| LimitSkipStage (input : PlanStage) (limit skip : option nat) (nodeId : PlanNodeId)
| ProjectStage (input : PlanStage) (projects : list (SlotId * EExpression))
               (nodeId : PlanNodeId)
| FilterStage (isConst : bool) (input : PlanStage) (filter : EExpression)
              (nodeId : PlanNodeId)
| ScanStage (collectionUuid : nat) (recordSlot recordIdSlot seekKeySlot : SlotId)
            (forward : bool) (nodeId : PlanNodeId)
| LoopJoinStage (outer inner : PlanStage) (outerProjects outerCorrelated : SlotVector)
                (nodeId : PlanNodeId)
| TraverseStage (outer inner : PlanStage) (inField outField outFieldInner : SlotId)
                (outerCorrelated : SlotVector) (foldExpr : EExpression)
                (finalExpr : option EExpression) (nodeId : PlanNodeId)
                (nestedArraysDepth : nat)
| SortStage (input : PlanStage) (orderBy : SlotVector) (dirs : list SortDirection)
            (vals : SlotVector) (limit : N) (memoryLimit : nat) (allowDiskUse : bool)
            (nodeId : PlanNodeId)
| UnionStage (inputs : list PlanStage) (inputVals : list SlotVector)
             (outputVals : SlotVector) (nodeId : PlanNodeId)
| UniqueStage (input : PlanStage) (keys : SlotVector) (nodeId : PlanNodeId)
| MakeBsonObjStage (input : PlanStage) (objSlot : SlotId) (rootSlot : option SlotId)
                   (fieldBehavior : option FieldBehavior)
                   (fields projectFields : list string) (projectVars : SlotVector)
                   (forceNewObject returnOldObject : bool) (nodeId : PlanNodeId)
| HashJoinStage (outer inner : PlanStage) (outerCond outerProjects : SlotVector)
                (innerCond innerProjects : SlotVector) (collatorSlot : option SlotId)
                (nodeId : PlanNodeId)
| MergeJoinStage (outer inner : PlanStage) (outerKeys outerProjects : SlotVector)
                 (innerKeys innerProjects : SlotVector) (dirs : list SortDirection)
                 (nodeId : PlanNodeId)
| SortedMergeStage (inputs : list PlanStage) (inputKeys : list SlotVector)
                   (dirs : list SortDirection) (inputVals : list SlotVector)
                   (outputVals : SlotVector) (nodeId : PlanNodeId)
| GeneratedStage (tag : string) (inputs : list PlanStage) (slots : SlotVector)
                 (nodeId : PlanNodeId).

(** [sbe::makeProjectStage] for one slot, and [makeLimitCoScanTree] (limit 1). *)
Definition makeProjectStage (input : PlanStage) (nodeId : PlanNodeId) (slot : SlotId)
           (e : EExpression) : PlanStage :=
  ProjectStage input [(slot, e)] nodeId.

Definition makeLimitCoScanTree (nodeId : PlanNodeId) : PlanStage :=
  LimitSkipStage (CoScanStage nodeId) (Some 1) None nodeId.

(** [sbe::value::SlotMap]: a map keyed by slot; an insert of a key that is
    present does nothing. *)
Fixpoint slotMapFind (A : Type) (k : SlotId) (m : list (SlotId * A)) : option A :=
  match m with
  | [] => None
  | (k', v) :: m' => if Nat.eqb k k' then Some v else slotMapFind k m'
  end.

Definition slotMapInsert (A : Type) (k : SlotId) (v : A) (m : list (SlotId * A)) :=
  match slotMapFind k m with
  | Some _ => m
  | None => m ++ [(k, v)]
  end.

(* ===================================================================== *)
(** * Requirements and slots *)
(* ===================================================================== *)

(** The names [PlanStageSlots::kResult], [kRecordId], [kReturnKey], [kOplogTs]. *)
Inductive SlotName := kResult | kRecordId | kReturnKey | kOplogTs.

Definition allSlotNames : list SlotName := [kResult; kRecordId; kReturnKey; kOplogTs].

Definition SlotName_eqb (a b : SlotName) : bool :=
  match a, b with
  | kResult, kResult | kRecordId, kRecordId
  | kReturnKey, kReturnKey | kOplogTs, kOplogTs => true
  | _, _ => false
  end.

(** A map from the four names. *)
Record NameMap (A : Type) := mkNameMap {
  at_result : A; at_recordId : A; at_returnKey : A; at_oplogTs : A }.

Definition nmGet (A : Type) (m : NameMap A) (k : SlotName) : A :=
  match k with
  | kResult => at_result m
  | kRecordId => at_recordId m
  | kReturnKey => at_returnKey m
  | kOplogTs => at_oplogTs m
  end.

Definition nmSet (A : Type) (m : NameMap A) (k : SlotName) (v : A) : NameMap A :=
  match k with
  | kResult => mkNameMap v (at_recordId m) (at_returnKey m) (at_oplogTs m)
  | kRecordId => mkNameMap (at_result m) v (at_returnKey m) (at_oplogTs m)
  | kReturnKey => mkNameMap (at_result m) (at_recordId m) v (at_oplogTs m)
  | kOplogTs => mkNameMap (at_result m) (at_recordId m) (at_returnKey m) v
  end.

(** [sbe::IndexKeysInclusionSet], a [std::bitset] of
    [Ordering::kMaxCompoundIndexKeys] = 32 bits. *)
Definition IndexKeysInclusionSet := N.
Definition kMaxCompoundIndexKeys : nat := 32.

Definition bitTest (b : IndexKeysInclusionSet) (i : nat) : bool :=
  N.testbit b (N.of_nat i).

Definition bitCount (b : IndexKeysInclusionSet) : nat :=
  length (filter (bitTest b) (seq 0 kMaxCompoundIndexKeys)).

(** Modelled from the spec: [PlanStageReqs] is declared in
    sbe_stage_builder.h, which is not part of the sources: a set of named
    slot requests, an optional index-key bitset and the two flags of the
    tailable rewrite. *)
Record PlanStageReqs := mkReqs {
  reqs_slots : NameMap bool;
  reqs_indexKeyBitset : option IndexKeysInclusionSet;
  reqs_isBuildingUnionForTailableCollScan : bool;
  reqs_isTailableCollScanResumeBranch : bool }.

Definition emptyReqs : PlanStageReqs :=
  mkReqs (mkNameMap false false false false) None false false.

Module Reqs.
Definition has (r : PlanStageReqs) (k : SlotName) : bool := nmGet (reqs_slots r) k.

Definition set (r : PlanStageReqs) (k : SlotName) : PlanStageReqs :=
  mkReqs (nmSet (reqs_slots r) k true) (reqs_indexKeyBitset r)
         (reqs_isBuildingUnionForTailableCollScan r)
         (reqs_isTailableCollScanResumeBranch r).

Definition setIf (r : PlanStageReqs) (k : SlotName) (condition : bool) : PlanStageReqs :=
  if condition then set r k else r.

Definition clear (r : PlanStageReqs) (k : SlotName) : PlanStageReqs :=
  mkReqs (nmSet (reqs_slots r) k false) (reqs_indexKeyBitset r)
         (reqs_isBuildingUnionForTailableCollScan r)
         (reqs_isTailableCollScanResumeBranch r).

Definition setIndexKeyBitset (r : PlanStageReqs) (b : option IndexKeysInclusionSet) :=
  mkReqs (reqs_slots r) b
         (reqs_isBuildingUnionForTailableCollScan r)
         (reqs_isTailableCollScanResumeBranch r).

Definition setIsBuildingUnionForTailableCollScan (r : PlanStageReqs) (b : bool) :=
  mkReqs (reqs_slots r) (reqs_indexKeyBitset r) b
         (reqs_isTailableCollScanResumeBranch r).

Definition setIsTailableCollScanResumeBranch (r : PlanStageReqs) (b : bool) :=
  mkReqs (reqs_slots r) (reqs_indexKeyBitset r)
         (reqs_isBuildingUnionForTailableCollScan r) b.

(** The names that are required, in the order [forEachSlot] and the
    constructor of [PlanStageSlots] visit them.  The source iterates a
    hash map; the model fixes the order of [allSlotNames]. *)
Definition required (r : PlanStageReqs) : list SlotName := filter (has r) allSlotNames.
End Reqs.

(** Modelled from the spec: [PlanStageSlots] (sbe_stage_builder.h): the
    named slots a subtree produced and the optional vector of index-key
    slots. *)
Record PlanStageSlots := mkSlots {
  slots_slots : NameMap (option SlotId);
  slots_indexKeySlots : option SlotVector }.

Definition emptySlots : PlanStageSlots :=
  mkSlots (mkNameMap None None None None) None.

Module Slots.
Definition getIfExists (o : PlanStageSlots) (k : SlotName) : option SlotId :=
  nmGet (slots_slots o) k.

Definition has (o : PlanStageSlots) (k : SlotName) : bool :=
  match getIfExists o k with Some _ => true | None => false end.

Definition set (o : PlanStageSlots) (k : SlotName) (s : SlotId) : PlanStageSlots :=
  mkSlots (nmSet (slots_slots o) k (Some s)) (slots_indexKeySlots o).

Definition clear (o : PlanStageSlots) (k : SlotName) : PlanStageSlots :=
  mkSlots (nmSet (slots_slots o) k None) (slots_indexKeySlots o).

Definition getIndexKeySlots (o : PlanStageSlots) : option SlotVector :=
  slots_indexKeySlots o.

Definition setIndexKeySlots (o : PlanStageSlots) (v : option SlotVector) : PlanStageSlots :=
  mkSlots (slots_slots o) v.
End Slots.

(* ===================================================================== *)
(** * The builder monad *)
(* ===================================================================== *)

(** How a translator fails: [invariant] (the process aborts), [tassert] and
    [uassert] (an exception with a numeric tag), and undefined behaviour of
    the C++ (dereferencing an empty optional, reading past a vector);
    [std::bitset] throws [std::out_of_range] for a position past its size. *)
Inductive Failure :=
| InvariantFailure
| Tassert (tag : N)
| Uassert (tag : N)
| OutOfRange
| Undefined.

Inductive Result (A : Type) :=
| Ok (a : A)
| Fail (f : Failure).
Arguments Fail {A} f.

(** [sbe::RuntimeEnvironment]: the named global slots. *)
Definition RuntimeEnvironment := list (string * SlotId).

(** The part of the builder that translators mutate: the three id
    generators and the runtime environment. *)
Record BuildState := mkState {
  slotIdGenerator : nat;
  frameIdGenerator : nat;
  spoolIdGenerator : nat;
  env : RuntimeEnvironment }.

(** State is threaded through; a failure keeps the state it happened in. *)
Definition M (A : Type) : Type := BuildState -> Result A * BuildState.

Definition ret (A : Type) (a : A) : M A := fun st => (Ok a, st).

Definition bind (A B : Type) (m : M A) (f : A -> M B) : M B :=
  fun st =>
    match m st with
    | (Ok a, st') => f a st'
    | (Fail e, st') => (Fail e, st')
    end.

Definition fail (A : Type) (e : Failure) : M A := fun st => (Fail e, st).
Arguments fail {A} e.

Declare Scope build_scope.
Delimit Scope build_scope with build.
Notation "x <- m ;; k" := (bind m (fun x => k))
  (at level 61, m at next level, right associativity) : build_scope.
Notation "' p <- m ;; k" := (bind m (fun x => let 'p := x in k))
  (at level 61, p pattern, m at next level, right associativity) : build_scope.
Notation "m ;;; k" := (bind m (fun _ => k))
  (at level 61, right associativity) : build_scope.
Local Open Scope build_scope.

Definition invariant (c : bool) : M unit :=
  if c then ret tt else fail InvariantFailure.
Definition tassert (tag : N) (c : bool) : M unit :=
  if c then ret tt else fail (Tassert tag).
Definition uassert (tag : N) (c : bool) : M unit :=
  if c then ret tt else fail (Uassert tag).

Definition isSome (A : Type) (o : option A) : bool :=
  match o with Some _ => true | None => false end.

(** Dereferencing a [boost::optional]. *)
Definition deref (A : Type) (o : option A) : M A :=
  match o with Some a => ret a | None => fail Undefined end.

(** [vector::operator[]]. *)
Definition index (A : Type) (v : list A) (i : nat) : M A := deref (nth_error v i).

(** [IdGenerator::generate]: the ids start at 1. *)
Definition generateSlotId : M SlotId :=
  fun st => (Ok (S (slotIdGenerator st)),
             mkState (S (slotIdGenerator st)) (frameIdGenerator st)
                     (spoolIdGenerator st) (env st)).

Definition generateFrameId : M FrameId :=
  fun st => (Ok (S (frameIdGenerator st)),
             mkState (slotIdGenerator st) (S (frameIdGenerator st))
                     (spoolIdGenerator st) (env st)).

Fixpoint generateMultiple (n : nat) : M SlotVector :=
  match n with
  | O => ret []
  | S n' => s <- generateSlotId ;; v <- generateMultiple n' ;; ret (s :: v)
  end.

(** Modelled from the spec: [RuntimeEnvironment::registerSlot] and
    [getSlotIfExists] (not part of the sources): a fresh slot is installed
    under the name. *)
Definition registerSlot (name : string) : M SlotId :=
  s <- generateSlotId ;;
  (fun st => (Ok s, mkState (slotIdGenerator st) (frameIdGenerator st)
                            (spoolIdGenerator st) (env st ++ [(name, s)]))).

Definition getSlotIfExists (name : string) : M (option SlotId) :=
  fun st => (Ok (Rehydrate.find name (env st)), st).

(** [PlanStageSlots::get]: the name has to be there. *)
Definition getSlot (o : PlanStageSlots) (k : SlotName) : M SlotId :=
  match Slots.getIfExists o k with
  | Some s => ret s
  | None => fail InvariantFailure
  end.

(** [PlanStageSlots::forEachSlot] with a callback that collects the slots. *)
Fixpoint forEachSlotNames (o : PlanStageSlots) (names : list SlotName) : M SlotVector :=
  match names with
  | [] => ret []
  | k :: more =>
      s <- getSlot o k ;;
      v <- forEachSlotNames o more ;;
      ret (s :: v)
  end.

Definition forEachSlot (o : PlanStageSlots) (reqs : PlanStageReqs) : M SlotVector :=
  forEachSlotNames o (Reqs.required reqs).

(** The constructor [PlanStageSlots(reqs, slotIdGenerator)]: a fresh slot
    for every required name. *)
Fixpoint makeSlotsNames (names : list SlotName) (o : PlanStageSlots) : M PlanStageSlots :=
  match names with
  | [] => ret o
  | k :: more =>
      s <- generateSlotId ;;
      makeSlotsNames more (Slots.set o k s)
  end.

Definition makePlanStageSlots (reqs : PlanStageReqs) : M PlanStageSlots :=
  makeSlotsNames (Reqs.required reqs) emptySlots.

(** [std::bitset::set] and [test] check the position. *)
Definition bitSet (b : IndexKeysInclusionSet) (i : nat) : M IndexKeysInclusionSet :=
  if i <? kMaxCompoundIndexKeys then ret (N.setbit b (N.of_nat i)) else fail OutOfRange.

Definition bitTestChecked (b : IndexKeysInclusionSet) (i : nat) : M bool :=
  if i <? kMaxCompoundIndexKeys then ret (bitTest b i) else fail OutOfRange.

(* ===================================================================== *)
(** * Query solution nodes *)
(* ===================================================================== *)

Inductive StageType :=
| STAGE_COLLSCAN | STAGE_VIRTUAL_SCAN | STAGE_IXSCAN | STAGE_FETCH | STAGE_LIMIT
| STAGE_SKIP | STAGE_SORT_SIMPLE | STAGE_SORT_DEFAULT | STAGE_SORT_KEY_GENERATOR
| STAGE_PROJECTION_SIMPLE | STAGE_PROJECTION_DEFAULT | STAGE_PROJECTION_COVERED
| STAGE_OR | STAGE_TEXT_OR | STAGE_TEXT_MATCH | STAGE_RETURN_KEY | STAGE_EOF
| STAGE_AND_HASH | STAGE_AND_SORTED | STAGE_SORT_MERGE | STAGE_SHARDING_FILTER
| STAGE_OTHER (tag : nat).

Definition StageType_eqb (a b : StageType) : bool :=
  match a, b with
  | STAGE_COLLSCAN, STAGE_COLLSCAN | STAGE_VIRTUAL_SCAN, STAGE_VIRTUAL_SCAN
  | STAGE_IXSCAN, STAGE_IXSCAN | STAGE_FETCH, STAGE_FETCH | STAGE_LIMIT, STAGE_LIMIT
  | STAGE_SKIP, STAGE_SKIP | STAGE_SORT_SIMPLE, STAGE_SORT_SIMPLE
  | STAGE_SORT_DEFAULT, STAGE_SORT_DEFAULT
  | STAGE_SORT_KEY_GENERATOR, STAGE_SORT_KEY_GENERATOR
  | STAGE_PROJECTION_SIMPLE, STAGE_PROJECTION_SIMPLE
  | STAGE_PROJECTION_DEFAULT, STAGE_PROJECTION_DEFAULT
  | STAGE_PROJECTION_COVERED, STAGE_PROJECTION_COVERED
  | STAGE_OR, STAGE_OR | STAGE_TEXT_OR, STAGE_TEXT_OR
  | STAGE_TEXT_MATCH, STAGE_TEXT_MATCH | STAGE_RETURN_KEY, STAGE_RETURN_KEY
  | STAGE_EOF, STAGE_EOF | STAGE_AND_HASH, STAGE_AND_HASH
  | STAGE_AND_SORTED, STAGE_AND_SORTED | STAGE_SORT_MERGE, STAGE_SORT_MERGE
  | STAGE_SHARDING_FILTER, STAGE_SHARDING_FILTER => true
  | STAGE_OTHER n, STAGE_OTHER m => Nat.eqb n m
  | _, _ => false
  end.

(** A filter predicate and a projection, as far as the builder looks at
    them. *)
Definition MatchExpression := nat.
Record Projection := mkProjection {
  proj_id : nat; proj_requiredFields : list string; proj_isSimple : bool }.

Inductive FTSQuery := FTSQueryImpl (id : nat) | FTSQueryNoop.

Record CollectionScanNode := mkCollScan {
  csn_nodeId : PlanNodeId;
  csn_tailable : bool;
  csn_shouldTrackLatestOplogTimestamp : bool;
  csn_requestResumeToken : bool }.

Inductive ScanType := kCollScan | kIxscan.

Record VirtualScanNode := mkVirtualScan {
  vsn_nodeId : PlanNodeId;
  vsn_docs : list nat;
  vsn_scanType : ScanType;
  vsn_hasRecordId : bool;
  vsn_indexKeyPattern : BSONObj }.

Record IndexScanNode := mkIndexScan {
  ixn_nodeId : PlanNodeId;
  ixn_keyPattern : BSONObj;
  ixn_addKeyMetadata : bool }.

Record SortNode := mkSortNode {
  sn_nodeId : PlanNodeId;
  sn_pattern : SortPattern;
  sn_limit : N;
  sn_maxMemoryUsageBytes : nat }.

(** [QuerySolutionNode], with the children each kind has. *)
Inductive QuerySolutionNode :=
| QCollScan (csn : CollectionScanNode)
| QVirtualScan (vsn : VirtualScanNode)
| QIndexScan (ixn : IndexScanNode)
| QFetch (nodeId : PlanNodeId) (filter : option MatchExpression)
         (child : QuerySolutionNode)
| QLimit (nodeId : PlanNodeId) (limit : nat) (child : QuerySolutionNode)
| QSkip (nodeId : PlanNodeId) (skip : nat) (child : QuerySolutionNode)
| QSort (simple : bool) (sn : SortNode) (child : QuerySolutionNode)
| QSortKeyGenerator (nodeId : PlanNodeId) (child : QuerySolutionNode)
| QProjectionSimple (nodeId : PlanNodeId) (proj : Projection)
                    (child : QuerySolutionNode)
| QProjectionCovered (nodeId : PlanNodeId) (proj : Projection) (coveredKeyObj : BSONObj)
                     (child : QuerySolutionNode)
| QProjectionDefault (nodeId : PlanNodeId) (proj : Projection)
                     (child : QuerySolutionNode)
| QOr (text : bool) (nodeId : PlanNodeId) (dedup : bool)
      (filter : option MatchExpression) (children : list QuerySolutionNode)
| QTextMatch (nodeId : PlanNodeId) (indexName : string) (ftsQuery : FTSQuery)
             (children : list QuerySolutionNode)
| QReturnKey (nodeId : PlanNodeId) (child : QuerySolutionNode)
| QEof (nodeId : PlanNodeId)
| QAndHash (nodeId : PlanNodeId) (children : list QuerySolutionNode)
| QAndSorted (nodeId : PlanNodeId) (children : list QuerySolutionNode)
| QMergeSort (nodeId : PlanNodeId) (dedup : bool) (sort : SortPattern)
             (children : list QuerySolutionNode)
| QShardingFilter (nodeId : PlanNodeId) (child : QuerySolutionNode)
| QOther (tag : nat) (nodeId : PlanNodeId) (children : list QuerySolutionNode).

Definition getType (root : QuerySolutionNode) : StageType :=
  match root with
  | QCollScan _ => STAGE_COLLSCAN
  | QVirtualScan _ => STAGE_VIRTUAL_SCAN
  | QIndexScan _ => STAGE_IXSCAN
  | QFetch _ _ _ => STAGE_FETCH
  | QLimit _ _ _ => STAGE_LIMIT
  | QSkip _ _ _ => STAGE_SKIP
  | QSort true _ _ => STAGE_SORT_SIMPLE
  | QSort false _ _ => STAGE_SORT_DEFAULT
  | QSortKeyGenerator _ _ => STAGE_SORT_KEY_GENERATOR
  | QProjectionSimple _ _ _ => STAGE_PROJECTION_SIMPLE
  | QProjectionCovered _ _ _ _ => STAGE_PROJECTION_COVERED
  | QProjectionDefault _ _ _ => STAGE_PROJECTION_DEFAULT
  | QOr false _ _ _ _ => STAGE_OR
  | QOr true _ _ _ _ => STAGE_TEXT_OR
  | QTextMatch _ _ _ _ => STAGE_TEXT_MATCH
  | QReturnKey _ _ => STAGE_RETURN_KEY
  | QEof _ => STAGE_EOF
  | QAndHash _ _ => STAGE_AND_HASH
  | QAndSorted _ _ => STAGE_AND_SORTED
  | QMergeSort _ _ _ _ => STAGE_SORT_MERGE
  | QShardingFilter _ _ => STAGE_SHARDING_FILTER
  | QOther tag _ _ => STAGE_OTHER tag
  end.

Definition nodeId (root : QuerySolutionNode) : PlanNodeId :=
  match root with
  | QCollScan csn => csn_nodeId csn
  | QVirtualScan vsn => vsn_nodeId vsn
  | QIndexScan ixn => ixn_nodeId ixn
  | QSort _ sn _ => sn_nodeId sn
  | QFetch n _ _ | QLimit n _ _ | QSkip n _ _ | QSortKeyGenerator n _
  | QProjectionSimple n _ _ | QProjectionCovered n _ _ _ | QProjectionDefault n _ _
  | QOr _ n _ _ _ | QTextMatch n _ _ _ | QReturnKey n _ | QEof n | QAndHash n _
  | QAndSorted n _ | QMergeSort n _ _ _ | QShardingFilter n _ | QOther _ n _ => n
  end.

Definition qsnChildren (root : QuerySolutionNode) : list QuerySolutionNode :=
  match root with
  | QCollScan _ | QVirtualScan _ | QIndexScan _ | QEof _ => []
  | QFetch _ _ c | QLimit _ _ c | QSkip _ _ c | QSort _ _ c | QSortKeyGenerator _ c
  | QProjectionSimple _ _ c | QProjectionCovered _ _ _ c | QProjectionDefault _ _ c
  | QReturnKey _ c | QShardingFilter _ c => [c]
  | QOr _ _ _ _ cs | QTextMatch _ _ _ cs | QAndHash _ cs | QAndSorted _ cs
  | QMergeSort _ _ _ cs | QOther _ _ cs => cs
  end.

(** [getNodeByType]: the first node of the type, in pre-order. *)
Fixpoint getNodeByType (root : QuerySolutionNode) (type : StageType)
  : option QuerySolutionNode :=
  if StageType_eqb (getType root) type then Some root
  else
    let fix first (cs : list QuerySolutionNode) : option QuerySolutionNode :=
      match cs with
      | [] => None
      | c :: more =>
          match getNodeByType c type with
          | Some r => Some r
          | None => first more
          end
      end in
    match root with
    | QCollScan _ | QVirtualScan _ | QIndexScan _ | QEof _ => None
    | QFetch _ _ c | QLimit _ _ c | QSkip _ _ c | QSort _ _ c | QSortKeyGenerator _ c
    | QProjectionSimple _ _ c | QProjectionCovered _ _ _ c | QProjectionDefault _ _ c
    | QReturnKey _ c | QShardingFilter _ c => getNodeByType c type
    | QOr _ _ _ _ cs | QTextMatch _ _ _ cs | QAndHash _ cs | QAndSorted _ cs
    | QMergeSort _ _ _ cs | QOther _ _ cs => first cs
    end.

(* ===================================================================== *)
(** * What the builder is given *)
(* ===================================================================== *)

(** The collection with the part of its index catalog that
    [makeFtsMatcher] consults. *)
Record Collection := mkCollection {
  coll_uuid : nat;
  findIndexByName : string -> option nat;
  getEntry : nat -> option nat;
  accessMethod : nat -> option nat }.

(** The canonical query, the collection and the shard filterer's key
    pattern. *)
Record Context := mkContext {
  cq_tailable : bool;
  cq_hasCollator : bool;
  expCtx_allowDiskUse : bool;
  collection : option Collection;
  shardKeyPattern : BSONObj }.

Definition BuildResult : Type := PlanStage * PlanStageSlots.

(** The sub-builders that live in other files (sbe_stage_builder_coll_scan,
    _index_scan, _filter, _projection, _helpers) and the virtual method
    [QuerySolutionNode::fetched].  The builder is verified for any of them. *)
Record Collaborators := mkCollaborators {
  generateCollScan : CollectionScanNode -> bool -> M BuildResult;
  generateIndexScan : IndexScanNode -> IndexKeysInclusionSet -> M BuildResult;
  generateVirtualScanMulti : nat -> Constant -> M (SlotVector * PlanStage);
  generateFilter : MatchExpression -> PlanStage -> SlotId -> SlotVector -> PlanNodeId
                   -> M PlanStage;
  generateProjection : Projection -> PlanStage -> SlotId -> SlotVector -> PlanNodeId
                       -> M (SlotId * PlanStage);
  generateShardKeyBinding : list string -> EExpression -> nat -> M EExpression;
  fetched : QuerySolutionNode -> bool }.

(** Modelled from the spec: [makeIndexKeyInclusionSet]
    (sbe_stage_builder_helpers.h is not part of the sources): the bitset of
    the key-pattern positions whose field is required, with their names. *)
Fixpoint makeIndexKeyInclusionSetFrom (indexKeyPattern : BSONObj)
         (requiredFields : list string) (i : nat)
         (indexKeyBitset : IndexKeysInclusionSet) (keyFieldNames : list string)
  : M (IndexKeysInclusionSet * list string) :=
  match indexKeyPattern with
  | [] => ret (indexKeyBitset, keyFieldNames)
  | elt :: more =>
      if existsb (String.eqb (fieldName elt)) requiredFields then
        b <- bitSet indexKeyBitset i ;;
        makeIndexKeyInclusionSetFrom more requiredFields (S i) b
                                     (keyFieldNames ++ [fieldName elt])
      else makeIndexKeyInclusionSetFrom more requiredFields (S i) indexKeyBitset
                                        keyFieldNames
  end.

Definition makeIndexKeyInclusionSet (indexKeyPattern : BSONObj)
           (requiredFields : list string) : M (IndexKeysInclusionSet * list string) :=
  makeIndexKeyInclusionSetFrom indexKeyPattern requiredFields 0 0%N [].

(** Modelled from the spec: [makeIndexKeyOutputSlotsMatchingParentReqs]
    (sbe_stage_builder_helpers.cpp is not part of the sources).  The child
    returned one slot per set bit of [childIndexKeyReqs], in the order of the
    positions; the slots at the positions of [parentIndexKeyReqs] are kept. *)
Fixpoint matchingParentReqsFrom (positions : list nat)
         (parentIndexKeyReqs childIndexKeyReqs : IndexKeysInclusionSet)
         (childOutputSlots : SlotVector) (slotIdx : nat) : M SlotVector :=
  match positions with
  | [] => ret []
  | indexFieldNumber :: more =>
      here <- (if bitTest parentIndexKeyReqs indexFieldNumber
               then s <- index childOutputSlots slotIdx ;; ret [s]
               else ret []) ;;
      rest <- matchingParentReqsFrom more parentIndexKeyReqs childIndexKeyReqs
                childOutputSlots
                (if bitTest childIndexKeyReqs indexFieldNumber
                 then S slotIdx else slotIdx) ;;
      ret (here ++ rest)
  end.

Definition makeIndexKeyOutputSlotsMatchingParentReqs
           (parentIndexKeyReqs childIndexKeyReqs : IndexKeysInclusionSet)
           (childOutputSlots : SlotVector) : M SlotVector :=
  tassert 5308000%N (bitCount parentIndexKeyReqs <=? bitCount childIndexKeyReqs) ;;;
  matchingParentReqsFrom (seq 0 kMaxCompoundIndexKeys) parentIndexKeyReqs
                         childIndexKeyReqs childOutputSlots 0.

(** [makeRuntimeEnvironment]. *)
Definition makeRuntimeEnvironment (ctx : Context) : M unit :=
  registerSlot "timeZoneDB" ;;;
  (if cq_hasCollator ctx then registerSlot "collator" ;;; ret tt else ret tt).

(** [generateEofPlan]. *)
Definition generateEofPlan (nodeId : PlanNodeId) (reqs : PlanStageReqs) : M BuildResult :=
  outputs <- makePlanStageSlots reqs ;;
  slots <- forEachSlot outputs reqs ;;
  let projects :=
    fold_left (fun projects slot => slotMapInsert slot (EConstant CNothing) projects)
              slots [] in
  let stage := LimitSkipStage (CoScanStage nodeId) (Some 0) None nodeId in
  let stage :=
    match projects with
    | [] => stage
    | _ => ProjectStage stage projects nodeId
    end in
  ret (stage, outputs).

(* ===================================================================== *)
(** * The translators *)
(* ===================================================================== *)

Section Translators.

Variable X : Collaborators.
Variable ctx : Context.

(** What a translator gets for a child: [build] applied to the child. *)
Definition ChildBuilder : Type := PlanStageReqs -> M BuildResult.

Definition buildCollScan (csn : CollectionScanNode) (reqs : PlanStageReqs)
  : M BuildResult :=
  invariant (negb (isSome (reqs_indexKeyBitset reqs))) ;;;
  '(stage, outputs) <- generateCollScan X csn (reqs_isTailableCollScanResumeBranch reqs) ;;
  '(stage, outputs) <-
    (if Reqs.has reqs kReturnKey then
       s <- generateSlotId ;;
       let outputs := Slots.set outputs kReturnKey s in
       rk <- getSlot outputs kReturnKey ;;
       ret (makeProjectStage stage (csn_nodeId csn) rk (EFunction "newObj" []), outputs)
     else ret (stage, outputs)) ;;
  invariant (negb (Reqs.has reqs kOplogTs) || Slots.has outputs kOplogTs) ;;;
  ret (stage, outputs).

(** The loop of [buildVirtualScan] over the fields of the mocked index key
    pattern. *)
Fixpoint virtualScanProjections (indexKeyPattern : BSONObj) (bits : IndexKeysInclusionSet)
         (resultSlot : SlotId) (indexKeyPos : nat)
         (indexKeySlots : SlotVector) (projections : list (SlotId * EExpression))
  : M (SlotVector * list (SlotId * EExpression)) :=
  match indexKeyPattern with
  | [] => ret (indexKeySlots, projections)
  | field :: more =>
      wanted <- bitTestChecked bits indexKeyPos ;;
      if wanted then
        s <- generateSlotId ;;
        virtualScanProjections more bits resultSlot (S indexKeyPos)
          (indexKeySlots ++ [s])
          (slotMapInsert s (makeFunction "getField"
                              [EVariable resultSlot; makeConstant (fieldName field)])
                         projections)
      else virtualScanProjections more bits resultSlot (S indexKeyPos)
                                  indexKeySlots projections
  end.

Definition buildVirtualScan (vsn : VirtualScanNode) (reqs : PlanStageReqs)
  : M BuildResult :=
  (match vsn_scanType vsn with
   | kCollScan => invariant (negb (isSome (reqs_indexKeyBitset reqs)))
   | kIxscan => ret tt
   end) ;;;
  invariant (negb (Reqs.has reqs kOplogTs)) ;;;
  '(scanSlots, stage) <-
    generateVirtualScanMulti X (if vsn_hasRecordId vsn then 2 else 1)
                             (CArray (vsn_docs vsn)) ;;
  resultSlot <-
    (if vsn_hasRecordId vsn
     then invariant (length scanSlots =? 2) ;;; index scanSlots 1
     else invariant (length scanSlots =? 1) ;;; index scanSlots 0) ;;
  let outputs := emptySlots in
  '(stage, outputs) <-
    (if Reqs.has reqs kResult then ret (stage, Slots.set outputs kResult resultSlot)
     else
       match reqs_indexKeyBitset reqs with
       | Some bits =>
           invariant (negb (match vsn_indexKeyPattern vsn with [] => true | _ => false end)) ;;;
           '(indexKeySlots, projections) <-
             virtualScanProjections (vsn_indexKeyPattern vsn) bits resultSlot 0 [] [] ;;
           ret (ProjectStage stage projections (vsn_nodeId vsn),
                Slots.setIndexKeySlots outputs (Some indexKeySlots))
       | None => ret (stage, outputs)
       end) ;;
  outputs <-
    (if Reqs.has reqs kRecordId then
       invariant (vsn_hasRecordId vsn) ;;;
       invariant (length scanSlots =? 2) ;;;
       s <- index scanSlots 0 ;;
       ret (Slots.set outputs kRecordId s)
     else ret outputs) ;;
  ret (stage, outputs).

(** [indexKeyBitset.set(i)] for every field of the key pattern. *)
Fixpoint setAllBits (n : nat) (i : nat) (b : IndexKeysInclusionSet)
  : M IndexKeysInclusionSet :=
  match n with
  | O => ret b
  | S n' => b' <- bitSet b i ;; setAllBits n' (S i) b'
  end.

(** The arguments of the [newObj] that is the return key. *)
Fixpoint returnKeyArgs (keyPattern : BSONObj) (outputs : PlanStageSlots) (i : nat)
  : M (list EExpression) :=
  match keyPattern with
  | [] => ret []
  | elem :: more =>
      slots <- deref (Slots.getIndexKeySlots outputs) ;;
      s <- index slots i ;;
      rest <- returnKeyArgs more outputs (S i) ;;
      ret (makeConstant (fieldName elem) :: EVariable s :: rest)
  end.

(** [rehydrateIndexKey]. *)
Definition rehydrateIndexKey (stage : PlanStage) (indexKeyPattern : BSONObj)
           (nodeId : PlanNodeId) (indexKeySlots : SlotVector) (resultSlot : SlotId)
  : M PlanStage :=
  keyExpr <- deref (Rehydrate.rehydrateExpr indexKeyPattern indexKeySlots) ;;
  ret (makeProjectStage stage nodeId resultSlot keyExpr).

(** The bitset that [buildIndexScan] hands to [generateIndexScan]. *)
Definition indexScanBitset (ixn : IndexScanNode) (reqs : PlanStageReqs)
  : M IndexKeysInclusionSet :=
  if Reqs.has reqs kReturnKey || Reqs.has reqs kResult then
    setAllBits (length (ixn_keyPattern ixn)) 0 0%N
  else
    match reqs_indexKeyBitset reqs with
    | Some b => ret b
    | None => ret 0%N
    end.

Definition buildIndexScan (ixn : IndexScanNode) (reqs : PlanStageReqs) : M BuildResult :=
  invariant (Reqs.has reqs kReturnKey || negb (ixn_addKeyMetadata ixn)) ;;;
  invariant (negb (Reqs.has reqs kOplogTs)) ;;;
  indexKeyBitset <- indexScanBitset ixn reqs ;;
  '(stage, outputs) <- generateIndexScan X ixn indexKeyBitset ;;
  '(stage, outputs) <-
    (if Reqs.has reqs kReturnKey then
       mkObjArgs <- returnKeyArgs (ixn_keyPattern ixn) outputs 0 ;;
       let rawKeyExpr := EFunction "newObj" mkObjArgs in
       s <- generateSlotId ;;
       let outputs := Slots.set outputs kReturnKey s in
       rk <- getSlot outputs kReturnKey ;;
       ret (makeProjectStage stage (ixn_nodeId ixn) rk rawKeyExpr, outputs)
     else ret (stage, outputs)) ;;
  '(stage, outputs) <-
    (if Reqs.has reqs kResult then
       s <- generateSlotId ;;
       let outputs := Slots.set outputs kResult s in
       slots <- deref (Slots.getIndexKeySlots outputs) ;;
       r <- getSlot outputs kResult ;;
       stage <- rehydrateIndexKey stage (ixn_keyPattern ixn) (ixn_nodeId ixn) slots r ;;
       ret (stage, outputs)
     else ret (stage, outputs)) ;;
  outputs <-
    (match reqs_indexKeyBitset reqs with
     | Some parentBits =>
         slots <- deref (Slots.getIndexKeySlots outputs) ;;
         v <- makeIndexKeyOutputSlotsMatchingParentReqs parentBits indexKeyBitset slots ;;
         ret (Slots.setIndexKeySlots outputs (Some v))
     | None => ret (Slots.setIndexKeySlots outputs None)
     end) ;;
  ret (stage, outputs).

Definition makeLoopJoinForFetch (inputStage : PlanStage) (seekKeySlot : SlotId)
           (planNodeId : PlanNodeId) (slotsToForward : SlotVector)
  : M (SlotId * SlotId * PlanStage) :=
  resultSlot <- generateSlotId ;;
  recordIdSlot <- generateSlotId ;;
  coll <- deref (collection ctx) ;;
  let scanStage :=
    ScanStage (coll_uuid coll) resultSlot recordIdSlot seekKeySlot true planNodeId in
  let stage :=
    LoopJoinStage inputStage (LimitSkipStage scanStage (Some 1) None planNodeId)
                  slotsToForward [seekKeySlot] planNodeId in
  ret (resultSlot, recordIdSlot, stage).

(** The slots a fetch or a filter forwards: the named ones and the index
    key slots. *)
Definition relevantSlotsOf (outputs : PlanStageSlots) (forwardingReqs : PlanStageReqs)
  : M SlotVector :=
  relevantSlots <- forEachSlot outputs forwardingReqs ;;
  ret (match Slots.getIndexKeySlots outputs with
       | Some indexKeySlots => relevantSlots ++ indexKeySlots
       | None => relevantSlots
       end).

Definition buildFetch (nodeId : PlanNodeId) (filter : option MatchExpression)
           (buildChild : ChildBuilder) (reqs : PlanStageReqs) : M BuildResult :=
  invariant (negb (Reqs.has reqs kOplogTs)) ;;;
  let childReqs := Reqs.set (Reqs.clear reqs kResult) kRecordId in
  '(stage, outputs) <- buildChild childReqs ;;
  uassert 4822880%N (Slots.has outputs kRecordId) ;;;
  uassert 4953600%N (negb (Reqs.has reqs kReturnKey) || Slots.has outputs kReturnKey) ;;;
  let forwardingReqs := Reqs.clear (Reqs.clear reqs kResult) kRecordId in
  relevantSlots <- relevantSlotsOf outputs forwardingReqs ;;
  seekKeySlot <- getSlot outputs kRecordId ;;
  '(fetchResultSlot, fetchRecordIdSlot, stage) <-
    makeLoopJoinForFetch stage seekKeySlot nodeId relevantSlots ;;
  let outputs := Slots.set outputs kResult fetchResultSlot in
  let outputs := Slots.set outputs kRecordId fetchRecordIdSlot in
  match filter with
  | Some f =>
      let forwardingReqs := Reqs.set (Reqs.set reqs kResult) kRecordId in
      relevantSlots <- relevantSlotsOf outputs forwardingReqs ;;
      r <- getSlot outputs kResult ;;
      stage <- generateFilter X f stage r relevantSlots nodeId ;;
      ret (stage, outputs)
  | None => ret (stage, outputs)
  end.

(** [buildLimit]: [skipChild] is the skip node that is the child, if the
    child is one, with the builder of its own child. *)
Definition buildLimit (nodeId : PlanNodeId) (limit : nat)
           (skipChild : option (nat * ChildBuilder)) (buildChild : ChildBuilder)
           (reqs : PlanStageReqs) : M BuildResult :=
  '(skip, (stage, outputs)) <-
    (match skipChild with
     | Some (snSkip, buildGrandChild) =>
         r <- buildGrandChild reqs ;; ret (Some snSkip, r)
     | None => r <- buildChild reqs ;; ret (None, r)
     end) ;;
  if negb (reqs_isTailableCollScanResumeBranch reqs)
  then ret (LimitSkipStage stage (Some limit) skip nodeId, outputs)
  else ret (stage, outputs).

Definition buildSkip (nodeId : PlanNodeId) (skip : nat) (buildChild : ChildBuilder)
           (reqs : PlanStageReqs) : M BuildResult :=
  '(stage, outputs) <- buildChild reqs ;;
  if negb (reqs_isTailableCollScanResumeBranch reqs)
  then ret (LimitSkipStage stage None (Some skip) nodeId, outputs)
  else ret (stage, outputs).

(** ** Sort *)

Definition sortDirectionOf (part : SortPatternPart) : SortDirection :=
  if isAscending part then Ascending else Descending.

(** The first loop of [buildSort]: every part has a field path, the top
    level names go into [prefixSet] until one is met twice, and the
    directions are recorded. *)
Fixpoint sortPrefixLoop (parts : SortPattern) (prefixSet : list string)
         (hasPartsWithCommonPrefix : bool) (direction : list SortDirection)
  : M (bool * list SortDirection) :=
  match parts with
  | [] => ret (hasPartsWithCommonPrefix, direction)
  | part :: more =>
      fp <- (match fieldPath part with
             | Some fp => ret fp
             | None => fail (Tassert 5037002%N)
             end) ;;
      let '(prefixSet, hasPartsWithCommonPrefix) :=
        if negb hasPartsWithCommonPrefix then
          if existsb (String.eqb (getFieldName fp 0)) prefixSet
          then (prefixSet, true)
          else (getFieldName fp 0 :: prefixSet, false)
        else (prefixSet, hasPartsWithCommonPrefix) in
      sortPrefixLoop more prefixSet hasPartsWithCommonPrefix
                     (direction ++ [sortDirectionOf part])
  end.

(** [generateSortKeyTraversal] at [level], where [name] is the field of
    the path at [level] and [rest] are the fields below it; the leaf is
    reached when [rest] is empty. *)
Fixpoint generateSortKeyTraversal (inputStage : PlanStage) (inputSlot : SlotId)
         (name : string) (rest : list string) (direction : SortDirection)
         (level : nat) (planNodeId : PlanNodeId) (makeSortKey : SlotId -> EExpression)
  : M (SlotId * PlanStage) :=
  let isLeafField := match rest with [] => true | _ => false end in
  '(fieldSlot, fromBranch) <-
    (if 0 <? level then
       let getFieldExpr :=
         makeFunction "getField" [EVariable inputSlot; makeConstant name] in
       let getFieldExpr :=
         if isLeafField then makeFillEmptyNull getFieldExpr else getFieldExpr in
       fieldSlot <- generateSlotId ;;
       ret (fieldSlot, makeProjectStage inputStage planNodeId fieldSlot getFieldExpr)
     else ret (inputSlot, inputStage)) ;;
  '(innerSlot, innerBranch) <-
    (match rest with
     | [] =>
         innerSlot <- generateSlotId ;;
         ret (innerSlot,
              makeProjectStage (makeLimitCoScanTree planNodeId) planNodeId innerSlot
                               (makeSortKey fieldSlot))
     | next :: rest' =>
         generateSortKeyTraversal (makeLimitCoScanTree planNodeId) fieldSlot next rest'
                                  direction (S level) planNodeId makeSortKey
     end) ;;
  traverseSlot <- generateSlotId ;;
  outputSlot <- generateSlotId ;;
  let op := match direction with Ascending => less | Descending => greater end in
  let outputStage :=
    TraverseStage fromBranch innerBranch fieldSlot traverseSlot innerSlot []
      (EIf (makeBinaryOp op
              (makeBinaryOp cmp3w (makeVariable innerSlot) (makeVariable traverseSlot))
              (EConstant (CInt64 0)))
           (makeVariable innerSlot) (makeVariable traverseSlot))
      None planNodeId 1 in
  ret (outputSlot,
       makeProjectStage outputStage planNodeId outputSlot
         (if isLeafField then makeFillEmptyUndefined (makeVariable traverseSlot)
          else makeFillEmptyNull (makeVariable traverseSlot))).

(** [generateArrayCheckForSortHelper] at the level of [name], with the
    fields below it in [rest]. *)
Fixpoint generateArrayCheckForSortHelper (inputExpr : EExpression) (name : string)
         (rest : list string) : M EExpression :=
  let fieldExpr :=
    makeFillEmptyNull (makeFunction "getField" [inputExpr; makeConstant name]) in
  match rest with
  | [] => ret (makeFunction "isArray" [fieldExpr])
  | next :: rest' =>
      frameId <- generateFrameId ;;
      inner <- generateArrayCheckForSortHelper (ELocalVar frameId 0) next rest' ;;
      ret (ELocalBind frameId [fieldExpr]
             (makeBinaryOp logicOr (makeFunction "isArray" [ELocalVar frameId 0]) inner))
  end.

Definition generateArrayCheckForSort (inputSlot : SlotId) (fp : FieldPath)
  : M EExpression :=
  match fp_rest fp with
  | [] => ret (makeFunction "isArray" [makeVariable inputSlot])
  | next :: rest' =>
      inner <- generateArrayCheckForSortHelper (makeVariable inputSlot) next rest' ;;
      ret (makeBinaryOp logicOr (makeFunction "isArray" [makeVariable inputSlot]) inner)
  end.

Definition parallelArraysError : EExpression :=
  EFail BadValue "cannot sort with keys that are parallel arrays".

(** [orderBy[idx]] with [*sortPattern[idx].fieldPath]. *)
Definition sortPartAt (sortPattern : SortPattern) (orderBy : SlotVector) (idx : nat)
  : M (SlotId * FieldPath) :=
  slot <- index orderBy idx ;;
  part <- index sortPattern idx ;;
  fp <- deref (fieldPath part) ;;
  ret (slot, fp).

(** The loop that sums the array checks of the parts from [idx] on. *)
Fixpoint numArraysLoop (sortPattern : SortPattern) (orderBy : SlotVector)
         (count : nat) (idx : nat) (numArraysExpr : EExpression) : M EExpression :=
  match count with
  | O => ret numArraysExpr
  | S count' =>
      '(slot, fp) <- sortPartAt sortPattern orderBy idx ;;
      c <- generateArrayCheckForSort slot fp ;;
      numArraysLoop sortPattern orderBy count' (S idx)
        (makeBinaryOp add numArraysExpr
           (makeBinaryOp cmp3w c (EConstant (CBoolean false))))
  end.

(** The lambda [failOnParallelArrays] of [buildSort].  The two array checks
    of the two-part case are built left to right. *)
Definition failOnParallelArrays (sortPattern : SortPattern) (orderBy : SlotVector)
  : M (option EExpression) :=
  if length sortPattern <? 2 then ret None
  else if length sortPattern =? 2 then
    '(slot0, fp0) <- sortPartAt sortPattern orderBy 0 ;;
    c0 <- generateArrayCheckForSort slot0 fp0 ;;
    '(slot1, fp1) <- sortPartAt sortPattern orderBy 1 ;;
    c1 <- generateArrayCheckForSort slot1 fp1 ;;
    ret (Some (makeBinaryOp logicOr (makeNot c0)
                 (makeBinaryOp logicOr (makeNot c1) parallelArraysError)))
  else
    '(slot0, fp0) <- sortPartAt sortPattern orderBy 0 ;;
    c0 <- generateArrayCheckForSort slot0 fp0 ;;
    numArraysExpr <-
      numArraysLoop sortPattern orderBy (length sortPattern - 1) 1
        (makeBinaryOp cmp3w c0 (EConstant (CBoolean false))) ;;
    ret (Some (makeBinaryOp logicOr
                 (makeBinaryOp lessEq numArraysExpr (EConstant (CInt32 1)))
                 parallelArraysError)).

(** The loop that reads the top-level field of every part into a fresh
    slot. *)
Fixpoint sortTopLevelFields (parts : SortPattern) (outputs : PlanStageSlots)
         (projectMap : list (SlotId * EExpression)) (orderBy : SlotVector)
  : M (list (SlotId * EExpression) * SlotVector) :=
  match parts with
  | [] => ret (projectMap, orderBy)
  | part :: more =>
      fp <- deref (fieldPath part) ;;
      r <- getSlot outputs kResult ;;
      let getFieldExpr :=
        makeFillEmptyNull
          (makeFunction "getField" [makeVariable r; makeConstant (getFieldName fp 0)]) in
      fieldSlot <- generateSlotId ;;
      sortTopLevelFields more outputs (slotMapInsert fieldSlot getFieldExpr projectMap)
                         (orderBy ++ [fieldSlot])
  end.

Fixpoint setNth (A : Type) (i : nat) (a : A) (l : list A) : list A :=
  match l, i with
  | [], _ => []
  | _ :: l', O => a :: l'
  | x :: l', S i' => x :: setNth i' a l'
  end.

Definition makeSortKey (collatorSlot : option SlotId) (inputSlot : SlotId) : EExpression :=
  match collatorSlot with
  | None => makeVariable inputSlot
  | Some c => makeFunction "collComparisonKey" [makeVariable inputSlot; makeVariable c]
  end.

(** The loop that replaces every slot of [orderBy] by the slot of the
    traversal of its path. *)
Fixpoint sortKeyTraversals (count : nat) (idx : nat) (sortPattern : SortPattern)
         (orderBy : SlotVector) (direction : list SortDirection)
         (inputStage : PlanStage) (nodeId : PlanNodeId) (collatorSlot : option SlotId)
  : M (SlotVector * PlanStage) :=
  match count with
  | O => ret (orderBy, inputStage)
  | S count' =>
      '(slot, fp) <- sortPartAt sortPattern orderBy idx ;;
      dir <- index direction idx ;;
      '(sortKeySlot, inputStage) <-
        generateSortKeyTraversal inputStage slot (fp_first fp) (fp_rest fp) dir 0 nodeId
                                 (makeSortKey collatorSlot) ;;
      sortKeyTraversals count' (S idx) sortPattern (setNth idx sortKeySlot orderBy)
                        direction inputStage nodeId collatorSlot
  end.

Definition sizeMax : N := 18446744073709551615%N.

Definition buildSort (sn : SortNode) (buildChild : ChildBuilder) (reqs : PlanStageReqs)
  : M BuildResult :=
  invariant (negb (isSome (reqs_indexKeyBitset reqs))) ;;;
  let sortPattern := sn_pattern sn in
  tassert 5037001%N (0 <? length sortPattern) ;;;
  let childReqs := Reqs.set reqs kResult in
  '(inputStage, outputs) <- buildChild childReqs ;;
  collatorSlot <- getSlotIfExists "collator" ;;
  '(hasPartsWithCommonPrefix, direction) <- sortPrefixLoop sortPattern [] false [] ;;
  '(inputStage, orderBy, direction) <-
    (if negb hasPartsWithCommonPrefix then
       '(projectMap, orderBy) <- sortTopLevelFields sortPattern outputs [] [] ;;
       let inputStage := ProjectStage inputStage projectMap (sn_nodeId sn) in
       guard <- failOnParallelArrays sortPattern orderBy ;;
       inputStage <-
         (match guard with
          | Some e =>
              s <- generateSlotId ;;
              ret (makeProjectStage inputStage (sn_nodeId sn) s e)
          | None => ret inputStage
          end) ;;
       '(orderBy, inputStage) <-
         sortKeyTraversals (length orderBy) 0 sortPattern orderBy direction inputStage
                           (sn_nodeId sn) collatorSlot ;;
       ret (inputStage, orderBy, direction)
     else
       orderBy <- generateMultiple 1 ;;
       let direction := [Ascending] in
       let sortSpecExpr := EConstant (CSortSpec (sn_pattern sn) (cq_hasCollator ctx)) in
       s <- index orderBy 0 ;;
       r <- getSlot outputs kResult ;;
       ret (makeProjectStage inputStage (sn_nodeId sn) s
              (makeFunction "generateSortKey" [sortSpecExpr; makeVariable r]),
            orderBy, direction)) ;;
  values <- forEachSlot outputs childReqs ;;
  ret (SortStage inputStage orderBy direction values
                 (if N.eqb (sn_limit sn) 0 then sizeMax else sn_limit sn)
                 (sn_maxMemoryUsageBytes sn) (expCtx_allowDiskUse ctx) (sn_nodeId sn),
       outputs).

Definition buildSortKeyGeneraror (reqs : PlanStageReqs) : M BuildResult :=
  fail (Uassert 4822883%N).

(** ** Sort-merge *)

(** [FieldPath::fullPath]: the components joined by dots. *)
Definition fullPath (fp : FieldPath) : string :=
  fold_left (fun acc c => acc ++ "." ++ c)%string (fp_rest fp) (fp_first fp).

(** A part with an expression ($meta) is a part without a field path. *)
Definition hasExpression (part : SortPatternPart) : bool := negb (isSome (fieldPath part)).

Fixpoint mergeSortDirections (parts : SortPattern) : M (list SortDirection) :=
  match parts with
  | [] => ret []
  | part :: more =>
      uassert 4822881%N (negb (hasExpression part)) ;;;
      rest <- mergeSortDirections more ;;
      ret (sortDirectionOf part :: rest)
  end.

(** The inner loop over the sort parts for one element of the key pattern:
    whether a part has the element's name as its full path. *)
Fixpoint matchesSortPart (name : string) (parts : SortPattern) : M bool :=
  match parts with
  | [] => ret false
  | sortPart :: more =>
      fp <- deref (fieldPath sortPart) ;;
      if String.eqb name (fullPath fp) then ret true else matchesSortPart name more
  end.

Definition positionMapInsert (path : string) (m : list (string * nat)) :=
  match Rehydrate.find path m with
  | Some _ => m
  | None => m ++ [(path, length m)]
  end.

Fixpoint sortMergeBitset (keyPattern : BSONObj) (sortPattern : SortPattern) (i : nat)
         (indexKeyBitset : IndexKeysInclusionSet)
         (indexKeyPositionMap : list (string * nat))
  : M (IndexKeysInclusionSet * list (string * nat)) :=
  match keyPattern with
  | [] => ret (indexKeyBitset, indexKeyPositionMap)
  | elt :: more =>
      found <- matchesSortPart (fieldName elt) sortPattern ;;
      if found then
        b <- bitSet indexKeyBitset i ;;
        sortMergeBitset more sortPattern (S i) b
                        (positionMapInsert (fieldName elt) indexKeyPositionMap)
      else sortMergeBitset more sortPattern (S i) indexKeyBitset indexKeyPositionMap
  end.

Fixpoint sortMergeInputKeys (parts : SortPattern)
         (indexKeyPositionMap : list (string * nat)) (indexKeys : SlotVector)
  : M SlotVector :=
  match parts with
  | [] => ret []
  | part :: more =>
      fp <- deref (fieldPath part) ;;
      match Rehydrate.find (fullPath fp) indexKeyPositionMap with
      | None => fail (Tassert 5184303%N)
      | Some indexPos =>
          tassert 5184304%N (indexPos <? length indexKeys) ;;;
          indexKeyPart <- index indexKeys indexPos ;;
          rest <- sortMergeInputKeys more indexKeyPositionMap indexKeys ;;
          ret (indexKeyPart :: rest)
      end
  end.

Fixpoint sortMergeChildren (children : list (QuerySolutionNode * ChildBuilder))
         (sortPattern : SortPattern) (dedup : bool) (childReqs : PlanStageReqs)
  : M (list PlanStage * list SlotVector * list SlotVector) :=
  match children with
  | [] => ret ([], [], [])
  | (child, buildChild) :: more =>
      ixn <- (match getNodeByType child STAGE_IXSCAN with
              | Some (QIndexScan ixn) => ret ixn
              | Some _ => fail Undefined
              | None => fail (Tassert 5184300%N)
              end) ;;
      '(indexKeyBitset, indexKeyPositionMap) <-
        sortMergeBitset (ixn_keyPattern ixn) sortPattern 0 0%N [] ;;
      '(stage, outputs) <- buildChild (Reqs.setIndexKeyBitset childReqs (Some indexKeyBitset)) ;;
      tassert 5184301%N (negb dedup || Slots.has outputs kRecordId) ;;;
      let indexKeys := Slots.getIndexKeySlots outputs in
      let outputs := Slots.setIndexKeySlots outputs None in
      match indexKeys with
      | None => fail (Tassert 5184302%N)
      | Some indexKeys =>
          inputKeysForChild <- sortMergeInputKeys sortPattern indexKeyPositionMap indexKeys ;;
          sv <- forEachSlot outputs childReqs ;;
          '(inputStages, inputKeys, inputVals) <-
            sortMergeChildren more sortPattern dedup childReqs ;;
          ret (stage :: inputStages, inputKeysForChild :: inputKeys, sv :: inputVals)
      end
  end.

Definition buildSortMerge (nodeId : PlanNodeId) (dedup : bool) (sort : SortPattern)
           (children : list (QuerySolutionNode * ChildBuilder)) (reqs : PlanStageReqs)
  : M BuildResult :=
  invariant (negb (isSome (reqs_indexKeyBitset reqs))) ;;;
  direction <- mergeSortDirections sort ;;
  let childReqs := Reqs.setIf reqs kRecordId dedup in
  '(inputStages, inputKeys, inputVals) <- sortMergeChildren children sort dedup childReqs ;;
  outputs <- makePlanStageSlots childReqs ;;
  outputVals <- forEachSlot outputs childReqs ;;
  let stage := SortedMergeStage inputStages inputKeys direction inputVals outputVals nodeId in
  if dedup then
    rid <- getSlot outputs kRecordId ;;
    ret (UniqueStage stage [rid] nodeId, outputs)
  else ret (stage, outputs).

(** ** Projections *)

Definition buildProjectionSimple (nodeId : PlanNodeId) (proj : Projection)
           (buildChild : ChildBuilder) (reqs : PlanStageReqs) : M BuildResult :=
  invariant (negb (isSome (reqs_indexKeyBitset reqs))) ;;;
  let childReqs := Reqs.set reqs kResult in
  '(inputStage, outputs) <- buildChild childReqs ;;
  childResult <- getSlot outputs kResult ;;
  s <- generateSlotId ;;
  let outputs := Slots.set outputs kResult s in
  r <- getSlot outputs kResult ;;
  ret (MakeBsonObjStage inputStage r (Some childResult) (Some keep)
                        (proj_requiredFields proj) [] [] true false nodeId,
       outputs).

Definition buildProjectionCovered (nodeId : PlanNodeId) (proj : Projection)
           (coveredKeyObj : BSONObj) (child : QuerySolutionNode)
           (buildChild : ChildBuilder) (reqs : PlanStageReqs) : M BuildResult :=
  invariant (negb (isSome (reqs_indexKeyBitset reqs))) ;;;
  invariant (proj_isSimple proj) ;;;
  tassert 5037301%N (negb (fetched X child)) ;;;
  let childReqs := Reqs.clear reqs kResult in
  '(indexKeyBitset, keyFieldNames) <-
    makeIndexKeyInclusionSet coveredKeyObj (proj_requiredFields proj) ;;
  let childReqs := Reqs.setIndexKeyBitset childReqs (Some indexKeyBitset) in
  '(inputStage, outputs) <- buildChild childReqs ;;
  indexKeySlots <- deref (Slots.getIndexKeySlots outputs) ;;
  let outputs := Slots.setIndexKeySlots outputs None in
  s <- generateSlotId ;;
  let outputs := Slots.set outputs kResult s in
  r <- getSlot outputs kResult ;;
  ret (MakeBsonObjStage inputStage r None None [] keyFieldNames indexKeySlots
                        true false nodeId,
       outputs).

Definition buildProjectionDefault (nodeId : PlanNodeId) (proj : Projection)
           (buildChild : ChildBuilder) (reqs : PlanStageReqs) : M BuildResult :=
  invariant (negb (isSome (reqs_indexKeyBitset reqs))) ;;;
  let childReqs := Reqs.set reqs kResult in
  '(inputStage, outputs) <- buildChild childReqs ;;
  relevantSlots <- forEachSlot outputs reqs ;;
  r <- getSlot outputs kResult ;;
  '(slot, stage) <- generateProjection X proj inputStage r relevantSlots nodeId ;;
  ret (stage, Slots.set outputs kResult slot).

(** ** Or and text-or *)

Fixpoint orChildren (children : list ChildBuilder) (childReqs : PlanStageReqs)
  : M (list PlanStage * list SlotVector) :=
  match children with
  | [] => ret ([], [])
  | buildChild :: more =>
      '(stage, outputs) <- buildChild childReqs ;;
      sv <- forEachSlot outputs childReqs ;;
      '(inputStages, inputSlots) <- orChildren more childReqs ;;
      ret (stage :: inputStages, sv :: inputSlots)
  end.

Definition buildOr (nodeId : PlanNodeId) (dedup : bool) (filter : option MatchExpression)
           (children : list ChildBuilder) (reqs : PlanStageReqs) : M BuildResult :=
  invariant (negb (isSome (reqs_indexKeyBitset reqs))) ;;;
  let childReqs := Reqs.setIf (Reqs.setIf reqs kResult (isSome filter)) kRecordId dedup in
  '(inputStages, inputSlots) <- orChildren children childReqs ;;
  outputs <- makePlanStageSlots childReqs ;;
  unionOutputSlots <- forEachSlot outputs childReqs ;;
  let stage := UnionStage inputStages inputSlots unionOutputSlots nodeId in
  stage <-
    (if dedup then
       rid <- getSlot outputs kRecordId ;;
       ret (UniqueStage stage [rid] nodeId)
     else ret stage) ;;
  match filter with
  | Some f =>
      r <- getSlot outputs kResult ;;
      let forwardingReqs := Reqs.clear reqs kResult in
      more <- forEachSlot outputs forwardingReqs ;;
      r' <- getSlot outputs kResult ;;
      stage <- generateFilter X f stage r' (r :: more) nodeId ;;
      ret (stage, outputs)
  | None => ret (stage, outputs)
  end.

(** ** Text match *)

Definition makeFtsMatcher (coll : Collection) (indexName : string) (ftsQuery : FTSQuery)
  : M Constant :=
  match findIndexByName coll indexName with
  | None => fail (Tassert 5432209%N)
  | Some desc =>
      match getEntry coll desc with
      | None => fail (Tassert 5432210%N)
      | Some entry =>
          match accessMethod coll entry with
          | None => fail (Tassert 5432211%N)
          | Some spec =>
              match ftsQuery with
              | FTSQueryNoop => fail (Tassert 5432220%N)
              | FTSQueryImpl query => ret (CFtsMatcher query spec)
              end
          end
      end
  end.

Definition buildTextMatch (nodeId : PlanNodeId) (indexName : string) (ftsQuery : FTSQuery)
           (children : list (QuerySolutionNode * ChildBuilder)) (reqs : PlanStageReqs)
  : M BuildResult :=
  tassert 5432212%N (isSome (collection ctx)) ;;;
  tassert 5432213%N (negb (isSome (reqs_indexKeyBitset reqs))) ;;;
  tassert 5432214%N (negb (Reqs.has reqs kOplogTs)) ;;;
  tassert 5432215%N (length children =? 1) ;;;
  '(child, buildChild) <- index children 0 ;;
  tassert 5432216%N (fetched X child) ;;;
  let childReqs := Reqs.set reqs kResult in
  '(stage, outputs) <- buildChild childReqs ;;
  tassert 5432217%N (Slots.has outputs kResult) ;;;
  coll <- deref (collection ctx) ;;
  matcher <- makeFtsMatcher coll indexName ftsQuery ;;
  r <- getSlot outputs kResult ;;
  let ftsMatch := makeFunction "ftsMatch" [EConstant matcher; makeVariable r] in
  let filter :=
    EIf (makeFunction "isObject" [makeVariable r]) ftsMatch
        (EFail (ErrorNumber 4623400) "textmatch requires input to be an object") in
  let stage := FilterStage false stage filter nodeId in
  if Reqs.has reqs kReturnKey then
    s <- generateSlotId ;;
    let outputs := Slots.set outputs kReturnKey s in
    rk <- getSlot outputs kReturnKey ;;
    ret (makeProjectStage stage nodeId rk (makeFunction "newObj" []), outputs)
  else ret (stage, outputs).

(** ** Return key and EOF *)

Definition buildReturnKey (buildChild : ChildBuilder) (reqs : PlanStageReqs)
  : M BuildResult :=
  invariant (negb (isSome (reqs_indexKeyBitset reqs))) ;;;
  let childReqs := Reqs.set (Reqs.clear reqs kResult) kReturnKey in
  '(stage, outputs) <- buildChild childReqs ;;
  rk <- getSlot outputs kReturnKey ;;
  let outputs := Slots.set outputs kResult rk in
  let outputs := Slots.clear outputs kReturnKey in
  ret (stage, outputs).

Definition buildEof (nodeId : PlanNodeId) (reqs : PlanStageReqs) : M BuildResult :=
  generateEofPlan nodeId reqs.

(** ** And-hash and and-sorted *)

Fixpoint andHashRest (children : list ChildBuilder) (childReqs : PlanStageReqs)
         (hashJoinStage : PlanStage) (innerCondSlots innerProjectSlots : SlotVector)
         (collatorSlot : option SlotId) (nodeId : PlanNodeId) : M PlanStage :=
  match children with
  | [] => ret hashJoinStage
  | buildChild :: more =>
      '(stage, outputs) <- buildChild childReqs ;;
      tassert 5073714%N (Slots.has outputs kRecordId) ;;;
      tassert 5073715%N (Slots.has outputs kResult) ;;;
      idSlot <- getSlot outputs kRecordId ;;
      resultSlot <- getSlot outputs kResult ;;
      andHashRest more childReqs
        (HashJoinStage stage hashJoinStage [idSlot] [resultSlot]
                       innerCondSlots innerProjectSlots collatorSlot nodeId)
        innerCondSlots innerProjectSlots collatorSlot nodeId
  end.

(** The outputs of both joins: fresh slots for what the parent requires,
    with the record id and the result taken from the inner side. *)
Definition designateOutputs (reqs : PlanStageReqs) (innerIdSlot innerResultSlot : SlotId)
  : M PlanStageSlots :=
  outputs <- makePlanStageSlots reqs ;;
  let outputs :=
    if Reqs.has reqs kRecordId then Slots.set outputs kRecordId innerIdSlot else outputs in
  let outputs :=
    if Reqs.has reqs kResult then Slots.set outputs kResult innerResultSlot else outputs in
  ret outputs.

Definition buildAndHash (nodeId : PlanNodeId) (children : list ChildBuilder)
           (reqs : PlanStageReqs) : M BuildResult :=
  tassert 5073711%N (2 <=? length children) ;;;
  let childReqs := Reqs.set (Reqs.set reqs kResult) kRecordId in
  outerChild <- index children 0 ;;
  innerChild <- index children 1 ;;
  '(outerStage, outerOutputs) <- outerChild childReqs ;;
  outerIdSlot <- getSlot outerOutputs kRecordId ;;
  outerResultSlot <- getSlot outerOutputs kResult ;;
  '(innerStage, innerOutputs) <- innerChild childReqs ;;
  tassert 5073712%N (Slots.has innerOutputs kRecordId) ;;;
  tassert 5073713%N (Slots.has innerOutputs kResult) ;;;
  innerIdSlot <- getSlot innerOutputs kRecordId ;;
  innerResultSlot <- getSlot innerOutputs kResult ;;
  collatorSlot <- getSlotIfExists "collator" ;;
  outputs <- designateOutputs reqs innerIdSlot innerResultSlot ;;
  let hashJoinStage :=
    HashJoinStage outerStage innerStage [outerIdSlot] [outerResultSlot]
                  [innerIdSlot] [innerResultSlot] collatorSlot nodeId in
  hashJoinStage <-
    andHashRest (skipn 2 children) childReqs hashJoinStage [innerIdSlot] [innerResultSlot]
                collatorSlot nodeId ;;
  ret (hashJoinStage, outputs).

Fixpoint andSortedRest (children : list ChildBuilder) (childReqs : PlanStageReqs)
         (mergeJoinStage : PlanStage) (innerKeySlots innerProjectSlots : SlotVector)
         (sortDirs : list SortDirection) (nodeId : PlanNodeId) : M PlanStage :=
  match children with
  | [] => ret mergeJoinStage
  | buildChild :: more =>
      '(stage, outputs) <- buildChild childReqs ;;
      tassert 5073709%N (Slots.has outputs kRecordId) ;;;
      tassert 5073710%N (Slots.has outputs kResult) ;;;
      idSlot <- getSlot outputs kRecordId ;;
      resultSlot <- getSlot outputs kResult ;;
      andSortedRest more childReqs
        (MergeJoinStage stage mergeJoinStage [idSlot] [resultSlot]
                        innerKeySlots innerProjectSlots sortDirs nodeId)
        innerKeySlots innerProjectSlots sortDirs nodeId
  end.

Definition buildAndSorted (nodeId : PlanNodeId) (children : list ChildBuilder)
           (reqs : PlanStageReqs) : M BuildResult :=
  tassert 5073706%N (2 <=? length children) ;;;
  let childReqs := Reqs.set (Reqs.set reqs kResult) kRecordId in
  outerChild <- index children 0 ;;
  innerChild <- index children 1 ;;
  '(outerStage, outerOutputs) <- outerChild childReqs ;;
  outerIdSlot <- getSlot outerOutputs kRecordId ;;
  outerResultSlot <- getSlot outerOutputs kResult ;;
  '(innerStage, innerOutputs) <- innerChild childReqs ;;
  tassert 5073707%N (Slots.has innerOutputs kRecordId) ;;;
  tassert 5073708%N (Slots.has innerOutputs kResult) ;;;
  innerIdSlot <- getSlot innerOutputs kRecordId ;;
  innerResultSlot <- getSlot innerOutputs kResult ;;
  outputs <- designateOutputs reqs innerIdSlot innerResultSlot ;;
  let sortDirs := [Ascending] in
  let mergeJoinStage :=
    MergeJoinStage outerStage innerStage [outerIdSlot] [outerResultSlot]
                   [innerIdSlot] [innerResultSlot] sortDirs nodeId in
  mergeJoinStage <-
    andSortedRest (skipn 2 children) childReqs mergeJoinStage [innerIdSlot]
                  [innerResultSlot] sortDirs nodeId ;;
  ret (mergeJoinStage, outputs).

(** ** The union for a tailable collection scan *)

Definition existsResume (resumeRecordIdSlot : SlotId) : EExpression :=
  EFunction "exists" [EVariable resumeRecordIdSlot].

(** [makeUnionForTailableCollScan].  [buildRoot] is [build] applied to
    [root]; the requirements it is called with have the flag
    is-building-union set, so that call goes to the translator of [root]. *)
Definition makeUnionForTailableCollScan (nodeId : PlanNodeId) (buildRoot : ChildBuilder)
           (reqs : PlanStageReqs) : M BuildResult :=
  invariant (negb (isSome (reqs_indexKeyBitset reqs))) ;;;
  resumeRecordIdSlot <- registerSlot "resumeRecordId" ;;
  let makeUnionBranch (isTailableCollScanResumeBranch : bool) : M (SlotVector * PlanStage) :=
    let childReqs :=
      Reqs.setIsTailableCollScanResumeBranch reqs isTailableCollScanResumeBranch in
    '(branch, outputs) <- buildRoot childReqs ;;
    branchSlots <- forEachSlot outputs reqs ;;
    ret (branchSlots, branch) in
  '(anchorBranchSlots, anchorBranch) <- makeUnionBranch false ;;
  let anchorBranch :=
    FilterStage true anchorBranch (makeNot (existsResume resumeRecordIdSlot)) nodeId in
  '(resumeBranchSlots, resumeBranch) <- makeUnionBranch true ;;
  let resumeBranch :=
    FilterStage true (LimitSkipStage resumeBranch None (Some 1) nodeId)
                (existsResume resumeRecordIdSlot) nodeId in
  invariant (length anchorBranchSlots =? length resumeBranchSlots) ;;;
  let branchSlots := [anchorBranchSlots; resumeBranchSlots] in
  outputs <- makePlanStageSlots reqs ;;
  unionOutputSlots <- forEachSlot outputs reqs ;;
  ret (UnionStage [anchorBranch; resumeBranch] branchSlots unionOutputSlots nodeId,
       outputs).

(** ** Shard filter *)

Definition buildShardFilterGivenShardKeySlot (shardKeySlot : SlotId)
           (childStage : PlanStage) (nodeId : PlanNodeId) : PlanStage :=
  FilterStage false childStage
              (makeFunction "shardFilter" [EConstant CShardFilterer; EVariable shardKeySlot])
              nodeId.

Definition unionBitset (parentIndexKeyReqs : option IndexKeysInclusionSet)
           (shardKeyIndexReqs : IndexKeysInclusionSet) : IndexKeysInclusionSet :=
  N.lor (match parentIndexKeyReqs with Some b => b | None => 0%N end) shardKeyIndexReqs.

Definition buildShardFilterCovered (nodeId : PlanNodeId)
           (shardKeyPattern indexKeyPattern : BSONObj) (buildChild : ChildBuilder)
           (childReqs : PlanStageReqs) : M BuildResult :=
  let shardKeyFields := map fieldName shardKeyPattern in
  let parentIndexKeyReqs := reqs_indexKeyBitset childReqs in
  '(shardKeyIndexReqs, projectFields) <-
    makeIndexKeyInclusionSet indexKeyPattern shardKeyFields ;;
  let childBits := unionBitset parentIndexKeyReqs shardKeyIndexReqs in
  let childReqs := Reqs.setIndexKeyBitset childReqs (Some childBits) in
  '(stage, outputs) <- buildChild childReqs ;;
  invariant (isSome (Slots.getIndexKeySlots outputs)) ;;;
  indexKeySlots <- deref (Slots.getIndexKeySlots outputs) ;;
  shardKeySlot <- generateSlotId ;;
  let mkObjStage :=
    MakeBsonObjStage stage shardKeySlot None None [] projectFields indexKeySlots
                     true false nodeId in
  let filterStage := buildShardFilterGivenShardKeySlot shardKeySlot mkObjStage nodeId in
  newSlots <-
    (match parentIndexKeyReqs with
     | None => ret None
     | Some parentBits =>
         v <- makeIndexKeyOutputSlotsMatchingParentReqs parentBits childBits indexKeySlots ;;
         ret (Some v)
     end) ;;
  ret (filterStage, Slots.setIndexKeySlots outputs newSlots).

(** The loop of [buildShardFilter] over the parts of the shard key. *)
Fixpoint shardKeyProjections (shardKeyPattern : BSONObj) (outputs : PlanStageSlots)
         (projections : list (SlotId * EExpression)) (fieldSlots : SlotVector)
         (projectFields : list string)
  : M (list (SlotId * EExpression) * SlotVector * list string) :=
  match shardKeyPattern with
  | [] => ret (projections, fieldSlots, projectFields)
  | keyPatternElem :: more =>
      let fieldRef := Rehydrate.FieldRef (fieldName keyPatternElem) in
      s <- generateSlotId ;;
      r <- getSlot outputs kResult ;;
      shardKeyBinding <- generateShardKeyBinding X fieldRef (EVariable r) 0 ;;
      let shardKeyBinding :=
        match keyValue keyPatternElem with
        | KeyHashed => makeFunction "shardHash" [shardKeyBinding]
        | _ => shardKeyBinding
        end in
      shardKeyProjections more outputs (slotMapInsert s shardKeyBinding projections)
                          (fieldSlots ++ [s])
                          (projectFields ++ [fieldName keyPatternElem])
  end.

Definition notExists (s : SlotId) : EExpression :=
  makeNot (EFunction "exists" [EVariable s]).

Definition childIndexKeyPattern (child : QuerySolutionNode) : BSONObj :=
  match child with
  | QIndexScan ixn => ixn_keyPattern ixn
  | QVirtualScan vsn => vsn_indexKeyPattern vsn
  | _ => []
  end.

Definition buildShardFilter (nodeId : PlanNodeId) (child : QuerySolutionNode)
           (buildChild : ChildBuilder) (reqs : PlanStageReqs) : M BuildResult :=
  let indexKeyPattern := childIndexKeyPattern child in
  let childReqs :=
    Reqs.setIf reqs kResult (match indexKeyPattern with [] => true | _ => false end) in
  if negb (Reqs.has childReqs kResult) then
    buildShardFilterCovered nodeId (shardKeyPattern ctx) indexKeyPattern buildChild childReqs
  else
    '(stage, outputs) <- buildChild childReqs ;;
    '(projections, fieldSlots, projectFields) <-
      shardKeyProjections (shardKeyPattern ctx) outputs [] [] [] ;;
    shardKeySlot <- generateSlotId ;;
    let shardKeyObjStage :=
      MakeBsonObjStage (ProjectStage stage projections nodeId) shardKeySlot None None []
                       projectFields fieldSlots true false nodeId in
    invariant (0 <? length fieldSlots) ;;;
    first <- index fieldSlots 0 ;;
    let arrayChecks :=
      fold_left (fun acc s => makeBinaryOp logicOr acc (notExists s))
                (skipn 1 fieldSlots) (notExists first) in
    let arrayChecks := EIf arrayChecks (EConstant CNothing) (EVariable shardKeySlot) in
    finalShardKeySlot <- generateSlotId ;;
    let finalShardKeyObjStage :=
      makeProjectStage shardKeyObjStage nodeId finalShardKeySlot arrayChecks in
    ret (buildShardFilterGivenShardKeySlot finalShardKeySlot finalShardKeyObjStage nodeId,
         outputs).

(** ** The dispatcher *)

(** Whether [kStageBuilders] has a translator for the type. *)
Definition hasStageBuilder (t : StageType) : bool :=
  match t with STAGE_OTHER _ => false | _ => true end.

(** The switch of [build] that splits a tailable plan. *)
Definition isTailableSplitPoint (t : StageType) : bool :=
  match t with
  | STAGE_COLLSCAN | STAGE_LIMIT | STAGE_SKIP => true
  | _ => false
  end.

(** [build(root, reqs)], given the translator of [root] as [invokeRoot]:
    the [tassert] on the type, the diversion to the tailable union, and the
    call of the translator. *)
Definition buildWith (invokeRoot : ChildBuilder) (root : QuerySolutionNode)
           (reqs : PlanStageReqs) : M BuildResult :=
  tassert 4822884%N (hasStageBuilder (getType root)) ;;;
  if isTailableSplitPoint (getType root) && cq_tailable ctx
     && negb (reqs_isBuildingUnionForTailableCollScan reqs)
  then
    let childReqs := Reqs.setIsBuildingUnionForTailableCollScan reqs true in
    makeUnionForTailableCollScan (nodeId root) invokeRoot childReqs
  else invokeRoot reqs.

(** [std::invoke(kStageBuilders.at(root->getType()), *this, root, reqs)],
    with [build] for the children. *)
Fixpoint invoke (root : QuerySolutionNode) (reqs : PlanStageReqs) {struct root}
  : M BuildResult :=
  let build (child : QuerySolutionNode) : ChildBuilder := buildWith (invoke child) child in
  match root with
  | QCollScan csn => buildCollScan csn reqs
  | QVirtualScan vsn => buildVirtualScan vsn reqs
  | QIndexScan ixn => buildIndexScan ixn reqs
  | QFetch nodeId filter child => buildFetch nodeId filter (build child) reqs
  | QLimit nodeId limit child =>
      buildLimit nodeId limit
                 (match child with
                  | QSkip _ skip grandChild => Some (skip, build grandChild)
                  | _ => None
                  end)
                 (build child) reqs
  | QSkip nodeId skip child => buildSkip nodeId skip (build child) reqs
  | QSort _ sn child => buildSort sn (build child) reqs
  | QSortKeyGenerator _ _ => buildSortKeyGeneraror reqs
  | QProjectionSimple nodeId proj child =>
      buildProjectionSimple nodeId proj (build child) reqs
  | QProjectionCovered nodeId proj coveredKeyObj child =>
      buildProjectionCovered nodeId proj coveredKeyObj child (build child) reqs
  | QProjectionDefault nodeId proj child =>
      buildProjectionDefault nodeId proj (build child) reqs
  | QOr _ nodeId dedup filter children =>
      buildOr nodeId dedup filter (map build children) reqs
  | QTextMatch nodeId indexName ftsQuery children =>
      buildTextMatch nodeId indexName ftsQuery
                     (map (fun c => (c, build c)) children) reqs
  | QReturnKey _ child => buildReturnKey (build child) reqs
  | QEof nodeId => buildEof nodeId reqs
  | QAndHash nodeId children => buildAndHash nodeId (map build children) reqs
  | QAndSorted nodeId children => buildAndSorted nodeId (map build children) reqs
  | QMergeSort nodeId dedup sort children =>
      buildSortMerge nodeId dedup sort (map (fun c => (c, build c)) children) reqs
  | QShardingFilter nodeId child => buildShardFilter nodeId child (build child) reqs
  | QOther _ _ _ => fail (Tassert 4822884%N)
  end.

(** [SlotBasedStageBuilder::build(root, reqs)]. *)
Definition build (root : QuerySolutionNode) (reqs : PlanStageReqs) : M BuildResult :=
  buildWith (invoke root) root reqs.

(** ** The builder object and its entry point *)

Record PlanStageData := mkData {
  data_outputs : PlanStageSlots;
  shouldTrackLatestOplogTimestamp : bool;
  shouldTrackResumeToken : bool;
  shouldUseTailableScan : bool }.

Record SlotBasedStageBuilder := mkBuilder {
  _buildHasStarted : bool;
  _shouldProduceRecordIdSlot : bool;
  _data : PlanStageData;
  _state : BuildState }.

(** The constructor: the runtime environment is made, and the flags are
    read off the first collection scan and the first virtual scan of the
    solution.  A builder starts with [_buildHasStarted] unset and
    [_shouldProduceRecordIdSlot] set. *)
Definition makeBuilder (solutionRoot : QuerySolutionNode) : SlotBasedStageBuilder :=
  let st := snd (makeRuntimeEnvironment ctx (mkState 0 0 0 [])) in
  let data :=
    match getNodeByType solutionRoot STAGE_COLLSCAN with
    | Some (QCollScan csn) =>
        mkData emptySlots (csn_shouldTrackLatestOplogTimestamp csn)
               (csn_requestResumeToken csn) (csn_tailable csn)
    | _ => mkData emptySlots false false false
    end in
  let shouldProduceRecordIdSlot :=
    match getNodeByType solutionRoot STAGE_VIRTUAL_SCAN with
    | Some (QVirtualScan vsn) => vsn_hasRecordId vsn
    | _ => true
    end in
  mkBuilder false shouldProduceRecordIdSlot data st.

(** [SlotBasedStageBuilder::build(root)], the entry point. *)
Definition buildTop (root : QuerySolutionNode) (b : SlotBasedStageBuilder)
  : Result PlanStage * SlotBasedStageBuilder :=
  if _buildHasStarted b then (Fail InvariantFailure, b)
  else
    let started (st : BuildState) (data : PlanStageData) :=
      mkBuilder true (_shouldProduceRecordIdSlot b) data st in
    let reqs := Reqs.set emptyReqs kResult in
    let reqs := Reqs.setIf reqs kRecordId (_shouldProduceRecordIdSlot b) in
    let reqs := Reqs.setIf reqs kOplogTs (shouldTrackLatestOplogTimestamp (_data b)) in
    match build root reqs (_state b) with
    | (Fail e, st) => (Fail e, started st (_data b))
    | (Ok (stage, outputs), st) =>
        if Slots.has outputs kResult
           && (negb (_shouldProduceRecordIdSlot b) || Slots.has outputs kRecordId)
           && (negb (shouldTrackLatestOplogTimestamp (_data b))
               || Slots.has outputs kOplogTs)
        then
          (Ok stage,
           started st (mkData outputs (shouldTrackLatestOplogTimestamp (_data b))
                              (shouldTrackResumeToken (_data b))
                              (shouldUseTailableScan (_data b))))
        else (Fail InvariantFailure, started st (_data b))
    end.

End Translators.

Arguments build X ctx root reqs _ : simpl never.

(* ===================================================================== *)
(** * What the claims speak about *)
(* ===================================================================== *)

(** The positions that are set in a bitset, in increasing order. *)
Definition setBits (b : IndexKeysInclusionSet) : list nat :=
  filter (bitTest b) (seq 0 kMaxCompoundIndexKeys).

(** A vector of index-key slots that is aligned with a bitset pairs the
    set positions with the slots. *)
Definition slotsByPosition (b : IndexKeysInclusionSet) (v : SlotVector)
  : list (nat * SlotId) :=
  combine (setBits b) v.


(** Every slot an expression reads. *)
Fixpoint exprSlots (e : EExpression) : list SlotId :=
  match e with
  | EConstant _ => []
  | EVariable s => [s]
  | ELocalVar _ _ => []
  | EFunction _ args => flat_map exprSlots args
  | EPrimBinary _ l r => exprSlots l ++ exprSlots r
  | EPrimUnary _ a => exprSlots a
  | EIf c t e' => exprSlots c ++ exprSlots t ++ exprSlots e'
  | EFail _ _ => []
  | ELocalBind _ binds body => flat_map exprSlots binds ++ exprSlots body
  end.

(** Whether an expression can fail. *)
Fixpoint exprHasFail (e : EExpression) : bool :=
  match e with
  | EConstant _ | EVariable _ | ELocalVar _ _ => false
  | EFunction _ args => existsb exprHasFail args
  | EPrimBinary _ l r => exprHasFail l || exprHasFail r
  | EPrimUnary _ a => exprHasFail a
  | EIf c t e' => exprHasFail c || exprHasFail t || exprHasFail e'
  | EFail _ _ => true
  | ELocalBind _ binds body => existsb exprHasFail binds || exprHasFail body
  end.

(** Whether some expression of a plan can fail. *)
Fixpoint stageHasFail (s : PlanStage) : bool :=
  match s with
  | CoScanStage _ | ScanStage _ _ _ _ _ _ => false
  | LimitSkipStage i _ _ _ | UniqueStage i _ _ | SortStage i _ _ _ _ _ _ _
  | MakeBsonObjStage i _ _ _ _ _ _ _ _ _ => stageHasFail i
  | ProjectStage i projects _ =>
      stageHasFail i || existsb (fun p => exprHasFail (snd p)) projects
  | FilterStage _ i f _ => stageHasFail i || exprHasFail f
  | LoopJoinStage o i _ _ _ | HashJoinStage o i _ _ _ _ _ _
  | MergeJoinStage o i _ _ _ _ _ _ => stageHasFail o || stageHasFail i
  | TraverseStage o i _ _ _ _ foldExpr finalExpr _ _ =>
      stageHasFail o || stageHasFail i || exprHasFail foldExpr
      || match finalExpr with Some e => exprHasFail e | None => false end
  | UnionStage ins _ _ _ | SortedMergeStage ins _ _ _ _ _ | GeneratedStage _ ins _ _ =>
      existsb stageHasFail ins
  end.

Module Semantics.

(** Modelled from the spec: what a rehydrated key evaluates to.  The
    execution of expressions is outside the builder; a slot holds a scalar,
    [newObj(n1, v1, n2, v2, ...)] makes the object with the fields [n1],
    [n2], ... in that order, and a dotted path is extracted from an object
    field by field. *)
Inductive Value :=
| VScalar (n : nat)
| VObject (fields : list (string * Value)).

Fixpoint eval (val : SlotId -> nat) (e : EExpression) : option Value :=
  match e with
  | EVariable s => Some (VScalar (val s))
  | EFunction name args =>
      if String.eqb name "newObj" then
        (fix fields (args : list EExpression) : option Value :=
           match args with
           | [] => Some (VObject [])
           | EConstant (CString n) :: v :: more =>
               match eval val v, fields more with
               | Some x, Some (VObject fs) => Some (VObject ((n, x) :: fs))
               | _, _ => None
               end
           | _ => None
           end) args
      else None
  | _ => None
  end.

Fixpoint extract (v : Value) (path : list string) : option Value :=
  match path with
  | [] => Some v
  | p :: rest =>
      match v with
      | VObject fs =>
          match Rehydrate.find p fs with
          | Some c => extract c rest
          | None => None
          end
      | VScalar _ => None
      end
  end.

End Semantics.

(** [q] is a prefix of [p] with fewer components. *)
Fixpoint strictPrefix (q p : list string) : bool :=
  match q, p with
  | [], [] => false
  | [], _ :: _ => true
  | _ :: _, [] => false
  | a :: q', b :: p' => String.eqb a b && strictPrefix q' p'
  end.

(** The paths of a key pattern. *)
Definition patternPaths (keyPattern : BSONObj) : list (list string) :=
  map (fun elem => Rehydrate.FieldRef (fieldName elem)) keyPattern.

(** Whether the pattern has a path that is a strict prefix of [p]. *)
Definition dominated (keyPattern : BSONObj) (p : list string) : bool :=
  existsb (fun q => strictPrefix q p) (patternPaths keyPattern).

(** The contract of the two scan generators: a collection scan binds the
    result and the record id and no index-key slots; an index scan binds the
    record id and one index-key slot for every bit it was asked for. *)
Record GeneratorsOk (X : Collaborators) : Prop := mkGeneratorsOk {
  collScan_ok :
    forall csn resume st stage outputs st',
      generateCollScan X csn resume st = (Ok (stage, outputs), st') ->
      Slots.has outputs kResult = true /\ Slots.has outputs kRecordId = true /\
      Slots.getIndexKeySlots outputs = None;
  indexScan_ok :
    forall ixn bits st stage outputs st',
      generateIndexScan X ixn bits st = (Ok (stage, outputs), st') ->
      Slots.has outputs kRecordId = true /\
      exists v, Slots.getIndexKeySlots outputs = Some v /\ length v = bitCount bits }.

(** Generators to run the builder with: each returns one opaque stage over
    fresh slots. *)
Definition sampleCollaborators : Collaborators :=
  mkCollaborators
    (fun csn resume =>
       (r <- generateSlotId ;;
        rid <- generateSlotId ;;
        let outputs := Slots.set (Slots.set emptySlots kResult r) kRecordId rid in
        if csn_shouldTrackLatestOplogTimestamp csn then
          ts <- generateSlotId ;;
          ret (GeneratedStage "scan" [] [r; rid; ts] (csn_nodeId csn),
               Slots.set outputs kOplogTs ts)
        else ret (GeneratedStage "scan" [] [r; rid] (csn_nodeId csn), outputs))%build)
    (fun ixn bits =>
       (rid <- generateSlotId ;;
        v <- generateMultiple (bitCount bits) ;;
        ret (GeneratedStage "ixscan" [] (rid :: v) (ixn_nodeId ixn),
             Slots.setIndexKeySlots (Slots.set emptySlots kRecordId rid) (Some v)))%build)
    (fun n arr =>
       (v <- generateMultiple n ;; ret (v, GeneratedStage "virtualscan" [] v 0))%build)
    (fun f stage inputSlot relevantSlots nodeId =>
       ret (GeneratedStage "filter" [stage] (inputSlot :: relevantSlots) nodeId))
    (fun proj stage inputSlot relevantSlots nodeId =>
       (s <- generateSlotId ;;
        ret (s, GeneratedStage "projection" [stage] (inputSlot :: relevantSlots) nodeId))%build)
    (fun fieldRef e level => ret (EFunction "shardKeyBinding" [e]))
    (fun n => match n with
              | QFetch _ _ _ | QCollScan _ => true
              | _ => false
              end).

Definition sampleContext : Context :=
  mkContext false false false (Some (mkCollection 7 (fun _ => None) (fun _ => None)
                                                  (fun _ => None)))
            [mkElem "a" KeyAsc].

Definition tailableContext : Context :=
  mkContext true false false (Some (mkCollection 7 (fun _ => None) (fun _ => None)
                                                 (fun _ => None)))
            [mkElem "a" KeyAsc].

Definition initialState : BuildState := mkState 0 0 0 [].

Definition reqsOf (names : list SlotName) : PlanStageReqs :=
  fold_left Reqs.set names emptyReqs.

(** The top-level field of every part of a sort pattern. *)
Definition topLevelFields (sortPattern : SortPattern) : list string :=
  map (fun part => match fieldPath part with
                   | Some fp => fp_first fp
                   | None => EmptyString
                   end) sortPattern.

(** The expression that reads the top-level field of a sort part from the
    result slot [r]; a missing field reads as null. *)
Definition topFieldExpr (r : SlotId) (part : SortPatternPart) : EExpression :=
  makeFillEmptyNull
    (makeFunction "getField"
       [makeVariable r;
        makeConstant (match fieldPath part with
                      | Some fp => fp_first fp
                      | None => EmptyString
                      end)]).

(** A chain of traverse stages, one for each slot of [slots] in turn, from
    the stage [bottom] up to the stage [top]; the traversal of a slot reads
    it as its input field and leaves its sort key in the slot of [outs] at
    the same position. *)
Inductive TraversalChain : PlanStage -> SlotVector -> PlanStage -> SlotVector -> Prop :=
| chain_done (s : PlanStage) : TraversalChain s [] s []
| chain_step (bottom inner : PlanStage) (slot traverseSlot innerSlot out : SlotId)
             (foldExpr final : EExpression) (nodeId : PlanNodeId)
             (slots : SlotVector) (top : PlanStage) (outs : SlotVector) :
    TraversalChain
      (ProjectStage
         (TraverseStage bottom inner slot traverseSlot innerSlot [] foldExpr None nodeId 1)
         [(out, final)] nodeId)
      slots top outs ->
    TraversalChain bottom (slot :: slots) top (out :: outs).

(* ===================================================================== *)
(** * What the guard of a sort evaluates to *)
(* ===================================================================== *)

Module Runtime.

(** Modelled from the spec: the execution of expressions is outside the
    builder.  A slot or an expression holds a value or Nothing ([None]);
    [getField] reads a field of an object and gives Nothing for a missing
    field or for anything that is not an object; [fillEmpty] replaces
    Nothing; [isArray] tells whether a value is an array; [logicOr] and
    [logicAnd] evaluate their right side only when the left side does not
    decide; the other operators give Nothing when an argument is Nothing;
    [fail] raises its error. *)
Inductive Value :=
| VNull
| VBoolean (b : bool)
| VNumber (n : Z)
| VString (s : string)
| VArray (elems : list Value)
| VObject (fields : list (string * Value)).

Inductive Outcome :=
| Returns (v : option Value)
| Fails (code : ErrorCode)
| Unknown.

Definition isArrayValue (v : Value) : bool :=
  match v with VArray _ => true | _ => false end.

Definition getField (v : option Value) (name : string) : option Value :=
  match v with
  | Some (VObject fields) => Rehydrate.find name fields
  | _ => None
  end.

Definition constantValue (c : Constant) : Outcome :=
  match c with
  | CNothing => Returns None
  | CNull => Returns (Some VNull)
  | CBoolean b => Returns (Some (VBoolean b))
  | CInt32 n | CInt64 n => Returns (Some (VNumber (Z.of_nat n)))
  | CString s => Returns (Some (VString s))
  | _ => Unknown
  end.

Definition compare3way (a b : Value) : Outcome :=
  let number (c : comparison) : Outcome :=
    Returns (Some (VNumber (match c with Lt => -1 | Eq => 0 | Gt => 1 end))) in
  match a, b with
  | VBoolean x, VBoolean y => number (Z.compare (Z.b2z x) (Z.b2z y))
  | VNumber x, VNumber y => number (Z.compare x y)
  | _, _ => Unknown
  end.

Definition binary (op : BinaryOp) (a b : Value) : Outcome :=
  match op, a, b with
  | cmp3w, _, _ => compare3way a b
  | add, VNumber x, VNumber y => Returns (Some (VNumber (x + y)))
  | lessEq, VNumber x, VNumber y => Returns (Some (VBoolean (Z.leb x y)))
  | less, VNumber x, VNumber y => Returns (Some (VBoolean (Z.ltb x y)))
  | greater, VNumber x, VNumber y => Returns (Some (VBoolean (Z.ltb y x)))
  | _, _, _ => Unknown
  end.

Definition Locals := list (FrameId * list (option Value)).

Fixpoint lookup (frame : FrameId) (locals : Locals) : option (list (option Value)) :=
  match locals with
  | [] => None
  | (f, values) :: more => if Nat.eqb frame f then Some values else lookup frame more
  end.

Fixpoint eval (slots : SlotId -> option Value) (locals : Locals) (e : EExpression)
  : Outcome :=
  match e with
  | EConstant c => constantValue c
  | EVariable slot => Returns (slots slot)
  | ELocalVar frame idx =>
      match lookup frame locals with
      | Some values =>
          match nth_error values idx with
          | Some v => Returns v
          | None => Unknown
          end
      | None => Unknown
      end
  | EFunction name args =>
      match args with
      | [a] =>
          if String.eqb name "isArray" then
            match eval slots locals a with
            | Returns (Some v) => Returns (Some (VBoolean (isArrayValue v)))
            | other => other
            end
          else Unknown
      | [a; b] =>
          if String.eqb name "getField" then
            match eval slots locals a, eval slots locals b with
            | Returns v, Returns (Some (VString field)) => Returns (getField v field)
            | Returns _, Returns _ => Returns None
            | Returns _, other => other
            | other, _ => other
            end
          else if String.eqb name "fillEmpty" then
            match eval slots locals a with
            | Returns None => eval slots locals b
            | other => other
            end
          else Unknown
      | _ => Unknown
      end
  | EPrimBinary op lhs rhs =>
      match op with
      | logicOr =>
          match eval slots locals lhs with
          | Returns None => Returns None
          | Returns (Some (VBoolean true)) => Returns (Some (VBoolean true))
          | Returns (Some _) => eval slots locals rhs
          | other => other
          end
      | logicAnd =>
          match eval slots locals lhs with
          | Returns None => Returns None
          | Returns (Some (VBoolean false)) => Returns (Some (VBoolean false))
          | Returns (Some _) => eval slots locals rhs
          | other => other
          end
      | _ =>
          match eval slots locals lhs, eval slots locals rhs with
          | Returns (Some a), Returns (Some b) => binary op a b
          | Returns _, Returns _ => Returns None
          | Returns _, other => other
          | other, _ => other
          end
      end
  | EPrimUnary logicNot arg =>
      match eval slots locals arg with
      | Returns (Some (VBoolean b)) => Returns (Some (VBoolean (negb b)))
      | Returns (Some _) => Unknown
      | other => other
      end
  | EIf cond thenBranch elseBranch =>
      match eval slots locals cond with
      | Returns (Some (VBoolean true)) => eval slots locals thenBranch
      | Returns (Some (VBoolean false)) => eval slots locals elseBranch
      | Returns _ => Returns None
      | other => other
      end
  | EFail code _ => Fails code
  | ELocalBind frame binds body =>
      let fix values (binds : list EExpression) : Outcome + list (option Value) :=
        match binds with
        | [] => inr []
        | b :: more =>
            match eval slots locals b with
            | Returns v =>
                match values more with
                | inr vs => inr (v :: vs)
                | stopped => stopped
                end
            | other => inl other
            end
        end in
      match values binds with
      | inr vs => eval slots ((frame, vs) :: locals) body
      | inl stopped => stopped
      end
  end.

(** The field of a value as a sort reads it: a missing field reads as
    null. *)
Definition fieldOrNull (v : Value) (name : string) : Value :=
  match getField (Some v) name with
  | Some field => field
  | None => VNull
  end.

(** Whether the path [rest] below a value goes through an array at any
    level, the value itself and the leaf included. *)
Fixpoint meetsArray (v : Value) (rest : list string) : bool :=
  isArrayValue v ||
  match rest with
  | [] => false
  | name :: rest' => meetsArray (fieldOrNull v name) rest'
  end.

End Runtime.

(** [c] tells whether the path [fp], whose top-level field is in [slot],
    goes through an array: for a path of one component it is isArray of the
    slot, for a longer one it is isArray of the slot or a check of the levels
    below; and whatever value the slot holds, it evaluates to whether the
    path below that value meets an array at any level. *)
Definition ArrayCheckOf (slot : SlotId) (fp : FieldPath) (c : EExpression) : Prop :=
  (match fp_rest fp with
   | [] => c = makeFunction "isArray" [makeVariable slot]
   | _ :: _ =>
       exists below,
         c = makeBinaryOp logicOr (makeFunction "isArray" [makeVariable slot]) below
   end) /\
  forall slots locals v,
    slots slot = Some v ->
    Runtime.eval slots locals c
    = Runtime.Returns (Some (Runtime.VBoolean (Runtime.meetsArray v (fp_rest fp)))).

(** The array checks of the parts of a pattern over their slots: one check
    for every part, and every part has a field path. *)
Definition ArrayChecksOf (sortPattern : SortPattern) (slots : SlotVector)
           (checks : list EExpression) : Prop :=
  length checks = length sortPattern /\
  forall i c,
    nth_error checks i = Some c ->
    exists part fp slot,
      nth_error sortPattern i = Some part /\ fieldPath part = Some fp /\
      nth_error slots i = Some slot /\ ArrayCheckOf slot fp c.

(** Whether the path of a sort part meets an array, given what the slot of
    its top-level field holds. *)
Definition partMeetsArray (slots : SlotId -> option Runtime.Value)
           (entry : SlotId * SortPatternPart) : bool :=
  match slots (fst entry), fieldPath (snd entry) with
  | Some v, Some fp => Runtime.meetsArray v (fp_rest fp)
  | _, _ => false
  end.

(** The number of sort-key paths that meet an array. *)
Definition arraysMet (slots : SlotId -> option Runtime.Value) (fieldSlots : SlotVector)
           (sortPattern : SortPattern) : nat :=
  length (filter (partMeetsArray slots) (combine fieldSlots sortPattern)).

(** The guard fails with BadValue when more than one sort-key path meets an
    array, and is true otherwise, whatever the slots of the top-level
    fields hold. *)
Definition FailsOnParallelArrays (fieldSlots : SlotVector) (sortPattern : SortPattern)
           (guard : EExpression) : Prop :=
  forall slots locals,
    (forall slot, In slot fieldSlots -> slots slot <> None) ->
    Runtime.eval slots locals guard
    = if 2 <=? arraysMet slots fieldSlots sortPattern
      then Runtime.Fails BadValue
      else Runtime.Returns (Some (Runtime.VBoolean true)).

(** The sum of the array checks, each turned into a number by a comparison
    with false. *)
Definition sumArrayChecks (first : EExpression) (others : list EExpression)
  : EExpression :=
  fold_left (fun acc c => makeBinaryOp add acc
                            (makeBinaryOp cmp3w c (EConstant (CBoolean false))))
            others
            (makeBinaryOp cmp3w first (EConstant (CBoolean false))).

(** Examples of solutions. *)
Definition sampleCollScan : QuerySolutionNode := QCollScan (mkCollScan 1 false false false).

Definition ascending (first : string) (rest : list string) : SortPatternPart :=
  mkPart (Some (mkFieldPath first rest)) true.
Definition descending (first : string) (rest : list string) : SortPatternPart :=
  mkPart (Some (mkFieldPath first rest)) false.

Definition sortOver (pattern : SortPattern) : QuerySolutionNode :=
  QSort true (mkSortNode 2 pattern 0 1000) sampleCollScan.

(** The node whose plan a limit wraps, and the skip it fuses: the child of
    the skip when the child of the limit is a skip, the child itself
    otherwise. *)
Definition belowLimit (child : QuerySolutionNode) : QuerySolutionNode :=
  match child with
  | QSkip _ _ grandChild => grandChild
  | _ => child
  end.

Definition fusedSkip (child : QuerySolutionNode) : option nat :=
  match child with
  | QSkip _ skip _ => Some skip
  | _ => None
  end.

Definition tailableLimit : QuerySolutionNode :=
  QLimit 2 10 (QCollScan (mkCollScan 1 true false false)).

Definition sampleIxn : IndexScanNode :=
  mkIndexScan 1 [mkElem "a" KeyAsc; mkElem "b" KeyAsc] false.
Definition sampleIndexScan : QuerySolutionNode := QIndexScan sampleIxn.

Definition shardFilterOverIndexScan : QuerySolutionNode :=
  QShardingFilter 3 sampleIndexScan.

(** ** Paths in a key-pattern tree *)

(** The node that a path leads to, and the slot stored there. *)
Fixpoint nodeAt (node : Rehydrate.IndexKeyPatternTreeNode) (path : list string)
  : option Rehydrate.IndexKeyPatternTreeNode :=
  match path with
  | [] => Some node
  | part :: rest =>
      match Rehydrate.find part (Rehydrate.children node) with
      | Some child => nodeAt child rest
      | None => None
      end
  end.

Definition slotAt (node : Rehydrate.IndexKeyPatternTreeNode) (path : list string)
  : option SlotId :=
  match nodeAt node path with
  | Some n => Rehydrate.indexKeySlot n
  | None => None
  end.

(** [q] is a path along [p]: a prefix of [p] that is not empty. *)
Definition along (q p : list string) : Prop :=
  q <> [] /\ exists r, p = q ++ r.

(** The slot at [p] is visible: no node strictly above it, the root apart,
    has a slot. *)
Definition visible (node : Rehydrate.IndexKeyPatternTreeNode) (p : list string) : Prop :=
  forall q r, q <> [] -> r <> [] -> p = q ++ r -> slotAt node q = None.

(** No node of the tree has two children of the same name. *)
Inductive wfTree : Rehydrate.IndexKeyPatternTreeNode -> Prop :=
| wfNode (children : list (string * Rehydrate.IndexKeyPatternTreeNode))
         (slot : option SlotId) :
    NoDup (map fst children) ->
    Forall (fun entry => wfTree (snd entry)) children ->
    wfTree (Rehydrate.Node children slot).

(** The value of the object that the expression of a tree makes. *)
Fixpoint treeValue (val : SlotId -> nat) (node : Rehydrate.IndexKeyPatternTreeNode)
  : Semantics.Value :=
  match node with
  | Rehydrate.Node children _ =>
      Semantics.VObject
        (map (fun entry : string * Rehydrate.IndexKeyPatternTreeNode =>
                match entry with
                | (name, child) =>
                    (name,
                     match Rehydrate.indexKeySlot child with
                     | Some s => Semantics.VScalar (val s)
                     | None => treeValue val child
                     end)
                end)
             children)
  end.

Definition kp3 : BSONObj :=
  [mkElem "a.b" KeyAsc; mkElem "x" KeyAsc; mkElem "a.c" KeyAsc].

Definition kpPrefixFirst : BSONObj := [mkElem "a" KeyAsc; mkElem "a.b" KeyAsc].
Definition kpPrefixLast : BSONObj := [mkElem "a.b" KeyAsc; mkElem "a" KeyAsc].
Definition kpChain : BSONObj :=
  [mkElem "a" KeyAsc; mkElem "a.b" KeyAsc; mkElem "a.b.c" KeyAsc].

(** ** What a plan is guaranteed to bind *)

(** Whether a solution has neither a virtual scan nor a return-key node. *)
Fixpoint noVirtualScanOrReturnKey (root : QuerySolutionNode) : bool :=
  match root with
  | QVirtualScan _ | QReturnKey _ _ => false
  | QCollScan _ | QIndexScan _ | QEof _ => true
  | QFetch _ _ c | QLimit _ _ c | QSkip _ _ c | QSort _ _ c | QSortKeyGenerator _ c
  | QProjectionSimple _ _ c | QProjectionCovered _ _ _ c | QProjectionDefault _ _ c
  | QShardingFilter _ c => noVirtualScanOrReturnKey c
  | QOr _ _ _ _ cs | QTextMatch _ _ _ cs | QAndHash _ cs | QAndSorted _ cs
  | QMergeSort _ _ _ cs | QOther _ _ cs => forallb noVirtualScanOrReturnKey cs
  end.

(** The names that the plan of a solution binds whenever they are
    requested: every name but the return key, and the return key too when
    the solution has neither a virtual scan nor a return-key node. *)
Definition guaranteed (root : QuerySolutionNode) (k : SlotName) : Prop :=
  k <> kReturnKey \/ noVirtualScanOrReturnKey root = true.

(** A builder guarantees the names of [G]: when it succeeds, every
    requested name of [G] is bound, and there are index-key slots only if
    the requirements set a bitset. *)
Definition Guarantees (G : SlotName -> Prop) (f : PlanStageReqs -> M BuildResult) : Prop :=
  forall reqs st stage outputs st',
    f reqs st = (Ok (stage, outputs), st') ->
    (forall k, Reqs.has reqs k = true -> G k -> Slots.has outputs k = true) /\
    (Slots.getIndexKeySlots outputs <> None -> reqs_indexKeyBitset reqs <> None).

(** The number of nodes of a solution. *)
Fixpoint qsize (root : QuerySolutionNode) : nat :=
  match root with
  | QCollScan _ | QVirtualScan _ | QIndexScan _ | QEof _ => 1
  | QFetch _ _ c | QLimit _ _ c | QSkip _ _ c | QSort _ _ c | QSortKeyGenerator _ c
  | QProjectionSimple _ _ c | QProjectionCovered _ _ _ c | QProjectionDefault _ _ c
  | QReturnKey _ c | QShardingFilter _ c => S (qsize c)
  | QOr _ _ _ _ cs | QTextMatch _ _ _ cs | QAndHash _ cs | QAndSorted _ cs
  | QMergeSort _ _ _ cs | QOther _ _ cs => S (list_sum (map qsize cs))
  end.


(** A fetch over the two-component index scan, and a virtual scan that
    simulates a collection scan. *)
Definition fetchOverIndexScan : QuerySolutionNode := QFetch 2 None sampleIndexScan.

Definition sampleVirtualScan : QuerySolutionNode :=
  QVirtualScan (mkVirtualScan 1 [] kCollScan false []).

(* ===================================================================== *)
(** * Walking a solution *)
(* ===================================================================== *)

(** The nodes of a solution in pre-order: a node before its children, the
    children from left to right. *)
Fixpoint preorder (root : QuerySolutionNode) : list QuerySolutionNode :=
  let fix all (cs : list QuerySolutionNode) : list QuerySolutionNode :=
    match cs with
    | [] => []
    | c :: more => preorder c ++ all more
    end in
  root ::
  match root with
  | QCollScan _ | QVirtualScan _ | QIndexScan _ | QEof _ => []
  | QFetch _ _ c | QLimit _ _ c | QSkip _ _ c | QSort _ _ c | QSortKeyGenerator _ c
  | QProjectionSimple _ _ c | QProjectionCovered _ _ _ c | QProjectionDefault _ _ c
  | QReturnKey _ c | QShardingFilter _ c => preorder c
  | QOr _ _ _ _ cs | QTextMatch _ _ _ cs | QAndHash _ cs | QAndSorted _ cs
  | QMergeSort _ _ _ cs | QOther _ _ cs => all cs
  end.

Definition hasType (type : StageType) (node : QuerySolutionNode) : bool :=
  StageType_eqb (getType node) type.

(** The requirements that the entry point starts from: the result, the
    record id if the builder is to produce it, the oplog timestamp if the
    solution tracks it. *)
Definition entryReqs (b : SlotBasedStageBuilder) : PlanStageReqs :=
  Reqs.setIf (Reqs.setIf (Reqs.set emptyReqs kResult) kRecordId
                         (_shouldProduceRecordIdSlot b))
             kOplogTs (shouldTrackLatestOplogTimestamp (_data b)).

(* ===================================================================== *)
(** * How a run moves the state of the builder *)
(* ===================================================================== *)

(** A later state of the builder: no id generator has gone back, and the
    runtime environment has only been appended to. *)
Definition extends (st st' : BuildState) : Prop :=
  slotIdGenerator st <= slotIdGenerator st' /\
  frameIdGenerator st <= frameIdGenerator st' /\
  spoolIdGenerator st <= spoolIdGenerator st' /\
  exists more, env st' = env st ++ more.

(** A computation that leaves a later state behind, whether it succeeds or
    fails. *)
Definition Grows (A : Type) (m : M A) : Prop :=
  forall st, extends st (snd (m st)).

(** The generators of the other files leave a later state behind. *)
Record GeneratorsGrow (X : Collaborators) : Prop := mkGeneratorsGrow {
  collScan_grows : forall csn resume, Grows (generateCollScan X csn resume);
  indexScan_grows : forall ixn bits, Grows (generateIndexScan X ixn bits);
  virtualScan_grows : forall n arr, Grows (generateVirtualScanMulti X n arr);
  filter_grows :
    forall f stage inputSlot relevantSlots nodeId,
      Grows (generateFilter X f stage inputSlot relevantSlots nodeId);
  projection_grows :
    forall proj stage inputSlot relevantSlots nodeId,
      Grows (generateProjection X proj stage inputSlot relevantSlots nodeId);
  shardKeyBinding_grows :
    forall fieldRef e level, Grows (generateShardKeyBinding X fieldRef e level) }.

(* ===================================================================== *)
(** * Inside the union for a tailable scan *)
(* ===================================================================== *)

(** The same query, not tailable. *)
Definition notTailable (ctx : Context) : Context :=
  mkContext false (cq_hasCollator ctx) (expCtx_allowDiskUse ctx) (collection ctx)
            (shardKeyPattern ctx).

(** Two builders that do the same whenever the requirements say that the
    union is being built. *)
Definition SameWhileBuilding (f g : PlanStageReqs -> M BuildResult) : Prop :=
  forall reqs st,
    reqs_isBuildingUnionForTailableCollScan reqs = true -> f reqs st = g reqs st.

(* ===================================================================== *)
(** * Requests that a node turns down *)
(* ===================================================================== *)

(** The nodes whose translator starts with [invariant(!reqs.getIndexKeyBitset())]:
    they cannot hand index-key slots to their parent. *)
Definition rejectsIndexKeys (root : QuerySolutionNode) : bool :=
  match root with
  | QCollScan _ | QSort _ _ _ | QProjectionSimple _ _ _ | QProjectionCovered _ _ _ _
  | QProjectionDefault _ _ _ | QOr _ _ _ _ _ | QReturnKey _ _ | QMergeSort _ _ _ _ => true
  | QVirtualScan vsn =>
      match vsn_scanType vsn with kCollScan => true | kIxscan => false end
  | _ => false
  end.

(** The nodes whose translator has [invariant(!reqs.has(kOplogTs))]. *)
Definition cannotProduceOplogTs (root : QuerySolutionNode) : bool :=
  match root with
  | QVirtualScan _ | QIndexScan _ | QFetch _ _ _ => true
  | _ => false
  end.

(** A virtual scan that mocks a collection scan with record ids. *)
Definition virtualScanWithRecordId : QuerySolutionNode :=
  QVirtualScan (mkVirtualScan 1 [] kCollScan true []).

(* ===================================================================== *)
(** * Joins of more than two children *)
(* ===================================================================== *)

(** The joins that and-hash and and-sorted stack for the children after the
    second: each becomes the outer side of a new join, whose inner side is
    the join built so far. *)
Definition joinedOnto (join : PlanStage -> PlanStage -> SlotVector -> SlotVector -> PlanStage)
           (base : PlanStage) (more : list (PlanStage * SlotId * SlotId)) : PlanStage :=
  fold_left (fun inner entry =>
               let '(stage, idSlot, resultSlot) := entry in
               join stage inner [idSlot] [resultSlot])
            more base.

(** The children after the second, built one after the other from the
    state [st] to the state [st'] with the requirements [childReqs]: every
    one gives its stage and binds the record id and the result to the two
    slots of its entry. *)
Fixpoint builtInOrder (buildChild : QuerySolutionNode -> ChildBuilder)
         (childReqs : PlanStageReqs) (children : list QuerySolutionNode)
         (st : BuildState) (built : list (PlanStage * SlotId * SlotId))
         (st' : BuildState) {struct children} : Prop :=
  match children, built with
  | [], [] => st' = st
  | child :: children', (stage, idSlot, resultSlot) :: built' =>
      exists outputs st1,
        buildChild child childReqs st = (Ok (stage, outputs), st1) /\
        Slots.getIfExists outputs kRecordId = Some idSlot /\
        Slots.getIfExists outputs kResult = Some resultSlot /\
        builtInOrder buildChild childReqs children' st1 built' st'
  | _, _ => False
  end.

(* ===================================================================== *)
(** * The shard key of a document *)
(* ===================================================================== *)

(** The expression that a sharding filter projects for one element of the
    shard-key pattern: the binding of its path, hashed for a hashed
    element. *)
Definition shardKeyPart (keyPatternElem : BSONElement) (binding : EExpression)
  : EExpression :=
  match keyValue keyPatternElem with
  | KeyHashed => makeFunction "shardHash" [binding]
  | _ => binding
  end.

Definition shardKeyParts (shardKeyPattern : BSONObj) (bindings : list EExpression)
  : list EExpression :=
  map (fun p => shardKeyPart (fst p) (snd p)) (combine shardKeyPattern bindings).

(** The loop over the shard-key pattern, from the state [st] to the state
    [st']: for every element a fresh slot, then the binding of the path of
    the element in the slot [r] of the result. *)
Fixpoint boundInOrder (X : Collaborators) (r : SlotId) (shardKeyPattern : BSONObj)
         (st : BuildState) (slots : SlotVector) (bindings : list EExpression)
         (st' : BuildState) {struct shardKeyPattern} : Prop :=
  match shardKeyPattern, slots, bindings with
  | [], [], [] => st' = st
  | elem :: more, slot :: slots', binding :: bindings' =>
      exists st1 st2,
        generateSlotId st = (Ok slot, st1) /\
        generateShardKeyBinding X (Rehydrate.FieldRef (fieldName elem)) (EVariable r) 0 st1
        = (Ok binding, st2) /\
        boundInOrder X r more st2 slots' bindings' st'
  | _, _, _ => False
  end.

(** [emplace] of the entries, one after the other. *)
Definition emplaceAll (entries projections : list (SlotId * EExpression))
  : list (SlotId * EExpression) :=
  fold_left (fun pm entry => slotMapInsert (fst entry) (snd entry) pm) entries projections.

(* ===================================================================== *)
(** * The keys of an index scan *)
(* ===================================================================== *)

(** The arguments of the [newObj] that makes the return key of an index
    scan: the names of the key pattern, each followed by its slot. *)
Definition rawKeyArgs (keyPattern : BSONObj) (slots : SlotVector) : list EExpression :=
  flat_map (fun p => [makeConstant (fieldName (fst p)); EVariable (snd p)])
           (combine keyPattern slots).

(** A context whose collection has a text index, and a text match on it
    over a fetch. *)
Definition textContext : Context :=
  mkContext false false false
            (Some (mkCollection 7 (fun name => if String.eqb name "text" then Some 1 else None)
                                (fun desc => Some (desc + 1))
                                (fun entry => Some (entry + 1))))
            [mkElem "a" KeyAsc].

Definition sampleTextMatch : QuerySolutionNode :=
  QTextMatch 6 "text" (FTSQueryImpl 4) [fetchOverIndexScan].
(* ===================================================================== *)
(** * Reasoning about the builder monad *)
(* ===================================================================== *)

Lemma bind_ok (A B : Type) (m : M A) (f : A -> M B) st b st' :
  bind m f st = (Ok b, st') ->
  exists a st1, m st = (Ok a, st1) /\ f a st1 = (Ok b, st').
Proof.
  unfold bind. destruct (m st) as [[a|e] st1]; intros H.
  - exists a, st1. split; [reflexivity | exact H].
  - discriminate H.
Qed.

Lemma bind_run (A B : Type) (m : M A) (f : A -> M B) st a st1 :
  m st = (Ok a, st1) -> bind m f st = f a st1.
Proof. unfold bind. intros ->. reflexivity. Qed.
Arguments bind_run {A B m} f {st a st1} _.

Lemma ret_ok (A : Type) (a b : A) st st' :
  ret a st = (Ok b, st') -> b = a /\ st' = st.
Proof. unfold ret. intros H. inversion H. split; reflexivity. Qed.

Lemma fail_ok (A : Type) e (b : A) st st' : fail e st = (Ok b, st') -> False.
Proof. unfold fail. discriminate. Qed.

Lemma invariant_ok c u st st' :
  invariant c st = (Ok u, st') -> c = true /\ st' = st.
Proof.
  unfold invariant. destruct c; intros H.
  - apply ret_ok in H. split; [reflexivity | apply H].
  - elim (fail_ok H).
Qed.

Lemma tassert_ok tag c u st st' :
  tassert tag c st = (Ok u, st') -> c = true /\ st' = st.
Proof.
  unfold tassert. destruct c; intros H.
  - apply ret_ok in H. split; [reflexivity | apply H].
  - elim (fail_ok H).
Qed.

Lemma uassert_ok tag c u st st' :
  uassert tag c st = (Ok u, st') -> c = true /\ st' = st.
Proof.
  unfold uassert. destruct c; intros H.
  - apply ret_ok in H. split; [reflexivity | apply H].
  - elim (fail_ok H).
Qed.

Lemma deref_ok (A : Type) (o : option A) a st st' :
  deref o st = (Ok a, st') -> o = Some a /\ st' = st.
Proof.
  unfold deref. destruct o; intros H.
  - apply ret_ok in H. destruct H as [-> ->]. split; reflexivity.
  - elim (fail_ok H).
Qed.

Lemma index_ok (A : Type) (v : list A) i a st st' :
  index v i st = (Ok a, st') -> nth_error v i = Some a /\ st' = st.
Proof. apply deref_ok. Qed.

Lemma getSlot_ok o k s st st' :
  getSlot o k st = (Ok s, st') -> Slots.getIfExists o k = Some s /\ st' = st.
Proof.
  unfold getSlot. destruct (Slots.getIfExists o k); intros H.
  - apply ret_ok in H. destruct H as [-> ->]. split; reflexivity.
  - elim (fail_ok H).
Qed.

Lemma getSlotIfExists_ok name r st st' :
  getSlotIfExists name st = (Ok r, st') -> st' = st.
Proof. unfold getSlotIfExists. intros H. inversion H. reflexivity. Qed.

(** One step of inversion of a run that succeeded. *)
Ltac minv1 :=
  match goal with
  | H : bind _ _ _ = (Ok _, _) |- _ =>
      let a := fresh "a" in let st := fresh "st" in let E := fresh "E" in
      apply bind_ok in H; destruct H as (a & st & E & H); cbv beta in H
  | H : ret _ _ = (Ok _, _) |- _ =>
      let H1 := fresh in
      apply ret_ok in H; destruct H as [H1 ?]; inversion H1; try clear H1; subst
  | H : fail _ _ = (Ok _, _) |- _ => elim (fail_ok H)
  | H : invariant _ _ = (Ok _, _) |- _ =>
      apply invariant_ok in H; destruct H as [H ?]; subst
  | H : tassert _ _ _ = (Ok _, _) |- _ =>
      apply tassert_ok in H; destruct H as [H ?]; subst
  | H : uassert _ _ _ = (Ok _, _) |- _ =>
      apply uassert_ok in H; destruct H as [H ?]; subst
  | H : deref _ _ = (Ok _, _) |- _ =>
      apply deref_ok in H; destruct H as [H ?]; subst
  | H : index _ _ _ = (Ok _, _) |- _ =>
      apply index_ok in H; destruct H as [H ?]; subst
  | H : getSlot _ _ _ = (Ok _, _) |- _ =>
      apply getSlot_ok in H; destruct H as [H ?]; subst
  | H : getSlotIfExists _ _ = (Ok _, _) |- _ =>
      apply getSlotIfExists_ok in H; subst
  | H : (let '(_, _) := ?x in _) _ = (Ok _, _) |- _ =>
      let E := fresh "E" in destruct x eqn:E
  end.

Ltac minv := repeat minv1.

(* ===================================================================== *)
(** * Requirements and slots *)
(* ===================================================================== *)

Lemma SlotName_eq_dec (a b : SlotName) : {a = b} + {a <> b}.
Proof. decide equality. Qed.

Lemma required_In r k : In k (Reqs.required r) <-> Reqs.has r k = true.
Proof.
  unfold Reqs.required. rewrite filter_In. split.
  - intros [_ H]. exact H.
  - intros H. split; [| exact H]. destruct k; simpl; auto.
Qed.

Lemma has_set o k s k' :
  Slots.has (Slots.set o k s) k' = if SlotName_eqb k k' then true else Slots.has o k'.
Proof. destruct o as [[a b c d] v], k, k'; reflexivity. Qed.

Lemma getIfExists_set o k s k' :
  Slots.getIfExists (Slots.set o k s) k' =
  if SlotName_eqb k k' then Some s else Slots.getIfExists o k'.
Proof. destruct o as [[a b c d] v], k, k'; reflexivity. Qed.

Lemma has_set_same o k s : Slots.has (Slots.set o k s) k = true.
Proof. rewrite has_set. destruct k; reflexivity. Qed.

Lemma has_set_mono o k s k' :
  Slots.has o k' = true -> Slots.has (Slots.set o k s) k' = true.
Proof. intros H. rewrite has_set, H. destruct (SlotName_eqb k k'); reflexivity. Qed.

Lemma has_getIfExists o k : Slots.has o k = true <-> exists s, Slots.getIfExists o k = Some s.
Proof.
  unfold Slots.has. destruct (Slots.getIfExists o k).
  - split; eauto.
  - split; [discriminate | intros [s H]; discriminate].
Qed.

Lemma SlotName_eqb_eq a b : SlotName_eqb a b = true <-> a = b.
Proof. destruct a, b; simpl; split; intros H; try reflexivity; discriminate. Qed.

Lemma reqs_has_set r k k' :
  Reqs.has (Reqs.set r k) k' = if SlotName_eqb k k' then true else Reqs.has r k'.
Proof. destruct r as [[a b c d] ? ? ?], k, k'; reflexivity. Qed.

Lemma reqs_has_clear r k k' :
  Reqs.has (Reqs.clear r k) k' = if SlotName_eqb k k' then false else Reqs.has r k'.
Proof. destruct r as [[a b c d] ? ? ?], k, k'; reflexivity. Qed.

Lemma reqs_has_setIf r k c k' :
  Reqs.has (Reqs.setIf r k c) k' =
  if SlotName_eqb k k' && c then true else Reqs.has r k'.
Proof.
  unfold Reqs.setIf. destruct c.
  - rewrite reqs_has_set, andb_true_r. reflexivity.
  - rewrite andb_false_r. reflexivity.
Qed.

(** The constructor of [PlanStageSlots] always succeeds, binds the names it
    is given and leaves the others and the index-key slots alone. *)
Lemma makeSlotsNames_spec names :
  forall o st, exists o' st',
    makeSlotsNames names o st = (Ok o', st') /\
    (forall k, In k names -> Slots.has o' k = true) /\
    (forall k, ~ In k names -> Slots.getIfExists o' k = Slots.getIfExists o k) /\
    Slots.getIndexKeySlots o' = Slots.getIndexKeySlots o /\
    env st' = env st.
Proof.
  induction names as [|k names IH]; intros o st; simpl.
  - exists o, st. repeat split; auto; intros k [].
  - unfold bind at 1. simpl.
    destruct (IH (Slots.set o k (S (slotIdGenerator st)))
                 (mkState (S (slotIdGenerator st)) (frameIdGenerator st)
                          (spoolIdGenerator st) (env st)))
      as (o' & st' & E & Hin & Hout & Hix & Henv).
    exists o', st'. split; [exact E|]. split; [|split; [|split]].
    + intros k' [<- | Hk'].
      * destruct (in_dec SlotName_eq_dec k names) as [Hi | Hn].
        -- apply Hin, Hi.
        -- apply has_getIfExists. rewrite (Hout _ Hn), getIfExists_set.
           replace (SlotName_eqb k k) with true by (destruct k; reflexivity). eauto.
      * apply Hin, Hk'.
    + intros k' Hn. rewrite Hout by (intros Hi; apply Hn; right; exact Hi).
      rewrite getIfExists_set.
      destruct (SlotName_eqb k k') eqn:Ek; [|reflexivity].
      apply SlotName_eqb_eq in Ek. subst. elim Hn. left. reflexivity.
    + rewrite Hix. reflexivity.
    + rewrite Henv. reflexivity.
Qed.

Lemma makePlanStageSlots_spec reqs st :
  exists o st',
    makePlanStageSlots reqs st = (Ok o, st') /\
    (forall k, Slots.has o k = Reqs.has reqs k) /\
    Slots.getIndexKeySlots o = None /\
    env st' = env st.
Proof.
  unfold makePlanStageSlots.
  destruct (makeSlotsNames_spec (Reqs.required reqs) emptySlots st)
    as (o & st' & E & Hin & Hout & Hix & Henv).
  exists o, st'. split; [exact E|]. split; [|split; [exact Hix | exact Henv]].
  intros k. destruct (Reqs.has reqs k) eqn:Hk.
  - apply Hin, required_In, Hk.
  - unfold Slots.has. rewrite Hout.
    + destruct k; reflexivity.
    + intros Hi. apply required_In in Hi. congruence.
Qed.

Lemma makePlanStageSlots_ok reqs st o st' :
  makePlanStageSlots reqs st = (Ok o, st') ->
  (forall k, Slots.has o k = Reqs.has reqs k) /\ Slots.getIndexKeySlots o = None.
Proof.
  intros H. destruct (makePlanStageSlots_spec reqs st) as (o1 & st1 & E & Hk & Hix & _).
  rewrite E in H. inversion H; subst. split; assumption.
Qed.

(** [forEachSlot] succeeds when the names are bound, and gives their slots. *)
Lemma forEachSlotNames_spec o names st :
  (forall k, In k names -> Slots.has o k = true) ->
  exists v, forEachSlotNames o names st = (Ok v, st) /\
            Forall2 (fun k s => Slots.getIfExists o k = Some s) names v.
Proof.
  induction names as [|k names IH]; intros Hall; simpl.
  - exists []. split; [reflexivity | constructor].
  - destruct (proj1 (has_getIfExists o k) (Hall k (or_introl eq_refl))) as [s Hs].
    destruct IH as (v & E & F); [intros k' Hk'; apply Hall; right; exact Hk'|].
    exists (s :: v). split.
    + unfold getSlot. rewrite Hs. unfold bind at 1. simpl.
      rewrite (bind_run _ E). reflexivity.
    + constructor; assumption.
Qed.

(* ===================================================================== *)
(** * The EOF plan *)
(* ===================================================================== *)

Lemma slotMapFind_app (A : Type) k (m1 m2 : list (SlotId * A)) :
  slotMapFind k (m1 ++ m2) =
  match slotMapFind k m1 with Some v => Some v | None => slotMapFind k m2 end.
Proof.
  induction m1 as [|[k' v] m1 IH]; simpl; [reflexivity|].
  destruct (Nat.eqb k k'); [reflexivity | exact IH].
Qed.

Lemma slotMapFind_insert (A : Type) k k' (v : A) m :
  slotMapFind k (slotMapInsert k' v m) =
  match slotMapFind k m with
  | Some x => Some x
  | None => if Nat.eqb k k' then Some v else None
  end.
Proof.
  unfold slotMapInsert. destruct (slotMapFind k' m) eqn:E.
  - destruct (slotMapFind k m) eqn:E'; [reflexivity|].
    destruct (Nat.eqb k k') eqn:Ek; [|reflexivity].
    apply Nat.eqb_eq in Ek. subst. congruence.
  - rewrite slotMapFind_app. simpl. destruct (slotMapFind k m); reflexivity.
Qed.

Lemma insert_all_constant (A : Type) (c : A) slots :
  forall m,
    (forall s e, slotMapFind s m = Some e -> e = c) ->
    let m' := fold_left (fun projects slot => slotMapInsert slot c projects) slots m in
    (forall s, In s slots -> slotMapFind s m' = Some c) /\
    (forall s e, slotMapFind s m' = Some e -> e = c) /\
    (forall s, slotMapFind s m = Some c -> slotMapFind s m' = Some c).
Proof.
  induction slots as [|s0 slots IH]; intros m Hm; simpl.
  - repeat split; auto. intros s [].
  - assert (Hm' : forall s e, slotMapFind s (slotMapInsert s0 c m) = Some e -> e = c).
    { intros s e. rewrite slotMapFind_insert.
      destruct (slotMapFind s m) eqn:E.
      - intros H. inversion H; subst. eapply Hm, E.
      - destruct (Nat.eqb s s0); intros H; inversion H. reflexivity. }
    destruct (IH _ Hm') as (Hin & Hc & Hkeep). repeat split.
    + intros s [<- | Hs]; [|apply Hin, Hs].
      apply Hkeep. rewrite slotMapFind_insert.
      destruct (slotMapFind s0 m) eqn:E.
      * f_equal. eapply Hm, E.
      * rewrite Nat.eqb_refl. reflexivity.
    + exact Hc.
    + intros s Hs. apply Hkeep. rewrite slotMapFind_insert, Hs. reflexivity.
Qed.

Lemma Forall2_In_l (A B : Type) (R : A -> B -> Prop) l1 l2 a :
  Forall2 R l1 l2 -> In a l1 -> exists b, In b l2 /\ R a b.
Proof.
  induction 1 as [|x y l1 l2 Hxy _ IH]; intros Hin; [elim Hin|].
  destruct Hin as [<- | Hin].
  - exists y. split; [left; reflexivity | exact Hxy].
  - destruct (IH Hin) as (b & Hb & Hr). exists b. split; [right; exact Hb | exact Hr].
Qed.

(** C8. For every requirements set, the EOF translator succeeds with a plan
    over a co-scan under limit 0 (no row), and every requested name is bound
    to a slot that a projection of the plan defines as the constant
    Nothing. *)
Theorem eof_binds_every_requested_slot X ctx nodeId reqs st :
  exists stage outputs st',
    build X ctx (QEof nodeId) reqs st = (Ok (stage, outputs), st') /\
    let zeroRows := LimitSkipStage (CoScanStage nodeId) (Some 0) None nodeId in
    exists projects,
      (stage = ProjectStage zeroRows projects nodeId \/
       (stage = zeroRows /\ forall k, Reqs.has reqs k = false)) /\
      forall k, Reqs.has reqs k = true ->
        exists s, Slots.getIfExists outputs k = Some s /\
                  slotMapFind s projects = Some (EConstant CNothing).
Proof.
  unfold build, buildWith. simpl. unfold bind at 1. simpl.
  unfold buildEof, generateEofPlan.
  destruct (makePlanStageSlots_spec reqs st) as (o & st1 & E & Hk & _ & _).
  rewrite (bind_run _ E).
  destruct (@forEachSlotNames_spec o (Reqs.required reqs) st1) as (v & Ev & F).
  { intros k Hin. rewrite Hk. apply required_In, Hin. }
  unfold forEachSlot. rewrite (bind_run _ Ev).
  set (projects := fold_left _ v []).
  destruct (@insert_all_constant _ (EConstant CNothing) v [])
    as (Hin & _ & _); [intros s e; discriminate|].
  fold projects in Hin.
  eexists _, o, st1. split; [reflexivity|]. cbv zeta.
  exists projects. split.
  - destruct projects eqn:Ep; [right | left; reflexivity].
    split; [reflexivity|]. intros k. destruct (Reqs.has reqs k) eqn:Hr; [|reflexivity].
    apply required_In in Hr.
    destruct (Forall2_In_l k F Hr) as (s & Hs & _).
    specialize (Hin s Hs). discriminate Hin.
  - intros k Hr. apply required_In in Hr.
    destruct (Forall2_In_l k F Hr) as (s & Hs & Hget).
    exists s. split; [exact Hget | apply Hin, Hs].
Qed.

(* ===================================================================== *)
(** * The entry point is single-use *)
(* ===================================================================== *)

(** C9. A builder starts with the has-started flag unset; whatever the
    first invocation of the entry point returns, success or failure, it
    leaves the flag set, and the second invocation fails on the invariant
    and leaves the builder as it was. *)
Theorem second_build_is_contract_violation X ctx solution :
  _buildHasStarted (makeBuilder ctx solution) = false /\
  forall (b : SlotBasedStageBuilder) (root1 root2 : QuerySolutionNode),
    let b1 := snd (buildTop X ctx root1 b) in
    _buildHasStarted b1 = true /\
    buildTop X ctx root2 b1 = (Fail InvariantFailure, b1).
Proof.
  split; [reflexivity|].
  intros b root1 root2. unfold buildTop at 1 2.
  destruct (_buildHasStarted b) eqn:Hb; simpl.
  - split; [exact Hb|]. unfold buildTop. rewrite Hb. reflexivity.
  - destruct (build X ctx root1 _ (_state b)) as [[[stage outputs]|e] st]; simpl.
    + match goal with |- context [if ?c then _ else _] => destruct c end;
        simpl; split; reflexivity.
    + split; reflexivity.
Qed.

(* ===================================================================== *)
(** * Sort *)
(* ===================================================================== *)

Lemma getFieldName_0 fp : getFieldName fp 0 = fp_first fp.
Proof. reflexivity. Qed.

Lemma existsb_eqb_In x l : existsb (String.eqb x) l = true <-> In x l.
Proof.
  rewrite existsb_exists. split.
  - intros (y & Hy & E). apply String.eqb_eq in E. subst. exact Hy.
  - intros H. exists x. split; [exact H | apply String.eqb_refl].
Qed.

Lemma sortPrefixLoop_spec parts :
  forall prefixSet h0 d0 st h d st',
    sortPrefixLoop parts prefixSet h0 d0 st = (Ok (h, d), st') ->
    st' = st /\
    d = d0 ++ map sortDirectionOf parts /\
    Forall (fun part => isSome (fieldPath part) = true) parts /\
    (h = false <->
     h0 = false /\ NoDup (topLevelFields parts) /\
     forall x, In x (topLevelFields parts) -> ~ In x prefixSet).
Proof.
  induction parts as [|part parts IH]; intros prefixSet h0 d0 st h d st' H; simpl in H.
  - minv. split; [reflexivity|]. split; [rewrite app_nil_r; reflexivity|].
    split; [constructor|]. split.
    + intros ->. split; [reflexivity|]. split; [constructor | intros x []].
    + intros (-> & _). reflexivity.
  - minv.
    destruct (fieldPath part) as [fp|] eqn:Efp; [|elim (fail_ok E)].
    apply ret_ok in E. destruct E as [-> ->].
    destruct (IH _ _ _ _ _ _ _ H) as (-> & -> & Hall & Hiff).
    split; [reflexivity|]. split; [rewrite <- app_assoc; reflexivity|].
    split; [constructor; [rewrite Efp; reflexivity | exact Hall]|].
    simpl. rewrite Efp. rewrite getFieldName_0 in E0.
    destruct h0; simpl in E0.
    + inversion E0; subst. split; [|intros (? & _); discriminate].
      intros Hh. apply Hiff in Hh. destruct Hh as (? & _). discriminate.
    + destruct (existsb (String.eqb (fp_first fp)) prefixSet) eqn:Eex;
        inversion E0; subst.
      * split; [intros Hh; apply Hiff in Hh; destruct Hh as (? & _); discriminate|].
        intros (_ & _ & Hx). apply existsb_eqb_In in Eex.
        elim (Hx (fp_first fp)); [left; reflexivity | exact Eex].
      * assert (Hnot : ~ In (fp_first fp) prefixSet).
        { intros Hi. apply existsb_eqb_In in Hi. congruence. }
        rewrite Hiff. split.
        -- intros (_ & Hnd & Hx). split; [reflexivity|]. split.
           ++ constructor; [|exact Hnd]. intros Hi. apply (Hx _ Hi). left. reflexivity.
           ++ intros x [<- | Hi]; [exact Hnot|]. intros Hp. apply (Hx _ Hi). right. exact Hp.
        -- intros (_ & Hnd & Hx). inversion Hnd; subst. split; [reflexivity|].
           split; [assumption|]. intros x Hi [<- | Hp]; [contradiction|].
           apply (Hx x); [right; exact Hi | exact Hp].
Qed.

Lemma slotMapInsert_fresh (A : Type) k (v : A) m :
  (forall k' e, In (k', e) m -> k' < k) -> slotMapInsert k v m = m ++ [(k, v)].
Proof.
  intros Hlt. unfold slotMapInsert.
  assert (E : slotMapFind k m = None).
  { induction m as [|[k' e] m IH]; simpl; [reflexivity|].
    assert (k' < k) by (eapply Hlt; left; reflexivity).
    destruct (Nat.eqb k k') eqn:Ek; [apply Nat.eqb_eq in Ek; lia|].
    apply IH. intros k2 e2 Hin. eapply Hlt. right. exact Hin. }
  rewrite E. reflexivity.
Qed.

Lemma generateSlotId_ok s st st' :
  generateSlotId st = (Ok s, st') ->
  s = S (slotIdGenerator st) /\
  st' = mkState (S (slotIdGenerator st)) (frameIdGenerator st) (spoolIdGenerator st)
                (env st).
Proof. unfold generateSlotId. intros H. inversion H. split; reflexivity. Qed.

(** The loop over the top-level fields binds a run of fresh slots, in the
    order of the parts. *)
Lemma sortTopLevelFields_spec outputs r :
  Slots.getIfExists outputs kResult = Some r ->
  forall parts pm ob st pm' ob' st',
    sortTopLevelFields parts outputs pm ob st = (Ok (pm', ob'), st') ->
    (forall k e, In (k, e) pm -> k <= slotIdGenerator st) ->
    let fresh := seq (S (slotIdGenerator st)) (length parts) in
    ob' = ob ++ fresh /\
    pm' = pm ++ combine fresh (map (topFieldExpr r) parts) /\
    Forall (fun part => isSome (fieldPath part) = true) parts.
Proof.
  intros Hr. induction parts as [|part parts IH]; intros pm ob st pm' ob' st' H Hpm;
    simpl in H.
  - minv. simpl. rewrite !app_nil_r. repeat split; constructor.
  - minv. apply generateSlotId_ok in E1. destruct E1 as [-> ->].
    rewrite Hr in E0. inversion E0; subst a0. clear E0.
    rewrite slotMapInsert_fresh in H
      by (intros k' e Hin; apply Hpm in Hin; lia).
    apply IH in H.
    + simpl in H. destruct H as (-> & -> & Hall). cbv zeta. simpl.
      rewrite <- !app_assoc. simpl. unfold topFieldExpr at 2. rewrite E.
      repeat split. constructor; [rewrite E; reflexivity | exact Hall].
    + simpl. intros k e Hin. apply in_app_or in Hin. destruct Hin as [Hin | [Hin | []]].
      * apply Hpm in Hin. lia.
      * inversion Hin. lia.
Qed.

Lemma sortTopLevelFields_result parts :
  forall outputs pm ob st r st',
    parts <> [] ->
    sortTopLevelFields parts outputs pm ob st = (Ok r, st') ->
    exists s, Slots.getIfExists outputs kResult = Some s.
Proof.
  destruct parts as [|part parts]; intros outputs pm ob st r st' Hne H; [congruence|].
  simpl in H. minv. eauto.
Qed.

(** Reading a field with getField under fillEmpty gives the field, or null
    when it is missing. *)
Lemma fieldExpr_eval slots locals inputExpr v name :
  Runtime.eval slots locals inputExpr = Runtime.Returns (Some v) ->
  Runtime.eval slots locals
    (makeFillEmptyNull (makeFunction "getField" [inputExpr; makeConstant name]))
  = Runtime.Returns (Some (Runtime.fieldOrNull v name)).
Proof.
  intros Hv. simpl. rewrite Hv. unfold Runtime.fieldOrNull.
  destruct (Runtime.getField (Some v) name); reflexivity.
Qed.

(** The check of the levels below the top-level field evaluates to
    whether the rest of the path meets an array. *)
Lemma generateArrayCheckForSortHelper_eval rest :
  forall name inputExpr st c st',
    generateArrayCheckForSortHelper inputExpr name rest st = (Ok c, st') ->
    forall slots locals v,
      Runtime.eval slots locals inputExpr = Runtime.Returns (Some v) ->
      Runtime.eval slots locals c
      = Runtime.Returns
          (Some (Runtime.VBoolean
                   (Runtime.meetsArray (Runtime.fieldOrNull v name) rest))).
Proof.
  induction rest as [|next rest IH]; intros name inputExpr st c st' H slots locals v Hv;
    simpl in H; minv.
  - pose proof (@fieldExpr_eval slots locals inputExpr v name Hv) as Hfield.
    unfold makeFunction at 1. cbn [Runtime.eval String.eqb Ascii.eqb Bool.eqb].
    rewrite Hfield. cbn [Runtime.meetsArray]. rewrite orb_false_r. reflexivity.
  - pose proof (@fieldExpr_eval slots locals inputExpr v name Hv) as Hfield.
    set (w := Runtime.fieldOrNull v name) in *.
    match goal with
    | Hh : generateArrayCheckForSortHelper (ELocalVar ?frame 0) _ _ _ = _ |- _ =>
        assert (Hbound : Runtime.eval slots ((frame, [Some w]) :: locals)
                                      (ELocalVar frame 0)
                         = Runtime.Returns (Some w))
          by (simpl; rewrite Nat.eqb_refl; reflexivity);
        pose proof (IH _ _ _ _ _ Hh _ _ _ Hbound) as Hbelow
    end.
    cbn [Runtime.eval]. rewrite Hfield.
    unfold makeBinaryOp, makeFunction.
    simpl. rewrite Nat.eqb_refl. simpl.
    destruct (Runtime.isArrayValue w); [reflexivity | exact Hbelow].
Qed.

Lemma generateArrayCheckForSort_spec slot fp st c st' :
  generateArrayCheckForSort slot fp st = (Ok c, st') -> ArrayCheckOf slot fp c.
Proof.
  unfold generateArrayCheckForSort, ArrayCheckOf.
  destruct (fp_rest fp) as [|next rest]; intros H; minv.
  - split; [reflexivity|]. intros slots locals v Hv. simpl. rewrite Hv.
    rewrite orb_false_r. reflexivity.
  - split; [eexists; reflexivity|]. intros slots locals v Hv.
    match goal with
    | Hh : generateArrayCheckForSortHelper _ _ _ _ = _ |- _ =>
        pose proof (@generateArrayCheckForSortHelper_eval _ _ _ _ _ _ Hh slots locals v)
          as Hbelow
    end.
    simpl in Hbelow. specialize (Hbelow (f_equal _ Hv)).
    cbn [Runtime.eval makeBinaryOp makeFunction makeVariable String.eqb Ascii.eqb Bool.eqb].
    rewrite Hv. cbn [Runtime.meetsArray].
    destruct v; cbn [Runtime.isArrayValue orb]; try exact Hbelow; reflexivity.
Qed.

Lemma sortPartAt_ok sortPattern orderBy idx slot fp st st' :
  sortPartAt sortPattern orderBy idx st = (Ok (slot, fp), st') ->
  st' = st /\ nth_error orderBy idx = Some slot /\
  exists part, nth_error sortPattern idx = Some part /\ fieldPath part = Some fp.
Proof.
  unfold sortPartAt. intros H. minv. repeat split; eauto.
Qed.

Ltac sortinv :=
  repeat match goal with
    | H : sortPartAt _ _ _ _ = (Ok _, _) |- _ =>
        let Hs := fresh "Hs" in let p := fresh "p" in
        let Hp := fresh "Hp" in let Hf := fresh "Hf" in
        apply sortPartAt_ok in H; destruct H as (? & Hs & p & Hp & Hf); subst
    | H : generateArrayCheckForSort _ _ _ = (Ok _, _) |- _ =>
        apply generateArrayCheckForSort_spec in H
    end.

Lemma numArraysLoop_spec sortPattern orderBy count :
  forall idx acc st e st',
    numArraysLoop sortPattern orderBy count idx acc st = (Ok e, st') ->
    exists cs,
      length cs = count /\
      e = fold_left (fun acc c => makeBinaryOp add acc
                                    (makeBinaryOp cmp3w c (EConstant (CBoolean false))))
                    cs acc /\
      forall j c,
        nth_error cs j = Some c ->
        exists part fp slot,
          nth_error sortPattern (idx + j) = Some part /\ fieldPath part = Some fp /\
          nth_error orderBy (idx + j) = Some slot /\ ArrayCheckOf slot fp c.
Proof.
  induction count as [|count IH]; intros idx acc st e st' H; simpl in H.
  - minv. exists []. repeat split. intros [|j] ? Hc; discriminate Hc.
  - minv. sortinv.
    apply IH in H. destruct H as (cs & Hlen & -> & Hcs).
    match goal with Hc : ArrayCheckOf _ _ ?c |- _ => exists (c :: cs) end.
    split; [simpl; congruence|]. split; [reflexivity|].
    intros [|j] c' Hc'.
    + rewrite Nat.add_0_r. simpl in Hc'. inversion Hc'; subst. eauto 8.
    + simpl in Hc'. destruct (Hcs _ _ Hc') as (part & fp' & slot' & Hp' & Hf' & Hs' & Ha').
      replace (idx + S j) with (S idx + j) by lia. eauto 8.
Qed.

(** The guard against parallel arrays: none for fewer than two parts, the
    disjunction for two parts, the sum for three and more. *)
Lemma failOnParallelArrays_spec sortPattern orderBy st guard st' :
  failOnParallelArrays sortPattern orderBy st = (Ok guard, st') ->
  (length sortPattern < 2 -> guard = None) /\
  (length sortPattern = 2 ->
   exists c0 c1,
     ArrayChecksOf sortPattern orderBy [c0; c1] /\
     guard = Some (makeBinaryOp logicOr (makeNot c0)
                     (makeBinaryOp logicOr (makeNot c1) parallelArraysError))) /\
  (3 <= length sortPattern ->
   exists c0 cs,
     ArrayChecksOf sortPattern orderBy (c0 :: cs) /\
     guard = Some (makeBinaryOp logicOr
                     (makeBinaryOp lessEq (sumArrayChecks c0 cs) (EConstant (CInt32 1)))
                     parallelArraysError)).
Proof.
  unfold failOnParallelArrays. intros H.
  destruct (length sortPattern <? 2) eqn:E2.
  - apply Nat.ltb_lt in E2. minv. split; [reflexivity|]. split; intros; lia.
  - apply Nat.ltb_ge in E2. destruct (length sortPattern =? 2) eqn:E3.
    + apply Nat.eqb_eq in E3. minv. sortinv. split; [intros; lia|]. split; [|intros; lia].
      intros _. do 2 eexists. split; [|reflexivity].
      split; [simpl; congruence|].
      intros [|[|i]] c Hc; simpl in Hc;
        [ | | destruct i; discriminate]; inversion Hc; subst; eauto 8.
    + apply Nat.eqb_neq in E3. minv. sortinv. split; [intros; lia|]. split; [intros; lia|].
      intros _.
      match goal with
      | H : numArraysLoop _ _ _ _ _ _ = _ |- _ =>
          apply numArraysLoop_spec in H; destruct H as (cs & Hlen & -> & Hcs)
      end.
      do 2 eexists. split; [|reflexivity]. split; [simpl; lia|].
      intros [|i] c Hc; simpl in Hc.
      * inversion Hc; subst. eauto 8.
      * apply (Hcs i c Hc).
Qed.

(** The checks of a pattern, taken one by one. *)
Lemma ArrayChecksOf_cons sortPattern slots c cs :
  ArrayChecksOf sortPattern slots (c :: cs) ->
  exists part parts slot more fp,
    sortPattern = part :: parts /\ slots = slot :: more /\
    fieldPath part = Some fp /\ ArrayCheckOf slot fp c /\
    ArrayChecksOf parts more cs.
Proof.
  intros (Hlen & Hall).
  destruct (Hall 0 c eq_refl) as (part & fp & slot & Hp & Hf & Hs & Hc).
  destruct sortPattern as [|part' parts]; [discriminate|].
  destruct slots as [|slot' more]; [discriminate|].
  simpl in Hp, Hs. inversion Hp; inversion Hs; subst.
  exists part, parts, slot, more, fp.
  split; [reflexivity|]. split; [reflexivity|]. split; [exact Hf|]. split; [exact Hc|].
  split; [simpl in Hlen; lia|].
  intros i c' Hc'. apply (Hall (S i) c' Hc').
Qed.

(** Every check evaluates to whether the path of its part meets an array. *)
Lemma ArrayChecksOf_eval slots locals :
  forall checks sortPattern fieldSlots,
    ArrayChecksOf sortPattern fieldSlots checks ->
    (forall slot, In slot fieldSlots -> slots slot <> None) ->
    Forall2 (fun c entry =>
               Runtime.eval slots locals c
               = Runtime.Returns (Some (Runtime.VBoolean (partMeetsArray slots entry))))
            checks (combine fieldSlots sortPattern).
Proof.
  induction checks as [|c cs IH]; intros sortPattern fieldSlots Hc Hsome.
  - destruct Hc as (Hlen & _). destruct sortPattern; [|discriminate].
    rewrite combine_nil. constructor.
  - apply ArrayChecksOf_cons in Hc.
    destruct Hc as (part & parts & slot & more & fp & -> & -> & Hf & (_ & Hev) & Hrest).
    simpl. constructor.
    + unfold partMeetsArray. simpl. rewrite Hf.
      destruct (slots slot) as [v|] eqn:Ev.
      * apply Hev. exact Ev.
      * elim (Hsome slot (or_introl eq_refl) Ev).
    + apply IH; [exact Hrest|]. intros s Hs. apply Hsome. right. exact Hs.
Qed.

(** The guard of two parts fails exactly when both checks are true. *)
Lemma guard_of_two_eval slots locals c0 c1 b0 b1 :
  Runtime.eval slots locals c0 = Runtime.Returns (Some (Runtime.VBoolean b0)) ->
  Runtime.eval slots locals c1 = Runtime.Returns (Some (Runtime.VBoolean b1)) ->
  Runtime.eval slots locals
    (makeBinaryOp logicOr (makeNot c0)
       (makeBinaryOp logicOr (makeNot c1) parallelArraysError))
  = if b0 && b1 then Runtime.Fails BadValue
    else Runtime.Returns (Some (Runtime.VBoolean true)).
Proof.
  intros H0 H1. unfold makeBinaryOp, makeNot, parallelArraysError.
  cbn [Runtime.eval]. rewrite H0, H1. destruct b0, b1; reflexivity.
Qed.

(** The sum of the checks evaluates to the number of those that are true. *)
Lemma sum_of_checks_eval slots locals (met : SlotId * SortPatternPart -> bool) :
  forall cs entries acc n,
    Forall2 (fun c entry =>
               Runtime.eval slots locals c
               = Runtime.Returns (Some (Runtime.VBoolean (met entry))))
            cs entries ->
    Runtime.eval slots locals acc = Runtime.Returns (Some (Runtime.VNumber n)) ->
    Runtime.eval slots locals
      (fold_left (fun acc c => makeBinaryOp add acc
                                 (makeBinaryOp cmp3w c (EConstant (CBoolean false))))
                 cs acc)
    = Runtime.Returns
        (Some (Runtime.VNumber (n + Z.of_nat (length (filter met entries))))).
Proof.
  induction cs as [|c cs IH]; intros entries acc n Hall Hacc; inversion Hall; subst.
  - simpl. rewrite Z.add_0_r. exact Hacc.
  - cbn [fold_left].
    match goal with
    | Hc : Runtime.eval slots locals c = _, Hr : Forall2 _ cs ?l' |- _ =>
        rewrite (IH l' _ (n + Z.b2z (met y))%Z Hr)
    end.
    + cbn [filter]. destruct (met y); cbn [length Z.b2z]; do 3 f_equal; lia.
    + unfold makeBinaryOp. cbn [Runtime.eval]. rewrite Hacc.
      match goal with Hc : Runtime.eval slots locals c = _ |- _ => rewrite Hc end.
      destruct (met y); reflexivity.
Qed.

Lemma guard_of_two_fails sortPattern fieldSlots c0 c1 :
  ArrayChecksOf sortPattern fieldSlots [c0; c1] ->
  length fieldSlots = length sortPattern ->
  FailsOnParallelArrays fieldSlots sortPattern
    (makeBinaryOp logicOr (makeNot c0)
       (makeBinaryOp logicOr (makeNot c1) parallelArraysError)).
Proof.
  intros Hc Hlen slots locals Hsome.
  pose proof (@ArrayChecksOf_eval slots locals _ _ _ Hc Hsome) as Hall.
  unfold arraysMet.
  set (entries := combine fieldSlots sortPattern) in *. clearbody entries.
  inversion Hall as [|? e0 ? l0 H0 Hrest]; subst.
  inversion Hrest as [|? e1 ? l1 H1 Hnil]; subst. inversion Hnil; subst.
  rewrite (@guard_of_two_eval _ _ _ _ _ _ H0 H1). cbn [filter].
  destruct (partMeetsArray slots e0), (partMeetsArray slots e1); reflexivity.
Qed.

Lemma guard_of_many_fails sortPattern fieldSlots c0 cs :
  ArrayChecksOf sortPattern fieldSlots (c0 :: cs) ->
  length fieldSlots = length sortPattern ->
  FailsOnParallelArrays fieldSlots sortPattern
    (makeBinaryOp logicOr
       (makeBinaryOp lessEq (sumArrayChecks c0 cs) (EConstant (CInt32 1)))
       parallelArraysError).
Proof.
  intros Hc Hlen slots locals Hsome.
  pose proof (@ArrayChecksOf_eval slots locals _ _ _ Hc Hsome) as Hall.
  unfold arraysMet.
  set (entries := combine fieldSlots sortPattern) in *. clearbody entries.
  inversion Hall as [|? e0 ? l0 H0 Hrest]; subst.
  assert (Hfirst : Runtime.eval slots locals
                     (makeBinaryOp cmp3w c0 (EConstant (CBoolean false)))
                   = Runtime.Returns
                       (Some (Runtime.VNumber (Z.b2z (partMeetsArray slots e0))))).
  { unfold makeBinaryOp. cbn [Runtime.eval]. rewrite H0.
    destruct (partMeetsArray slots e0); reflexivity. }
  pose proof (@sum_of_checks_eval slots locals (partMeetsArray slots) _ _ _ _
                Hrest Hfirst) as Hsum.
  unfold makeBinaryOp, parallelArraysError, sumArrayChecks in *.
  cbn [Runtime.eval]. unfold makeBinaryOp in *. rewrite Hsum.
  cbn [Runtime.constantValue Runtime.binary filter].
  destruct (partMeetsArray slots e0); cbn [Z.b2z length];
    generalize (length (filter (partMeetsArray slots) l0)); intros k;
    match goal with
    | |- context [Z.leb ?x ?y] => destruct (Z.leb_spec x y)
    end;
    match goal with
    | |- context [Nat.leb ?x ?y] => destruct (Nat.leb_spec x y)
    end; try reflexivity; lia.
Qed.

(** The slot of a top-level field holds the field, or null when it is
    missing: it is never Nothing. *)
Lemma topFieldExpr_eval slots locals r doc part :
  slots r = Some doc ->
  Runtime.eval slots locals (topFieldExpr r part)
  = Runtime.Returns
      (Some (Runtime.fieldOrNull doc (match fieldPath part with
                                      | Some fp => fp_first fp
                                      | None => EmptyString
                                      end))).
Proof.
  intros Hr. unfold topFieldExpr. apply fieldExpr_eval. simpl. rewrite Hr. reflexivity.
Qed.

Lemma generateSortKeyTraversal_top inputStage inputSlot name rest dir nodeId mk st
      out stage st' :
  generateSortKeyTraversal inputStage inputSlot name rest dir 0 nodeId mk st
  = (Ok (out, stage), st') ->
  exists inner traverseSlot innerSlot foldExpr final,
    stage = ProjectStage
              (TraverseStage inputStage inner inputSlot traverseSlot innerSlot []
                             foldExpr None nodeId 1)
              [(out, final)] nodeId.
Proof.
  destruct rest; simpl; intros H; minv; unfold makeProjectStage; eauto 10.
Qed.

Lemma setNth_length (A : Type) i (a : A) l : length (setNth i a l) = length l.
Proof.
  revert i. induction l as [|x l IH]; intros [|i]; simpl; auto.
Qed.

Lemma nth_error_setNth_other (A : Type) i j (a : A) l :
  i <> j -> nth_error (setNth i a l) j = nth_error l j.
Proof.
  revert i j. induction l as [|x l IH]; intros [|i] [|j] Hne; simpl; auto; try lia.
Qed.

Lemma nth_error_setNth_same (A : Type) i (a : A) l :
  i < length l -> nth_error (setNth i a l) i = Some a.
Proof.
  revert i. induction l as [|x l IH]; intros [|i] Hlt; simpl in *; try lia; auto.
  apply IH. lia.
Qed.

(** The loop of traversals builds a chain over the slots from [idx] on and
    overwrites exactly those slots of [orderBy]. *)
Lemma sortKeyTraversals_spec count :
  forall idx sortPattern orderBy direction inputStage nodeId coll st orderBy' stage st',
    sortKeyTraversals count idx sortPattern orderBy direction inputStage nodeId coll st
    = (Ok (orderBy', stage), st') ->
    idx + count = length orderBy ->
    exists outs,
      TraversalChain inputStage (skipn idx orderBy) stage outs /\
      orderBy' = firstn idx orderBy ++ outs.
Proof.
  induction count as [|count IH];
    intros idx sortPattern orderBy direction inputStage nodeId coll st orderBy' stage st'
           H Hlen; simpl in H.
  - minv. exists []. rewrite Nat.add_0_r in Hlen. subst idx.
    rewrite skipn_all, firstn_all, app_nil_r. split; [constructor | reflexivity].
  - minv. sortinv.
    match goal with
    | H1 : generateSortKeyTraversal _ _ _ _ _ _ _ _ _ = _ |- _ =>
        apply generateSortKeyTraversal_top in H1;
        destruct H1 as (inner & tr & ins & fo & fin & ->)
    end.
    apply IH in H; [|rewrite setNth_length; lia].
    destruct H as (outs & Hchain & ->).
    eexists (_ :: outs). split.
    + assert (Hsk : skipn idx orderBy = s :: skipn (S idx) orderBy).
      { clear - Hs. revert idx Hs. induction orderBy as [|x l IHl]; intros [|i] Hs;
          simpl in *; try discriminate.
        - inversion Hs. reflexivity.
        - apply IHl, Hs. }
      rewrite Hsk. econstructor.
      assert (Hsk' : skipn (S idx) (setNth idx s0 orderBy) = skipn (S idx) orderBy).
      { clear. revert idx. induction orderBy as [|x l IHl]; intros [|i]; simpl; auto.
        apply (IHl i). }
      rewrite Hsk' in Hchain. exact Hchain.
    + assert (Hfn : firstn (S idx) (setNth idx s0 orderBy) = firstn idx orderBy ++ [s0]).
      { assert (Hi : idx < length orderBy) by lia. clear - Hi. revert idx Hi.
        induction orderBy as [|x l IHl]; intros [|i] Hi; simpl in *; try lia; auto.
        f_equal. apply IHl. lia. }
      rewrite Hfn, <- app_assoc. reflexivity.
Qed.

Lemma TraversalChain_length bottom slots top outs :
  TraversalChain bottom slots top outs -> length outs = length slots.
Proof. induction 1; simpl; congruence. Qed.

Lemma NoDup_short (A : Type) (l : list A) : length l < 2 -> NoDup l.
Proof.
  destruct l as [|x [|y l]]; simpl; intros H; try lia; repeat constructor.
  intros [].
Qed.

(** What a successful [buildSort] did. *)
Lemma buildSort_inv ctx sn buildChild reqs st stage outputs st' :
  buildSort ctx sn buildChild reqs st = (Ok (stage, outputs), st') ->
  exists childStage st1 r keyStage orderBy direction values,
    buildChild (Reqs.set reqs kResult) st = (Ok (childStage, outputs), st1) /\
    Slots.getIfExists outputs kResult = Some r /\
    stage = SortStage keyStage orderBy direction values
                      (if N.eqb (sn_limit sn) 0 then sizeMax else sn_limit sn)
                      (sn_maxMemoryUsageBytes sn) (expCtx_allowDiskUse ctx)
                      (sn_nodeId sn) /\
    (NoDup (topLevelFields (sn_pattern sn)) ->
     exists fieldSlots guard guarded st2 st3,
       length fieldSlots = length (sn_pattern sn) /\
       failOnParallelArrays (sn_pattern sn) fieldSlots st2 = (Ok guard, st3) /\
       match guard with
       | None =>
           guarded = ProjectStage childStage
                       (combine fieldSlots (map (topFieldExpr r) (sn_pattern sn)))
                       (sn_nodeId sn)
       | Some e =>
           exists s,
             guarded = ProjectStage
                         (ProjectStage childStage
                            (combine fieldSlots (map (topFieldExpr r) (sn_pattern sn)))
                            (sn_nodeId sn))
                         [(s, e)] (sn_nodeId sn)
       end /\
       TraversalChain guarded fieldSlots keyStage orderBy /\
       direction = map sortDirectionOf (sn_pattern sn)) /\
    (~ NoDup (topLevelFields (sn_pattern sn)) ->
     exists s,
       keyStage = ProjectStage childStage
                    [(s, makeFunction "generateSortKey"
                           [EConstant (CSortSpec (sn_pattern sn) (cq_hasCollator ctx));
                            makeVariable r])]
                    (sn_nodeId sn) /\
       orderBy = [s] /\ direction = [Ascending] /\ 2 <= length (sn_pattern sn)).
Proof.
  unfold buildSort. intros H. minv.
  match goal with
  | Hp : sortPrefixLoop _ _ _ _ _ = _ |- _ =>
      apply sortPrefixLoop_spec in Hp; destruct Hp as (-> & -> & Hall & Hiff)
  end.
  match goal with
  | Hb : (if negb ?h then _ else _) _ = _ |- _ => destruct h eqn:Eh; cbn [negb] in Hb
  end.
  - (* the parts share a top-level field *)
    unfold generateMultiple in *. minv.
    match goal with
    | Hi : nth_error [_] 0 = Some _ |- _ => simpl in Hi; inversion Hi; subst; clear Hi
    end.
    assert (Hnd : ~ NoDup (topLevelFields (sn_pattern sn))).
    { intros Hnd. assert (true = false); [|discriminate].
      apply Hiff. repeat split; auto. }
    do 7 eexists. split; [eassumption|]. split; [eassumption|].
    split; [reflexivity|]. split; [intros Hn; contradiction|].
    intros _. eexists. split; [|split; [|split]].
    + reflexivity.
    + reflexivity.
    + reflexivity.
    + destruct (le_lt_dec 2 (length (sn_pattern sn))) as [Hl | Hl]; [exact Hl|].
      elim Hnd. apply NoDup_short. unfold topLevelFields. rewrite length_map. exact Hl.
  - (* no two parts share a top-level field *)
    minv.
    assert (Hnd : NoDup (topLevelFields (sn_pattern sn))).
    { apply Hiff. reflexivity. }
    assert (Hne : sn_pattern sn <> []).
    { intros Hn. rewrite Hn in *. discriminate. }
    match goal with
    | Ht : sortTopLevelFields _ _ _ _ _ = _ |- _ =>
        destruct (sortTopLevelFields_result _ _ _ _ Hne Ht) as (r & Hr);
        apply (sortTopLevelFields_spec _ Hr) in Ht;
        [destruct Ht as (Hob & Hpm & _) | intros ? ? []]
    end.
    simpl in Hob, Hpm. subst.
    match goal with
    | Hk : sortKeyTraversals _ _ _ _ _ _ _ _ _ = _ |- _ =>
        apply sortKeyTraversals_spec in Hk; [|reflexivity];
        destruct Hk as (outs & Hchain & ->)
    end.
    simpl firstn in *. simpl skipn in *. simpl app in *.
    do 7 eexists. split; [eassumption|]. split; [exact Hr|].
    split; [reflexivity|]. split; [|intros Hn; contradiction].
    intros _. do 5 eexists. split; [apply length_seq|].
    split; [eassumption|]. split; [|split; [exact Hchain | reflexivity]].
    match goal with
    | Hg : match ?g with Some _ => _ | None => _ end _ = _ |- _ =>
        destruct g; minv; [eexists; reflexivity | reflexivity]
    end.
Qed.

Lemma build_sort X ctx simple sn child reqs :
  build X ctx (QSort simple sn child) reqs = buildSort ctx sn (build X ctx child) reqs.
Proof. destruct simple; reflexivity. Qed.

(** C6. A sort node is lowered to a sort stage over the child built with
    the result required.  The sort stage has one sort-key slot for every part
    of the pattern if and only if no two parts share their top-level field.
    In that case (the fast regime) the keys come from a chain of traversals,
    one for each part, over slots that a projection fills with getField of
    the top-level fields, and the directions are those of the parts;
    otherwise there is a single key slot, ascending, that a projection fills
    with generateSortKey(sortSpec, result). *)
Theorem sort_regime_selection X ctx simple sn child reqs st stage outputs st' :
  build X ctx (QSort simple sn child) reqs st = (Ok (stage, outputs), st') ->
  exists childStage st1 r keyStage orderBy direction values,
    build X ctx child (Reqs.set reqs kResult) st = (Ok (childStage, outputs), st1) /\
    Slots.getIfExists outputs kResult = Some r /\
    stage = SortStage keyStage orderBy direction values
                      (if N.eqb (sn_limit sn) 0 then sizeMax else sn_limit sn)
                      (sn_maxMemoryUsageBytes sn) (expCtx_allowDiskUse ctx)
                      (sn_nodeId sn) /\
    (length orderBy = length (sn_pattern sn)
     <-> NoDup (topLevelFields (sn_pattern sn))) /\
    (NoDup (topLevelFields (sn_pattern sn)) ->
     exists fieldSlots guarded,
       let base :=
         ProjectStage childStage
                      (combine fieldSlots (map (topFieldExpr r) (sn_pattern sn)))
                      (sn_nodeId sn) in
       length fieldSlots = length (sn_pattern sn) /\
       (guarded = base \/ exists s e, guarded = ProjectStage base [(s, e)] (sn_nodeId sn)) /\
       TraversalChain guarded fieldSlots keyStage orderBy /\
       direction = map sortDirectionOf (sn_pattern sn)) /\
    (~ NoDup (topLevelFields (sn_pattern sn)) ->
     exists s,
       keyStage = ProjectStage childStage
                    [(s, makeFunction "generateSortKey"
                           [EConstant (CSortSpec (sn_pattern sn) (cq_hasCollator ctx));
                            makeVariable r])]
                    (sn_nodeId sn) /\
       orderBy = [s] /\ direction = [Ascending]).
Proof.
  rewrite build_sort. intros H. apply buildSort_inv in H.
  destruct H as (childStage & st1 & r & keyStage & orderBy & direction & values
                 & Hchild & Hr & -> & Hfast & Hslow).
  exists childStage, st1, r, keyStage, orderBy, direction, values.
  split; [exact Hchild|]. split; [exact Hr|]. split; [reflexivity|].
  split; [|split].
  - split.
    + intros Hlen.
      destruct (ListDec.NoDup_dec string_dec (topLevelFields (sn_pattern sn)))
        as [Hnd | Hnd]; [exact Hnd|].
      destruct (Hslow Hnd) as (s & _ & -> & _ & Hge). simpl in Hlen. lia.
    + intros Hnd.
      destruct (Hfast Hnd) as (fieldSlots & guard & guarded & st2 & st3
                               & Hlen & _ & _ & Hchain & _).
      rewrite (TraversalChain_length Hchain). exact Hlen.
  - intros Hnd.
    destruct (Hfast Hnd) as (fieldSlots & guard & guarded & st2 & st3
                             & Hlen & _ & Hg & Hchain & Hdir).
    exists fieldSlots, guarded. cbv zeta.
    split; [exact Hlen|]. split; [|split; assumption].
    destruct guard as [e|]; [right | left; exact Hg].
    destruct Hg as (s & Hg). eauto.
  - intros Hnd. destruct (Hslow Hnd) as (s & Hk & Ho & Hd & _). eauto.
Qed.

Lemma sort_regime_selection_witness :
  exists stage outputs st',
    build sampleCollaborators sampleContext
          (sortOver [ascending "a" []; descending "b" []])
          (reqsOf [kResult]) initialState = (Ok (stage, outputs), st') /\
    exists keyStage orderBy direction values limit memory disk nodeId,
      stage = SortStage keyStage orderBy direction values limit memory disk nodeId /\
      (length orderBy = 2 <-> NoDup ["a"; "b"]).
Proof.
  assert (Hrun : exists stage outputs st',
             build sampleCollaborators sampleContext
                   (sortOver [ascending "a" []; descending "b" []])
                   (reqsOf [kResult]) initialState = (Ok (stage, outputs), st'))
    by (eexists _, _, _; vm_compute; reflexivity).
  destruct Hrun as (stage & outputs & st' & Hrun).
  exists stage, outputs, st'. split; [exact Hrun|].
  destruct (sort_regime_selection _ _ _ _ _ _ _ Hrun)
    as (childStage & st1 & r & keyStage & orderBy & direction & values
        & _ & _ & Hstage & Hiff & _).
  do 8 eexists. split; [exact Hstage | exact Hiff].
Defined.

(** C7. In the fast regime (no two parts share their top-level field) the
    projection of the top-level fields, which leaves in the slot of every
    part its top-level field or null, is followed by the parallel-arrays
    guard: nothing for a pattern of one part; for two parts a projection of
    (not c0) or ((not c1) or fail BadValue); for three and more parts a
    projection of (sum of the checks <= 1) or fail BadValue.  Here c_i is
    the array check of the path of part i: isArray of its slot, or-ed for a
    dotted path with a check of the levels below, and it evaluates to
    whether the path meets an array at any level.  In both shapes the guard
    fails with BadValue when more than one sort-key path meets an array and
    is true otherwise.  In the other regime the only expression the builder
    adds is the call of generateSortKey, and no guard. *)
Theorem sort_parallel_arrays_guard X ctx simple sn child reqs st stage outputs st' :
  build X ctx (QSort simple sn child) reqs st = (Ok (stage, outputs), st') ->
  exists childStage st1 r keyStage orderBy direction values,
    build X ctx child (Reqs.set reqs kResult) st = (Ok (childStage, outputs), st1) /\
    Slots.getIfExists outputs kResult = Some r /\
    stage = SortStage keyStage orderBy direction values
                      (if N.eqb (sn_limit sn) 0 then sizeMax else sn_limit sn)
                      (sn_maxMemoryUsageBytes sn) (expCtx_allowDiskUse ctx)
                      (sn_nodeId sn) /\
    (NoDup (topLevelFields (sn_pattern sn)) ->
     exists fieldSlots guarded,
       let base :=
         ProjectStage childStage
                      (combine fieldSlots (map (topFieldExpr r) (sn_pattern sn)))
                      (sn_nodeId sn) in
       length fieldSlots = length (sn_pattern sn) /\
       (forall slots locals doc part,
          slots r = Some doc ->
          Runtime.eval slots locals (topFieldExpr r part)
          = Runtime.Returns
              (Some (Runtime.fieldOrNull doc (match fieldPath part with
                                              | Some fp => fp_first fp
                                              | None => EmptyString
                                              end)))) /\
       TraversalChain guarded fieldSlots keyStage orderBy /\
       (length (sn_pattern sn) < 2 -> guarded = base) /\
       (length (sn_pattern sn) = 2 ->
        exists s c0 c1 guard,
          ArrayChecksOf (sn_pattern sn) fieldSlots [c0; c1] /\
          guard = EPrimBinary logicOr (EPrimUnary logicNot c0)
                    (EPrimBinary logicOr (EPrimUnary logicNot c1)
                       (EFail BadValue "cannot sort with keys that are parallel arrays")) /\
          guarded = ProjectStage base [(s, guard)] (sn_nodeId sn) /\
          FailsOnParallelArrays fieldSlots (sn_pattern sn) guard) /\
       (3 <= length (sn_pattern sn) ->
        exists s c0 cs guard,
          ArrayChecksOf (sn_pattern sn) fieldSlots (c0 :: cs) /\
          guard = EPrimBinary logicOr
                    (EPrimBinary lessEq (sumArrayChecks c0 cs) (EConstant (CInt32 1)))
                    (EFail BadValue "cannot sort with keys that are parallel arrays") /\
          guarded = ProjectStage base [(s, guard)] (sn_nodeId sn) /\
          FailsOnParallelArrays fieldSlots (sn_pattern sn) guard)) /\
    (~ NoDup (topLevelFields (sn_pattern sn)) ->
     2 <= length (sn_pattern sn) /\
     exists s,
       keyStage = ProjectStage childStage
                    [(s, makeFunction "generateSortKey"
                           [EConstant (CSortSpec (sn_pattern sn) (cq_hasCollator ctx));
                            makeVariable r])]
                    (sn_nodeId sn)).
Proof.
  rewrite build_sort. intros H. apply buildSort_inv in H.
  destruct H as (childStage & st1 & r & keyStage & orderBy & direction & values
                 & Hchild & Hr & -> & Hfast & Hslow).
  exists childStage, st1, r, keyStage, orderBy, direction, values.
  split; [exact Hchild|]. split; [exact Hr|]. split; [reflexivity|]. split.
  - intros Hnd.
    destruct (Hfast Hnd) as (fieldSlots & guard & guarded & st2 & st3
                             & Hlen & Hguard & Hg & Hchain & Hdir).
    apply failOnParallelArrays_spec in Hguard. destruct Hguard as (H1 & H2 & H3).
    exists fieldSlots, guarded. cbv zeta. split; [exact Hlen|].
    split; [intros slots locals doc part Hdoc; apply topFieldExpr_eval; exact Hdoc|].
    split; [exact Hchain|]. split; [|split].
    + intros Hl. rewrite (H1 Hl) in Hg. exact Hg.
    + intros Hl. destruct (H2 Hl) as (c0 & c1 & Hc & Hgd). rewrite Hgd in Hg.
      destruct Hg as (s & Hg). eexists s, c0, c1, _.
      split; [exact Hc|]. split; [reflexivity|]. split; [exact Hg|].
      apply guard_of_two_fails; assumption.
    + intros Hl. destruct (H3 Hl) as (c0 & cs & Hc & Hgd). rewrite Hgd in Hg.
      destruct Hg as (s & Hg). eexists s, c0, cs, _.
      split; [exact Hc|]. split; [reflexivity|]. split; [exact Hg|].
      apply guard_of_many_fails; assumption.
  - intros Hnd. destruct (Hslow Hnd) as (s & Hk & _ & _ & Hge).
    split; [exact Hge|]. exists s. exact Hk.
Qed.

Lemma sort_parallel_arrays_guard_witness :
  exists stage outputs st',
    build sampleCollaborators sampleContext
          (sortOver [ascending "a" []; descending "b" ["c"]])
          (reqsOf [kResult]) initialState = (Ok (stage, outputs), st') /\
    exists keyStage orderBy direction values limit memory disk nodeId,
      stage = SortStage keyStage orderBy direction values limit memory disk nodeId /\
      exists fieldSlots base s guard,
        TraversalChain (ProjectStage base [(s, guard)] 2) fieldSlots keyStage orderBy /\
        Runtime.eval (fun _ => Some (Runtime.VArray [])) [] guard
        = Runtime.Fails BadValue.
Proof.
  assert (Hrun : exists stage outputs st',
             build sampleCollaborators sampleContext
                   (sortOver [ascending "a" []; descending "b" ["c"]])
                   (reqsOf [kResult]) initialState = (Ok (stage, outputs), st'))
    by (eexists _, _, _; vm_compute; reflexivity).
  destruct Hrun as (stage & outputs & st' & Hrun).
  exists stage, outputs, st'. split; [exact Hrun|].
  destruct (sort_parallel_arrays_guard _ _ _ _ _ _ _ Hrun)
    as (childStage & st1 & r & keyStage & orderBy & direction & values
        & _ & _ & Hstage & Hfast & _).
  do 8 eexists. split; [exact Hstage|].
  assert (Hnd : NoDup (topLevelFields [ascending "a" []; descending "b" ["c"]])).
  { simpl. constructor; [intros [E | []]; discriminate E|].
    constructor; [intros []| constructor]. }
  destruct (Hfast Hnd) as (fieldSlots & guarded & Hlen & _ & Hchain & _ & Htwo & _).
  destruct (Htwo eq_refl) as (s & c0 & c1 & guard & _ & _ & Hguarded & Hfails).
  rewrite Hguarded in Hchain.
  eexists fieldSlots, _, s, guard. split; [exact Hchain|].
  rewrite (Hfails (fun _ => Some (Runtime.VArray [])) []
                  (fun slot _ E => ltac:(discriminate E))).
  destruct fieldSlots as [|x [|y [|z more]]]; try discriminate Hlen. reflexivity.
Defined.

(** C7, as stated, fails: the pattern a.b, a.c has two parts, and the plan
    that the builder makes for it has no expression that can fail. *)
Lemma sort_shared_prefix_has_no_guard :
  exists stage outputs st',
    build sampleCollaborators sampleContext
          (sortOver [ascending "a" ["b"]; ascending "a" ["c"]])
          (reqsOf [kResult]) initialState = (Ok (stage, outputs), st') /\
    2 <= length [ascending "a" ["b"]; ascending "a" ["c"]] /\
    stageHasFail stage = false.
Proof.
  eexists _, _, _. split; [vm_compute; reflexivity|]. split; [simpl; lia | reflexivity].
Qed.

(* ===================================================================== *)
(** * The union for tailable scans *)
(* ===================================================================== *)

(** With the flag is-building-union set, [build] goes to the translator. *)
Lemma build_when_building X ctx root reqs :
  hasStageBuilder (getType root) = true ->
  reqs_isBuildingUnionForTailableCollScan reqs = true ->
  build X ctx root reqs = invoke X ctx root reqs.
Proof.
  intros Hs Hb. unfold build, buildWith. rewrite Hs, Hb, andb_false_r. reflexivity.
Qed.

Lemma run_eta (A : Type) (m : M A) st :
  match m st with
  | (Ok a, st') => (Ok a, st')
  | (Fail e, st') => (Fail e, st')
  end = m st.
Proof. destruct (m st) as [[a|e] st']; reflexivity. Qed.

(** When the flag of the resume branch is set, a limit is the plan below
    it and a skip is the plan of its child. *)
Lemma limit_in_resume_branch X ctx nodeId limit child reqs st :
  reqs_isBuildingUnionForTailableCollScan reqs = true ->
  reqs_isTailableCollScanResumeBranch reqs = true ->
  build X ctx (QLimit nodeId limit child) reqs st
  = build X ctx (belowLimit child) reqs st.
Proof.
  intros Hb Hr. rewrite build_when_building by (reflexivity || exact Hb).
  simpl. unfold buildLimit. rewrite Hr. simpl.
  change (buildWith ctx (invoke X ctx ?c) ?c) with (build X ctx c).
  destruct child; simpl; unfold bind;
    match goal with
    | |- context [build X ctx ?c reqs st] =>
        destruct (build X ctx c reqs st) as [[[stage outputs]|e] st1]; reflexivity
    end.
Qed.

Lemma skip_in_resume_branch X ctx nodeId skip child reqs st :
  reqs_isBuildingUnionForTailableCollScan reqs = true ->
  reqs_isTailableCollScanResumeBranch reqs = true ->
  build X ctx (QSkip nodeId skip child) reqs st = build X ctx child reqs st.
Proof.
  intros Hb Hr. rewrite build_when_building by (reflexivity || exact Hb).
  simpl. unfold buildSkip. rewrite Hr. simpl.
  change (buildWith ctx (invoke X ctx ?c) ?c) with (build X ctx c).
  unfold bind.
  destruct (build X ctx child reqs st) as [[[stage outputs]|e] st1]; reflexivity.
Qed.

(** In the anchor branch the limit-skip stage is made. *)
Lemma limit_in_anchor_branch X ctx nodeId limit child reqs st stage outputs st' :
  reqs_isBuildingUnionForTailableCollScan reqs = true ->
  reqs_isTailableCollScanResumeBranch reqs = false ->
  build X ctx (QLimit nodeId limit child) reqs st = (Ok (stage, outputs), st') ->
  exists inner,
    stage = LimitSkipStage inner (Some limit) (fusedSkip child) nodeId /\
    build X ctx (belowLimit child) reqs st = (Ok (inner, outputs), st').
Proof.
  intros Hb Hr. rewrite build_when_building by (reflexivity || exact Hb).
  simpl. unfold buildLimit. rewrite Hr. simpl.
  change (buildWith ctx (invoke X ctx ?c) ?c) with (build X ctx c).
  destruct child; simpl; intros H; minv; eexists; split; try reflexivity; assumption.
Qed.

Lemma skip_in_anchor_branch X ctx nodeId skip child reqs st stage outputs st' :
  reqs_isBuildingUnionForTailableCollScan reqs = true ->
  reqs_isTailableCollScanResumeBranch reqs = false ->
  build X ctx (QSkip nodeId skip child) reqs st = (Ok (stage, outputs), st') ->
  exists inner,
    stage = LimitSkipStage inner None (Some skip) nodeId /\
    build X ctx child reqs st = (Ok (inner, outputs), st').
Proof.
  intros Hb Hr. rewrite build_when_building by (reflexivity || exact Hb).
  simpl. unfold buildSkip. rewrite Hr. simpl.
  change (buildWith ctx (invoke X ctx ?c) ?c) with (build X ctx c).
  intros H; minv; eexists; split; try reflexivity; assumption.
Qed.

Lemma registerSlot_ok name s st st' :
  registerSlot name st = (Ok s, st') ->
  In (name, s) (env st') /\ slotIdGenerator st' = S (slotIdGenerator st).
Proof.
  unfold registerSlot, bind, generateSlotId. simpl. intros H. inversion H; subst. simpl.
  split; [apply in_or_app; right; left; reflexivity | reflexivity].
Qed.

(** What [makeUnionForTailableCollScan] makes. *)
Lemma makeUnion_inv nodeId buildRoot reqs st stage outputs st' :
  makeUnionForTailableCollScan nodeId buildRoot reqs st = (Ok (stage, outputs), st') ->
  exists rid anchor anchorOut resume resumeOut anchorSlots resumeSlots outSlots
         stA stA' stR stR',
    In ("resumeRecordId", rid) (env stA) /\
    buildRoot (Reqs.setIsTailableCollScanResumeBranch reqs false) stA
    = (Ok (anchor, anchorOut), stA') /\
    buildRoot (Reqs.setIsTailableCollScanResumeBranch reqs true) stR
    = (Ok (resume, resumeOut), stR') /\
    stage = UnionStage
              [FilterStage true anchor (makeNot (existsResume rid)) nodeId;
               FilterStage true (LimitSkipStage resume None (Some 1) nodeId)
                           (existsResume rid) nodeId]
              [anchorSlots; resumeSlots] outSlots nodeId /\
    (forall k, Slots.has outputs k = Reqs.has reqs k).
Proof.
  unfold makeUnionForTailableCollScan. intros H. minv.
  match goal with
  | Hr : registerSlot _ _ = _ |- _ => apply registerSlot_ok in Hr; destruct Hr as (Hin & _)
  end.
  match goal with
  | Hm : makePlanStageSlots _ _ = _ |- _ =>
      apply makePlanStageSlots_ok in Hm; destruct Hm as (Hk & _)
  end.
  do 12 eexists. split; [exact Hin|]. split; [eassumption|]. split; [eassumption|].
  split; [reflexivity | exact Hk].
Qed.

(** C2 (amended). When the tailable rewrite fires, the plan is a union of
    two branches over the same node: the anchor branch under a constant
    filter not exists(resumeRecordId), and the resume branch under a
    limit-skip stage with no limit and skip 1, under a constant filter
    exists(resumeRecordId).  In the anchor branch a limit or skip node makes
    its limit-skip stage; in the resume branch the plan of a limit or skip
    node is the plan of the node below it. *)
Theorem tailable_union_branches X ctx root reqs st stage outputs st' :
  isTailableSplitPoint (getType root) = true ->
  cq_tailable ctx = true ->
  reqs_isBuildingUnionForTailableCollScan reqs = false ->
  build X ctx root reqs st = (Ok (stage, outputs), st') ->
  let unionReqs := Reqs.setIsBuildingUnionForTailableCollScan reqs true in
  let anchorReqs := Reqs.setIsTailableCollScanResumeBranch unionReqs false in
  let resumeReqs := Reqs.setIsTailableCollScanResumeBranch unionReqs true in
  (exists rid anchor anchorOut resume resumeOut anchorSlots resumeSlots outSlots
          stA stA' stR stR',
     In ("resumeRecordId", rid) (env stA) /\
     build X ctx root anchorReqs stA = (Ok (anchor, anchorOut), stA') /\
     build X ctx root resumeReqs stR = (Ok (resume, resumeOut), stR') /\
     stage = UnionStage
               [FilterStage true anchor
                            (EPrimUnary logicNot (EFunction "exists" [EVariable rid]))
                            (nodeId root);
                FilterStage true (LimitSkipStage resume None (Some 1) (nodeId root))
                            (EFunction "exists" [EVariable rid]) (nodeId root)]
               [anchorSlots; resumeSlots] outSlots (nodeId root)) /\
  (forall n limit child s stage1 outputs1 s',
     build X ctx (QLimit n limit child) anchorReqs s = (Ok (stage1, outputs1), s') ->
     exists inner,
       stage1 = LimitSkipStage inner (Some limit) (fusedSkip child) n /\
       build X ctx (belowLimit child) anchorReqs s = (Ok (inner, outputs1), s')) /\
  (forall n skip child s stage1 outputs1 s',
     build X ctx (QSkip n skip child) anchorReqs s = (Ok (stage1, outputs1), s') ->
     exists inner,
       stage1 = LimitSkipStage inner None (Some skip) n /\
       build X ctx child anchorReqs s = (Ok (inner, outputs1), s')) /\
  (forall n limit child s,
     build X ctx (QLimit n limit child) resumeReqs s
     = build X ctx (belowLimit child) resumeReqs s) /\
  (forall n skip child s,
     build X ctx (QSkip n skip child) resumeReqs s = build X ctx child resumeReqs s).
Proof.
  intros Hsplit Htail Hnot H. cbv zeta. split; [|split; [|split; [|split]]].
  - unfold build, buildWith in H. rewrite Hsplit, Htail, Hnot in H. simpl in H.
    minv.
    match goal with
    | Hu : makeUnionForTailableCollScan _ _ _ _ = _ |- _ =>
        apply makeUnion_inv in Hu;
        destruct Hu as (rid & anchor & anchorOut & resume & resumeOut & anchorSlots
                        & resumeSlots & outSlots & stA & stA' & stR & stR'
                        & Hin & Ha & Hr & -> & _)
    end.
    assert (Hsup : hasStageBuilder (getType root) = true)
      by (destruct root as [| | | | | | [|] | | | | | [|] | | | | | | | |]; try reflexivity;
          discriminate Hsplit).
    exists rid, anchor, anchorOut, resume, resumeOut, anchorSlots, resumeSlots, outSlots,
      stA, stA', stR, stR'.
    split; [exact Hin|].
    rewrite !build_when_building by (exact Hsup || reflexivity).
    split; [exact Ha|]. split; [exact Hr | reflexivity].
  - intros n limit child s stage1 outputs1 s'.
    apply limit_in_anchor_branch; reflexivity.
  - intros n skip child s stage1 outputs1 s'.
    apply skip_in_anchor_branch; reflexivity.
  - intros n limit child s. apply limit_in_resume_branch; reflexivity.
  - intros n skip child s. apply skip_in_resume_branch; reflexivity.
Qed.

Lemma tailable_union_branches_witness :
  exists stage outputs st',
    build sampleCollaborators tailableContext tailableLimit
          (reqsOf [kResult; kRecordId]) initialState = (Ok (stage, outputs), st') /\
    exists rid anchor resume anchorSlots resumeSlots outSlots,
      stage = UnionStage
                [FilterStage true anchor
                             (EPrimUnary logicNot (EFunction "exists" [EVariable rid])) 2;
                 FilterStage true (LimitSkipStage resume None (Some 1) 2)
                             (EFunction "exists" [EVariable rid]) 2]
                [anchorSlots; resumeSlots] outSlots 2.
Proof.
  assert (Hrun : exists stage outputs st',
             build sampleCollaborators tailableContext tailableLimit
                   (reqsOf [kResult; kRecordId]) initialState
             = (Ok (stage, outputs), st'))
    by (eexists _, _, _; vm_compute; reflexivity).
  destruct Hrun as (stage & outputs & st' & Hrun).
  exists stage, outputs, st'. split; [exact Hrun|].
  destruct (@tailable_union_branches sampleCollaborators tailableContext tailableLimit
              (reqsOf [kResult; kRecordId]) initialState _ _ _
              eq_refl eq_refl eq_refl Hrun)
    as ((rid & anchor & anchorOut & resume & resumeOut & anchorSlots & resumeSlots
         & outSlots & stA & stA' & stR & stR' & _ & _ & _ & Hstage) & _).
  exists rid, anchor, resume, anchorSlots, resumeSlots, outSlots. exact Hstage.
Defined.

(** C2, as stated, fails: in the plan of a tailable collection scan under
    limit 10 the resume branch is wrapped by a limit-skip stage with no limit
    and skip 1, not by a limit 1; the anchor branch has the limit 10 and the
    resume branch is the bare scan. *)
Lemma tailable_resume_branch_is_skip_not_limit :
  exists anchor resume rid anchorSlots resumeSlots outSlots outputs st',
    build sampleCollaborators tailableContext tailableLimit
          (reqsOf [kResult; kRecordId]) initialState
    = (Ok (UnionStage
             [FilterStage true (LimitSkipStage anchor (Some 10) None 2)
                          (EPrimUnary logicNot (EFunction "exists" [EVariable rid])) 2;
              FilterStage true (LimitSkipStage resume None (Some 1) 2)
                          (EFunction "exists" [EVariable rid]) 2]
             [anchorSlots; resumeSlots] outSlots 2,
           outputs), st') /\
    anchor = GeneratedStage "scan" [] [2; 3] 1 /\
    resume = GeneratedStage "scan" [] [4; 5] 1 /\
    (None : option nat) <> Some 1.
Proof.
  do 8 eexists. split; [vm_compute; reflexivity|].
  split; [reflexivity|]. split; [reflexivity | discriminate].
Qed.

(* ===================================================================== *)
(** * Index-key bitsets and slot vectors *)
(* ===================================================================== *)

Lemma kMaxCompoundIndexKeys_value : kMaxCompoundIndexKeys = 32.
Proof. reflexivity. Qed.

#[local] Opaque kMaxCompoundIndexKeys.


Lemma bitTest_setbit b i j :
  bitTest (N.setbit b (N.of_nat i)) j = Nat.eqb i j || bitTest b j.
Proof.
  unfold bitTest. rewrite N.setbit_eqb. f_equal.
  destruct (Nat.eqb i j) eqn:E.
  - apply Nat.eqb_eq in E. subst. apply N.eqb_refl.
  - apply N.eqb_neq. intros H. apply Nat2N.inj in H. apply Nat.eqb_neq in E. contradiction.
Qed.

Lemma bitTest_lor a b i : bitTest (N.lor a b) i = bitTest a i || bitTest b i.
Proof. unfold bitTest. apply N.lor_spec. Qed.

Lemma bitTest_0 i : bitTest 0%N i = false.
Proof. unfold bitTest. apply N.bits_0. Qed.

Lemma bitSet_ok b i b' st st' :
  bitSet b i st = (Ok b', st') ->
  st' = st /\ i < kMaxCompoundIndexKeys /\ b' = N.setbit b (N.of_nat i).
Proof.
  unfold bitSet. destruct (i <? kMaxCompoundIndexKeys) eqn:E; intros H; minv.
  apply Nat.ltb_lt in E. repeat split; assumption.
Qed.

Lemma filter_length_le (A : Type) (f g : A -> bool) l :
  (forall x, In x l -> f x = true -> g x = true) ->
  length (filter f l) <= length (filter g l).
Proof.
  induction l as [|x l IH]; intros H; simpl; [lia|].
  assert (IH' : length (filter f l) <= length (filter g l))
    by (apply IH; intros y Hy; apply H; right; exact Hy).
  destruct (f x) eqn:Ef.
  - rewrite (H x (or_introl eq_refl) Ef). simpl. lia.
  - destruct (g x); simpl; lia.
Qed.

(** The loop of [makeIndexKeyOutputSlotsMatchingParentReqs]: when every
    position the parent wants is one the child was asked for, and the
    child's vector has a slot for every position it was asked for, the
    slots at the parent's positions are kept, in order. *)
Lemma matchingParentReqsFrom_spec parent child positions :
  forall v idx st,
    (forall i, In i positions -> bitTest parent i = true -> bitTest child i = true) ->
    idx + length (filter (bitTest child) positions) <= length v ->
    exists w,
      matchingParentReqsFrom positions parent child v idx st = (Ok w, st) /\
      length w = length (filter (bitTest parent) positions) /\
      combine (filter (bitTest parent) positions) w
      = filter (fun p => bitTest parent (fst p))
               (combine (filter (bitTest child) positions) (skipn idx v)).
Proof.
  induction positions as [|i positions IH]; intros v idx st Hsub Hlen.
  - exists []. simpl. repeat split.
  - simpl in Hlen |- *.
    assert (Hsub' : forall j, In j positions -> bitTest parent j = true ->
                              bitTest child j = true)
      by (intros j Hj; apply Hsub; right; exact Hj).
    destruct (bitTest child i) eqn:Ec.
    + simpl in Hlen.
      destruct (nth_error v idx) as [s|] eqn:Es;
        [|apply nth_error_None in Es; lia].
      assert (Hsk : skipn idx v = s :: skipn (S idx) v).
      { clear - Es. revert idx Es. induction v as [|x v IHv]; intros [|idx] Es;
          simpl in *; try discriminate.
        - inversion Es. reflexivity.
        - apply IHv, Es. }
      destruct (IH v (S idx) st Hsub' ltac:(lia)) as (w & Ew & Hl & Hc).
      rewrite Hsk. destruct (bitTest parent i) eqn:Ep.
      * exists (s :: w). unfold index, deref. rewrite Es. simpl.
        unfold bind at 1. simpl. rewrite (bind_run _ Ew). simpl.
        rewrite Ep. simpl. rewrite Hc, Hl. repeat split.
      * exists w. unfold bind at 1. simpl. rewrite (bind_run _ Ew). simpl.
        rewrite Ep. repeat split; assumption.
    + assert (Ep : bitTest parent i = false).
      { destruct (bitTest parent i) eqn:Ep; [|reflexivity].
        rewrite (Hsub i (or_introl eq_refl) Ep) in Ec. discriminate. }
      destruct (IH v idx st Hsub' Hlen) as (w & Ew & Hl & Hc).
      exists w. rewrite Ep. unfold bind at 1. simpl. rewrite (bind_run _ Ew). simpl.
      repeat split; assumption.
Qed.

Lemma narrowing_spec parent child v st :
  (forall i, i < kMaxCompoundIndexKeys -> bitTest parent i = true ->
             bitTest child i = true) ->
  length v = bitCount child ->
  exists w,
    makeIndexKeyOutputSlotsMatchingParentReqs parent child v st = (Ok w, st) /\
    length w = bitCount parent /\
    slotsByPosition parent w
    = filter (fun p => bitTest parent (fst p)) (slotsByPosition child v).
Proof.
  intros Hsub Hlen.
  assert (Hsub' : forall i, In i (seq 0 kMaxCompoundIndexKeys) ->
                            bitTest parent i = true -> bitTest child i = true).
  { intros i Hi. apply in_seq in Hi. apply Hsub. lia. }
  destruct (@matchingParentReqsFrom_spec parent child (seq 0 kMaxCompoundIndexKeys)
              v 0 st Hsub') as (w & Ew & Hl & Hc).
  { rewrite Hlen, Nat.add_0_l. unfold bitCount. apply Nat.le_refl. }
  exists w. unfold makeIndexKeyOutputSlotsMatchingParentReqs, tassert.
  assert (Hle : (bitCount parent <=? bitCount child) = true).
  { apply Nat.leb_le. unfold bitCount. apply filter_length_le. exact Hsub'. }
  rewrite Hle. unfold bind at 1. simpl. split; [exact Ew|].
  split; [exact Hl | exact Hc].
Qed.

Lemma narrowing_ok parent child v st w st' :
  makeIndexKeyOutputSlotsMatchingParentReqs parent child v st = (Ok w, st') ->
  (forall i, i < kMaxCompoundIndexKeys -> bitTest parent i = true ->
             bitTest child i = true) ->
  length v = bitCount child ->
  st' = st /\ length w = bitCount parent /\
  slotsByPosition parent w
  = filter (fun p => bitTest parent (fst p)) (slotsByPosition child v).
Proof.
  intros H Hsub Hlen.
  destruct (@narrowing_spec parent child v st Hsub Hlen) as (w0 & E & Hl & Hc).
  rewrite E in H. inversion H; subst. repeat split; assumption.
Qed.

Lemma setAllBits_spec n :
  forall i b st b' st',
    setAllBits n i b st = (Ok b', st') ->
    st' = st /\ (n = 0 \/ i + n <= kMaxCompoundIndexKeys) /\
    forall j, bitTest b' j = true <-> (bitTest b j = true \/ (i <= j /\ j < i + n)).
Proof.
  induction n as [|n IH]; intros i b st b' st' H; simpl in H.
  - minv. split; [reflexivity|]. split; [left; reflexivity|].
    intros j. split; [intros Hj; left; exact Hj | intros [Hj | Hj]; [exact Hj | lia]].
  - minv.
    match goal with
    | Hb : bitSet _ _ _ = _ |- _ => apply bitSet_ok in Hb; destruct Hb as (-> & Hlt & ->)
    end.
    apply IH in H. destruct H as (-> & Hbound & Hbits).
    split; [reflexivity|]. split; [right; destruct Hbound; lia|].
    intros j. rewrite Hbits, bitTest_setbit, orb_true_iff, Nat.eqb_eq.
    split.
    + intros [[Hj | Hj] | Hj]; [right; lia | left; exact Hj | right; lia].
    + intros [Hj | Hj]; [left; right; exact Hj|].
      destruct (Nat.eq_dec i j) as [He | He]; [left; left; exact He | right; lia].
Qed.

Lemma getIndexKeySlots_set o k s :
  Slots.getIndexKeySlots (Slots.set o k s) = Slots.getIndexKeySlots o.
Proof. reflexivity. Qed.

Lemma has_setIndexKeySlots o v k :
  Slots.has (Slots.setIndexKeySlots o v) k = Slots.has o k.
Proof. reflexivity. Qed.

Lemma indexScanBitset_ok ixn reqs st b st' :
  indexScanBitset ixn reqs st = (Ok b, st') ->
  st' = st /\
  if Reqs.has reqs kReturnKey || Reqs.has reqs kResult
  then (forall i, bitTest b i = true <-> i < length (ixn_keyPattern ixn)) /\
       length (ixn_keyPattern ixn) <= kMaxCompoundIndexKeys
  else b = match reqs_indexKeyBitset reqs with Some p => p | None => 0%N end.
Proof.
  unfold indexScanBitset.
  destruct (Reqs.has reqs kReturnKey || Reqs.has reqs kResult); intros H.
  - apply setAllBits_spec in H. destruct H as (-> & Hb & Hbits).
    split; [reflexivity|]. split.
    + intros i. rewrite Hbits, bitTest_0. split.
      * intros [Hi | Hi]; [discriminate | lia].
      * intros Hi. right. lia.
    + destruct Hb as [-> | Hb]; [lia | exact Hb].
  - destruct (reqs_indexKeyBitset reqs); minv; split; reflexivity.
Qed.

(** What a successful [buildIndexScan] did. *)
Lemma buildIndexScan_inv X ixn reqs st stage outputs st' :
  GeneratorsOk X ->
  buildIndexScan X ixn reqs st = (Ok (stage, outputs), st') ->
  exists requested bodyStage bodyOutputs full st1,
    indexScanBitset ixn reqs st = (Ok requested, st) /\
    generateIndexScan X ixn requested st = (Ok (bodyStage, bodyOutputs), st1) /\
    Slots.getIndexKeySlots bodyOutputs = Some full /\
    length full = bitCount requested /\
    Reqs.has reqs kOplogTs = false /\
    Slots.has outputs kRecordId = true /\
    (Reqs.has reqs kReturnKey = true -> Slots.has outputs kReturnKey = true) /\
    (Reqs.has reqs kResult = true -> Slots.has outputs kResult = true) /\
    match reqs_indexKeyBitset reqs with
    | None => Slots.getIndexKeySlots outputs = None
    | Some parentBits =>
        exists w st2 st3,
          makeIndexKeyOutputSlotsMatchingParentReqs parentBits requested full st2
          = (Ok w, st3) /\
          Slots.getIndexKeySlots outputs = Some w
    end.
Proof.
  intros HX. unfold buildIndexScan. intros H. minv.
  match goal with
  | Hb : indexScanBitset _ _ _ = _ |- _ =>
      pose proof (indexScanBitset_ok _ _ _ Hb) as (-> & _)
  end.
  match goal with
  | Hg : generateIndexScan _ _ _ _ = _ |- _ =>
      pose proof (indexScan_ok HX _ _ _ Hg) as (Hrid & full & Hfull & Hlen)
  end.
  do 5 eexists. split; [eassumption|]. split; [eassumption|].
  split; [exact Hfull|]. split; [exact Hlen|].
  split; [apply negb_true_iff; assumption|].
  destruct (Reqs.has reqs kReturnKey) eqn:Erk;
    destruct (Reqs.has reqs kResult) eqn:Ers;
    destruct (reqs_indexKeyBitset reqs) as [parentBits|] eqn:Ebits; minv;
    unfold Slots.has, Slots.getIfExists, Slots.set, Slots.setIndexKeySlots,
      Slots.getIndexKeySlots in *; simpl in *;
    repeat match goal with
      | H1 : ?x = Some _, H2 : ?x = Some _ |- _ => rewrite H1 in H2; inversion H2; subst; clear H2
      end;
    (split; [assumption || reflexivity|]);
    (split; [intros; (reflexivity || discriminate)|]);
    (split; [intros; (reflexivity || discriminate)|]);
    try reflexivity; eauto.
Qed.

Lemma build_indexScan X ctx ixn reqs :
  build X ctx (QIndexScan ixn) reqs = buildIndexScan X ixn reqs.
Proof. reflexivity. Qed.

Lemma generateMultiple_length n :
  forall st v st', generateMultiple n st = (Ok v, st') -> length v = n.
Proof.
  induction n as [|n IH]; intros st v st' H; simpl in H; minv; [reflexivity|].
  simpl. f_equal. eapply IH. eassumption.
Qed.

Lemma sampleCollaborators_ok : GeneratorsOk sampleCollaborators.
Proof.
  split.
  - intros csn resume st stage outputs st'. simpl.
    destruct (csn_shouldTrackLatestOplogTimestamp csn); intros H; minv;
      repeat split; reflexivity.
  - intros ixn bits st stage outputs st'. simpl. intros H. minv.
    split; [reflexivity|]. eexists. split; [reflexivity|].
    eapply generateMultiple_length. eassumption.
Qed.

(** C5. The index-scan translator asks the body generator for every
    component of the key pattern when the parent requires the result or the
    return key, and for the parent's bitset otherwise (no bit when the parent
    set none).  With a generator that returns one slot for every bit it was
    asked for, and a parent bitset over the positions of the key pattern, the
    vector handed to the parent has the slots of exactly the positions of the
    parent's bitset, and there is no vector when the parent set no bitset. *)
Theorem index_scan_key_slots X ctx ixn reqs st stage outputs st' :
  GeneratorsOk X ->
  (forall parentBits i,
     reqs_indexKeyBitset reqs = Some parentBits -> bitTest parentBits i = true ->
     i < length (ixn_keyPattern ixn)) ->
  build X ctx (QIndexScan ixn) reqs st = (Ok (stage, outputs), st') ->
  exists requested bodyStage bodyOutputs full st1,
    generateIndexScan X ixn requested st = (Ok (bodyStage, bodyOutputs), st1) /\
    Slots.getIndexKeySlots bodyOutputs = Some full /\
    (if Reqs.has reqs kReturnKey || Reqs.has reqs kResult
     then forall i, bitTest requested i = true <-> i < length (ixn_keyPattern ixn)
     else requested = match reqs_indexKeyBitset reqs with
                      | Some parentBits => parentBits
                      | None => 0%N
                      end) /\
    match reqs_indexKeyBitset reqs with
    | None => Slots.getIndexKeySlots outputs = None
    | Some parentBits =>
        exists w,
          Slots.getIndexKeySlots outputs = Some w /\
          length w = bitCount parentBits /\
          slotsByPosition parentBits w
          = filter (fun p => bitTest parentBits (fst p)) (slotsByPosition requested full)
    end.
Proof.
  intros HX Hwf. rewrite build_indexScan. intros H.
  apply buildIndexScan_inv in H; [|exact HX].
  destruct H as (requested & bodyStage & bodyOutputs & full & st1 & Hbits & Hgen & Hfull
                 & Hlen & _ & _ & _ & _ & Hvec).
  apply indexScanBitset_ok in Hbits. destruct Hbits as (_ & Hbits).
  exists requested, bodyStage, bodyOutputs, full, st1.
  split; [exact Hgen|]. split; [exact Hfull|]. split.
  - destruct (Reqs.has reqs kReturnKey || Reqs.has reqs kResult); [apply Hbits | exact Hbits].
  - destruct (reqs_indexKeyBitset reqs) as [parentBits|] eqn:Ep; [|exact Hvec].
    destruct Hvec as (w & st2 & st3 & Hnarrow & Hout).
    apply narrowing_ok in Hnarrow; [| |exact Hlen].
    + destruct Hnarrow as (_ & Hl & Hc). exists w. repeat split; assumption.
    + intros i _ Hi.
      destruct (Reqs.has reqs kReturnKey || Reqs.has reqs kResult).
      * apply Hbits. eapply Hwf; [reflexivity | exact Hi].
      * rewrite Hbits. exact Hi.
Qed.

Lemma index_scan_key_slots_witness :
  exists stage outputs st',
    build sampleCollaborators sampleContext sampleIndexScan
          (Reqs.setIndexKeyBitset (reqsOf [kReturnKey]) (Some 2%N)) initialState
    = (Ok (stage, outputs), st') /\
    exists w, Slots.getIndexKeySlots outputs = Some w /\ length w = bitCount 2%N.
Proof.
  assert (Hrun : exists stage outputs st',
             build sampleCollaborators sampleContext sampleIndexScan
                   (Reqs.setIndexKeyBitset (reqsOf [kReturnKey]) (Some 2%N)) initialState
             = (Ok (stage, outputs), st'))
    by (eexists _, _, _; vm_compute; reflexivity).
  destruct Hrun as (stage & outputs & st' & Hrun).
  exists stage, outputs, st'. split; [exact Hrun|].
  assert (Hwf : forall parentBits i,
             reqs_indexKeyBitset (Reqs.setIndexKeyBitset (reqsOf [kReturnKey]) (Some 2%N))
             = Some parentBits ->
             bitTest parentBits i = true -> i < 2).
  { intros parentBits i Hp Hi. inversion Hp; subst.
    destruct i as [|[|i]]; [lia | lia |].
    exfalso. unfold bitTest in Hi.
    replace 2%N with (2 ^ 1)%N in Hi by reflexivity.
    rewrite N.pow2_bits_eqb in Hi. apply N.eqb_eq in Hi. lia. }
  destruct (@index_scan_key_slots sampleCollaborators sampleContext sampleIxn _ _ _ _ _
              sampleCollaborators_ok Hwf Hrun)
    as (requested & bodyStage & bodyOutputs & full & st1 & _ & _ & _ & w & Hw & Hl & _).
  exists w. split; [exact Hw | exact Hl].
Defined.

(* ===================================================================== *)
(** * The covered shard filter *)
(* ===================================================================== *)

Lemma makeIndexKeyInclusionSetFrom_spec required indexKeyPattern :
  forall i b names st b' names' st',
    makeIndexKeyInclusionSetFrom indexKeyPattern required i b names st
    = (Ok (b', names'), st') ->
    st' = st /\
    forall j,
      bitTest b' j = true <->
      (bitTest b j = true \/
       (i <= j /\ exists elt, nth_error indexKeyPattern (j - i) = Some elt /\
                             In (fieldName elt) required)).
Proof.
  induction indexKeyPattern as [|elt more IH]; intros i b names st b' names' st' H;
    simpl in H.
  - minv. split; [reflexivity|]. intros j. split; [intros Hj; left; exact Hj|].
    intros [Hj | (_ & e & He & _)]; [exact Hj|]. destruct (j - i); discriminate He.
  - destruct (existsb (String.eqb (fieldName elt)) required) eqn:Ein.
    + minv.
      match goal with
      | Hb : bitSet _ _ _ = _ |- _ => apply bitSet_ok in Hb; destruct Hb as (-> & _ & ->)
      end.
      apply IH in H. destruct H as (-> & Hbits). split; [reflexivity|].
      apply existsb_eqb_In in Ein.
      intros j. rewrite Hbits, bitTest_setbit, orb_true_iff, Nat.eqb_eq. split.
      * intros [[Hj | Hj] | (Hle & e & He & Hin)].
        -- subst j. right. split; [lia|]. exists elt. rewrite Nat.sub_diag. auto.
        -- left. exact Hj.
        -- right. split; [lia|]. exists e. replace (j - i) with (S (j - S i)) by lia.
           auto.
      * intros [Hj | (Hle & e & He & Hin)]; [left; right; exact Hj|].
        destruct (Nat.eq_dec i j) as [Heq | Hne]; [left; left; exact Heq|].
        right. split; [lia|]. exists e. replace (j - i) with (S (j - S i)) in He by lia.
        auto.
    + apply IH in H. destruct H as (-> & Hbits). split; [reflexivity|].
      intros j. rewrite Hbits. split.
      * intros [Hj | (Hle & e & He & Hin)]; [left; exact Hj|].
        right. split; [lia|]. exists e. replace (j - i) with (S (j - S i)) by lia. auto.
      * intros [Hj | (Hle & e & He & Hin)]; [left; exact Hj|].
        destruct (Nat.eq_dec i j) as [Heq | Hne].
        -- subst j. rewrite Nat.sub_diag in He. simpl in He. inversion He; subst e.
           apply existsb_eqb_In in Hin. congruence.
        -- right. split; [lia|]. exists e.
           replace (j - i) with (S (j - S i)) in He by lia. auto.
Qed.

Lemma makeIndexKeyInclusionSet_ok indexKeyPattern required st b names st' :
  makeIndexKeyInclusionSet indexKeyPattern required st = (Ok (b, names), st') ->
  st' = st /\
  forall j,
    bitTest b j = true <->
    exists elt, nth_error indexKeyPattern j = Some elt /\ In (fieldName elt) required.
Proof.
  unfold makeIndexKeyInclusionSet. intros H.
  apply makeIndexKeyInclusionSetFrom_spec in H. destruct H as (-> & Hbits).
  split; [reflexivity|]. intros j. rewrite Hbits, bitTest_0, Nat.sub_0_r. split.
  - intros [Hj | (_ & He)]; [discriminate | exact He].
  - intros He. right. split; [lia | exact He].
Qed.

Lemma bitTestChecked_ok b i r st st' :
  bitTestChecked b i st = (Ok r, st') ->
  st' = st /\ i < kMaxCompoundIndexKeys /\ r = bitTest b i.
Proof.
  unfold bitTestChecked. destruct (i <? kMaxCompoundIndexKeys) eqn:E; intros H; minv.
  apply Nat.ltb_lt in E. repeat split; assumption.
Qed.

(** The loop of the virtual scan makes one slot for every position of the
    pattern whose bit is set. *)
Lemma virtualScanProjections_spec indexKeyPattern bits resultSlot :
  forall pos slots projections st slots' projections' st',
    virtualScanProjections indexKeyPattern bits resultSlot pos slots projections st
    = (Ok (slots', projections'), st') ->
    length slots'
    = length slots + length (filter (bitTest bits) (seq pos (length indexKeyPattern))) /\
    (indexKeyPattern = [] \/ pos + length indexKeyPattern <= kMaxCompoundIndexKeys).
Proof.
  induction indexKeyPattern as [|field more IH];
    intros pos slots projections st slots' projections' st' H; simpl in H.
  - minv. simpl. split; [lia | left; reflexivity].
  - minv.
    match goal with
    | Hb : bitTestChecked _ _ _ = _ |- _ =>
        apply bitTestChecked_ok in Hb; destruct Hb as (-> & Hlt & ->)
    end.
    cbn [length seq filter]. destruct (bitTest bits pos).
    + minv. apply IH in H. destruct H as (Hl & Hb). rewrite Hl, length_app. simpl.
      split; [lia | right; destruct Hb as [-> | Hb]; simpl; lia].
    + apply IH in H. destruct H as (Hl & Hb).
      split; [exact Hl | right; destruct Hb as [-> | Hb]; simpl; lia].
Qed.

Lemma filter_none (A : Type) (f : A -> bool) l :
  (forall x, In x l -> f x = false) -> filter f l = [].
Proof.
  induction l as [|x l IH]; intros H; simpl; [reflexivity|].
  rewrite (H x (or_introl eq_refl)). apply IH. intros y Hy. apply H. right. exact Hy.
Qed.

(** A bitset over the first [n] positions has its set bits there. *)
Lemma bitCount_below b n :
  n <= kMaxCompoundIndexKeys ->
  (forall i, bitTest b i = true -> i < n) ->
  bitCount b = length (filter (bitTest b) (seq 0 n)).
Proof.
  intros Hn Hb. unfold bitCount.
  replace kMaxCompoundIndexKeys with (n + (kMaxCompoundIndexKeys - n)) by lia.
  rewrite seq_app, filter_app, length_app.
  rewrite (@filter_none _ (bitTest b) (seq (0 + n) (kMaxCompoundIndexKeys - n))).
  - simpl. lia.
  - intros i Hi. apply in_seq in Hi. destruct (bitTest b i) eqn:E; [|reflexivity].
    apply Hb in E. lia.
Qed.

Lemma build_virtualScan X ctx vsn reqs :
  build X ctx (QVirtualScan vsn) reqs = buildVirtualScan X vsn reqs.
Proof. reflexivity. Qed.

(** A virtual scan that mocks an index scan, asked for a bitset and not for
    the result, returns one index-key slot for every position of its pattern
    whose bit is set. *)
Lemma buildVirtualScan_keys X vsn reqs bits st stage outputs st' :
  Reqs.has reqs kResult = false ->
  reqs_indexKeyBitset reqs = Some bits ->
  buildVirtualScan X vsn reqs st = (Ok (stage, outputs), st') ->
  exists v,
    Slots.getIndexKeySlots outputs = Some v /\
    length v = length (filter (bitTest bits) (seq 0 (length (vsn_indexKeyPattern vsn)))) /\
    length (vsn_indexKeyPattern vsn) <= kMaxCompoundIndexKeys.
Proof.
  intros Hres Hbits. unfold buildVirtualScan. rewrite Hres, Hbits. intros H. minv.
  match goal with
  | Hv : virtualScanProjections _ _ _ _ _ _ _ = _ |- _ =>
      apply virtualScanProjections_spec in Hv; destruct Hv as (Hl & Hb)
  end.
  assert (Hle : length (vsn_indexKeyPattern vsn) <= kMaxCompoundIndexKeys)
    by (destruct Hb as [-> | Hb]; simpl; lia).
  destruct (Reqs.has reqs kRecordId); minv; eexists;
    (split; [reflexivity|]); (split; [exact Hl | exact Hle]).
Qed.

(** The child of a covered shard filter returns a vector that is aligned
    with the bitset it was asked for. *)
Lemma covered_child_aligned X ctx child reqs bits st stage outputs st' :
  GeneratorsOk X ->
  childIndexKeyPattern child <> [] ->
  Reqs.has reqs kResult = false ->
  reqs_indexKeyBitset reqs = Some bits ->
  (forall i, bitTest bits i = true -> i < length (childIndexKeyPattern child)) ->
  build X ctx child reqs st = (Ok (stage, outputs), st') ->
  exists v, Slots.getIndexKeySlots outputs = Some v /\ length v = bitCount bits.
Proof.
  intros HX Hne Hres Hbits Hwf H.
  destruct child; simpl in Hne, Hwf; try congruence.
  - (* virtual scan *)
    rewrite build_virtualScan in H.
    eapply buildVirtualScan_keys in H; [|exact Hres|exact Hbits].
    destruct H as (v & Hv & Hl & Hle).
    exists v. split; [exact Hv|]. rewrite Hl. symmetry.
    apply bitCount_below; assumption.
  - (* index scan *)
    rewrite build_indexScan in H. apply buildIndexScan_inv in H; [|exact HX].
    destruct H as (requested & bodyStage & bodyOutputs & full & st1 & Hreq & _ & _
                   & Hlen & _ & _ & _ & _ & Hvec).
    rewrite Hbits in Hvec. destruct Hvec as (w & st2 & st3 & Hnarrow & Hout).
    apply indexScanBitset_ok in Hreq. destruct Hreq as (_ & Hreq).
    rewrite Hres, Hbits, orb_false_r in Hreq.
    apply narrowing_ok in Hnarrow; [| |exact Hlen].
    + destruct Hnarrow as (_ & Hl & _). exists w. split; assumption.
    + intros i _ Hi. destruct (Reqs.has reqs kReturnKey).
      * apply Hreq. apply Hwf. exact Hi.
      * rewrite Hreq. exact Hi.
Qed.

Lemma makeIndexKeyInclusionSetFrom_names required indexKeyPattern :
  forall i b names st b' names' st',
    makeIndexKeyInclusionSetFrom indexKeyPattern required i b names st
    = (Ok (b', names'), st') ->
    names' = names ++ map fieldName
                          (filter (fun elt => existsb (String.eqb (fieldName elt)) required)
                                  indexKeyPattern).
Proof.
  induction indexKeyPattern as [|elt more IH]; intros i b names st b' names' st' H;
    simpl in H.
  - minv. rewrite app_nil_r. reflexivity.
  - simpl. destruct (existsb (String.eqb (fieldName elt)) required) eqn:Ein.
    + minv. apply IH in H. rewrite H, <- app_assoc. reflexivity.
    + apply IH in H. exact H.
Qed.

Lemma filter_seq_length (A : Type) (g : A -> bool) (f : nat -> bool) (l : list A) :
  forall i,
    (forall k a, nth_error l k = Some a -> f (i + k) = g a) ->
    length (filter f (seq i (length l))) = length (filter g l).
Proof.
  induction l as [|a l IH]; intros i H; [reflexivity|].
  cbn [length seq filter].
  rewrite <- (H 0 a eq_refl), Nat.add_0_r.
  assert (Hrest : length (filter f (seq (S i) (length l))) = length (filter g l)).
  { apply IH. intros k a' Hk. rewrite <- (H (S k) a' Hk). f_equal. lia. }
  destruct (f i); simpl; rewrite Hrest; reflexivity.
Qed.

(** [makeIndexKeyInclusionSet] returns as many names as it sets bits. *)
Lemma makeIndexKeyInclusionSet_aligned indexKeyPattern required st b names st' :
  length indexKeyPattern <= kMaxCompoundIndexKeys ->
  makeIndexKeyInclusionSet indexKeyPattern required st = (Ok (b, names), st') ->
  names = map fieldName
              (filter (fun elt => existsb (String.eqb (fieldName elt)) required)
                      indexKeyPattern) /\
  length names = bitCount b /\
  (forall i, bitTest b i = true -> i < length indexKeyPattern).
Proof.
  intros Hle H. pose proof H as Hn. unfold makeIndexKeyInclusionSet in Hn.
  apply makeIndexKeyInclusionSetFrom_names in Hn. simpl in Hn.
  apply makeIndexKeyInclusionSet_ok in H. destruct H as (_ & Hbits).
  assert (Hin : forall i, bitTest b i = true -> i < length indexKeyPattern).
  { intros i Hi. apply Hbits in Hi. destruct Hi as (elt & He & _).
    apply nth_error_Some. congruence. }
  split; [exact Hn|]. split; [|exact Hin].
  rewrite (@bitCount_below b (length indexKeyPattern) Hle Hin).
  rewrite Hn, length_map. symmetry. apply filter_seq_length.
  intros k elt Hk. simpl.
  destruct (existsb (String.eqb (fieldName elt)) required) eqn:E.
  - apply Hbits. exists elt. split; [exact Hk | apply existsb_eqb_In, E].
  - destruct (bitTest b k) eqn:Eb; [|reflexivity].
    apply Hbits in Eb. destruct Eb as (elt' & He' & Hin').
    assert (elt' = elt) by congruence. subst elt'.
    apply existsb_eqb_In in Hin'. congruence.
Qed.






Lemma build_shardFilter X ctx nodeId child reqs :
  build X ctx (QShardingFilter nodeId child) reqs
  = buildShardFilter X ctx nodeId child (build X ctx child) reqs.
Proof. reflexivity. Qed.



(* ===================================================================== *)
(** * Rehydration of index keys *)
(* ===================================================================== *)

Import Rehydrate.

Lemma Node_ind' (P : IndexKeyPatternTreeNode -> Prop) :
  (forall cs s, Forall (fun entry => P (snd entry)) cs -> P (Node cs s)) ->
  forall n, P n.
Proof.
  intros H. fix IH 1. intros [cs s]. apply H.
  induction cs as [|[name c] cs IHcs]; constructor; [apply IH | exact IHcs].
Qed.

Lemma find_app (A : Type) k (l1 l2 : list (string * A)) :
  find k (l1 ++ l2) = match find k l1 with Some v => Some v | None => find k l2 end.
Proof.
  induction l1 as [|[k' v] l1 IH]; simpl; [reflexivity|].
  destruct (String.eqb k k'); [reflexivity | exact IH].
Qed.

Lemma find_replace (A : Type) k k' (v : A) l :
  find k' (replace k v l) =
  if String.eqb k' k then match find k l with Some _ => Some v | None => None end
  else find k' l.
Proof.
  induction l as [|[k0 v0] l IH]; simpl.
  - destruct (String.eqb k' k); reflexivity.
  - destruct (String.eqb k k0) eqn:E0; simpl.
    + apply String.eqb_eq in E0. subst k0.
      destruct (String.eqb k' k); reflexivity.
    + destruct (String.eqb k' k0) eqn:E1.
      * apply String.eqb_eq in E1. subst k0.
        rewrite String.eqb_sym, E0. reflexivity.
      * exact IH.
Qed.

Lemma find_In (A : Type) k (v : A) l : find k l = Some v -> In (k, v) l.
Proof.
  induction l as [|[k' v'] l IH]; simpl; [discriminate|].
  destruct (String.eqb k k') eqn:E.
  - apply String.eqb_eq in E. subst. intros H. inversion H. left. reflexivity.
  - intros H. right. apply IH, H.
Qed.

Lemma find_None_notin (A : Type) k (l : list (string * A)) :
  find k l = None -> ~ In k (map fst l).
Proof.
  induction l as [|[k' v'] l IH]; simpl; [intros _ []|].
  destruct (String.eqb k k') eqn:E; [discriminate|].
  intros H [Hk | Hk]; [subst; rewrite String.eqb_refl in E; discriminate|].
  exact (IH H Hk).
Qed.

Lemma map_fst_replace (A : Type) k (v : A) l : map fst (replace k v l) = map fst l.
Proof.
  induction l as [|[k' v'] l IH]; simpl; [reflexivity|].
  destruct (String.eqb k k'); simpl; [reflexivity | f_equal; exact IH].
Qed.

Lemma In_replace (A : Type) k (v : A) l e :
  In e (replace k v l) -> In e l \/ e = (k, v).
Proof.
  induction l as [|[k' v'] l IH]; simpl; [intros []|].
  destruct (String.eqb k k') eqn:E; simpl.
  - apply String.eqb_eq in E. subst k'. intros [<- | H]; [right; reflexivity|].
    left. right. exact H.
  - intros [<- | H]; [left; left; reflexivity|].
    destruct (IH H) as [H' | H']; [left; right; exact H' | right; exact H'].
Qed.

(** With a slot to store, [insertPath] succeeds. *)
Lemma insertPath_total parts s :
  forall node, exists node', insertPath parts (Some s) node = Some node'.
Proof.
  induction parts as [|part rest IH]; intros node; simpl; [eauto|].
  destruct (find part (children node)) as [child|].
  - destruct (indexKeySlot child); [eauto|].
    destruct (IH child) as (c' & ->). eauto.
  - destruct (IH emptyNode) as (c' & ->). eauto.
Qed.

Lemma insertPath_wf parts s :
  forall node node',
    wfTree node -> insertPath parts (Some s) node = Some node' -> wfTree node'.
Proof.
  induction parts as [|part rest IH]; intros node node' Hwf H; simpl in H.
  - inversion H; subst. destruct Hwf. constructor; assumption.
  - destruct node as [cs slot]. simpl in H. inversion Hwf as [? ? Hnd Hall]; subst.
    destruct (find part cs) as [child|] eqn:Ef.
    + destruct (indexKeySlot child); [inversion H; subst; exact Hwf|].
      destruct (insertPath rest (Some s) child) as [child'|] eqn:Ei; [|discriminate].
      inversion H; subst. constructor.
      * rewrite map_fst_replace. exact Hnd.
      * apply Forall_forall. intros e He. apply In_replace in He.
        destruct He as [He | ->].
        -- rewrite Forall_forall in Hall. apply Hall, He.
        -- simpl. eapply IH; [|exact Ei].
           rewrite Forall_forall in Hall. apply (Hall (part, child)).
           apply find_In, Ef.
    + destruct (insertPath rest (Some s) emptyNode) as [child'|] eqn:Ei; [|discriminate].
      inversion H; subst. constructor.
      * rewrite map_app. simpl. apply NoDup_app; [exact Hnd | repeat constructor; intros [] |].
        intros x Hx [<- | []]. exact (find_None_notin _ _ Ef Hx).
      * apply Forall_app. split; [exact Hall|]. constructor; [|constructor].
        simpl. eapply IH; [|exact Ei]. constructor; constructor.
Qed.

Lemma slotAt_nil node : slotAt node [] = indexKeySlot node.
Proof. reflexivity. Qed.

Lemma slotAt_cons node a q :
  slotAt node (a :: q) =
  match find a (children node) with
  | Some c => slotAt c q
  | None => None
  end.
Proof. unfold slotAt. simpl. destruct (find a (children node)); reflexivity. Qed.

Lemma slotAt_emptyNode q : slotAt emptyNode q = None.
Proof. destruct q; reflexivity. Qed.

(** A slot of the tree after an insertion was there before, or is the
    inserted one at the inserted path. *)
Lemma insertPath_slotAt_inv parts s :
  forall node node' q x,
    insertPath parts (Some s) node = Some node' ->
    slotAt node' q = Some x ->
    slotAt node q = Some x \/ (q = parts /\ x = s).
Proof.
  induction parts as [|part rest IH]; intros node node' q x H Hq; simpl in H.
  - inversion H; subst. destruct q as [|a q].
    + rewrite slotAt_nil in Hq. simpl in Hq. inversion Hq. right. split; reflexivity.
    + left. rewrite slotAt_cons in *. exact Hq.
  - destruct (find part (children node)) as [child|] eqn:Ef.
    + destruct (indexKeySlot child) eqn:Es; [inversion H; subst; left; exact Hq|].
      destruct (insertPath rest (Some s) child) as [child'|] eqn:Ei; [|discriminate].
      inversion H; subst. destruct q as [|a q]; [left; exact Hq|].
      rewrite slotAt_cons in *. simpl in Hq. rewrite find_replace, Ef in Hq.
      destruct (String.eqb a part) eqn:Ea.
      * apply String.eqb_eq in Ea. subst a. rewrite Ef.
        destruct (IH _ _ _ _ Ei Hq) as [Hl | (-> & ->)];
          [left; exact Hl | right; split; reflexivity].
      * left. exact Hq.
    + destruct (insertPath rest (Some s) emptyNode) as [child'|] eqn:Ei; [|discriminate].
      inversion H; subst. destruct q as [|a q]; [left; exact Hq|].
      rewrite slotAt_cons in *. simpl in Hq. rewrite find_app in Hq.
      destruct (find a (children node)) as [c|] eqn:Ea; [left; exact Hq|].
      simpl in Hq. destruct (String.eqb a part) eqn:Eap; [|discriminate].
      apply String.eqb_eq in Eap. subst a.
      destruct (IH _ _ _ _ Ei Hq) as [Hl | (-> & ->)].
      * rewrite slotAt_emptyNode in Hl. discriminate.
      * right. split; reflexivity.
Qed.

(** An insertion keeps the slots that are there. *)
Lemma insertPath_slotAt_keep parts s :
  forall node node' q x,
    insertPath parts (Some s) node = Some node' ->
    parts <> [] \/ indexKeySlot node = None ->
    slotAt node q = Some x ->
    slotAt node' q = Some x.
Proof.
  induction parts as [|part rest IH]; intros node node' q x H Hok Hq; simpl in H.
  - inversion H; subst. destruct Hok as [Hok | Hok]; [congruence|].
    destruct q as [|a q].
    + rewrite slotAt_nil in Hq. congruence.
    + rewrite slotAt_cons in *. exact Hq.
  - destruct (find part (children node)) as [child|] eqn:Ef.
    + destruct (indexKeySlot child) eqn:Es; [inversion H; subst; exact Hq|].
      destruct (insertPath rest (Some s) child) as [child'|] eqn:Ei; [|discriminate].
      inversion H; subst. destruct q as [|a q]; [exact Hq|].
      rewrite slotAt_cons in *. simpl. rewrite find_replace, Ef.
      destruct (String.eqb a part) eqn:Ea; [|exact Hq].
      apply String.eqb_eq in Ea. subst a. rewrite Ef in Hq.
      eapply IH; [exact Ei | right; exact Es | exact Hq].
    + destruct (insertPath rest (Some s) emptyNode) as [child'|] eqn:Ei; [|discriminate].
      inversion H; subst. destruct q as [|a q]; [exact Hq|].
      rewrite slotAt_cons in *. simpl. rewrite find_app.
      destruct (find a (children node)) as [c|] eqn:Ea; [exact Hq | discriminate].
Qed.

(** After the insertion of a path, some node along it has a slot. *)
Lemma insertPath_slot_along parts s :
  forall node node',
    insertPath parts (Some s) node = Some node' ->
    (parts = [] /\ indexKeySlot node' = Some s) \/
    exists q x, along q parts /\ slotAt node' q = Some x.
Proof.
  induction parts as [|part rest IH]; intros node node' H; simpl in H.
  - inversion H; subst. left. split; reflexivity.
  - right. destruct (find part (children node)) as [child|] eqn:Ef.
    + destruct (indexKeySlot child) as [x|] eqn:Es.
      * inversion H; subst. exists [part], x. split.
        -- split; [discriminate | exists rest; reflexivity].
        -- rewrite slotAt_cons, Ef. exact Es.
      * destruct (insertPath rest (Some s) child) as [child'|] eqn:Ei; [|discriminate].
        inversion H; subst.
        assert (Hf : find part (replace part child' (children node)) = Some child')
          by (rewrite find_replace, String.eqb_refl, Ef; reflexivity).
        destruct (IH _ _ Ei) as [(-> & Hs) | (q & x & (Hq & r & ->) & Hx)].
        -- exists [part], s. split; [split; [discriminate | exists []; reflexivity]|].
           rewrite slotAt_cons. simpl. rewrite Hf. exact Hs.
        -- exists (part :: q), x. split; [split; [discriminate | exists r; reflexivity]|].
           rewrite slotAt_cons. simpl. rewrite Hf. exact Hx.
    + destruct (insertPath rest (Some s) emptyNode) as [child'|] eqn:Ei; [|discriminate].
      inversion H; subst.
      assert (Hf : find part (children node ++ [(part, child')]) = Some child')
        by (rewrite find_app, Ef; simpl; rewrite String.eqb_refl; reflexivity).
      destruct (IH _ _ Ei) as [(-> & Hs) | (q & x & (Hq & r & ->) & Hx)].
      * exists [part], s. split; [split; [discriminate | exists []; reflexivity]|].
        rewrite slotAt_cons. simpl. rewrite Hf. exact Hs.
      * exists (part :: q), x. split; [split; [discriminate | exists r; reflexivity]|].
        rewrite slotAt_cons. simpl. rewrite Hf. exact Hx.
Qed.

Lemma FieldRef_nonempty name : name <> EmptyString -> FieldRef name <> [].
Proof.
  destruct name as [|c name]; [congruence|]. intros _. unfold FieldRef.
  destruct (splitDots (String c name)). discriminate.
Qed.

(** The tree after the loop of [buildKeyPatternTree] over the elements from
    position [i] on. *)
Lemma buildKeyPatternTreeFrom_spec keyPattern slots :
  forall i root,
    i + length keyPattern = length slots ->
    (forall elem, In elem keyPattern -> fieldName elem <> EmptyString) ->
    exists tree,
      buildKeyPatternTreeFrom keyPattern slots i root = Some tree /\
      (wfTree root -> wfTree tree) /\
      (forall q x, slotAt tree q = Some x ->
                   slotAt root q = Some x \/
                   exists k elem, nth_error keyPattern k = Some elem /\
                                  q = FieldRef (fieldName elem) /\
                                  nth_error slots (i + k) = Some x) /\
      (forall q x, slotAt root q = Some x -> slotAt tree q = Some x) /\
      (forall k elem, nth_error keyPattern k = Some elem ->
                      exists q x, along q (FieldRef (fieldName elem)) /\
                                  slotAt tree q = Some x).
Proof.
  induction keyPattern as [|elem more IH]; intros i root Hlen Hne; simpl.
  - exists root. split; [reflexivity|]. split; [auto|]. split; [auto|]. split; [auto|].
    intros [|k] e He; discriminate He.
  - simpl in Hlen.
    destruct (nth_error slots i) as [s|] eqn:Es; [|apply nth_error_None in Es; lia].
    destruct (insertPath_total (FieldRef (fieldName elem)) s root) as (root' & Ei).
    rewrite Ei.
    assert (Hparts : FieldRef (fieldName elem) <> [])
      by (apply FieldRef_nonempty, Hne; left; reflexivity).
    destruct (IH (S i) root' ltac:(lia) ltac:(intros e He; apply Hne; right; exact He))
      as (tree & Et & Hwf & Hinv & Hkeep & Hal).
    exists tree. split; [exact Et|]. split; [|split; [|split]].
    + intros Hr. apply Hwf. eapply insertPath_wf; eassumption.
    + intros q x Hq. destruct (Hinv q x Hq) as [Hq' | (k & e & He & -> & Hs)].
      * destruct (insertPath_slotAt_inv _ _ _ _ Ei Hq') as [Hr | (-> & ->)];
          [left; exact Hr|].
        right. exists 0, elem. rewrite Nat.add_0_r. repeat split; assumption.
      * right. exists (S k), e. replace (i + S k) with (S i + k) by lia.
        repeat split; assumption.
    + intros q x Hq. apply Hkeep. eapply insertPath_slotAt_keep; eauto.
    + intros [|k] e He; simpl in He.
      * inversion He; subst e.
        destruct (insertPath_slot_along _ _ _ Ei) as [(Hnil & _) | (q & x & Hq & Hx)];
          [congruence|].
        exists q, x. split; [exact Hq | apply Hkeep, Hx].
      * apply (Hal k e He).
Qed.

Lemma find_map_value (A B : Type) (g : string -> A -> B) k l :
  find k (map (fun entry : string * A => let (n, c) := entry in (n, g n c)) l)
  = option_map (g k) (find k l).
Proof.
  induction l as [|[k' v] l IH]; simpl; [reflexivity|].
  destruct (String.eqb k k') eqn:E; [|exact IH].
  apply String.eqb_eq in E. subst. reflexivity.
Qed.

Lemma In_find_NoDup (A : Type) k (v : A) l :
  NoDup (map fst l) -> In (k, v) l -> find k l = Some v.
Proof.
  induction l as [|[k' v'] l IH]; simpl; intros Hnd Hin; [elim Hin|].
  inversion Hnd; subst. destruct Hin as [Hin | Hin].
  - inversion Hin; subst. rewrite String.eqb_refl. reflexivity.
  - destruct (String.eqb k k') eqn:E; [|apply IH; assumption].
    apply String.eqb_eq in E. subst k'. exfalso.
    match goal with Hn : ~ In k (map fst l) |- _ => apply Hn end.
    apply (in_map fst) in Hin. exact Hin.
Qed.

(** The expression of a tree evaluates to the value of the tree. *)
Lemma eval_buildNewObjExpr val :
  forall tree, Semantics.eval val (buildNewObjExpr tree) = Some (treeValue val tree).
Proof.
  induction tree as [cs s IH] using Node_ind'. simpl.
  induction cs as [|[name c] cs IHcs]; simpl; [reflexivity|].
  inversion IH as [|? ? Hc Hcs]; subst. simpl in Hc.
  rewrite (IHcs Hcs).
  destruct (indexKeySlot c) as [x|]; simpl; [reflexivity|].
  rewrite Hc. reflexivity.
Qed.

(** The path to a visible slot extracts the value of the slot. *)
Lemma extract_visible val :
  forall p tree s,
    p <> [] -> slotAt tree p = Some s -> visible tree p ->
    Semantics.extract (treeValue val tree) p = Some (Semantics.VScalar (val s)).
Proof.
  induction p as [|a p IH]; intros tree s Hne Hs Hvis; [congruence|].
  destruct tree as [cs slot]. rewrite slotAt_cons in Hs. simpl in Hs. simpl.
  rewrite (@find_map_value _ _
             (fun _ child => match indexKeySlot child with
                             | Some s => Semantics.VScalar (val s)
                             | None => treeValue val child
                             end)).
  destruct (find a cs) as [c|] eqn:Ef; [|discriminate]. simpl.
  destruct p as [|b p].
  - rewrite slotAt_nil in Hs. rewrite Hs. reflexivity.
  - assert (Hc : indexKeySlot c = None).
    { specialize (Hvis [a] (b :: p) ltac:(discriminate) ltac:(discriminate) eq_refl).
      rewrite slotAt_cons in Hvis. simpl in Hvis. rewrite Ef in Hvis. exact Hvis. }
    rewrite Hc. apply IH; [discriminate | exact Hs|].
    intros q r Hq Hr Hp.
    specialize (Hvis (a :: q) r ltac:(discriminate) Hr ltac:(rewrite Hp; reflexivity)).
    rewrite slotAt_cons in Hvis. simpl in Hvis. rewrite Ef in Hvis. exact Hvis.
Qed.

(** A visible slot is read by the expression. *)
Lemma visible_in_expr :
  forall p tree s,
    p <> [] -> slotAt tree p = Some s -> visible tree p ->
    In s (exprSlots (buildNewObjExpr tree)).
Proof.
  induction p as [|a p IH]; intros tree s Hne Hs Hvis; [congruence|].
  destruct tree as [cs slot]. rewrite slotAt_cons in Hs. simpl in Hs.
  destruct (find a cs) as [c|] eqn:Ef; [|discriminate].
  assert (Hin : In s (exprSlots (match indexKeySlot c with
                                 | Some s0 => makeVariable s0
                                 | None => buildNewObjExpr c
                                 end))).
  { destruct p as [|b p].
    - rewrite slotAt_nil in Hs. rewrite Hs. left. reflexivity.
    - assert (Hc : indexKeySlot c = None).
      { specialize (Hvis [a] (b :: p) ltac:(discriminate) ltac:(discriminate) eq_refl).
        rewrite slotAt_cons in Hvis. simpl in Hvis. rewrite Ef in Hvis. exact Hvis. }
      rewrite Hc. apply IH; [discriminate | exact Hs|].
      intros q r Hq Hr Hp.
      specialize (Hvis (a :: q) r ltac:(discriminate) Hr ltac:(rewrite Hp; reflexivity)).
      rewrite slotAt_cons in Hvis. simpl in Hvis. rewrite Ef in Hvis. exact Hvis. }
  apply find_In in Ef. simpl. apply in_flat_map.
  eexists. split; [apply in_flat_map; exists (a, c); split; [exact Ef|]|exact Hin].
  right. left. reflexivity.
Qed.

(** A slot that the expression reads is visible in the tree. *)
Lemma exprSlots_visible :
  forall tree,
    wfTree tree ->
    forall s, In s (exprSlots (buildNewObjExpr tree)) ->
              exists p, p <> [] /\ slotAt tree p = Some s /\ visible tree p.
Proof.
  induction tree as [cs slot IH] using Node_ind'. intros Hwf s Hin.
  inversion Hwf as [? ? Hnd Hall]; subst.
  simpl in Hin. apply in_flat_map in Hin. destruct Hin as (e & He & Hs).
  apply in_flat_map in He. destruct He as ([name c] & Hc & He).
  rewrite Forall_forall in IH, Hall.
  pose proof (In_find_NoDup _ _ _ Hnd Hc) as Hf.
  destruct He as [<- | [<- | []]]; [elim Hs|].
  destruct (indexKeySlot c) as [x|] eqn:Ex.
  - destruct Hs as [<- | []]. exists [name]. split; [discriminate|]. split.
    + rewrite slotAt_cons. simpl. rewrite Hf. exact Ex.
    + intros q r Hq Hr Hp. destruct q as [|a [|b q]]; try congruence.
      * inversion Hp. destruct r; congruence.
      * inversion Hp.
  - destruct (IH (name, c) Hc (Hall (name, c) Hc) s Hs) as (p & Hp & Hsp & Hvis).
    exists (name :: p). split; [discriminate|]. split.
    + rewrite slotAt_cons. simpl. rewrite Hf. exact Hsp.
    + intros q r Hq Hr Heq. destruct q as [|a q]; [congruence|].
      inversion Heq; subst a. rewrite slotAt_cons. simpl. rewrite Hf.
      destruct q as [|b q]; [exact Ex|].
      apply (Hvis (b :: q) r); [discriminate | exact Hr | assumption].
Qed.

Lemma strictPrefix_spec q p :
  strictPrefix q p = true <-> exists r, r <> [] /\ p = q ++ r.
Proof.
  revert p. induction q as [|a q IH]; intros [|b p]; simpl.
  - split; [discriminate | intros (r & Hr & E); subst; congruence].
  - split; [intros _; exists (b :: p); split; [discriminate | reflexivity] | reflexivity].
  - split; [discriminate | intros (r & _ & E); discriminate].
  - rewrite andb_true_iff, String.eqb_eq, IH. split.
    + intros (-> & r & Hr & ->). exists r. split; [exact Hr | reflexivity].
    + intros (r & Hr & E). inversion E; subst. split; [reflexivity|].
      exists r. split; [exact Hr | reflexivity].
Qed.

Lemma dominated_spec keyPattern p :
  dominated keyPattern p = true <->
  exists q, In q (patternPaths keyPattern) /\ strictPrefix q p = true.
Proof. unfold dominated. apply existsb_exists. Qed.

(** A dominated path has a dominating path that is not dominated itself. *)
Lemma dominated_by_minimal keyPattern :
  forall n p, length p <= n -> dominated keyPattern p = true ->
              exists q, In q (patternPaths keyPattern) /\ strictPrefix q p = true /\
                        dominated keyPattern q = false.
Proof.
  induction n as [|n IH]; intros p Hlen Hd.
  - apply dominated_spec in Hd. destruct Hd as (q & _ & Hq).
    apply strictPrefix_spec in Hq. destruct Hq as (r & Hr & ->).
    rewrite length_app in Hlen. destruct r; [congruence | simpl in Hlen; lia].
  - pose proof Hd as Hd0. apply dominated_spec in Hd. destruct Hd as (q & Hin & Hq).
    destruct (dominated keyPattern q) eqn:Edq; [|exists q; auto].
    pose proof Hq as Hq0. apply strictPrefix_spec in Hq. destruct Hq as (r & Hr & ->).
    destruct (IH q) as (q' & Hin' & Hq' & Hnd); [|exact Edq|].
    + rewrite length_app in Hlen. destruct r; [congruence | simpl in Hlen; lia].
    + exists q'. split; [exact Hin'|]. split; [|exact Hnd].
      apply strictPrefix_spec in Hq'. destruct Hq' as (r' & Hr' & ->).
      apply strictPrefix_spec. exists (r' ++ r). split.
      * destruct r'; [congruence | discriminate].
      * rewrite app_assoc. reflexivity.
Qed.

Lemma nth_error_patternPaths keyPattern i p :
  nth_error (patternPaths keyPattern) i = Some p ->
  exists elem, nth_error keyPattern i = Some elem /\ p = FieldRef (fieldName elem).
Proof.
  unfold patternPaths. rewrite nth_error_map.
  destruct (nth_error keyPattern i) as [elem|]; simpl; intros H; inversion H.
  exists elem. split; reflexivity.
Qed.

(** The tree of a well-formed key pattern. *)
Lemma buildKeyPatternTree_facts keyPattern slots :
  length slots = length keyPattern ->
  (forall elem, In elem keyPattern -> fieldName elem <> EmptyString) ->
  exists tree,
    buildKeyPatternTree keyPattern slots = Some tree /\
    wfTree tree /\
    (forall q x, slotAt tree q = Some x ->
                 exists k, nth_error (patternPaths keyPattern) k = Some q /\
                           nth_error slots k = Some x) /\
    (forall k p, nth_error (patternPaths keyPattern) k = Some p ->
                 exists q x, along q p /\ slotAt tree q = Some x).
Proof.
  intros Hlen Hne. unfold buildKeyPatternTree.
  destruct (@buildKeyPatternTreeFrom_spec keyPattern slots 0 emptyNode
              ltac:(simpl; lia) Hne) as (tree & Et & Hwf & Hinv & _ & Hal).
  exists tree. split; [exact Et|]. split; [|split].
  - apply Hwf. constructor; constructor.
  - intros q x Hq. destruct (Hinv q x Hq) as [He | (k & elem & Hk & -> & Hs)].
    + rewrite slotAt_emptyNode in He. discriminate.
    + exists k. split; [|exact Hs]. unfold patternPaths.
      rewrite nth_error_map, Hk. reflexivity.
  - intros k p Hp. apply nth_error_patternPaths in Hp.
    destruct Hp as (elem & Hk & ->). apply (Hal k elem Hk).
Qed.

(** The slot of a path that is not dominated is at its node and visible. *)
Lemma undominated_slot keyPattern slots tree i p s :
  (forall q x, slotAt tree q = Some x ->
               exists k, nth_error (patternPaths keyPattern) k = Some q /\
                         nth_error slots k = Some x) ->
  (forall k p, nth_error (patternPaths keyPattern) k = Some p ->
               exists q x, along q p /\ slotAt tree q = Some x) ->
  NoDup (patternPaths keyPattern) ->
  nth_error (patternPaths keyPattern) i = Some p ->
  nth_error slots i = Some s ->
  dominated keyPattern p = false ->
  slotAt tree p = Some s /\ visible tree p.
Proof.
  intros Hinv Hal Hnd Hp Hs Hdom.
  assert (Hno : forall q r x, q <> [] -> r <> [] -> p = q ++ r -> slotAt tree q = Some x ->
                              False).
  { intros q r x Hq Hr Heq Hx. destruct (Hinv q x Hx) as (k & Hk & _).
    assert (dominated keyPattern p = true); [|congruence].
    apply dominated_spec. exists q. split; [eapply nth_error_In; exact Hk|].
    apply strictPrefix_spec. exists r. split; assumption. }
  split.
  - destruct (Hal i p Hp) as (q & x & (Hq & r & Heq) & Hx).
    destruct r as [|a r].
    + rewrite app_nil_r in Heq. subst q.
      destruct (Hinv p x Hx) as (k & Hk & Hsk).
      assert (k = i).
      { eapply NoDup_nth_error; [exact Hnd | | congruence].
        apply nth_error_Some. congruence. }
      subst k. congruence.
    + exfalso. exact (Hno q (a :: r) x Hq ltac:(discriminate) Heq Hx).
  - intros q r Hq Hr Heq. destruct (slotAt tree q) as [x|] eqn:Ex; [|reflexivity].
    exfalso. exact (Hno q r x Hq Hr Heq Ex).
Qed.

(** The slot of a dominated path is not read by the expression. *)
Lemma dominated_slot_absent keyPattern slots tree j p s :
  wfTree tree ->
  (forall q x, slotAt tree q = Some x ->
               exists k, nth_error (patternPaths keyPattern) k = Some q /\
                         nth_error slots k = Some x) ->
  (forall k p, nth_error (patternPaths keyPattern) k = Some p ->
               exists q x, along q p /\ slotAt tree q = Some x) ->
  NoDup slots ->
  nth_error (patternPaths keyPattern) j = Some p ->
  nth_error slots j = Some s ->
  dominated keyPattern p = true ->
  ~ In s (exprSlots (buildNewObjExpr tree)).
Proof.
  intros Hwf Hinv Hal Hnd Hp Hs Hdom Hin.
  destruct (exprSlots_visible Hwf _ Hin) as (p' & Hne & Hsp & Hvis).
  destruct (Hinv p' s Hsp) as (k & Hk & Hsk).
  assert (k = j).
  { eapply NoDup_nth_error; [exact Hnd | | congruence].
    apply nth_error_Some. congruence. }
  subst k. assert (p' = p) by congruence. subst p'.
  apply dominated_spec in Hdom. destruct Hdom as (q & Hq & Hpre).
  apply strictPrefix_spec in Hpre. destruct Hpre as (r & Hr & ->).
  apply In_nth_error in Hq. destruct Hq as (m & Hm).
  destruct (Hal m q Hm) as (q0 & x & (Hq0 & r0 & ->) & Hx).
  rewrite (Hvis q0 (r0 ++ r)) in Hx; [discriminate | exact Hq0 | |].
  - destruct r0; [exact Hr | discriminate].
  - rewrite app_assoc. reflexivity.
Qed.

(** C3. For a key pattern of distinct paths with non-empty names and a
    vector of as many distinct slots, the rehydration expression is built,
    and it evaluates to an object from which every pattern path that has no
    strict prefix in the pattern extracts the value of its slot.  A path
    that has a strict prefix in the pattern is dominated: its slot does not
    occur in the expression, and a strict prefix of it in the pattern
    extracts the value of its own slot. *)
Theorem rehydration_extracts_pattern_paths keyPattern slots val :
  length slots = length keyPattern ->
  (forall elem, In elem keyPattern -> fieldName elem <> EmptyString) ->
  NoDup (patternPaths keyPattern) ->
  NoDup slots ->
  exists expr obj,
    rehydrateExpr keyPattern slots = Some expr /\
    Semantics.eval val expr = Some obj /\
    forall i p s,
      nth_error (patternPaths keyPattern) i = Some p ->
      nth_error slots i = Some s ->
      if dominated keyPattern p
      then ~ In s (exprSlots expr) /\
           exists k q sq,
             nth_error (patternPaths keyPattern) k = Some q /\
             nth_error slots k = Some sq /\
             strictPrefix q p = true /\
             Semantics.extract obj q = Some (Semantics.VScalar (val sq))
      else Semantics.extract obj p = Some (Semantics.VScalar (val s)).
Proof.
  intros Hlen Hne Hndp Hnds.
  destruct (@buildKeyPatternTree_facts keyPattern slots Hlen Hne)
    as (tree & Et & Hwf & Hinv & Hal).
  exists (buildNewObjExpr tree), (treeValue val tree).
  split; [unfold rehydrateExpr; rewrite Et; reflexivity|].
  split; [apply eval_buildNewObjExpr|].
  assert (Hpos : forall i p s,
             nth_error (patternPaths keyPattern) i = Some p ->
             nth_error slots i = Some s ->
             dominated keyPattern p = false ->
             Semantics.extract (treeValue val tree) p = Some (Semantics.VScalar (val s))).
  { intros i p s Hp Hs Hd.
    destruct (@undominated_slot keyPattern slots tree i p s Hinv Hal Hndp Hp Hs Hd)
      as (Hsp & Hvis).
    apply extract_visible; [|exact Hsp | exact Hvis].
    destruct (@nth_error_patternPaths _ _ _ Hp) as (elem & He & ->).
    apply FieldRef_nonempty, Hne. eapply nth_error_In. exact He. }
  intros i p s Hp Hs. destruct (dominated keyPattern p) eqn:Hd; [|eapply Hpos; eauto].
  split; [eapply dominated_slot_absent; eauto|].
  destruct (@dominated_by_minimal keyPattern (length p) p (le_n _) Hd)
    as (q & Hq & Hpre & Hdq).
  apply In_nth_error in Hq. destruct Hq as (k & Hk).
  destruct (nth_error slots k) as [sq|] eqn:Esq.
  - exists k, q, sq. repeat split; try assumption. eapply Hpos; eauto.
  - exfalso. apply nth_error_None in Esq.
    assert (k < length (patternPaths keyPattern)) by (apply nth_error_Some; congruence).
    unfold patternPaths in *. rewrite length_map in *. lia.
Qed.

Ltac solve_NoDup :=
  repeat (constructor; [simpl; intuition discriminate|]); constructor.

Lemma rehydration_extracts_pattern_paths_witness :
  exists expr obj,
    rehydrateExpr kp3 [10; 11; 12] = Some expr /\
    Semantics.eval (fun s => s * 100) expr = Some obj /\
    Semantics.extract obj ["a"; "c"] = Some (Semantics.VScalar 1200).
Proof.
  assert (Hlen : length [10; 11; 12] = length kp3) by reflexivity.
  assert (Hne : forall elem, In elem kp3 -> fieldName elem <> EmptyString)
    by (intros elem [<- | [<- | [<- | []]]]; discriminate).
  assert (Hndp : NoDup (patternPaths kp3)) by (vm_compute; solve_NoDup).
  assert (Hnds : NoDup [10; 11; 12]) by solve_NoDup.
  destruct (@rehydration_extracts_pattern_paths kp3 [10; 11; 12] (fun s => s * 100)
              Hlen Hne Hndp Hnds) as (expr & obj & He & Hv & Hall).
  exists expr, obj. split; [exact He|]. split; [exact Hv|].
  exact (Hall 2 ["a"; "c"] 12 eq_refl eq_refl).
Defined.

(** C10 (amended). For a key pattern of distinct paths with non-empty names
    and as many distinct slots, in which the path at position i is a strict
    prefix of the path at position j, whichever comes first: the expression
    is built without an error, the slot of the longer path occurs nowhere in
    it, and the slot of the prefix occurs in it if the prefix has itself no
    strict prefix in the pattern. *)
Theorem strict_prefix_drops_longer_path keyPattern slots i j pi pj si sj :
  length slots = length keyPattern ->
  (forall elem, In elem keyPattern -> fieldName elem <> EmptyString) ->
  NoDup (patternPaths keyPattern) ->
  NoDup slots ->
  nth_error (patternPaths keyPattern) i = Some pi ->
  nth_error (patternPaths keyPattern) j = Some pj ->
  nth_error slots i = Some si ->
  nth_error slots j = Some sj ->
  strictPrefix pi pj = true ->
  exists expr,
    rehydrateExpr keyPattern slots = Some expr /\
    ~ In sj (exprSlots expr) /\
    (dominated keyPattern pi = false -> In si (exprSlots expr)).
Proof.
  intros Hlen Hne Hndp Hnds Hpi Hpj Hsi Hsj Hpre.
  destruct (@buildKeyPatternTree_facts keyPattern slots Hlen Hne)
    as (tree & Et & Hwf & Hinv & Hal).
  exists (buildNewObjExpr tree).
  split; [unfold rehydrateExpr; rewrite Et; reflexivity|]. split.
  - eapply dominated_slot_absent; eauto.
    apply dominated_spec. exists pi. split; [eapply nth_error_In; exact Hpi | exact Hpre].
  - intros Hd. destruct (@undominated_slot keyPattern slots tree i pi si Hinv Hal Hndp Hpi Hsi Hd)
      as (Hsp & Hvis).
    eapply visible_in_expr; [|exact Hsp | exact Hvis].
    destruct (@nth_error_patternPaths _ _ _ Hpi) as (elem & He & ->).
    apply FieldRef_nonempty, Hne. eapply nth_error_In. exact He.
Qed.

Lemma strict_prefix_drops_longer_path_witness :
  (exists expr, rehydrateExpr kpPrefixFirst [10; 11] = Some expr /\
                ~ In 11 (exprSlots expr) /\ In 10 (exprSlots expr)) /\
  (exists expr, rehydrateExpr kpPrefixLast [10; 11] = Some expr /\
                ~ In 10 (exprSlots expr) /\ In 11 (exprSlots expr)).
Proof.
  split.
  - destruct (@strict_prefix_drops_longer_path kpPrefixFirst [10; 11] 0 1
                ["a"] ["a"; "b"] 10 11 eq_refl
                ltac:(intros elem [<- | [<- | []]]; discriminate)
                ltac:(vm_compute; solve_NoDup) ltac:(solve_NoDup)
                eq_refl eq_refl eq_refl eq_refl eq_refl)
      as (expr & He & Hno & Hyes).
    exists expr. split; [exact He|]. split; [exact Hno | apply Hyes; reflexivity].
  - destruct (@strict_prefix_drops_longer_path kpPrefixLast [10; 11] 1 0
                ["a"] ["a"; "b"] 11 10 eq_refl
                ltac:(intros elem [<- | [<- | []]]; discriminate)
                ltac:(vm_compute; solve_NoDup) ltac:(solve_NoDup)
                eq_refl eq_refl eq_refl eq_refl eq_refl)
      as (expr & He & Hno & Hyes).
    exists expr. split; [exact He|]. split; [exact Hno | apply Hyes; reflexivity].
Defined.

(** C10, as stated, fails: in the pattern a, a.b, a.b.c the path a.b is a
    strict prefix of a.b.c, and the slot of a.b does not occur in the
    expression, which reads the slot of a only. *)
Lemma prefix_of_prefix_is_dropped_too :
  rehydrateExpr kpChain [10; 11; 12]
  = Some (EFunction "newObj" [EConstant (CString "a"); EVariable 10]) /\
  nth_error (patternPaths kpChain) 1 = Some ["a"; "b"] /\
  nth_error (patternPaths kpChain) 2 = Some ["a"; "b"; "c"] /\
  strictPrefix ["a"; "b"] ["a"; "b"; "c"] = true /\
  ~ In 11 (exprSlots (EFunction "newObj" [EConstant (CString "a"); EVariable 10])).
Proof.
  repeat split; try reflexivity. simpl. intros [H | []]. discriminate H.
Qed.

(* ===================================================================== *)
(** * The names a plan binds *)
(* ===================================================================== *)

Lemma Guarantees_weaken (G G' : SlotName -> Prop) f :
  Guarantees G f -> (forall k, G' k -> G k) -> Guarantees G' f.
Proof.
  intros Hf Hsub reqs st stage outputs st' H. destruct (Hf _ _ _ _ _ H) as (Hn & Hv).
  split; [|exact Hv]. intros k Hk Hg. apply Hn; [exact Hk | apply Hsub, Hg].
Qed.

Lemma isSome_false (A : Type) (o : option A) : negb (isSome o) = true -> o = None.
Proof. destruct o; [discriminate | reflexivity]. Qed.

(** Simplification of the named slots of outputs that were set. *)
Ltac slots_simpl :=
  repeat rewrite ?has_set, ?has_setIndexKeySlots, ?getIndexKeySlots_set,
    ?reqs_has_set, ?reqs_has_clear, ?reqs_has_setIf in *.

Ltac slots_compute :=
  unfold Slots.has, Slots.getIfExists, Slots.set, Slots.clear, Slots.setIndexKeySlots,
    Slots.getIndexKeySlots, Reqs.has, Reqs.set, Reqs.clear, Reqs.setIndexKeyBitset in *;
  simpl in *.

(** The guarantee of a child, at each of the four names. *)
Ltac child_names Hn :=
  let H1 := fresh "HnResult" in let H2 := fresh "HnRecordId" in
  let H3 := fresh "HnReturnKey" in let H4 := fresh "HnOplogTs" in
  pose proof (Hn kResult) as H1; pose proof (Hn kRecordId) as H2;
  pose proof (Hn kReturnKey) as H3; pose proof (Hn kOplogTs) as H4; clear Hn.

Ltac use_child G f :=
  match goal with
  | Hc : Guarantees G f, Hrun : f _ _ = (Ok (_, _), _) |- _ =>
      let Hn := fresh "Hn" in let Hv := fresh "Hv" in
      destruct (Hc _ _ _ _ _ Hrun) as (Hn & Hv); child_names Hn
  end.

Ltac name_cases :=
  let k := fresh "k" in let Hk := fresh "Hk" in let Hg := fresh "Hg" in
  intros k Hk Hg; destruct k; slots_compute;
  try reflexivity; try assumption; try congruence;
  try solve [auto];
  try solve [match goal with
             | Hk : ?x = true, H : negb ?x || _ = true |- _ =>
                 rewrite Hk in H; exact H
             | Hk : ?x = true, H : negb ?x = true |- _ =>
                 rewrite Hk in H; discriminate H
             end].

Ltac vector_case := slots_compute; try congruence; try solve [auto].

Ltac no_bitset :=
  repeat match goal with
    | Hi : negb (isSome _) = true |- _ => apply isSome_false in Hi
    end.

Lemma buildCollScan_ok X csn :
  GeneratorsOk X -> Guarantees (fun _ => True) (buildCollScan X csn).
Proof.
  intros HX reqs st stage outputs st'. unfold buildCollScan. intros H. minv.
  match goal with
  | Hg : generateCollScan _ _ _ _ = _ |- _ =>
      destruct (collScan_ok HX _ _ _ Hg) as (Hres & Hrid & Hix)
  end.
  no_bitset.
  destruct (Reqs.has reqs kReturnKey) eqn:Erk; minv; (split; [name_cases | vector_case]).
Qed.

Lemma buildVirtualScan_ok X vsn :
  Guarantees (fun k => k <> kReturnKey) (buildVirtualScan X vsn).
Proof.
  intros reqs st stage outputs st'. unfold buildVirtualScan. intros H. minv.
  destruct (Reqs.has reqs kResult) eqn:Eres;
    [|destruct (reqs_indexKeyBitset reqs) eqn:Ebits];
    destruct (Reqs.has reqs kRecordId) eqn:Erid; minv;
    (split; [name_cases | vector_case]).
Qed.

Lemma buildIndexScan_ok X ixn :
  GeneratorsOk X -> Guarantees (fun _ => True) (buildIndexScan X ixn).
Proof.
  intros HX reqs st stage outputs st' H.
  apply buildIndexScan_inv in H; [|exact HX].
  destruct H as (requested & bodyStage & bodyOutputs & full & st1 & _ & _ & _ & _
                 & Hts & Hrid & Hrk & Hres & Hvec).
  split.
  - intros k Hk _. destruct k; auto. congruence.
  - destruct (reqs_indexKeyBitset reqs); [discriminate | congruence].
Qed.

Lemma forEachSlot_state o reqs st v st' :
  forEachSlot o reqs st = (Ok v, st') -> st' = st.
Proof.
  unfold forEachSlot. generalize (Reqs.required reqs). intros names. revert v st'.
  induction names as [|k names IH]; intros v st' H; simpl in H; minv; [reflexivity|].
  eapply IH. eassumption.
Qed.

Lemma buildFetch_ok X ctx nodeId filter G buildChild :
  Guarantees G buildChild ->
  Guarantees (fun _ => True) (buildFetch X ctx nodeId filter buildChild).
Proof.
  intros Hc reqs st stage outputs st'. unfold buildFetch, relevantSlotsOf,
    makeLoopJoinForFetch. intros H. minv. use_child G buildChild.
  destruct filter; minv; (split; [name_cases | vector_case]).
Qed.

Lemma buildLimit_ok nodeId limit G skipChild buildChild :
  Guarantees G buildChild ->
  (forall skip buildGrandChild,
     skipChild = Some (skip, buildGrandChild) -> Guarantees G buildGrandChild) ->
  Guarantees G (buildLimit nodeId limit skipChild buildChild).
Proof.
  intros Hc Hg reqs st stage outputs st'. unfold buildLimit. intros H.
  destruct skipChild as [[skip buildGrandChild]|].
  - specialize (Hg _ _ eq_refl). minv.
    destruct (reqs_isTailableCollScanResumeBranch reqs); simpl in H; minv;
      eapply Hg; eassumption.
  - minv.
    destruct (reqs_isTailableCollScanResumeBranch reqs); simpl in H; minv;
      eapply Hc; eassumption.
Qed.

Lemma buildSkip_ok nodeId skip G buildChild :
  Guarantees G buildChild -> Guarantees G (buildSkip nodeId skip buildChild).
Proof.
  intros Hc reqs st stage outputs st'. unfold buildSkip. intros H. minv.
  destruct (reqs_isTailableCollScanResumeBranch reqs); simpl in H; minv;
    eapply Hc; eassumption.
Qed.

Lemma buildSort_ok ctx sn G buildChild :
  Guarantees G buildChild -> Guarantees G (buildSort ctx sn buildChild).
Proof.
  intros Hc reqs st stage outputs st' H.
  pose proof H as H0. unfold buildSort in H0. minv. no_bitset.
  apply buildSort_inv in H.
  destruct H as (childStage & stc & r & keyStage & orderBy & direction & values
                 & Hchild & _).
  destruct (Hc _ _ _ _ _ Hchild) as (Hn & Hv). child_names Hn.
  split; [name_cases | vector_case].
Qed.

Lemma buildSortMerge_ok nodeId dedup sort children :
  Guarantees (fun _ => True) (buildSortMerge nodeId dedup sort children).
Proof.
  intros reqs st stage outputs st'. unfold buildSortMerge. intros H. minv. no_bitset.
  match goal with
  | Hm : makePlanStageSlots _ _ = _ |- _ =>
      apply makePlanStageSlots_ok in Hm; destruct Hm as (Hk & Hix)
  end.
  assert (Hnames : forall k, Reqs.has reqs k = true -> Slots.has a2 k = true).
  { intros k Hr. rewrite Hk, reqs_has_setIf, Hr.
    destruct (SlotName_eqb kRecordId k && dedup); reflexivity. }
  destruct dedup; minv; (split; [intros k Hr _; apply Hnames, Hr | congruence]).
Qed.

Lemma buildProjectionSimple_ok nodeId proj G buildChild :
  Guarantees G buildChild ->
  Guarantees G (buildProjectionSimple nodeId proj buildChild).
Proof.
  intros Hc reqs st stage outputs st'. unfold buildProjectionSimple. intros H. minv.
  no_bitset. use_child G buildChild. split; [name_cases | vector_case].
Qed.

Lemma buildProjectionCovered_ok X nodeId proj coveredKeyObj child G buildChild :
  Guarantees G buildChild ->
  Guarantees G (buildProjectionCovered X nodeId proj coveredKeyObj child buildChild).
Proof.
  intros Hc reqs st stage outputs st'. unfold buildProjectionCovered. intros H. minv.
  no_bitset. use_child G buildChild. split; [name_cases | vector_case].
Qed.

Lemma buildProjectionDefault_ok X nodeId proj G buildChild :
  Guarantees G buildChild ->
  Guarantees G (buildProjectionDefault X nodeId proj buildChild).
Proof.
  intros Hc reqs st stage outputs st'. unfold buildProjectionDefault. intros H. minv.
  no_bitset. use_child G buildChild. split; [name_cases | vector_case].
Qed.

Lemma fresh_outputs_ok reqs reqs' st outputs st' :
  makePlanStageSlots reqs' st = (Ok outputs, st') ->
  (forall k, Reqs.has reqs k = true -> Reqs.has reqs' k = true) ->
  (forall k, Reqs.has reqs k = true -> Slots.has outputs k = true) /\
  Slots.getIndexKeySlots outputs = None.
Proof.
  intros H Hsub. apply makePlanStageSlots_ok in H. destruct H as (Hk & Hix).
  split; [|exact Hix]. intros k Hr. rewrite Hk. apply Hsub, Hr.
Qed.

Lemma buildOr_ok X nodeId dedup filter children :
  Guarantees (fun _ => True) (buildOr X nodeId dedup filter children).
Proof.
  intros reqs st stage outputs st'. unfold buildOr. intros H. minv. no_bitset.
  match goal with
  | Hm : makePlanStageSlots _ _ = (Ok ?o, _) |- _ =>
      apply (@fresh_outputs_ok reqs) in Hm;
      [destruct Hm as (Hnames & Hix)
      | intros k Hr; rewrite !reqs_has_setIf, Hr;
        destruct (SlotName_eqb kRecordId k && dedup),
                 (SlotName_eqb kResult k && isSome filter); reflexivity]
  end.
  destruct filter; minv; (split; [intros k Hr _; apply Hnames, Hr | congruence]).
Qed.

Lemma buildTextMatch_ok X ctx nodeId indexName ftsQuery G children :
  Forall (fun entry => Guarantees G (snd entry)) children ->
  Guarantees G (buildTextMatch X ctx nodeId indexName ftsQuery children).
Proof.
  intros Hcs reqs st stage outputs st'. unfold buildTextMatch. intros H. minv.
  no_bitset.
  match goal with
  | Hi : nth_error children 0 = Some (?c, ?f) |- _ =>
      assert (Hc : Guarantees G f)
        by (rewrite Forall_forall in Hcs; apply (Hcs (c, f)); eapply nth_error_In; exact Hi)
  end.
  match goal with
  | Hc : Guarantees G ?f |- _ => use_child G f
  end.
  destruct (Reqs.has reqs kReturnKey) eqn:Erk; minv; (split; [name_cases | vector_case]).
Qed.

Lemma buildReturnKey_ok G buildChild :
  Guarantees G buildChild ->
  Guarantees (fun k => G k /\ k <> kReturnKey) (buildReturnKey buildChild).
Proof.
  intros Hc reqs st stage outputs st'. unfold buildReturnKey. intros H. minv.
  no_bitset. use_child G buildChild.
  split; [|vector_case].
  intros k Hk (Hg & Hne). destruct k; slots_compute; try congruence; auto.
Qed.

Lemma buildEof_ok nodeId : Guarantees (fun _ => True) (buildEof nodeId).
Proof.
  intros reqs st stage outputs st'. unfold buildEof, generateEofPlan. intros H. minv.
  match goal with
  | Hm : makePlanStageSlots _ _ = _ |- _ =>
      apply (@fresh_outputs_ok reqs) in Hm; [destruct Hm as (Hnames & Hix) | auto]
  end.
  split; [intros k Hr _; apply Hnames, Hr | congruence].
Qed.

Lemma designateOutputs_ok reqs innerIdSlot innerResultSlot st outputs st' :
  designateOutputs reqs innerIdSlot innerResultSlot st = (Ok outputs, st') ->
  (forall k, Reqs.has reqs k = true -> Slots.has outputs k = true) /\
  Slots.getIndexKeySlots outputs = None.
Proof.
  unfold designateOutputs. intros H. minv.
  match goal with
  | Hm : makePlanStageSlots _ _ = _ |- _ =>
      apply (@fresh_outputs_ok reqs) in Hm; [destruct Hm as (Hnames & Hix) | auto]
  end.
  split.
  - intros k Hr. destruct (Reqs.has reqs kRecordId), (Reqs.has reqs kResult);
      repeat apply has_set_mono; apply Hnames, Hr.
  - destruct (Reqs.has reqs kRecordId), (Reqs.has reqs kResult);
      rewrite ?getIndexKeySlots_set; exact Hix.
Qed.

Lemma buildAndHash_ok nodeId children :
  Guarantees (fun _ => True) (buildAndHash nodeId children).
Proof.
  intros reqs st stage outputs st'. unfold buildAndHash. intros H. minv.
  match goal with
  | Hd : designateOutputs _ _ _ _ = _ |- _ =>
      apply designateOutputs_ok in Hd; destruct Hd as (Hnames & Hix)
  end.
  split; [intros k Hr _; apply Hnames, Hr | congruence].
Qed.

Lemma buildAndSorted_ok nodeId children :
  Guarantees (fun _ => True) (buildAndSorted nodeId children).
Proof.
  intros reqs st stage outputs st'. unfold buildAndSorted. intros H. minv.
  match goal with
  | Hd : designateOutputs _ _ _ _ = _ |- _ =>
      apply designateOutputs_ok in Hd; destruct Hd as (Hnames & Hix)
  end.
  split; [intros k Hr _; apply Hnames, Hr | congruence].
Qed.

Lemma buildShardFilter_ok X ctx nodeId child G buildChild :
  Guarantees G buildChild ->
  Guarantees G (buildShardFilter X ctx nodeId child buildChild).
Proof.
  intros Hc reqs st stage outputs st'. unfold buildShardFilter.
  match goal with
  | |- context [Reqs.setIf reqs kResult ?c] => destruct c eqn:Ec
  end; unfold Reqs.setIf.
  - replace (negb (Reqs.has (Reqs.set reqs kResult) kResult)) with false
      by (rewrite reqs_has_set; reflexivity).
    intros H. minv. use_child G buildChild. split; [name_cases | vector_case].
  - destruct (Reqs.has reqs kResult) eqn:Eres; cbn [negb].
    + intros H. minv. use_child G buildChild. split; [name_cases | vector_case].
    + unfold buildShardFilterCovered. intros H. minv. use_child G buildChild.
      destruct (reqs_indexKeyBitset reqs) eqn:Ebits; minv;
        (split; [name_cases | vector_case]).
Qed.

Lemma makeUnion_ok nodeId buildRoot :
  Guarantees (fun _ => True) (makeUnionForTailableCollScan nodeId buildRoot).
Proof.
  intros reqs st stage outputs st'. unfold makeUnionForTailableCollScan.
  intros H. minv.
  match goal with
  | Hm : makePlanStageSlots _ _ = _ |- _ =>
      apply (@fresh_outputs_ok reqs) in Hm; [destruct Hm as (Hnames & Hix) | auto]
  end.
  split; [intros k Hr _; apply Hnames, Hr | congruence].
Qed.

(** [build] guarantees what the translator of the node guarantees. *)
Lemma buildWith_ok ctx G invokeRoot root :
  Guarantees G invokeRoot -> Guarantees G (buildWith ctx invokeRoot root).
Proof.
  intros Hi reqs st stage outputs st'. unfold buildWith. intros H. minv.
  match goal with
  | Hb : (if ?c then _ else _) _ = _ |- _ => destruct c
  end.
  - apply makeUnion_ok in H. destruct H as (Hn & Hv). split.
    + intros k Hk _. apply Hn; [exact Hk | exact I].
    + exact Hv.
  - eapply Hi. exact H.
Qed.

Lemma guaranteed_no_return_key root k :
  noVirtualScanOrReturnKey root = false -> guaranteed root k -> k <> kReturnKey.
Proof. intros E [Hk | Hk]; [exact Hk | congruence]. Qed.

Lemma guaranteed_member cs c k :
  In c cs ->
  (k <> kReturnKey \/ forallb noVirtualScanOrReturnKey cs = true) -> guaranteed c k.
Proof.
  intros Hin [Hk | Hk]; [left; exact Hk | right].
  rewrite forallb_forall in Hk. apply Hk, Hin.
Qed.

Lemma qsize_member cs c : In c cs -> qsize c <= list_sum (map qsize cs).
Proof.
  induction cs as [|d cs IH]; simpl; [intros []|].
  intros [-> | Hin]; [lia | specialize (IH Hin); lia].
Qed.

Lemma Guarantees_ext G (f g : PlanStageReqs -> M BuildResult) :
  (forall reqs, f reqs = g reqs) -> Guarantees G g -> Guarantees G f.
Proof. intros E Hg reqs st stage outputs st' H. rewrite E in H. eapply Hg, H. Qed.

Ltac translator := eapply Guarantees_ext; [intros reqs; cbn [invoke]; reflexivity|].

Lemma invoke_ok X ctx (HX : GeneratorsOk X) n :
  forall root, qsize root <= n -> Guarantees (guaranteed root) (invoke X ctx root).
Proof.
  induction n as [|n IH]; intros root Hsize; [destruct root; simpl in Hsize; lia|].
  assert (Hbuild : forall c, qsize c <= n ->
            Guarantees (guaranteed c) (buildWith ctx (invoke X ctx c) c))
    by (intros c Hc; apply buildWith_ok, IH, Hc).
  destruct root; simpl in Hsize; translator.
  - eapply Guarantees_weaken; [apply buildCollScan_ok, HX | intros k _; exact I].
  - eapply Guarantees_weaken; [apply buildVirtualScan_ok|].
    intros k; apply guaranteed_no_return_key; reflexivity.
  - eapply Guarantees_weaken; [apply buildIndexScan_ok, HX | intros k _; exact I].
  - eapply Guarantees_weaken; [eapply buildFetch_ok, Hbuild; lia | intros k _; exact I].
  - eapply Guarantees_weaken with (G := guaranteed root); [|intros k Hk; exact Hk].
    apply buildLimit_ok; [apply Hbuild; lia|].
    intros skip buildGrandChild E. destruct root; try discriminate.
    inversion E; subst. simpl in Hsize.
    eapply Guarantees_weaken; [apply Hbuild; lia | intros k Hk; exact Hk].
  - eapply Guarantees_weaken with (G := guaranteed root); [|intros k Hk; exact Hk].
    apply buildSkip_ok, Hbuild. lia.
  - eapply Guarantees_weaken with (G := guaranteed root); [|intros k Hk; exact Hk].
    apply buildSort_ok, Hbuild. lia.
  - intros reqs st stage outputs st' H. unfold buildSortKeyGeneraror in H. minv.
  - eapply Guarantees_weaken with (G := guaranteed root); [|intros k Hk; exact Hk].
    apply buildProjectionSimple_ok, Hbuild. lia.
  - eapply Guarantees_weaken with (G := guaranteed root); [|intros k Hk; exact Hk].
    apply buildProjectionCovered_ok, Hbuild. lia.
  - eapply Guarantees_weaken with (G := guaranteed root); [|intros k Hk; exact Hk].
    apply buildProjectionDefault_ok, Hbuild. lia.
  - eapply Guarantees_weaken; [apply buildOr_ok | intros k _; exact I].
  - match goal with
    | |- Guarantees _ (buildTextMatch _ _ _ _ _ (map _ ?cs)) =>
        eapply Guarantees_weaken with (G := fun k =>
          k <> kReturnKey \/ forallb noVirtualScanOrReturnKey cs = true);
        [|intros k Hk; exact Hk]
    end.
    apply buildTextMatch_ok. rewrite Forall_forall. intros entry Hin.
    apply in_map_iff in Hin. destruct Hin as (c & <- & Hin). simpl.
    eapply Guarantees_weaken;
      [apply Hbuild; pose proof (qsize_member _ _ Hin); lia
      | intros k; apply guaranteed_member, Hin].
  - eapply Guarantees_weaken; [apply buildReturnKey_ok, Hbuild; lia|].
    intros k Hk. assert (Hne : k <> kReturnKey)
      by (eapply guaranteed_no_return_key; [|exact Hk]; reflexivity).
    split; [left|]; exact Hne.
  - eapply Guarantees_weaken; [apply buildEof_ok | intros k _; exact I].
  - eapply Guarantees_weaken; [apply buildAndHash_ok | intros k _; exact I].
  - eapply Guarantees_weaken; [apply buildAndSorted_ok | intros k _; exact I].
  - eapply Guarantees_weaken; [apply buildSortMerge_ok | intros k _; exact I].
  - eapply Guarantees_weaken with (G := guaranteed root); [|intros k Hk; exact Hk].
    apply buildShardFilter_ok, Hbuild. lia.
  - intros reqs st stage outputs st' H. minv.
Qed.

(** C1 (amended).  For every solution [root] and requirements [reqs], if
    [build root reqs] succeeds then the returned bindings hold every
    requested name, save that a requested return key is bound for sure only
    when the solution has neither a virtual scan nor a return-key node;
    and they hold an index-key slot vector only if [reqs] set a bitset.
    Names that were not requested may be bound as well, and the vector may
    be missing although a bitset was set. *)
Theorem build_binds_requested_names X ctx root reqs st stage outputs st' :
  GeneratorsOk X ->
  build X ctx root reqs st = (Ok (stage, outputs), st') ->
  (forall k, Reqs.has reqs k = true -> guaranteed root k ->
             Slots.has outputs k = true) /\
  (Slots.getIndexKeySlots outputs <> None -> reqs_indexKeyBitset reqs <> None).
Proof.
  intros HX H.
  assert (Hb : Guarantees (guaranteed root) (build X ctx root))
    by (unfold build; apply buildWith_ok, (@invoke_ok X ctx HX (qsize root)), Nat.le_refl).
  exact (Hb _ _ _ _ _ H).
Qed.

Lemma build_binds_requested_names_witness :
  exists stage outputs st',
    build sampleCollaborators sampleContext fetchOverIndexScan
          (reqsOf [kResult]) initialState
    = (Ok (stage, outputs), st') /\
    Slots.has outputs kResult = true.
Proof.
  assert (Hrun : exists stage outputs st',
             build sampleCollaborators sampleContext fetchOverIndexScan
                   (reqsOf [kResult]) initialState
             = (Ok (stage, outputs), st'))
    by (eexists _, _, _; vm_compute; reflexivity).
  destruct Hrun as (stage & outputs & st' & Hrun).
  exists stage, outputs, st'. split; [exact Hrun|].
  destruct (@build_binds_requested_names sampleCollaborators sampleContext
              fetchOverIndexScan (reqsOf [kResult]) _ _ _ _
              sampleCollaborators_ok Hrun) as (Hnames & _).
  apply Hnames; [reflexivity | left; discriminate].
Defined.

(** Against C1 as it is stated: a fetch asked for the result alone binds the
    record id too; an EOF plan asked for index keys returns no index-key
    slots; and a virtual scan asked for the return key does not bind it. *)
Lemma bindings_differ_from_requirements :
  (exists stage outputs st',
     build sampleCollaborators sampleContext fetchOverIndexScan
           (reqsOf [kResult]) initialState
     = (Ok (stage, outputs), st') /\
     Reqs.has (reqsOf [kResult]) kRecordId = false /\
     Slots.has outputs kRecordId = true) /\
  (exists stage outputs st',
     build sampleCollaborators sampleContext (QEof 1)
           (Reqs.setIndexKeyBitset emptyReqs (Some 1%N)) initialState
     = (Ok (stage, outputs), st') /\
     reqs_indexKeyBitset (Reqs.setIndexKeyBitset emptyReqs (Some 1%N)) = Some 1%N /\
     Slots.getIndexKeySlots outputs = None) /\
  (exists stage outputs st',
     build sampleCollaborators sampleContext sampleVirtualScan
           (reqsOf [kReturnKey]) initialState
     = (Ok (stage, outputs), st') /\
     Reqs.has (reqsOf [kReturnKey]) kReturnKey = true /\
     Slots.has outputs kReturnKey = false).
Proof.
  repeat split; eexists _, _, _; vm_compute; repeat split; reflexivity.
Qed.

(* ===================================================================== *)
(** * The first node of a type *)
(* ===================================================================== *)

(** Induction on a solution, with the hypothesis for every child. *)
Lemma QuerySolutionNode_ind' (P : QuerySolutionNode -> Prop) :
  (forall root, Forall P (qsnChildren root) -> P root) -> forall root, P root.
Proof.
  intros step.
  fix IH 1. intros root. apply step.
  destruct root; simpl; repeat constructor; try apply IH;
    match goal with
    | |- Forall P ?cs => induction cs; constructor; [apply IH | assumption]
    end.
Qed.

Lemma find_app_first (A : Type) (f : A -> bool) (l l' : list A) :
  List.find f (l ++ l') = match List.find f l with Some a => Some a | None => List.find f l' end.
Proof. induction l as [|a l IH]; simpl; [reflexivity|]. destruct (f a); auto. Qed.

(** X1. [getNodeByType] returns the first node of the type in pre-order,
    and nothing when the solution has no node of the type. *)
Theorem getNodeByType_first_in_preorder root type :
  getNodeByType root type = List.find (hasType type) (preorder root).
Proof.
  induction root as [root IH] using QuerySolutionNode_ind'.
  assert (Hall : forall cs, Forall (fun c => getNodeByType c type
                                             = List.find (hasType type) (preorder c)) cs ->
            (fix first (cs : list QuerySolutionNode) : option QuerySolutionNode :=
               match cs with
               | [] => None
               | c :: more =>
                   match getNodeByType c type with
                   | Some r => Some r
                   | None => first more
                   end
               end) cs
            = List.find (hasType type)
                ((fix all (cs : list QuerySolutionNode) : list QuerySolutionNode :=
                    match cs with
                    | [] => []
                    | c :: more => preorder c ++ all more
                    end) cs)).
  { induction 1 as [|c cs Hc _ IHcs]; [reflexivity|].
    rewrite find_app_first, <- Hc, IHcs. reflexivity. }
  destruct root; cbn [getNodeByType preorder List.find qsnChildren] in IH |- *;
    unfold hasType at 1;
    destruct (StageType_eqb _ type); try reflexivity;
    try (inversion IH; subst; assumption);
    apply Hall, IH.
Qed.

(* ===================================================================== *)
(** * The entry point *)
(* ===================================================================== *)

Lemma build_guarantees X ctx root :
  GeneratorsOk X -> Guarantees (guaranteed root) (build X ctx root).
Proof.
  intros HX. unfold build.
  apply buildWith_ok, (@invoke_ok X ctx HX (qsize root)), Nat.le_refl.
Qed.

(** X2. With scan generators that keep their contract, the invariants that
    close the entry point cannot fail: when the build of the root succeeds
    on a builder that has not been used, the entry point returns its plan
    and stores its bindings, which hold the result, the record id if the
    builder is to produce it, and the oplog timestamp if it is tracked. *)
Theorem entry_point_postconditions X ctx root b stage outputs st' :
  GeneratorsOk X ->
  _buildHasStarted b = false ->
  build X ctx root (entryReqs b) (_state b) = (Ok (stage, outputs), st') ->
  exists b',
    buildTop X ctx root b = (Ok stage, b') /\
    _buildHasStarted b' = true /\
    _state b' = st' /\
    data_outputs (_data b') = outputs /\
    Slots.has outputs kResult = true /\
    (_shouldProduceRecordIdSlot b = true -> Slots.has outputs kRecordId = true) /\
    (shouldTrackLatestOplogTimestamp (_data b) = true ->
     Slots.has outputs kOplogTs = true).
Proof.
  intros HX Hb H.
  destruct (build_guarantees ctx root HX _ _ H) as (Hnames & _).
  assert (Hres : Slots.has outputs kResult = true).
  { apply Hnames; [|left; discriminate]. unfold entryReqs.
    rewrite !reqs_has_setIf, reqs_has_set. reflexivity. }
  assert (Hrid : _shouldProduceRecordIdSlot b = true -> Slots.has outputs kRecordId = true).
  { intros E. apply Hnames; [|left; discriminate]. unfold entryReqs.
    rewrite !reqs_has_setIf, E. simpl.
    destruct (shouldTrackLatestOplogTimestamp (_data b)); reflexivity. }
  assert (Hts : shouldTrackLatestOplogTimestamp (_data b) = true ->
                Slots.has outputs kOplogTs = true).
  { intros E. apply Hnames; [|left; discriminate]. unfold entryReqs.
    rewrite reqs_has_setIf, E. reflexivity. }
  unfold buildTop. rewrite Hb. unfold entryReqs in H. rewrite H, Hres.
  destruct (_shouldProduceRecordIdSlot b) eqn:Er;
    destruct (shouldTrackLatestOplogTimestamp (_data b)) eqn:Et;
    rewrite ?Hrid, ?Hts by reflexivity; simpl;
    eexists; repeat split; auto; discriminate.
Qed.

Lemma entry_point_postconditions_witness :
  exists stage b',
    buildTop sampleCollaborators sampleContext sampleCollScan
             (makeBuilder sampleContext sampleCollScan) = (Ok stage, b') /\
    Slots.has (data_outputs (_data b')) kRecordId = true.
Proof.
  assert (Hrun : exists stage outputs st',
             build sampleCollaborators sampleContext sampleCollScan
                   (entryReqs (makeBuilder sampleContext sampleCollScan))
                   (_state (makeBuilder sampleContext sampleCollScan))
             = (Ok (stage, outputs), st'))
    by (eexists _, _, _; vm_compute; reflexivity).
  destruct Hrun as (stage & outputs & st' & Hrun).
  destruct (@entry_point_postconditions sampleCollaborators sampleContext sampleCollScan
              (makeBuilder sampleContext sampleCollScan) stage outputs st'
              sampleCollaborators_ok eq_refl Hrun)
    as (b' & Htop & _ & _ & Hout & _ & Hrid & _).
  exists stage, b'. split; [exact Htop|]. rewrite Hout. apply Hrid. reflexivity.
Defined.

(* ===================================================================== *)
(** * Ids are never given out twice *)
(* ===================================================================== *)

Lemma extends_refl st : extends st st.
Proof. repeat split; auto. exists []. rewrite app_nil_r. reflexivity. Qed.

Lemma extends_trans st1 st2 st3 : extends st1 st2 -> extends st2 st3 -> extends st1 st3.
Proof.
  intros (a & b & c & m & E) (a' & b' & c' & m' & E').
  repeat split; try lia. exists (m ++ m'). rewrite E', E, app_assoc. reflexivity.
Qed.

Lemma Grows_ret (A : Type) (a : A) : Grows (ret a).
Proof. intros st. apply extends_refl. Qed.

Lemma Grows_fail (A : Type) e : Grows (@fail A e).
Proof. intros st. apply extends_refl. Qed.

Lemma Grows_bind (A B : Type) (m : M A) (f : A -> M B) :
  Grows m -> (forall a, Grows (f a)) -> Grows (bind m f).
Proof.
  intros Hm Hf st. unfold bind. specialize (Hm st).
  destruct (m st) as [[a|e] st1]; simpl in Hm; [|exact Hm].
  eapply extends_trans; [exact Hm | apply Hf].
Qed.

Lemma Grows_invariant c : Grows (invariant c).
Proof. destruct c; [apply Grows_ret | apply Grows_fail]. Qed.

Lemma Grows_tassert tag c : Grows (tassert tag c).
Proof. destruct c; [apply Grows_ret | apply Grows_fail]. Qed.

Lemma Grows_uassert tag c : Grows (uassert tag c).
Proof. destruct c; [apply Grows_ret | apply Grows_fail]. Qed.

Lemma Grows_deref (A : Type) (o : option A) : Grows (deref o).
Proof. destruct o; [apply Grows_ret | apply Grows_fail]. Qed.

Lemma Grows_index (A : Type) (v : list A) i : Grows (index v i).
Proof. apply Grows_deref. Qed.

Lemma Grows_generateSlotId : Grows generateSlotId.
Proof. intros st. repeat split; simpl; auto. exists []. rewrite app_nil_r. reflexivity. Qed.

Lemma Grows_generateFrameId : Grows generateFrameId.
Proof. intros st. repeat split; simpl; auto. exists []. rewrite app_nil_r. reflexivity. Qed.

Lemma Grows_registerSlot name : Grows (registerSlot name).
Proof. intros st. repeat split; simpl; auto. eexists. reflexivity. Qed.

Lemma Grows_getSlotIfExists name : Grows (getSlotIfExists name).
Proof. intros st. apply extends_refl. Qed.

Lemma Grows_getSlot o k : Grows (getSlot o k).
Proof. unfold getSlot. destruct (Slots.getIfExists o k); [apply Grows_ret | apply Grows_fail]. Qed.

Lemma Grows_bitSet b i : Grows (bitSet b i).
Proof. unfold bitSet. destruct (i <? _); [apply Grows_ret | apply Grows_fail]. Qed.

Lemma Grows_bitTestChecked b i : Grows (bitTestChecked b i).
Proof. unfold bitTestChecked. destruct (i <? _); [apply Grows_ret | apply Grows_fail]. Qed.

Create HintDb grows.
#[local] Hint Resolve Grows_ret Grows_fail Grows_invariant Grows_tassert Grows_uassert
  Grows_deref Grows_index Grows_generateSlotId Grows_generateFrameId Grows_registerSlot
  Grows_getSlotIfExists Grows_getSlot Grows_bitSet Grows_bitTestChecked : grows.

(** Takes a computation apart along its binds and case distinctions. *)
Ltac grows :=
  repeat first
    [ solve [auto with grows]
    | apply Grows_bind; [|intros]
    | match goal with
      | |- Grows (match ?x with _ => _ end) => destruct x
      | |- Grows (if ?c then _ else _) => destruct c
      end ].

Lemma Grows_generateMultiple n : Grows (generateMultiple n).
Proof. induction n; simpl; grows. Qed.

Lemma Grows_forEachSlotNames o names : Grows (forEachSlotNames o names).
Proof. induction names; simpl; grows. Qed.

Lemma Grows_forEachSlot o reqs : Grows (forEachSlot o reqs).
Proof. apply Grows_forEachSlotNames. Qed.

Lemma Grows_makeSlotsNames names : forall o, Grows (makeSlotsNames names o).
Proof. induction names; intros o; simpl; grows. Qed.

Lemma Grows_makePlanStageSlots reqs : Grows (makePlanStageSlots reqs).
Proof. apply Grows_makeSlotsNames. Qed.

#[local] Hint Resolve Grows_generateMultiple Grows_forEachSlot Grows_makePlanStageSlots
  : grows.

Lemma Grows_makeIndexKeyInclusionSetFrom indexKeyPattern requiredFields :
  forall i b names,
    Grows (makeIndexKeyInclusionSetFrom indexKeyPattern requiredFields i b names).
Proof. induction indexKeyPattern; intros; simpl; grows. Qed.

Lemma Grows_makeIndexKeyInclusionSet indexKeyPattern requiredFields :
  Grows (makeIndexKeyInclusionSet indexKeyPattern requiredFields).
Proof. apply Grows_makeIndexKeyInclusionSetFrom. Qed.

Lemma Grows_matchingParentReqsFrom positions parent child slots :
  forall slotIdx, Grows (matchingParentReqsFrom positions parent child slots slotIdx).
Proof. induction positions; intros; simpl; grows. Qed.

Lemma Grows_narrowing parent child slots :
  Grows (makeIndexKeyOutputSlotsMatchingParentReqs parent child slots).
Proof.
  unfold makeIndexKeyOutputSlotsMatchingParentReqs.
  apply Grows_bind; [grows | intros; apply Grows_matchingParentReqsFrom].
Qed.

#[local] Hint Resolve Grows_makeIndexKeyInclusionSet Grows_narrowing : grows.

Lemma Grows_generateEofPlan nodeId reqs : Grows (generateEofPlan nodeId reqs).
Proof. unfold generateEofPlan. grows. Qed.

Section GrowsTranslators.
Variable X : Collaborators.
Variable ctx : Context.
Hypothesis HG : GeneratorsGrow X.

Let collScan_g := collScan_grows HG.
Let indexScan_g := indexScan_grows HG.
Let virtualScan_g := virtualScan_grows HG.
Let filter_g := filter_grows HG.
Let projection_g := projection_grows HG.
Let shardKeyBinding_g := shardKeyBinding_grows HG.

#[local] Hint Resolve collScan_g indexScan_g virtualScan_g filter_g projection_g
  shardKeyBinding_g : grows.

Lemma Grows_buildCollScan csn reqs : Grows (buildCollScan X csn reqs).
Proof. unfold buildCollScan. grows. Qed.

Lemma Grows_virtualScanProjections indexKeyPattern bits resultSlot :
  forall pos slots projections,
    Grows (virtualScanProjections indexKeyPattern bits resultSlot pos slots projections).
Proof. induction indexKeyPattern; intros; simpl; grows. Qed.

Lemma Grows_buildVirtualScan vsn reqs : Grows (buildVirtualScan X vsn reqs).
Proof.
  pose proof Grows_virtualScanProjections.
  unfold buildVirtualScan. grows.
Qed.

Lemma Grows_setAllBits n : forall i b, Grows (setAllBits n i b).
Proof. induction n; intros; simpl; grows. Qed.

Lemma Grows_returnKeyArgs keyPattern outputs : forall i, Grows (returnKeyArgs keyPattern outputs i).
Proof. induction keyPattern; intros; simpl; grows. Qed.

Lemma Grows_buildIndexScan ixn reqs : Grows (buildIndexScan X ixn reqs).
Proof.
  pose proof Grows_setAllBits. pose proof Grows_returnKeyArgs.
  unfold buildIndexScan, indexScanBitset, rehydrateIndexKey. grows.
Qed.

Lemma Grows_buildFetch nodeId filter buildChild reqs :
  (forall r, Grows (buildChild r)) -> Grows (buildFetch X ctx nodeId filter buildChild reqs).
Proof.
  intros Hc. unfold buildFetch, relevantSlotsOf, makeLoopJoinForFetch. grows.
Qed.

Lemma Grows_buildLimit nodeId limit skipChild buildChild reqs :
  (forall r, Grows (buildChild r)) ->
  (forall skip buildGrandChild,
     skipChild = Some (skip, buildGrandChild) -> forall r, Grows (buildGrandChild r)) ->
  Grows (buildLimit nodeId limit skipChild buildChild reqs).
Proof.
  intros Hc Hg. unfold buildLimit. destruct skipChild as [[skip buildGrandChild]|].
  - specialize (Hg _ _ eq_refl). grows.
  - grows.
Qed.

Lemma Grows_buildSkip nodeId skip buildChild reqs :
  (forall r, Grows (buildChild r)) -> Grows (buildSkip nodeId skip buildChild reqs).
Proof. intros Hc. unfold buildSkip. grows. Qed.

Lemma Grows_sortPrefixLoop parts :
  forall prefixSet common direction,
    Grows (sortPrefixLoop parts prefixSet common direction).
Proof. induction parts; intros; simpl; grows. Qed.

Lemma Grows_generateSortKeyTraversal rest :
  forall inputStage inputSlot name direction level planNodeId makeKey,
    Grows (generateSortKeyTraversal inputStage inputSlot name rest direction level
                                    planNodeId makeKey).
Proof. induction rest; intros; simpl; grows. Qed.

Lemma Grows_generateArrayCheckForSortHelper rest :
  forall inputExpr name, Grows (generateArrayCheckForSortHelper inputExpr name rest).
Proof. induction rest; intros; simpl; grows. Qed.

Lemma Grows_generateArrayCheckForSort inputSlot fp :
  Grows (generateArrayCheckForSort inputSlot fp).
Proof.
  pose proof Grows_generateArrayCheckForSortHelper.
  unfold generateArrayCheckForSort. grows.
Qed.

Lemma Grows_sortPartAt sortPattern orderBy idx : Grows (sortPartAt sortPattern orderBy idx).
Proof. unfold sortPartAt. grows. Qed.

#[local] Hint Resolve Grows_generateArrayCheckForSort Grows_sortPartAt
  Grows_generateSortKeyTraversal Grows_sortPrefixLoop : grows.

Lemma Grows_numArraysLoop sortPattern orderBy count :
  forall idx e, Grows (numArraysLoop sortPattern orderBy count idx e).
Proof. induction count; intros; simpl; grows. Qed.

Lemma Grows_failOnParallelArrays sortPattern orderBy :
  Grows (failOnParallelArrays sortPattern orderBy).
Proof. pose proof Grows_numArraysLoop. unfold failOnParallelArrays. grows. Qed.

Lemma Grows_sortTopLevelFields parts outputs :
  forall projectMap orderBy, Grows (sortTopLevelFields parts outputs projectMap orderBy).
Proof. induction parts; intros; simpl; grows. Qed.

Lemma Grows_sortKeyTraversals count :
  forall idx sortPattern orderBy direction inputStage nodeId collatorSlot,
    Grows (sortKeyTraversals count idx sortPattern orderBy direction inputStage nodeId
                             collatorSlot).
Proof. induction count; intros; simpl; grows. Qed.

#[local] Hint Resolve Grows_failOnParallelArrays Grows_sortTopLevelFields
  Grows_sortKeyTraversals : grows.

Lemma Grows_buildSort sn buildChild reqs :
  (forall r, Grows (buildChild r)) -> Grows (buildSort ctx sn buildChild reqs).
Proof. intros Hc. unfold buildSort. grows. Qed.

Lemma Grows_mergeSortDirections parts : Grows (mergeSortDirections parts).
Proof. induction parts; simpl; grows. Qed.

Lemma Grows_matchesSortPart name parts : Grows (matchesSortPart name parts).
Proof. induction parts; simpl; grows. Qed.

#[local] Hint Resolve Grows_mergeSortDirections Grows_matchesSortPart : grows.

Lemma Grows_sortMergeBitset keyPattern sortPattern :
  forall i b m, Grows (sortMergeBitset keyPattern sortPattern i b m).
Proof. induction keyPattern; intros; simpl; grows. Qed.

Lemma Grows_sortMergeInputKeys parts positions indexKeys :
  Grows (sortMergeInputKeys parts positions indexKeys).
Proof. induction parts; simpl; grows. Qed.

#[local] Hint Resolve Grows_sortMergeBitset Grows_sortMergeInputKeys : grows.

Lemma Grows_sortMergeChildren children sortPattern dedup childReqs :
  Forall (fun entry => forall r, Grows (snd entry r)) children ->
  Grows (sortMergeChildren children sortPattern dedup childReqs).
Proof.
  induction 1 as [|[child buildChild] children Hc _ IH]; simpl in *; grows.
Qed.

Lemma Grows_buildSortMerge nodeId dedup sort children reqs :
  Forall (fun entry => forall r, Grows (snd entry r)) children ->
  Grows (buildSortMerge nodeId dedup sort children reqs).
Proof.
  intros Hc. pose proof (fun r => @Grows_sortMergeChildren children sort dedup r Hc) as Hs.
  unfold buildSortMerge. grows.
Qed.

Lemma Grows_buildProjectionSimple nodeId proj buildChild reqs :
  (forall r, Grows (buildChild r)) ->
  Grows (buildProjectionSimple nodeId proj buildChild reqs).
Proof. intros Hc. unfold buildProjectionSimple. grows. Qed.

Lemma Grows_buildProjectionCovered nodeId proj coveredKeyObj child buildChild reqs :
  (forall r, Grows (buildChild r)) ->
  Grows (buildProjectionCovered X nodeId proj coveredKeyObj child buildChild reqs).
Proof. intros Hc. unfold buildProjectionCovered. grows. Qed.

Lemma Grows_buildProjectionDefault nodeId proj buildChild reqs :
  (forall r, Grows (buildChild r)) ->
  Grows (buildProjectionDefault X nodeId proj buildChild reqs).
Proof. intros Hc. unfold buildProjectionDefault. grows. Qed.

Lemma Grows_orChildren children childReqs :
  Forall (fun buildChild => forall r, Grows (buildChild r)) children ->
  Grows (orChildren children childReqs).
Proof. induction 1; simpl; grows. Qed.

Lemma Grows_buildOr nodeId dedup filter children reqs :
  Forall (fun buildChild => forall r, Grows (buildChild r)) children ->
  Grows (buildOr X nodeId dedup filter children reqs).
Proof.
  intros Hc. pose proof (fun r => @Grows_orChildren children r Hc) as Ho.
  unfold buildOr. grows.
Qed.

Lemma Grows_makeFtsMatcher coll indexName ftsQuery :
  Grows (makeFtsMatcher coll indexName ftsQuery).
Proof. unfold makeFtsMatcher. grows. Qed.

#[local] Hint Resolve Grows_makeFtsMatcher : grows.

Lemma Grows_bind_ret (A B : Type) (a : A) (f : A -> M B) :
  Grows (f a) -> Grows (bind (ret a) f).
Proof. intros H st. exact (H st). Qed.

Lemma Grows_bind_fail (A B : Type) e (f : A -> M B) : Grows (bind (fail e) f).
Proof. intros st. apply extends_refl. Qed.

Ltac case_nth n a E :=
  match goal with
  | |- context [@nth_error ?T ?l n] => destruct (@nth_error T l n) as [a|] eqn:E
  end.

Lemma Grows_buildTextMatch nodeId indexName ftsQuery children reqs :
  Forall (fun entry => forall r, Grows (snd entry r)) children ->
  Grows (buildTextMatch X ctx nodeId indexName ftsQuery children reqs).
Proof.
  intros Hc. unfold buildTextMatch.
  do 4 (apply Grows_bind; [grows | intros _]).
  unfold index, deref.
  match goal with
  | |- context [@nth_error ?T ?l 0] =>
      destruct (@nth_error T l 0) as [[child buildChild]|] eqn:E;
        [|apply Grows_bind_fail]
  end.
  apply nth_error_In in E. rewrite Forall_forall in Hc. specialize (Hc _ E). simpl in Hc.
  apply Grows_bind_ret. grows.
Qed.

Lemma Grows_buildReturnKey buildChild reqs :
  (forall r, Grows (buildChild r)) -> Grows (buildReturnKey buildChild reqs).
Proof. intros Hc. unfold buildReturnKey. grows. Qed.

Lemma Grows_buildEof nodeId reqs : Grows (buildEof nodeId reqs).
Proof. apply Grows_generateEofPlan. Qed.

Lemma Grows_designateOutputs reqs innerIdSlot innerResultSlot :
  Grows (designateOutputs reqs innerIdSlot innerResultSlot).
Proof. unfold designateOutputs. grows. Qed.

#[local] Hint Resolve Grows_designateOutputs : grows.

Lemma Grows_andHashRest children :
  Forall (fun buildChild => forall r, Grows (buildChild r)) children ->
  forall childReqs stage cond project collator nodeId,
    Grows (andHashRest children childReqs stage cond project collator nodeId).
Proof. induction 1; intros; simpl; grows. Qed.

Lemma Grows_andSortedRest children :
  Forall (fun buildChild => forall r, Grows (buildChild r)) children ->
  forall childReqs stage keys project dirs nodeId,
    Grows (andSortedRest children childReqs stage keys project dirs nodeId).
Proof. induction 1; intros; simpl; grows. Qed.

Lemma Forall_skipn (A : Type) (P : A -> Prop) n :
  forall l, Forall P l -> Forall P (skipn n l).
Proof.
  induction n; intros l H; simpl; [exact H|].
  destruct H; [constructor | apply IHn; assumption].
Qed.

Lemma Forall_nth_error (A : Type) (P : A -> Prop) l n a :
  Forall P l -> nth_error l n = Some a -> P a.
Proof. intros H E. rewrite Forall_forall in H. eapply H, nth_error_In, E. Qed.

Lemma Grows_buildAndHash nodeId children reqs :
  Forall (fun buildChild => forall r, Grows (buildChild r)) children ->
  Grows (buildAndHash nodeId children reqs).
Proof.
  intros Hc. pose proof (Grows_andHashRest (Forall_skipn 2 Hc)) as Hrest.
  unfold buildAndHash. apply Grows_bind; [grows | intros _].
  unfold index, deref.
  case_nth 0 outer E0; [|apply Grows_bind_fail].
  case_nth 1 inner E1; [|apply Grows_bind_ret, Grows_bind_fail].
  pose proof (Forall_nth_error _ Hc E0). pose proof (Forall_nth_error _ Hc E1).
  cbv beta in *. do 2 apply Grows_bind_ret. grows.
Qed.

Lemma Grows_buildAndSorted nodeId children reqs :
  Forall (fun buildChild => forall r, Grows (buildChild r)) children ->
  Grows (buildAndSorted nodeId children reqs).
Proof.
  intros Hc. pose proof (Grows_andSortedRest (Forall_skipn 2 Hc)) as Hrest.
  unfold buildAndSorted. apply Grows_bind; [grows | intros _].
  unfold index, deref.
  case_nth 0 outer E0; [|apply Grows_bind_fail].
  case_nth 1 inner E1; [|apply Grows_bind_ret, Grows_bind_fail].
  pose proof (Forall_nth_error _ Hc E0). pose proof (Forall_nth_error _ Hc E1).
  cbv beta in *. do 2 apply Grows_bind_ret. grows.
Qed.

Lemma Grows_makeUnion nodeId buildRoot reqs :
  (forall r, Grows (buildRoot r)) ->
  Grows (makeUnionForTailableCollScan nodeId buildRoot reqs).
Proof. intros Hc. unfold makeUnionForTailableCollScan. grows. Qed.

Lemma Grows_shardKeyProjections shardKeyPattern outputs :
  forall projections fieldSlots projectFields,
    Grows (shardKeyProjections X shardKeyPattern outputs projections fieldSlots
                               projectFields).
Proof. induction shardKeyPattern; intros; simpl; grows. Qed.

Lemma Grows_buildShardFilter nodeId child buildChild reqs :
  (forall r, Grows (buildChild r)) ->
  Grows (buildShardFilter X ctx nodeId child buildChild reqs).
Proof.
  intros Hc. pose proof Grows_shardKeyProjections.
  unfold buildShardFilter, buildShardFilterCovered. grows.
Qed.

Lemma Grows_buildWith invokeRoot root reqs :
  (forall r, Grows (invokeRoot r)) -> Grows (buildWith ctx invokeRoot root reqs).
Proof.
  intros Hi. pose proof (fun n r => @Grows_makeUnion n invokeRoot r Hi).
  unfold buildWith. grows.
Qed.
End GrowsTranslators.

Lemma Grows_invoke X ctx (HG : GeneratorsGrow X) root :
  (forall reqs, Grows (invoke X ctx root reqs)) /\
  Forall (fun c => forall reqs, Grows (invoke X ctx c reqs)) (qsnChildren root).
Proof.
  induction root as [root IH] using QuerySolutionNode_ind'.
  assert (Hcs : Forall (fun c => forall reqs, Grows (invoke X ctx c reqs)) (qsnChildren root))
    by (eapply Forall_impl; [|exact IH]; intros c Hc; apply Hc).
  split; [|exact Hcs].
  assert (Hb : forall c, In c (qsnChildren root) ->
                 forall r, Grows (buildWith ctx (invoke X ctx c) c r)).
  { intros c Hin r. apply Grows_buildWith.
    rewrite Forall_forall in Hcs. apply Hcs, Hin. }
  assert (Hmap : Forall (fun buildChild => forall r, Grows (buildChild r))
                   (map (fun c => buildWith ctx (invoke X ctx c) c) (qsnChildren root))).
  { rewrite Forall_forall. intros f Hf. apply in_map_iff in Hf.
    destruct Hf as (c & <- & Hin). apply Hb, Hin. }
  assert (Hmap2 : Forall (fun entry : QuerySolutionNode * ChildBuilder =>
                            forall r, Grows (snd entry r))
                   (map (fun c => (c, buildWith ctx (invoke X ctx c) c)) (qsnChildren root))).
  { rewrite Forall_forall. intros f Hf. apply in_map_iff in Hf.
    destruct Hf as (c & <- & Hin). apply Hb, Hin. }
  intros reqs. destruct root; cbn [invoke]; cbn [qsnChildren] in *.
  - apply Grows_buildCollScan, HG.
  - apply Grows_buildVirtualScan, HG.
  - apply Grows_buildIndexScan, HG.
  - apply Grows_buildFetch; [exact HG | apply Hb; left; reflexivity].
  - apply Grows_buildLimit; [apply Hb; left; reflexivity|].
    intros skip buildGrandChild E. destruct root; try discriminate.
    inversion E; subst. inversion IH as [|? ? [_ Hg] _]; subst.
    cbn [qsnChildren] in Hg. inversion Hg; subst.
    intros r. apply Grows_buildWith. assumption.
  - apply Grows_buildSkip, Hb. left; reflexivity.
  - apply Grows_buildSort, Hb. left; reflexivity.
  - apply Grows_fail.
  - apply Grows_buildProjectionSimple, Hb. left; reflexivity.
  - apply Grows_buildProjectionCovered, Hb. left; reflexivity.
  - apply Grows_buildProjectionDefault; [exact HG | apply Hb; left; reflexivity].
  - apply Grows_buildOr; [exact HG | exact Hmap].
  - apply Grows_buildTextMatch, Hmap2.
  - apply Grows_buildReturnKey, Hb. left; reflexivity.
  - apply Grows_buildEof.
  - apply Grows_buildAndHash, Hmap.
  - apply Grows_buildAndSorted, Hmap.
  - apply Grows_buildSortMerge, Hmap2.
  - apply Grows_buildShardFilter; [exact HG | apply Hb; left; reflexivity].
  - apply Grows_fail.
Qed.

(** X3. With generators that never take an id generator back and only
    append to the runtime environment, a build does the same, whether it
    succeeds or fails: the slot, frame and spool id generators of the state
    it leaves are not below those it started from, so no id is given out
    twice, and the environment it leaves starts with the one it found. *)
Theorem build_only_moves_forward X ctx root reqs st :
  GeneratorsGrow X -> extends st (snd (build X ctx root reqs st)).
Proof.
  intros HG. unfold build.
  apply Grows_buildWith. intros r. apply (Grows_invoke ctx HG root).
Qed.

Lemma sampleCollaborators_grow : GeneratorsGrow sampleCollaborators.
Proof. constructor; intros; simpl; grows. Qed.

Lemma build_only_moves_forward_witness :
  extends initialState
          (snd (build sampleCollaborators tailableContext tailableLimit
                      (reqsOf [kResult; kRecordId]) initialState)).
Proof.
  apply (@build_only_moves_forward sampleCollaborators tailableContext tailableLimit
           (reqsOf [kResult; kRecordId]) initialState sampleCollaborators_grow).
Defined.

(* ===================================================================== *)
(** * No union inside the union *)
(* ===================================================================== *)

Lemma bind_cong (A B : Type) (m m' : M A) (k k' : A -> M B) st :
  m st = m' st -> (forall a st1, k a st1 = k' a st1) -> bind m k st = bind m' k' st.
Proof.
  intros Hm Hk. unfold bind. rewrite Hm. destruct (m' st) as [[a|e] st1]; [apply Hk | reflexivity].
Qed.

Lemma building_set r k :
  reqs_isBuildingUnionForTailableCollScan (Reqs.set r k)
  = reqs_isBuildingUnionForTailableCollScan r.
Proof. reflexivity. Qed.

Lemma building_clear r k :
  reqs_isBuildingUnionForTailableCollScan (Reqs.clear r k)
  = reqs_isBuildingUnionForTailableCollScan r.
Proof. reflexivity. Qed.

Lemma building_setIf r k c :
  reqs_isBuildingUnionForTailableCollScan (Reqs.setIf r k c)
  = reqs_isBuildingUnionForTailableCollScan r.
Proof. destruct c; reflexivity. Qed.

Lemma building_setIndexKeyBitset r b :
  reqs_isBuildingUnionForTailableCollScan (Reqs.setIndexKeyBitset r b)
  = reqs_isBuildingUnionForTailableCollScan r.
Proof. reflexivity. Qed.

Lemma building_setResume r b :
  reqs_isBuildingUnionForTailableCollScan (Reqs.setIsTailableCollScanResumeBranch r b)
  = reqs_isBuildingUnionForTailableCollScan r.
Proof. reflexivity. Qed.

Ltac building :=
  repeat first [ rewrite building_set | rewrite building_clear | rewrite building_setIf
               | rewrite building_setIndexKeyBitset | rewrite building_setResume ];
  assumption.

(** Walks two runs of the same translator that differ in the builders of
    the children only. *)
Ltac same :=
  repeat first
    [ reflexivity
    | match goal with
      | H : SameWhileBuilding ?f ?g |- ?f _ _ = ?g _ _ => apply H; building
      end
    | solve [auto 1]
    | apply bind_cong; [|intros]
    | match goal with
      | |- (match ?x with _ => _ end) _ = _ => destruct x
      | |- (if ?c then _ else _) _ = _ => destruct c
      end ].

Section SameTranslators.
Variable X : Collaborators.
Variable ctx : Context.
Variables f g : PlanStageReqs -> M BuildResult.
Hypothesis Hfg : SameWhileBuilding f g.
Variable reqs : PlanStageReqs.
Hypothesis Hb : reqs_isBuildingUnionForTailableCollScan reqs = true.

Lemma same_buildFetch nodeId filter st :
  buildFetch X ctx nodeId filter f reqs st
  = buildFetch X (notTailable ctx) nodeId filter g reqs st.
Proof. unfold buildFetch, makeLoopJoinForFetch. cbn [notTailable collection]. same. Qed.

Lemma same_buildSkip nodeId skip st :
  buildSkip nodeId skip f reqs st = buildSkip nodeId skip g reqs st.
Proof. unfold buildSkip. same. Qed.

Lemma same_buildSort sn st :
  buildSort ctx sn f reqs st = buildSort (notTailable ctx) sn g reqs st.
Proof.
  unfold buildSort. cbn [notTailable cq_hasCollator expCtx_allowDiskUse]. same.
Qed.

Lemma same_buildProjectionSimple nodeId proj st :
  buildProjectionSimple nodeId proj f reqs st = buildProjectionSimple nodeId proj g reqs st.
Proof. unfold buildProjectionSimple. same. Qed.

Lemma same_buildProjectionCovered nodeId proj coveredKeyObj child st :
  buildProjectionCovered X nodeId proj coveredKeyObj child f reqs st
  = buildProjectionCovered X nodeId proj coveredKeyObj child g reqs st.
Proof. unfold buildProjectionCovered. same. Qed.

Lemma same_buildProjectionDefault nodeId proj st :
  buildProjectionDefault X nodeId proj f reqs st
  = buildProjectionDefault X nodeId proj g reqs st.
Proof. unfold buildProjectionDefault. same. Qed.

Lemma same_buildReturnKey st : buildReturnKey f reqs st = buildReturnKey g reqs st.
Proof. unfold buildReturnKey. same. Qed.

Lemma same_buildShardFilter nodeId child st :
  buildShardFilter X ctx nodeId child f reqs st
  = buildShardFilter X (notTailable ctx) nodeId child g reqs st.
Proof.
  unfold buildShardFilter, buildShardFilterCovered. cbn [notTailable shardKeyPattern]. same.
Qed.
End SameTranslators.

Section SameLists.
Variable X : Collaborators.
Variable ctx : Context.

Lemma same_buildLimit nodeId limit (skipF skipG : option (nat * ChildBuilder)) f g reqs st :
  reqs_isBuildingUnionForTailableCollScan reqs = true ->
  SameWhileBuilding f g ->
  match skipF, skipG with
  | Some (s, f'), Some (s', g') => s = s' /\ SameWhileBuilding f' g'
  | None, None => True
  | _, _ => False
  end ->
  buildLimit nodeId limit skipF f reqs st = buildLimit nodeId limit skipG g reqs st.
Proof.
  intros Hb Hfg Hskip. unfold buildLimit.
  destruct skipF as [[s f']|], skipG as [[s' g']|]; try contradiction.
  - destruct Hskip as (<- & Hs). same.
  - same.
Qed.

Lemma same_orChildren fs gs reqs :
  reqs_isBuildingUnionForTailableCollScan reqs = true ->
  Forall2 SameWhileBuilding fs gs ->
  forall st, orChildren fs reqs st = orChildren gs reqs st.
Proof. intros Hb. induction 1; intros st; simpl; same. Qed.

Lemma same_buildOr nodeId dedup filter fs gs reqs st :
  reqs_isBuildingUnionForTailableCollScan reqs = true ->
  Forall2 SameWhileBuilding fs gs ->
  buildOr X nodeId dedup filter fs reqs st = buildOr X nodeId dedup filter gs reqs st.
Proof.
  intros Hb Hfg. unfold buildOr.
  apply bind_cong; [reflexivity | intros].
  apply bind_cong; [apply same_orChildren; [building | exact Hfg] | intros].
  same.
Qed.

Lemma same_andHashRest fs gs reqs :
  reqs_isBuildingUnionForTailableCollScan reqs = true ->
  Forall2 SameWhileBuilding fs gs ->
  forall stage cond project collator nodeId st,
    andHashRest fs reqs stage cond project collator nodeId st
    = andHashRest gs reqs stage cond project collator nodeId st.
Proof. intros Hb. induction 1; intros; simpl; same. Qed.

Lemma same_andSortedRest fs gs reqs :
  reqs_isBuildingUnionForTailableCollScan reqs = true ->
  Forall2 SameWhileBuilding fs gs ->
  forall stage keys project dirs nodeId st,
    andSortedRest fs reqs stage keys project dirs nodeId st
    = andSortedRest gs reqs stage keys project dirs nodeId st.
Proof. intros Hb. induction 1; intros; simpl; same. Qed.

Lemma Forall2_skipn (A B : Type) (R : A -> B -> Prop) n :
  forall l l', Forall2 R l l' -> Forall2 R (skipn n l) (skipn n l').
Proof.
  induction n; intros l l' H; simpl; [exact H|].
  destruct H; [constructor | apply IHn; assumption].
Qed.

Lemma Forall2_nth_error (A B : Type) (R : A -> B -> Prop) l l' n :
  Forall2 R l l' ->
  match nth_error l n, nth_error l' n with
  | Some a, Some b => R a b
  | None, None => True
  | _, _ => False
  end.
Proof.
  intros H. revert n. induction H; intros [|n]; simpl; auto. apply IHForall2.
Qed.

Lemma same_index_pair (A B : Type) (R : A -> B -> Prop) (l : list A) (l' : list B) n
      (C : Type) (k : A -> M C) (k' : B -> M C) st :
  Forall2 R l l' ->
  (forall a b st1, R a b -> k a st1 = k' b st1) ->
  bind (index l n) k st = bind (index l' n) k' st.
Proof.
  intros H Hk. pose proof (Forall2_nth_error n H) as Hn.
  unfold index, deref, bind.
  destruct (nth_error l n), (nth_error l' n); try contradiction; simpl; auto.
Qed.

Lemma Forall2_length_eq (A B : Type) (R : A -> B -> Prop) l l' :
  Forall2 R l l' -> length l = length l'.
Proof. induction 1; simpl; congruence. Qed.

Lemma same_buildAndHash nodeId fs gs reqs st :
  reqs_isBuildingUnionForTailableCollScan reqs = true ->
  Forall2 SameWhileBuilding fs gs ->
  buildAndHash nodeId fs reqs st = buildAndHash nodeId gs reqs st.
Proof.
  intros Hb Hfg. unfold buildAndHash.
  apply bind_cong; [do 2 f_equal; exact (Forall2_length_eq Hfg) | intros _ st1].
  eapply same_index_pair; [exact Hfg | intros outer outer' st2 Ho].
  eapply same_index_pair; [exact Hfg | intros inner inner' st3 Hi].
  same. apply same_andHashRest; [building | apply Forall2_skipn, Hfg].
Qed.

Lemma same_buildAndSorted nodeId fs gs reqs st :
  reqs_isBuildingUnionForTailableCollScan reqs = true ->
  Forall2 SameWhileBuilding fs gs ->
  buildAndSorted nodeId fs reqs st = buildAndSorted nodeId gs reqs st.
Proof.
  intros Hb Hfg. unfold buildAndSorted.
  apply bind_cong; [do 2 f_equal; exact (Forall2_length_eq Hfg) | intros _ st1].
  eapply same_index_pair; [exact Hfg | intros outer outer' st2 Ho].
  eapply same_index_pair; [exact Hfg | intros inner inner' st3 Hi].
  same. apply same_andSortedRest; [building | apply Forall2_skipn, Hfg].
Qed.

Lemma same_sortMergeChildren (es es' : list (QuerySolutionNode * ChildBuilder))
      sortPattern dedup reqs :
  reqs_isBuildingUnionForTailableCollScan reqs = true ->
  Forall2 (fun e e' => fst e = fst e' /\ SameWhileBuilding (snd e) (snd e')) es es' ->
  forall st, sortMergeChildren es sortPattern dedup reqs st
             = sortMergeChildren es' sortPattern dedup reqs st.
Proof.
  intros Hb. induction 1 as [|[c f] [c' g] es es' [Hc Hfg] _ IH]; intros st;
    [reflexivity|].
  simpl in Hc, Hfg. subst c'. simpl. same.
Qed.

Lemma same_buildSortMerge nodeId dedup sort
      (es es' : list (QuerySolutionNode * ChildBuilder)) reqs st :
  reqs_isBuildingUnionForTailableCollScan reqs = true ->
  Forall2 (fun e e' => fst e = fst e' /\ SameWhileBuilding (snd e) (snd e')) es es' ->
  buildSortMerge nodeId dedup sort es reqs st = buildSortMerge nodeId dedup sort es' reqs st.
Proof.
  intros Hb Hes. unfold buildSortMerge.
  apply bind_cong; [reflexivity | intros].
  apply bind_cong; [reflexivity | intros].
  apply bind_cong; [apply same_sortMergeChildren; [building | exact Hes] | intros].
  reflexivity.
Qed.

Lemma same_buildTextMatch nodeId indexName ftsQuery
      (es es' : list (QuerySolutionNode * ChildBuilder)) reqs st :
  reqs_isBuildingUnionForTailableCollScan reqs = true ->
  Forall2 (fun e e' => fst e = fst e' /\ SameWhileBuilding (snd e) (snd e')) es es' ->
  buildTextMatch X ctx nodeId indexName ftsQuery es reqs st
  = buildTextMatch X (notTailable ctx) nodeId indexName ftsQuery es' reqs st.
Proof.
  intros Hb Hes. unfold buildTextMatch. cbn [notTailable collection].
  do 3 (apply bind_cong; [reflexivity | intros]).
  apply bind_cong; [do 2 f_equal; exact (Forall2_length_eq Hes) | intros].
  eapply same_index_pair; [exact Hes | intros [c f] [c' g] stc [Hc Hfg]].
  simpl in Hc, Hfg. subst c'. same.
Qed.

Lemma same_buildWith f g root :
  SameWhileBuilding f g ->
  SameWhileBuilding (buildWith ctx f root) (buildWith (notTailable ctx) g root).
Proof.
  intros Hfg reqs st Hb. unfold buildWith. rewrite Hb, !andb_false_r.
  apply bind_cong; [reflexivity | intros]. apply Hfg, Hb.
Qed.
End SameLists.

Lemma Forall2_map_same (A B : Type) (R : B -> B -> Prop) (h h' : A -> B) l :
  Forall (fun a => R (h a) (h' a)) l -> Forall2 R (map h l) (map h' l).
Proof. induction 1; simpl; constructor; assumption. Qed.

Lemma same_invoke X ctx root :
  SameWhileBuilding (invoke X ctx root) (invoke X (notTailable ctx) root) /\
  Forall (fun c => SameWhileBuilding (invoke X ctx c) (invoke X (notTailable ctx) c))
         (qsnChildren root).
Proof.
  induction root as [root IH] using QuerySolutionNode_ind'.
  assert (Hcs : Forall (fun c => SameWhileBuilding (invoke X ctx c)
                                                   (invoke X (notTailable ctx) c))
                       (qsnChildren root))
    by (eapply Forall_impl; [|exact IH]; intros c Hc; apply Hc).
  split; [|exact Hcs].
  assert (Hb : forall c, In c (qsnChildren root) ->
                 SameWhileBuilding (buildWith ctx (invoke X ctx c) c)
                                   (buildWith (notTailable ctx)
                                              (invoke X (notTailable ctx) c) c)).
  { intros c Hin. apply same_buildWith. rewrite Forall_forall in Hcs. apply Hcs, Hin. }
  assert (Hmap : Forall2 SameWhileBuilding
                   (map (fun c => buildWith ctx (invoke X ctx c) c) (qsnChildren root))
                   (map (fun c => buildWith (notTailable ctx)
                                            (invoke X (notTailable ctx) c) c)
                        (qsnChildren root))).
  { apply Forall2_map_same. rewrite Forall_forall. exact Hb. }
  assert (Hmap2 : Forall2 (fun e e' : QuerySolutionNode * ChildBuilder =>
                             fst e = fst e' /\ SameWhileBuilding (snd e) (snd e'))
                    (map (fun c => (c, buildWith ctx (invoke X ctx c) c))
                         (qsnChildren root))
                    (map (fun c => (c, buildWith (notTailable ctx)
                                                 (invoke X (notTailable ctx) c) c))
                         (qsnChildren root))).
  { apply Forall2_map_same. rewrite Forall_forall. intros c Hin.
    split; [reflexivity | apply Hb, Hin]. }
  intros reqs st Hreq. destruct root; cbn [invoke]; cbn [qsnChildren] in *.
  - reflexivity.
  - reflexivity.
  - reflexivity.
  - apply same_buildFetch; [apply Hb; left; reflexivity | exact Hreq].
  - apply same_buildLimit; [exact Hreq | apply Hb; left; reflexivity|].
    destruct root; try exact I. split; [reflexivity|].
    inversion IH as [|? ? [_ Hg] _]; subst. cbn [qsnChildren] in Hg.
    inversion Hg; subst. apply same_buildWith. assumption.
  - apply same_buildSkip; [apply Hb; left; reflexivity | exact Hreq].
  - apply same_buildSort; [apply Hb; left; reflexivity | exact Hreq].
  - reflexivity.
  - apply same_buildProjectionSimple; [apply Hb; left; reflexivity | exact Hreq].
  - apply same_buildProjectionCovered; [apply Hb; left; reflexivity | exact Hreq].
  - apply same_buildProjectionDefault; [apply Hb; left; reflexivity | exact Hreq].
  - apply same_buildOr; [exact Hreq | exact Hmap].
  - apply same_buildTextMatch; [exact Hreq | exact Hmap2].
  - apply same_buildReturnKey; [apply Hb; left; reflexivity | exact Hreq].
  - reflexivity.
  - apply same_buildAndHash; [exact Hreq | exact Hmap].
  - apply same_buildAndSorted; [exact Hreq | exact Hmap].
  - apply same_buildSortMerge; [exact Hreq | exact Hmap2].
  - apply same_buildShardFilter; [apply Hb; left; reflexivity | exact Hreq].
  - reflexivity.
Qed.

(** X4. Once the requirements say that the union for a tailable scan is
    being built, the builder never starts another one, at the root or
    anywhere below it: with that flag set, the build of any solution for a
    tailable query is the build of the same solution for the same query
    taken as not tailable. *)
Theorem no_union_inside_the_union X ctx root reqs st :
  reqs_isBuildingUnionForTailableCollScan reqs = true ->
  build X ctx root reqs st = build X (notTailable ctx) root reqs st.
Proof.
  intros Hb. unfold build. apply same_buildWith; [|exact Hb]. apply same_invoke.
Qed.

Lemma no_union_inside_the_union_witness :
  build sampleCollaborators tailableContext tailableLimit
        (Reqs.setIsBuildingUnionForTailableCollScan (reqsOf [kResult]) true) initialState
  = build sampleCollaborators (notTailable tailableContext) tailableLimit
          (Reqs.setIsBuildingUnionForTailableCollScan (reqsOf [kResult]) true) initialState.
Proof.
  apply (@no_union_inside_the_union sampleCollaborators tailableContext tailableLimit
           (Reqs.setIsBuildingUnionForTailableCollScan (reqsOf [kResult]) true)
           initialState eq_refl).
Defined.

(* ===================================================================== *)
(** * Requests that a node turns down *)
(* ===================================================================== *)

(** X5. A collection scan, a virtual scan that mocks one, a sort, a
    projection of any of the three kinds, an or, a return-key node and a
    sort-merge cannot serve index keys: a build that asks one of them for an
    index-key bitset fails on an invariant before anything is built, and
    leaves the state of the builder as it was. *)
Theorem index_keys_rejected X ctx root reqs st :
  rejectsIndexKeys root = true ->
  reqs_indexKeyBitset reqs <> None ->
  build X ctx root reqs st = (Fail InvariantFailure, st).
Proof.
  intros Hr Hb. destruct (reqs_indexKeyBitset reqs) as [bits|] eqn:E; [|congruence].
  unfold build, buildWith.
  destruct root; try discriminate Hr; cbn [invoke getType hasStageBuilder nodeId];
    try (destruct simple); try (destruct text);
    cbn [getType hasStageBuilder isTailableSplitPoint andb tassert];
    unfold bind at 1; cbn [ret].
  - destruct (cq_tailable ctx && negb (reqs_isBuildingUnionForTailableCollScan reqs)).
    + unfold makeUnionForTailableCollScan, bind, Reqs.setIsBuildingUnionForTailableCollScan.
      cbn [reqs_indexKeyBitset]. rewrite E. reflexivity.
    + unfold buildCollScan, bind. rewrite E. reflexivity.
  - unfold buildVirtualScan, bind. simpl in Hr.
    destruct (vsn_scanType vsn); [|discriminate]. rewrite E. reflexivity.
  - unfold buildSort, bind. rewrite E. reflexivity.
  - unfold buildSort, bind. rewrite E. reflexivity.
  - unfold buildProjectionSimple, bind. rewrite E. reflexivity.
  - unfold buildProjectionCovered, bind. rewrite E. reflexivity.
  - unfold buildProjectionDefault, bind. rewrite E. reflexivity.
  - unfold buildOr, bind. rewrite E. reflexivity.
  - unfold buildOr, bind. rewrite E. reflexivity.
  - unfold buildReturnKey, bind. rewrite E. reflexivity.
  - unfold buildSortMerge, bind. rewrite E. reflexivity.
Qed.

Lemma index_keys_rejected_witness :
  build sampleCollaborators sampleContext
        (sortOver [ascending "a" []]) (Reqs.setIndexKeyBitset (reqsOf [kResult]) (Some 1%N))
        initialState
  = (Fail InvariantFailure, initialState).
Proof.
  apply (@index_keys_rejected sampleCollaborators sampleContext
           (sortOver [ascending "a" []])
           (Reqs.setIndexKeyBitset (reqsOf [kResult]) (Some 1%N)) initialState eq_refl).
  discriminate.
Defined.

(** X6. An index scan, a virtual scan and a fetch cannot produce the oplog
    timestamp: a build that asks one of them for it fails on an invariant
    before anything is built, and leaves the state of the builder as it
    was. *)
Theorem oplog_timestamp_rejected X ctx root reqs st :
  cannotProduceOplogTs root = true ->
  Reqs.has reqs kOplogTs = true ->
  build X ctx root reqs st = (Fail InvariantFailure, st).
Proof.
  intros Hr Hts. unfold build, buildWith.
  destruct root; try discriminate Hr;
    cbn [invoke getType hasStageBuilder isTailableSplitPoint andb tassert];
    unfold bind at 1; cbn [ret].
  - unfold buildVirtualScan, bind. rewrite Hts.
    destruct (vsn_scanType vsn); [destruct (reqs_indexKeyBitset reqs)|]; reflexivity.
  - unfold buildIndexScan, bind. rewrite Hts.
    destruct (Reqs.has reqs kReturnKey || negb (ixn_addKeyMetadata ixn)); reflexivity.
  - unfold buildFetch, bind. rewrite Hts. reflexivity.
Qed.

Lemma oplog_timestamp_rejected_witness :
  build sampleCollaborators sampleContext fetchOverIndexScan
        (reqsOf [kResult; kOplogTs]) initialState
  = (Fail InvariantFailure, initialState).
Proof.
  apply (@oplog_timestamp_rejected sampleCollaborators sampleContext fetchOverIndexScan
           (reqsOf [kResult; kOplogTs]) initialState eq_refl eq_refl).
Defined.

(* ===================================================================== *)
(** * Limit and skip *)
(* ===================================================================== *)

(** X7. Outside the resume branch of a tailable union, and when the union
    is not about to be started at the limit, a limit whose child is a skip
    is built as one limit-skip stage that carries both numbers and the id of
    the limit: the node below the skip is built once with the requirements
    of the limit, its bindings and its failure are passed on unchanged, and
    the skip node gets no stage of its own. *)
Theorem limit_over_skip_is_one_stage X ctx nodeId limit skipId skip child reqs st :
  cq_tailable ctx = false \/ reqs_isBuildingUnionForTailableCollScan reqs = true ->
  reqs_isTailableCollScanResumeBranch reqs = false ->
  build X ctx (QLimit nodeId limit (QSkip skipId skip child)) reqs st
  = match build X ctx child reqs st with
    | (Ok (stage, outputs), st') =>
        (Ok (LimitSkipStage stage (Some limit) (Some skip) nodeId, outputs), st')
    | (Fail e, st') => (Fail e, st')
    end.
Proof.
  intros Hq Hr. unfold build at 1. unfold buildWith at 1.
  cbn [getType hasStageBuilder isTailableSplitPoint andb tassert].
  unfold bind at 1. cbn [ret].
  replace (cq_tailable ctx && negb (reqs_isBuildingUnionForTailableCollScan reqs))
    with false by (destruct Hq as [-> | ->]; [reflexivity | apply eq_sym, andb_false_r]).
  cbn [invoke]. unfold buildLimit. rewrite Hr. cbn [negb].
  unfold build, bind.
  destruct (buildWith ctx (invoke X ctx child) child reqs st) as [[[stage outputs]|e] st'];
    reflexivity.
Qed.

Lemma limit_over_skip_is_one_stage_witness :
  build sampleCollaborators sampleContext (QLimit 3 10 (QSkip 2 5 sampleCollScan))
        (reqsOf [kResult]) initialState
  = match build sampleCollaborators sampleContext sampleCollScan (reqsOf [kResult])
                initialState with
    | (Ok (stage, outputs), st') =>
        (Ok (LimitSkipStage stage (Some 10) (Some 5) 3, outputs), st')
    | (Fail e, st') => (Fail e, st')
    end.
Proof.
  apply (@limit_over_skip_is_one_stage sampleCollaborators sampleContext 3 10 2 5
           sampleCollScan (reqsOf [kResult]) initialState (or_introl eq_refl) eq_refl).
Defined.

(* ===================================================================== *)
(** * Sort patterns that are turned down *)
(* ===================================================================== *)

Lemma sortPrefixLoop_meta parts :
  (exists part, In part parts /\ fieldPath part = None) ->
  forall prefixSet common direction st,
    sortPrefixLoop parts prefixSet common direction st = (Fail (Tassert 5037002%N), st).
Proof.
  induction parts as [|part parts IH]; intros (p & Hin & Hp); [destruct Hin|].
  intros prefixSet common direction st. simpl.
  destruct (fieldPath part) as [fp|] eqn:E.
  - destruct Hin as [-> | Hin]; [congruence|].
    unfold bind at 1. cbn [ret].
    destruct (negb common); [destruct (existsb _ prefixSet)|]; apply IH; eauto.
  - reflexivity.
Qed.

(** X8. A sort that is not asked for index keys checks its pattern in two
    steps.  An empty pattern fails with the assertion 5037001 before the
    child is built, and leaves the state as it was.  A pattern with a part
    that has no field path (a $meta part) fails with the assertion 5037002,
    but only once the child has been built with the result required: the
    failure leaves the state that the build of the child left. *)
Theorem sort_pattern_turned_down X ctx simple sn child reqs st :
  reqs_indexKeyBitset reqs = None ->
  (sn_pattern sn = [] ->
   build X ctx (QSort simple sn child) reqs st = (Fail (Tassert 5037001%N), st)) /\
  (forall childStage outputs st1,
     (exists part, In part (sn_pattern sn) /\ fieldPath part = None) ->
     build X ctx child (Reqs.set reqs kResult) st = (Ok (childStage, outputs), st1) ->
     build X ctx (QSort simple sn child) reqs st = (Fail (Tassert 5037002%N), st1)).
Proof.
  intros Hb. rewrite build_sort. unfold buildSort. rewrite Hb. split.
  - intros ->. reflexivity.
  - intros childStage outputs st1 Hmeta Hchild.
    assert (Hne : (0 <? length (sn_pattern sn)) = true).
    { destruct Hmeta as (p & Hin & _). destruct (sn_pattern sn); [destruct Hin | reflexivity]. }
    rewrite Hne. unfold bind at 1. cbn [invariant negb isSome ret].
    unfold bind at 1. cbn [tassert ret].
    rewrite (bind_run _ Hchild). cbv beta iota.
    unfold bind at 1. unfold getSlotIfExists at 1.
    unfold bind at 1. rewrite (sortPrefixLoop_meta _ Hmeta). reflexivity.
Qed.

Lemma sort_pattern_turned_down_witness :
  build sampleCollaborators sampleContext (sortOver []) (reqsOf [kResult]) initialState
  = (Fail (Tassert 5037001%N), initialState) /\
  exists st1,
    build sampleCollaborators sampleContext (sortOver [mkPart None true])
          (reqsOf [kResult]) initialState
    = (Fail (Tassert 5037002%N), st1) /\
    slotIdGenerator st1 = 2.
Proof.
  assert (Hrun : exists childStage outputs st1,
             build sampleCollaborators sampleContext sampleCollScan
                   (Reqs.set (reqsOf [kResult]) kResult) initialState
             = (Ok (childStage, outputs), st1) /\ slotIdGenerator st1 = 2)
    by (eexists _, _, _; vm_compute; split; reflexivity).
  destruct Hrun as (childStage & outputs & st1 & Hrun & Hst).
  destruct (@sort_pattern_turned_down sampleCollaborators sampleContext true
              (mkSortNode 2 [] 0 1000) sampleCollScan (reqsOf [kResult]) initialState
              eq_refl) as (Hempty & _).
  destruct (@sort_pattern_turned_down sampleCollaborators sampleContext true
              (mkSortNode 2 [mkPart None true] 0 1000) sampleCollScan (reqsOf [kResult])
              initialState eq_refl) as (_ & Hmeta).
  split; [apply Hempty; reflexivity|].
  exists st1. split; [|exact Hst].
  apply (Hmeta childStage outputs st1); [|exact Hrun].
  exists (mkPart None true). split; [left; reflexivity | reflexivity].
Defined.

(* ===================================================================== *)
(** * Fetch *)
(* ===================================================================== *)

Lemma forEachSlotNames_inv o names :
  forall st v st',
    forEachSlotNames o names st = (Ok v, st') ->
    st' = st /\ Forall2 (fun k s => Slots.getIfExists o k = Some s) names v.
Proof.
  induction names as [|k names IH]; intros st v st' H; simpl in H; minv.
  - split; [reflexivity | constructor].
  - match goal with
    | Hr : forEachSlotNames _ _ _ = _ |- _ => destruct (IH _ _ _ Hr) as (-> & F)
    end.
    split; [reflexivity | constructor; assumption].
Qed.

Lemma Forall2_In_r (A B : Type) (P : A -> B -> Prop) l l' b :
  Forall2 P l l' -> In b l' -> exists a, In a l /\ P a b.
Proof.
  induction 1 as [|a b' l l' Hab _ IH]; intros Hin; [destruct Hin|].
  destruct Hin as [<- | Hin].
  - exists a. split; [left; reflexivity | exact Hab].
  - destruct (IH Hin) as (a' & Ha & Hp). exists a'. split; [right; exact Ha | exact Hp].
Qed.

(** The slots that [forEachSlot] collects are the slots of the required
    names. *)
Lemma forEachSlot_inv o reqs st v st' :
  forEachSlot o reqs st = (Ok v, st') ->
  st' = st /\
  forall s, In s v <-> exists k, Reqs.has reqs k = true /\ Slots.getIfExists o k = Some s.
Proof.
  intros H. apply forEachSlotNames_inv in H. destruct H as (-> & F).
  split; [reflexivity|]. intros s. split.
  - intros Hin. destruct (@Forall2_In_r _ _ _ _ _ s F Hin) as (k & Hk & Hs).
    exists k. split; [apply required_In, Hk | exact Hs].
  - intros (k & Hr & Hs). apply required_In in Hr.
    destruct (Forall2_In_l k F Hr) as (s' & Hin & Hs').
    assert (s' = s) by congruence. subst. exact Hin.
Qed.
Lemma build_fetch X ctx nodeId filter child reqs :
  build X ctx (QFetch nodeId filter child) reqs
  = buildFetch X ctx nodeId filter (build X ctx child) reqs.
Proof. reflexivity. Qed.

Lemma generateSlotId_run st :
  generateSlotId st
  = (Ok (S (slotIdGenerator st)),
     mkState (S (slotIdGenerator st)) (frameIdGenerator st) (spoolIdGenerator st) (env st)).
Proof. reflexivity. Qed.

(** X9. A fetch asks its child for the record id and never for the result.
    When it succeeds, the child was built with these requirements and bound
    the record id; the plan is a loop join of the child with a scan of the
    collection that seeks the record id of the child and is cut after one
    row, under the filter of the node if it has one; the join forwards the
    child's slots of the other requested names and its index-key slots; and
    the bindings are those of the child with the result and the record id
    rebound to the two slots of that scan, which are the next two slot ids
    after the build of the child. *)
Theorem fetch_rebinds_result_and_record_id
        X ctx nodeId filter child reqs st stage outputs st' :
  build X ctx (QFetch nodeId filter child) reqs st = (Ok (stage, outputs), st') ->
  exists childStage childOutputs st1 seek coll forwarded,
    let r := S (slotIdGenerator st1) in
    let rid := S (S (slotIdGenerator st1)) in
    let join :=
      LoopJoinStage childStage
        (LimitSkipStage (ScanStage (coll_uuid coll) r rid seek true nodeId)
                        (Some 1) None nodeId)
        forwarded [seek] nodeId in
    build X ctx child (Reqs.set (Reqs.clear reqs kResult) kRecordId) st
    = (Ok (childStage, childOutputs), st1) /\
    Slots.getIfExists childOutputs kRecordId = Some seek /\
    collection ctx = Some coll /\
    outputs = Slots.set (Slots.set childOutputs kResult r) kRecordId rid /\
    (forall s, In s forwarded <->
       (exists k, Reqs.has reqs k = true /\ k <> kResult /\ k <> kRecordId /\
                  Slots.getIfExists childOutputs k = Some s) \/
       (exists v, Slots.getIndexKeySlots childOutputs = Some v /\ In s v)) /\
    match filter with
    | None => stage = join
    | Some f =>
        exists relevantSlots st2,
          generateFilter X f join r relevantSlots nodeId st2 = (Ok stage, st')
    end.
Proof.
  rewrite build_fetch. unfold buildFetch, relevantSlotsOf, makeLoopJoinForFetch.
  intros H. minv.
  match goal with
  | Hf : forEachSlot _ _ _ = (Ok ?v, _) |- _ =>
      apply forEachSlot_inv in Hf; destruct Hf as (-> & Hfw)
  end.
  repeat match goal with
    | Hg : generateSlotId _ = (Ok _, _) |- _ =>
        rewrite generateSlotId_run in Hg; inversion Hg; subst; clear Hg
    end.
  cbn [slotIdGenerator] in *.
  do 6 eexists. cbv zeta.
  split; [eassumption|]. split; [eassumption|]. split; [eassumption|].
  assert (Hmem : forall (named : SlotVector) (o : PlanStageSlots) s,
            (forall s, In s named <->
               exists k, Reqs.has (Reqs.clear (Reqs.clear reqs kResult) kRecordId) k = true
                         /\ Slots.getIfExists o k = Some s) ->
            In s match Slots.getIndexKeySlots o with
                 | Some indexKeySlots => named ++ indexKeySlots
                 | None => named
                 end <->
            (exists k, Reqs.has reqs k = true /\ k <> kResult /\ k <> kRecordId /\
                       Slots.getIfExists o k = Some s) \/
            (exists v, Slots.getIndexKeySlots o = Some v /\ In s v)).
  { intros named o s Hn.
    assert (Hnamed : In s named <->
              exists k, Reqs.has reqs k = true /\ k <> kResult /\ k <> kRecordId /\
                        Slots.getIfExists o k = Some s).
    { rewrite Hn. split; intros (k & Hk & Hs); exists k.
      - rewrite !reqs_has_clear in Hk.
        destruct k; cbn [SlotName_eqb] in Hk; try discriminate;
          (split; [exact Hk | split; [discriminate | split; [discriminate | exact Hs]]]).
      - destruct Hs as (H1 & H2 & Hs). split; [|exact Hs]. rewrite !reqs_has_clear.
        destruct k; cbn [SlotName_eqb]; congruence. }
    destruct (Slots.getIndexKeySlots o) as [v|].
    - rewrite in_app_iff, Hnamed. split; intros [H1 | H2]; auto.
      + right. exists v. split; [reflexivity | exact H2].
      + destruct H2 as (v' & Ev & Hin). inversion Ev; subst. right; exact Hin.
    - rewrite Hnamed. split; [auto | intros [H1 | (v' & Ev & _)]; [exact H1 | discriminate]]. }
  destruct filter as [f|]; minv.
  - split; [reflexivity|]. split; [intros s; apply Hmem; exact Hfw|].
    match goal with
    | Hr : Slots.getIfExists (Slots.set (Slots.set _ kResult _) kRecordId _) kResult
           = Some _ |- _ =>
        rewrite !getIfExists_set in Hr; cbn [SlotName_eqb] in Hr; inversion Hr; subst
    end.
    do 2 eexists. eassumption.
  - split; [reflexivity|]. split; [intros s; apply Hmem; exact Hfw | reflexivity].
Qed.

Lemma fetch_rebinds_result_and_record_id_witness :
  exists stage outputs st',
    build sampleCollaborators sampleContext fetchOverIndexScan (reqsOf [kResult])
          initialState = (Ok (stage, outputs), st') /\
    exists childOutputs r,
      outputs = Slots.set (Slots.set childOutputs kResult r) kRecordId (S r).
Proof.
  assert (Hrun : exists stage outputs st',
             build sampleCollaborators sampleContext fetchOverIndexScan (reqsOf [kResult])
                   initialState = (Ok (stage, outputs), st'))
    by (eexists _, _, _; vm_compute; reflexivity).
  destruct Hrun as (stage & outputs & st' & Hrun).
  exists stage, outputs, st'. split; [exact Hrun|].
  destruct (@fetch_rebinds_result_and_record_id sampleCollaborators sampleContext 2 None
              sampleIndexScan (reqsOf [kResult]) initialState stage outputs st' Hrun)
    as (childStage & childOutputs & st1 & seek & coll & forwarded & _ & _ & _ & Hout & _).
  exists childOutputs, (S (slotIdGenerator st1)). exact Hout.
Defined.

(** X10. A fetch hands a request for the return key down to its child and
    checks that the child has bound it: when the child is built and binds
    the record id but no return key, the fetch fails with the user assertion
    4953600, in the state that the build of the child left.  (A virtual scan
    is such a child.) *)
Theorem fetch_needs_the_return_key_of_its_child
        X ctx nodeId filter child reqs st childStage childOutputs st1 :
  Reqs.has reqs kOplogTs = false ->
  Reqs.has reqs kReturnKey = true ->
  build X ctx child (Reqs.set (Reqs.clear reqs kResult) kRecordId) st
  = (Ok (childStage, childOutputs), st1) ->
  Slots.has childOutputs kRecordId = true ->
  Slots.has childOutputs kReturnKey = false ->
  build X ctx (QFetch nodeId filter child) reqs st = (Fail (Uassert 4953600%N), st1).
Proof.
  intros Hts Hrk Hchild Hrid Hno. rewrite build_fetch. unfold buildFetch.
  rewrite Hts. unfold bind at 1. cbn [negb invariant ret].
  rewrite (bind_run _ Hchild). cbv beta iota.
  rewrite Hrid, Hrk, Hno. reflexivity.
Qed.

Lemma fetch_needs_the_return_key_of_its_child_witness :
  exists st1,
    build sampleCollaborators sampleContext (QFetch 2 None virtualScanWithRecordId)
          (reqsOf [kResult; kReturnKey]) initialState
    = (Fail (Uassert 4953600%N), st1).
Proof.
  assert (Hrun : exists childStage childOutputs st1,
             build sampleCollaborators sampleContext virtualScanWithRecordId
                   (Reqs.set (Reqs.clear (reqsOf [kResult; kReturnKey]) kResult) kRecordId)
                   initialState
             = (Ok (childStage, childOutputs), st1) /\
             Slots.has childOutputs kRecordId = true /\
             Slots.has childOutputs kReturnKey = false)
    by (eexists _, _, _; vm_compute; repeat split; reflexivity).
  destruct Hrun as (childStage & childOutputs & st1 & Hrun & Hrid & Hno).
  exists st1.
  exact (@fetch_needs_the_return_key_of_its_child sampleCollaborators sampleContext 2 None
           virtualScanWithRecordId (reqsOf [kResult; kReturnKey]) initialState
           childStage childOutputs st1 eq_refl eq_refl Hrun Hrid Hno).
Defined.

(* ===================================================================== *)
(** * Or *)
(* ===================================================================== *)

Lemma forEachSlot_length o reqs st v st' :
  forEachSlot o reqs st = (Ok v, st') -> length v = length (Reqs.required reqs).
Proof.
  intros H. apply forEachSlotNames_inv in H. destruct H as (_ & F).
  symmetry. eapply Forall2_length. exact F.
Qed.

Lemma orChildren_inv children childReqs :
  forall st inputStages inputSlots st',
    orChildren children childReqs st = (Ok (inputStages, inputSlots), st') ->
    length inputStages = length children /\
    length inputSlots = length children /\
    Forall (fun sv => length sv = length (Reqs.required childReqs)) inputSlots.
Proof.
  induction children as [|buildChild children IH]; intros st inputStages inputSlots st' H;
    simpl in H; minv.
  - repeat split; constructor.
  - match goal with
    | Hr : orChildren _ _ _ = _ |- _ => destruct (IH _ _ _ _ Hr) as (H1 & H2 & H3)
    end.
    simpl. repeat split; try congruence.
    constructor; [eapply forEachSlot_length; eassumption | exact H3].
Qed.

Lemma build_or X ctx text nodeId dedup filter children reqs :
  build X ctx (QOr text nodeId dedup filter children) reqs
  = buildOr X nodeId dedup filter (map (build X ctx) children) reqs.
Proof. destruct text; reflexivity. Qed.

(** X11. An or (and a text-or) that succeeds is a union with one branch for
    every child, in which every branch hands over as many slots as the
    union gives out: one for every name that the parent requires, with the
    result added if the node has a filter and the record id added if it
    removes duplicates.  The bindings are fresh slots for exactly these
    names, with no index-key slots.  Duplicates are removed by a unique
    stage on the record id of the union, and the filter is applied on top of
    that. *)
Theorem or_is_a_well_formed_union
        X ctx text nodeId dedup filter children reqs st stage outputs st' :
  build X ctx (QOr text nodeId dedup filter children) reqs st
  = (Ok (stage, outputs), st') ->
  let childReqs := Reqs.setIf (Reqs.setIf reqs kResult (isSome filter)) kRecordId dedup in
  exists inputStages inputSlots unionOutputSlots deduplicated,
    let union := UnionStage inputStages inputSlots unionOutputSlots nodeId in
    length inputStages = length children /\
    length inputSlots = length children /\
    Forall (fun sv => length sv = length unionOutputSlots) inputSlots /\
    (forall s, In s unionOutputSlots <->
               exists k, Reqs.has childReqs k = true /\
                         Slots.getIfExists outputs k = Some s) /\
    (forall k, Slots.has outputs k = Reqs.has childReqs k) /\
    Slots.getIndexKeySlots outputs = None /\
    (if dedup
     then exists rid, Slots.getIfExists outputs kRecordId = Some rid /\
                      deduplicated = UniqueStage union [rid] nodeId
     else deduplicated = union) /\
    match filter with
    | None => stage = deduplicated
    | Some f =>
        exists r relevantSlots st2,
          Slots.getIfExists outputs kResult = Some r /\
          generateFilter X f deduplicated r relevantSlots nodeId st2 = (Ok stage, st')
    end.
Proof.
  rewrite build_or. unfold buildOr. intros H. minv.
  match goal with
  | Ho : orChildren _ _ _ = _ |- _ =>
      apply orChildren_inv in Ho; destruct Ho as (Hl1 & Hl2 & Hall)
  end.
  rewrite length_map in Hl1, Hl2.
  match goal with
  | Hm : makePlanStageSlots _ _ = _ |- _ =>
      apply makePlanStageSlots_ok in Hm; destruct Hm as (Hk & Hix)
  end.
  match goal with
  | Hf : forEachSlot ?o (Reqs.setIf (Reqs.setIf reqs kResult _) kRecordId _) _
         = (Ok ?v, _) |- _ =>
      pose proof (forEachSlot_length _ _ _ Hf) as Hlen;
      apply forEachSlot_inv in Hf; destruct Hf as (-> & Hmem)
  end.
  cbv zeta.
  match goal with
  | Hd : (if dedup then _ else ret (UnionStage ?l ?l0 ?v _)) _ = (Ok ?d, _) |- _ =>
      exists l, l0, v, d
  end.
  assert (Hout : match filter with
                 | None => stage = a3 /\ outputs = a1
                 | Some f =>
                     outputs = a1 /\
                     exists r relevantSlots st2,
                       Slots.getIfExists a1 kResult = Some r /\
                       generateFilter X f a3 r relevantSlots nodeId st2 = (Ok stage, st')
                 end).
  { destruct filter as [f|]; minv; [|split; reflexivity].
    split; [reflexivity|]. do 3 eexists. split; eassumption. }
  assert (Ho : outputs = a1) by (destruct filter; apply Hout). subst a1.
  split; [exact Hl1|]. split; [exact Hl2|].
  split; [rewrite Hlen; exact Hall|].
  split; [exact Hmem|]. split; [exact Hk|]. split; [exact Hix|].
  split.
  - destruct dedup; minv; [eexists; split; [eassumption | reflexivity] | reflexivity].
  - destruct filter as [f|]; apply Hout.
Qed.

Lemma or_is_a_well_formed_union_witness :
  exists stage outputs st',
    build sampleCollaborators sampleContext
          (QOr false 5 true None [fetchOverIndexScan; sampleCollScan])
          (reqsOf [kResult]) initialState
    = (Ok (stage, outputs), st') /\
    exists inputStages inputSlots unionOutputSlots rid,
      stage = UniqueStage (UnionStage inputStages inputSlots unionOutputSlots 5) [rid] 5 /\
      length inputStages = 2 /\
      Forall (fun sv => length sv = length unionOutputSlots) inputSlots.
Proof.
  assert (Hrun : exists stage outputs st',
             build sampleCollaborators sampleContext
                   (QOr false 5 true None [fetchOverIndexScan; sampleCollScan])
                   (reqsOf [kResult]) initialState
             = (Ok (stage, outputs), st'))
    by (eexists _, _, _; vm_compute; reflexivity).
  destruct Hrun as (stage & outputs & st' & Hrun).
  exists stage, outputs, st'. split; [exact Hrun|].
  destruct (@or_is_a_well_formed_union sampleCollaborators sampleContext false 5 true None
              [fetchOverIndexScan; sampleCollScan] (reqsOf [kResult]) initialState
              stage outputs st' Hrun)
    as (inputStages & inputSlots & unionOutputSlots & deduplicated
        & Hl1 & _ & Hall & _ & _ & _ & (rid & _ & Hd) & Hs).
  exists inputStages, inputSlots, unionOutputSlots, rid.
  split; [rewrite Hs; exact Hd|]. split; [exact Hl1 | exact Hall].
Defined.

(* ===================================================================== *)
(** * And-hash and and-sorted *)
(* ===================================================================== *)

Lemma builtInOrder_length buildChild childReqs :
  forall children st built st',
    builtInOrder buildChild childReqs children st built st' ->
    length built = length children.
Proof.
  intros cs. induction cs as [|child cs IH]; intros st [|[[stage i] r] built] st' H;
    simpl in H; try contradiction; [reflexivity|].
  destruct H as (outputs & st1 & _ & _ & _ & H). simpl. f_equal. eapply IH, H.
Qed.

Lemma andHashRest_inv buildChild children childReqs cond project collator nodeId :
  forall base st final st',
    andHashRest (map buildChild children) childReqs base cond project collator nodeId st
    = (Ok final, st') ->
    exists more,
      builtInOrder buildChild childReqs children st more st' /\
      final = joinedOnto (fun o i c p => HashJoinStage o i c p cond project collator nodeId)
                         base more.
Proof.
  induction children as [|child children IH]; intros base st final st' H;
    simpl in H; minv.
  - exists []. split; reflexivity.
  - match goal with
    | Hr : andHashRest _ _ (HashJoinStage ?s _ [?i] [?r] _ _ _ _) _ _ _ _ _ = _ |- _ =>
        destruct (IH _ _ _ _ Hr) as (more & Hb & ->); exists ((s, i, r) :: more)
    end.
    split; [|reflexivity]. simpl. do 2 eexists.
    split; [eassumption|]. split; [assumption|]. split; assumption.
Qed.

Lemma andSortedRest_inv buildChild children childReqs keys project dirs nodeId :
  forall base st final st',
    andSortedRest (map buildChild children) childReqs base keys project dirs nodeId st
    = (Ok final, st') ->
    exists more,
      builtInOrder buildChild childReqs children st more st' /\
      final = joinedOnto (fun o i c p => MergeJoinStage o i c p keys project dirs nodeId)
                         base more.
Proof.
  induction children as [|child children IH]; intros base st final st' H;
    simpl in H; minv.
  - exists []. split; reflexivity.
  - match goal with
    | Hr : andSortedRest _ _ (MergeJoinStage ?s _ [?i] [?r] _ _ _ _) _ _ _ _ _ = _ |- _ =>
        destruct (IH _ _ _ _ Hr) as (more & Hb & ->); exists ((s, i, r) :: more)
    end.
    split; [|reflexivity]. simpl. do 2 eexists.
    split; [eassumption|]. split; [assumption|]. split; assumption.
Qed.

Lemma designateOutputs_inv reqs innerIdSlot innerResultSlot st outputs st' :
  designateOutputs reqs innerIdSlot innerResultSlot st = (Ok outputs, st') ->
  (Reqs.has reqs kRecordId = true -> Slots.getIfExists outputs kRecordId = Some innerIdSlot) /\
  (Reqs.has reqs kResult = true -> Slots.getIfExists outputs kResult = Some innerResultSlot).
Proof.
  unfold designateOutputs. intros H. minv.
  split; intros Hr; rewrite Hr;
    destruct (Reqs.has reqs kRecordId), (Reqs.has reqs kResult);
    try discriminate; rewrite ?getIfExists_set; reflexivity.
Qed.

(** Inversion that keeps what was read from the runtime environment. *)
Ltac minv_env :=
  unfold getSlotIfExists in *;
  repeat first
    [ minv1
    | match goal with
      | E : (Ok _, _) = (Ok _, _) |- _ => inversion E; subst; clear E
      end ].

Lemma first_two_children (A B : Type) (f : A -> B) (l : list A) x y :
  nth_error (map f l) 0 = Some x ->
  nth_error (map f l) 1 = Some y ->
  exists a b rest, l = a :: b :: rest /\ x = f a /\ y = f b.
Proof.
  destruct l as [|a [|b rest]]; simpl; try discriminate.
  intros H0 H1. inversion H0; inversion H1. exists a, b, rest. repeat split.
Qed.

(** X12. An and-hash that succeeds has at least two children.  All of
    them are built with the result and the record id required, from left to
    right, each from the state that the one before it left (the children
    after the second from the state in which the outputs have been
    designated), and each binds both names.  The first two make a hash join
    on their record ids; every further child becomes the outer side of one
    more hash join, on its own record id and result, whose inner side is
    the join so far and whose inner slots are still those of the second
    child.  The record id and the result that the parent gets, if it asked
    for them, are the slots of the second child. *)
Theorem and_hash_gives_the_slots_of_its_second_child
        X ctx nodeId children reqs st stage outputs st' :
  build X ctx (QAndHash nodeId children) reqs st = (Ok (stage, outputs), st') ->
  let childReqs := Reqs.set (Reqs.set reqs kResult) kRecordId in
  exists outer inner rest outerStage outerOutputs st1 innerStage innerOutputs st2
         outerId outerResult innerId innerResult more st3,
    let collatorSlot := Rehydrate.find "collator" (env st2) in
    children = outer :: inner :: rest /\
    build X ctx outer childReqs st = (Ok (outerStage, outerOutputs), st1) /\
    build X ctx inner childReqs st1 = (Ok (innerStage, innerOutputs), st2) /\
    Slots.getIfExists outerOutputs kRecordId = Some outerId /\
    Slots.getIfExists outerOutputs kResult = Some outerResult /\
    Slots.getIfExists innerOutputs kRecordId = Some innerId /\
    Slots.getIfExists innerOutputs kResult = Some innerResult /\
    (Reqs.has reqs kRecordId = true ->
     Slots.getIfExists outputs kRecordId = Some innerId) /\
    (Reqs.has reqs kResult = true ->
     Slots.getIfExists outputs kResult = Some innerResult) /\
    length more = length rest /\
    designateOutputs reqs innerId innerResult st2 = (Ok outputs, st3) /\
    builtInOrder (build X ctx) childReqs rest st3 more st' /\
    stage = joinedOnto
              (fun o i c p =>
                 HashJoinStage o i c p [innerId] [innerResult] collatorSlot nodeId)
              (HashJoinStage outerStage innerStage [outerId] [outerResult]
                             [innerId] [innerResult] collatorSlot nodeId)
              more.
Proof.
  unfold build at 1, buildWith at 1.
  cbn [getType hasStageBuilder isTailableSplitPoint andb tassert invoke].
  unfold bind at 1. cbn [ret]. unfold buildAndHash. intros H. minv_env.
  match goal with
  | H0 : nth_error (map _ children) 0 = Some _,
    H1 : nth_error (map _ children) 1 = Some _ |- _ =>
      destruct (first_two_children _ _ H0 H1) as (outer & inner & rest & -> & -> & ->)
  end.
  match goal with
  | Hd : designateOutputs _ _ _ _ = _ |- _ =>
      pose proof Hd as Hdes;
      apply designateOutputs_inv in Hd; destruct Hd as (Hrid & Hres)
  end.
  match goal with
  | Hr : andHashRest _ _ _ _ _ _ _ _ = _ |- _ =>
      cbn [skipn] in Hr; apply andHashRest_inv in Hr; destruct Hr as (more & Hb & ->)
  end.
  pose proof (builtInOrder_length _ _ _ _ _ _ Hb) as Hl.
  cbv zeta. exists outer, inner, rest. do 10 eexists. exists more. eexists.
  repeat (split; [eassumption || reflexivity|]).
  first [reflexivity | split; [exact Hb | reflexivity]].
Qed.

Lemma and_hash_gives_the_slots_of_its_second_child_witness :
  exists stage outputs st',
    build sampleCollaborators sampleContext
          (QAndHash 9 [sampleCollScan; fetchOverIndexScan; sampleCollScan])
          (reqsOf [kResult]) initialState
    = (Ok (stage, outputs), st') /\
    exists innerOutputs innerResult st1 st2 innerStage,
      build sampleCollaborators sampleContext fetchOverIndexScan
            (Reqs.set (Reqs.set (reqsOf [kResult]) kResult) kRecordId) st1
      = (Ok (innerStage, innerOutputs), st2) /\
      Slots.getIfExists innerOutputs kResult = Some innerResult /\
      Slots.getIfExists outputs kResult = Some innerResult.
Proof.
  assert (Hrun : exists stage outputs st',
             build sampleCollaborators sampleContext
                   (QAndHash 9 [sampleCollScan; fetchOverIndexScan; sampleCollScan])
                   (reqsOf [kResult]) initialState
             = (Ok (stage, outputs), st'))
    by (eexists _, _, _; vm_compute; reflexivity).
  destruct Hrun as (stage & outputs & st' & Hrun).
  exists stage, outputs, st'. split; [exact Hrun|].
  destruct (@and_hash_gives_the_slots_of_its_second_child sampleCollaborators
              sampleContext 9 [sampleCollScan; fetchOverIndexScan; sampleCollScan]
              (reqsOf [kResult]) initialState stage outputs st' Hrun)
    as (outer & inner & rest & outerStage & outerOutputs & st1 & innerStage
        & innerOutputs & st2 & outerId & outerResult & innerId & innerResult & more
        & st3 & Hch & _ & Hinner & _ & _ & _ & Hir & _ & Hres & _).
  inversion Hch; subst.
  exists innerOutputs, innerResult, st1, st2, innerStage.
  split; [exact Hinner|]. split; [exact Hir | apply Hres; reflexivity].
Defined.

(** X13. An and-sorted that succeeds has at least two children, all built
    with the result and the record id required, from left to right, each
    from the state that the one before it left (the children after the
    second from the state in which the outputs have been designated), and
    each binds both names.  The first two make a merge join on their record
    ids, ascending; every further child becomes the outer side of one more
    merge join, on its own record id and result, over the join so far, with
    the inner slots of the second child.  The record id and the result that
    the parent gets, if it asked for them, are the slots of the second
    child. *)
Theorem and_sorted_gives_the_slots_of_its_second_child
        X ctx nodeId children reqs st stage outputs st' :
  build X ctx (QAndSorted nodeId children) reqs st = (Ok (stage, outputs), st') ->
  let childReqs := Reqs.set (Reqs.set reqs kResult) kRecordId in
  exists outer inner rest outerStage outerOutputs st1 innerStage innerOutputs st2
         outerId outerResult innerId innerResult more st3,
    children = outer :: inner :: rest /\
    build X ctx outer childReqs st = (Ok (outerStage, outerOutputs), st1) /\
    build X ctx inner childReqs st1 = (Ok (innerStage, innerOutputs), st2) /\
    Slots.getIfExists outerOutputs kRecordId = Some outerId /\
    Slots.getIfExists outerOutputs kResult = Some outerResult /\
    Slots.getIfExists innerOutputs kRecordId = Some innerId /\
    Slots.getIfExists innerOutputs kResult = Some innerResult /\
    (Reqs.has reqs kRecordId = true ->
     Slots.getIfExists outputs kRecordId = Some innerId) /\
    (Reqs.has reqs kResult = true ->
     Slots.getIfExists outputs kResult = Some innerResult) /\
    length more = length rest /\
    designateOutputs reqs innerId innerResult st2 = (Ok outputs, st3) /\
    builtInOrder (build X ctx) childReqs rest st3 more st' /\
    stage = joinedOnto
              (fun o i c p =>
                 MergeJoinStage o i c p [innerId] [innerResult] [Ascending] nodeId)
              (MergeJoinStage outerStage innerStage [outerId] [outerResult]
                              [innerId] [innerResult] [Ascending] nodeId)
              more.
Proof.
  unfold build at 1, buildWith at 1.
  cbn [getType hasStageBuilder isTailableSplitPoint andb tassert invoke].
  unfold bind at 1. cbn [ret]. unfold buildAndSorted. intros H. minv.
  match goal with
  | H0 : nth_error (map _ children) 0 = Some _,
    H1 : nth_error (map _ children) 1 = Some _ |- _ =>
      destruct (first_two_children _ _ H0 H1) as (outer & inner & rest & -> & -> & ->)
  end.
  match goal with
  | Hd : designateOutputs _ _ _ _ = _ |- _ =>
      pose proof Hd as Hdes;
      apply designateOutputs_inv in Hd; destruct Hd as (Hrid & Hres)
  end.
  match goal with
  | Hr : andSortedRest _ _ _ _ _ _ _ _ = _ |- _ =>
      cbn [skipn] in Hr; apply andSortedRest_inv in Hr; destruct Hr as (more & Hb & ->)
  end.
  pose proof (builtInOrder_length _ _ _ _ _ _ Hb) as Hl.
  cbv zeta. exists outer, inner, rest. do 10 eexists. exists more. eexists.
  repeat (split; [eassumption || reflexivity|]).
  first [reflexivity | split; [exact Hb | reflexivity]].
Qed.

Lemma and_sorted_gives_the_slots_of_its_second_child_witness :
  exists stage outputs st',
    build sampleCollaborators sampleContext
          (QAndSorted 9 [sampleCollScan; fetchOverIndexScan])
          (reqsOf [kResult; kRecordId]) initialState
    = (Ok (stage, outputs), st') /\
    exists outerStage innerStage outerId outerResult innerId innerResult,
      stage = MergeJoinStage outerStage innerStage [outerId] [outerResult]
                             [innerId] [innerResult] [Ascending] 9 /\
      Slots.getIfExists outputs kRecordId = Some innerId.
Proof.
  assert (Hrun : exists stage outputs st',
             build sampleCollaborators sampleContext
                   (QAndSorted 9 [sampleCollScan; fetchOverIndexScan])
                   (reqsOf [kResult; kRecordId]) initialState
             = (Ok (stage, outputs), st'))
    by (eexists _, _, _; vm_compute; reflexivity).
  destruct Hrun as (stage & outputs & st' & Hrun).
  exists stage, outputs, st'. split; [exact Hrun|].
  destruct (@and_sorted_gives_the_slots_of_its_second_child sampleCollaborators
              sampleContext 9 [sampleCollScan; fetchOverIndexScan]
              (reqsOf [kResult; kRecordId]) initialState stage outputs st' Hrun)
    as (outer & inner & rest & outerStage & outerOutputs & st1 & innerStage
        & innerOutputs & st2 & outerId & outerResult & innerId & innerResult & more
        & st3 & Hch & _ & _ & _ & _ & _ & _ & Hrid & _ & Hl & _ & _ & Hs).
  inversion Hch; subst rest. destruct more; [|discriminate Hl].
  exists outerStage, innerStage, outerId, outerResult, innerId, innerResult.
  split; [exact Hs | apply Hrid; reflexivity].
Defined.

(** X14. An and-hash or an and-sorted with fewer than two children is
    turned down before any child is built: the build fails with the
    assertion 5073711 for an and-hash and 5073706 for an and-sorted, and
    leaves the state as it was. *)
Theorem joins_need_two_children X ctx nodeId children reqs st :
  length children < 2 ->
  build X ctx (QAndHash nodeId children) reqs st = (Fail (Tassert 5073711%N), st) /\
  build X ctx (QAndSorted nodeId children) reqs st = (Fail (Tassert 5073706%N), st).
Proof.
  intros Hl. destruct children as [|c [|d children]]; [| |simpl in Hl; lia];
    split; reflexivity.
Qed.

Lemma joins_need_two_children_witness :
  build sampleCollaborators sampleContext (QAndHash 9 [sampleCollScan]) (reqsOf [kResult])
        initialState
  = (Fail (Tassert 5073711%N), initialState).
Proof.
  apply (@joins_need_two_children sampleCollaborators sampleContext 9 [sampleCollScan]
           (reqsOf [kResult]) initialState).
  simpl. lia.
Defined.

(* ===================================================================== *)
(** * Return key *)
(* ===================================================================== *)

Lemma getIfExists_clear o k k' :
  Slots.getIfExists (Slots.clear o k) k' =
  if SlotName_eqb k k' then None else Slots.getIfExists o k'.
Proof. destruct o as [[a b c d] v], k, k'; reflexivity. Qed.

(** X15. A return-key node adds no stage: its plan is the plan of its
    child, built with the return key required and the result not.  In the
    bindings it returns, the result is the slot that the child bound for the
    return key, whether or not the parent asked for the result, and the
    return key itself is gone, even if the parent asked for it; the other
    names are bound as the child bound them. *)
Theorem return_key_becomes_the_result X ctx nodeId child reqs st stage outputs st' :
  build X ctx (QReturnKey nodeId child) reqs st = (Ok (stage, outputs), st') ->
  exists childOutputs rk,
    build X ctx child (Reqs.set (Reqs.clear reqs kResult) kReturnKey) st
    = (Ok (stage, childOutputs), st') /\
    Slots.getIfExists childOutputs kReturnKey = Some rk /\
    Slots.getIfExists outputs kResult = Some rk /\
    Slots.getIfExists outputs kReturnKey = None /\
    Slots.getIfExists outputs kRecordId = Slots.getIfExists childOutputs kRecordId /\
    Slots.getIfExists outputs kOplogTs = Slots.getIfExists childOutputs kOplogTs /\
    Slots.getIndexKeySlots outputs = Slots.getIndexKeySlots childOutputs.
Proof.
  unfold build at 1, buildWith at 1.
  cbn [getType hasStageBuilder isTailableSplitPoint andb tassert invoke].
  unfold bind at 1. cbn [ret]. unfold buildReturnKey. intros H. minv.
  do 2 eexists. split; [eassumption|]. split; [eassumption|].
  rewrite !getIfExists_clear, !getIfExists_set. cbn [SlotName_eqb].
  repeat split.
Qed.

Lemma return_key_becomes_the_result_witness :
  exists stage outputs st',
    build sampleCollaborators sampleContext (QReturnKey 4 sampleIndexScan)
          (reqsOf [kReturnKey]) initialState
    = (Ok (stage, outputs), st') /\
    Slots.has outputs kResult = true /\ Slots.has outputs kReturnKey = false.
Proof.
  assert (Hrun : exists stage outputs st',
             build sampleCollaborators sampleContext (QReturnKey 4 sampleIndexScan)
                   (reqsOf [kReturnKey]) initialState
             = (Ok (stage, outputs), st'))
    by (eexists _, _, _; vm_compute; reflexivity).
  destruct Hrun as (stage & outputs & st' & Hrun).
  exists stage, outputs, st'. split; [exact Hrun|].
  destruct (@return_key_becomes_the_result sampleCollaborators sampleContext 4
              sampleIndexScan (reqsOf [kReturnKey]) initialState stage outputs st' Hrun)
    as (childOutputs & rk & _ & _ & Hres & Hrk & _).
  unfold Slots.has. rewrite Hres, Hrk. split; reflexivity.
Defined.

(* ===================================================================== *)
(** * Virtual scan *)
(* ===================================================================== *)

(** X16. A virtual scan that succeeds got one slot from the generator, or
    two if the node has record ids, and the last of them is the result.
    Asked for the result, it binds that slot, adds no stage and returns no
    index-key slots, even if an index-key bitset was requested too.  The
    record id is bound only if it was requested, and then the node has
    record ids and the slot is the first of the two.  The return key and the
    oplog timestamp are never bound. *)
Theorem virtual_scan_bindings X ctx vsn reqs st stage outputs st' :
  build X ctx (QVirtualScan vsn) reqs st = (Ok (stage, outputs), st') ->
  exists scanSlots scanStage st1 resultSlot,
    generateVirtualScanMulti X (if vsn_hasRecordId vsn then 2 else 1)
                             (CArray (vsn_docs vsn)) st
    = (Ok (scanSlots, scanStage), st1) /\
    length scanSlots = (if vsn_hasRecordId vsn then 2 else 1) /\
    nth_error scanSlots (if vsn_hasRecordId vsn then 1 else 0) = Some resultSlot /\
    (Reqs.has reqs kResult = true ->
     Slots.getIfExists outputs kResult = Some resultSlot /\
     Slots.getIndexKeySlots outputs = None /\
     stage = scanStage /\ st' = st1) /\
    (Reqs.has reqs kResult = false -> Slots.getIfExists outputs kResult = None) /\
    (Reqs.has reqs kRecordId = true ->
     vsn_hasRecordId vsn = true /\
     Slots.getIfExists outputs kRecordId = nth_error scanSlots 0) /\
    (Reqs.has reqs kRecordId = false -> Slots.getIfExists outputs kRecordId = None) /\
    Slots.getIfExists outputs kReturnKey = None /\
    Slots.getIfExists outputs kOplogTs = None.
Proof.
  rewrite build_virtualScan. unfold buildVirtualScan. intros H.
  destruct (vsn_scanType vsn), (vsn_hasRecordId vsn) eqn:Ehas,
    (Reqs.has reqs kResult) eqn:Eres, (Reqs.has reqs kRecordId) eqn:Erid;
    try (destruct (reqs_indexKeyBitset reqs) eqn:Ebits);
    minv;
    (first
       [ match goal with
         | Hg : generateVirtualScanMulti _ _ _ _ = (Ok (?s, ?p), ?st1),
           Hn : nth_error ?s 1 = Some ?r |- _ => exists s, p, st1, r
         end
       | match goal with
         | Hg : generateVirtualScanMulti _ _ _ _ = (Ok (?s, ?p), ?st1),
           Hn : nth_error ?s 0 = Some ?r |- _ => exists s, p, st1, r
         end ];
     (split; [eassumption|]);
     repeat split; intros; try discriminate;
     rewrite ?getIfExists_set; cbn [SlotName_eqb];
     try reflexivity; try (apply Nat.eqb_eq; assumption); try eassumption;
     try (symmetry; assumption)).
Qed.

Lemma virtual_scan_bindings_witness :
  exists stage outputs st',
    build sampleCollaborators sampleContext
          (QVirtualScan (mkVirtualScan 1 [] kIxscan true [mkElem "a" KeyAsc]))
          (Reqs.setIndexKeyBitset (reqsOf [kResult; kRecordId]) (Some 1%N)) initialState
    = (Ok (stage, outputs), st') /\
    Slots.getIndexKeySlots outputs = None /\
    Slots.getIfExists outputs kResult = Some 2 /\
    Slots.getIfExists outputs kRecordId = Some 1.
Proof.
  assert (Hrun : exists stage outputs st',
             build sampleCollaborators sampleContext
                   (QVirtualScan (mkVirtualScan 1 [] kIxscan true [mkElem "a" KeyAsc]))
                   (Reqs.setIndexKeyBitset (reqsOf [kResult; kRecordId]) (Some 1%N))
                   initialState
             = (Ok (stage, outputs), st'))
    by (eexists _, _, _; vm_compute; reflexivity).
  destruct Hrun as (stage & outputs & st' & Hrun).
  exists stage, outputs, st'. split; [exact Hrun|].
  destruct (@virtual_scan_bindings sampleCollaborators sampleContext
              (mkVirtualScan 1 [] kIxscan true [mkElem "a" KeyAsc])
              (Reqs.setIndexKeyBitset (reqsOf [kResult; kRecordId]) (Some 1%N))
              initialState stage outputs st' Hrun)
    as (scanSlots & scanStage & st1 & resultSlot & Hgen & _ & Hlast & Hres & _ & Hrid & _).
  destruct (Hres eq_refl) as (Hr & Hix & _). destruct (Hrid eq_refl) as (_ & Hi).
  vm_compute in Hgen. inversion Hgen; subst. simpl in Hlast, Hi.
  inversion Hlast; subst. repeat split; assumption.
Defined.

(* ===================================================================== *)
(** * The result and the return key of an index scan *)
(* ===================================================================== *)

Lemma skipn_nth_error (A : Type) (l : list A) :
  forall i a, nth_error l i = Some a -> skipn i l = a :: skipn (S i) l.
Proof.
  induction l as [|x l IH]; intros [|i] a H; simpl in H; try discriminate.
  - inversion H. reflexivity.
  - exact (IH _ _ H).
Qed.

Lemma returnKeyArgs_inv outputs slots keyPattern :
  Slots.getIndexKeySlots outputs = Some slots ->
  forall i st args st',
    returnKeyArgs keyPattern outputs i st = (Ok args, st') ->
    st' = st /\ args = rawKeyArgs keyPattern (skipn i slots) /\
    (keyPattern = [] \/ i + length keyPattern <= length slots).
Proof.
  intros Hs. induction keyPattern as [|elem more IH]; intros i st args st' H;
    simpl in H; minv.
  - split; [reflexivity|]. split; [reflexivity | left; reflexivity].
  - assert (a = slots) by congruence. subst a.
    destruct (IH _ _ _ _ E1) as (-> & -> & Hle).
    rewrite (skipn_nth_error _ _ E0).
    split; [reflexivity|]. split; [reflexivity|]. right.
    assert (i < length slots) by (apply nth_error_Some; congruence).
    destruct Hle as [-> | Hle]; simpl; lia.
Qed.

Lemma rawKeyArgs_all keyPattern slots :
  rawKeyArgs keyPattern (skipn 0 slots) = rawKeyArgs keyPattern slots.
Proof. reflexivity. Qed.

Lemma filter_all (A : Type) (f : A -> bool) l :
  (forall x, In x l -> f x = true) -> filter f l = l.
Proof.
  induction l as [|x l IH]; intros H; simpl; [reflexivity|].
  rewrite (H x (or_introl eq_refl)). f_equal. apply IH. intros y Hy. apply H. right. exact Hy.
Qed.

(** The bitset of all the positions of a key pattern has as many bits as the
    pattern has fields. *)
Lemma bitCount_all b n :
  n <= kMaxCompoundIndexKeys ->
  (forall i, bitTest b i = true <-> i < n) ->
  bitCount b = n.
Proof.
  intros Hn Hb. rewrite (@bitCount_below b n Hn); [|intros i Hi; apply Hb, Hi].
  rewrite filter_all, length_seq; [reflexivity|].
  intros i Hi. apply in_seq in Hi. apply Hb. lia.
Qed.

(** X17. An index scan that is asked for the result or for the return
    key asks the generator for every component of its key pattern, whatever
    bitset the parent set, and gets one slot for each.  The return key, if
    requested, is bound by a projection of newObj over the names of the key
    pattern, each followed by its slot; the result, if requested, is bound
    by a projection, on top of that, of the expression that rehydrates the
    key from all these slots. *)
Theorem index_scan_inflates_its_key X ctx ixn reqs st stage outputs st' :
  GeneratorsOk X ->
  Reqs.has reqs kReturnKey || Reqs.has reqs kResult = true ->
  build X ctx (QIndexScan ixn) reqs st = (Ok (stage, outputs), st') ->
  exists requested bodyStage bodyOutputs full st1 withKey,
    (forall i, bitTest requested i = true <-> i < length (ixn_keyPattern ixn)) /\
    generateIndexScan X ixn requested st = (Ok (bodyStage, bodyOutputs), st1) /\
    Slots.getIndexKeySlots bodyOutputs = Some full /\
    length full = length (ixn_keyPattern ixn) /\
    (if Reqs.has reqs kReturnKey
     then exists rk,
         Slots.getIfExists outputs kReturnKey = Some rk /\
         withKey = makeProjectStage bodyStage (ixn_nodeId ixn) rk
                     (EFunction "newObj" (rawKeyArgs (ixn_keyPattern ixn) full))
     else withKey = bodyStage) /\
    (if Reqs.has reqs kResult
     then exists r keyExpr,
         Slots.getIfExists outputs kResult = Some r /\
         rehydrateExpr (ixn_keyPattern ixn) full = Some keyExpr /\
         stage = makeProjectStage withKey (ixn_nodeId ixn) r keyExpr
     else stage = withKey).
Proof.
  intros HX Hreq. rewrite build_indexScan. unfold buildIndexScan, rehydrateIndexKey.
  intros H. minv.
  match goal with
  | Hb : indexScanBitset _ _ _ = _ |- _ =>
      apply indexScanBitset_ok in Hb; rewrite Hreq in Hb; destruct Hb as (-> & Hbits & Hle)
  end.
  match goal with
  | Hg : generateIndexScan _ _ _ _ = _ |- _ =>
      pose proof (indexScan_ok HX _ _ _ Hg) as (_ & full & Hfull & Hlen)
  end.
  rewrite (@bitCount_all _ _ Hle Hbits) in Hlen.
  match goal with
  | Hg : generateIndexScan _ _ ?b _ = (Ok (?p, ?o), ?s1) |- _ => exists b, p, o, full, s1
  end.
  destruct (Reqs.has reqs kReturnKey) eqn:Erk;
    destruct (Reqs.has reqs kResult) eqn:Ers; try discriminate Hreq;
    destruct (reqs_indexKeyBitset reqs) as [parentBits|] eqn:Ebits; minv;
    repeat match goal with
      | Hr : returnKeyArgs _ _ _ _ = _ |- _ =>
          eapply returnKeyArgs_inv in Hr; [|exact Hfull]; destruct Hr as (-> & -> & _)
      end;
    repeat match goal with
      | Hs : Slots.getIfExists (Slots.set _ _ _) _ = Some _ |- _ =>
          rewrite getIfExists_set in Hs; cbn [SlotName_eqb] in Hs;
          inversion Hs; subst; clear Hs
      end;
    rewrite ?getIndexKeySlots_set in *;
    repeat match goal with
      | H2 : Slots.getIndexKeySlots ?o = Some ?v,
        H1 : Slots.getIndexKeySlots ?o = Some full |- _ =>
          tryif constr_eq v full then fail
          else (assert (v = full) by congruence; subst v)
      end;
    eexists; (split; [exact Hbits|]); (split; [eassumption|]);
    (split; [exact Hfull|]); (split; [exact Hlen|]);
    unfold Slots.setIndexKeySlots, Slots.getIfExists, Slots.set in *; simpl;
    (split; [try reflexivity; try (eexists; split; reflexivity)|]);
    try reflexivity;
    try (do 2 eexists; split; [reflexivity|]; split; [eassumption | reflexivity]).
Qed.

Lemma index_scan_inflates_its_key_witness :
  exists stage outputs st',
    build sampleCollaborators sampleContext sampleIndexScan
          (Reqs.setIndexKeyBitset (reqsOf [kResult; kReturnKey]) (Some 1%N)) initialState
    = (Ok (stage, outputs), st') /\
    exists (full : SlotVector) withKey r keyExpr,
      length full = 2 /\
      rehydrateExpr (ixn_keyPattern sampleIxn) full = Some keyExpr /\
      stage = makeProjectStage withKey 1 r keyExpr.
Proof.
  assert (Hrun : exists stage outputs st',
             build sampleCollaborators sampleContext sampleIndexScan
                   (Reqs.setIndexKeyBitset (reqsOf [kResult; kReturnKey]) (Some 1%N))
                   initialState
             = (Ok (stage, outputs), st'))
    by (eexists _, _, _; vm_compute; reflexivity).
  destruct Hrun as (stage & outputs & st' & Hrun).
  exists stage, outputs, st'. split; [exact Hrun|].
  destruct (@index_scan_inflates_its_key sampleCollaborators sampleContext sampleIxn
              (Reqs.setIndexKeyBitset (reqsOf [kResult; kReturnKey]) (Some 1%N))
              initialState stage outputs st' sampleCollaborators_ok eq_refl Hrun)
    as (requested & bodyStage & bodyOutputs & full & st1 & withKey & _ & _ & _ & Hlen
        & _ & r & keyExpr & _ & Hkey & Hstage).
  exists full, withKey, r, keyExpr. repeat split; assumption.
Defined.

(* ===================================================================== *)
(** * Rehydrating a key of top-level fields *)
(* ===================================================================== *)

Lemma find_notin_None (A : Type) k (l : list (string * A)) :
  ~ In k (map fst l) -> find k l = None.
Proof.
  induction l as [|[k' v] l IH]; simpl; intros H; [reflexivity|].
  destruct (String.eqb k k') eqn:E.
  - apply String.eqb_eq in E. subst. elim H. left. reflexivity.
  - apply IH. intros Hin. apply H. right. exact Hin.
Qed.

Lemma flat_tree keyPattern slots :
  (forall e, In e keyPattern -> FieldRef (fieldName e) = [fieldName e]) ->
  NoDup (map fieldName keyPattern) ->
  forall i cs,
    (forall e, In e keyPattern -> ~ In (fieldName e) (map fst cs)) ->
    i + length keyPattern <= length slots ->
    buildKeyPatternTreeFrom keyPattern slots i (Node cs None)
    = Some (Node (cs ++ map (fun p => (fieldName (fst p), Node [] (Some (snd p))))
                            (combine keyPattern (skipn i slots)))
                 None).
Proof.
  induction keyPattern as [|elem more IH]; intros Hflat Hnd i cs Hfresh Hlen.
  - simpl. rewrite app_nil_r. reflexivity.
  - simpl in Hlen. cbn [buildKeyPatternTreeFrom].
    rewrite (Hflat elem (or_introl eq_refl)).
    destruct (nth_error slots i) as [s|] eqn:Es;
      [|apply nth_error_None in Es; lia].
    cbn [insertPath children indexKeySlot].
    rewrite (find_notin_None _ _ (Hfresh elem (or_introl eq_refl))).
    cbn [emptyNode children].
    inversion Hnd as [|? ? Hnotin Hnd']; subst.
    rewrite IH.
    + rewrite (skipn_nth_error _ _ Es). cbn [combine map fst snd].
      rewrite <- app_assoc. reflexivity.
    + intros e He. apply Hflat. right. exact He.
    + exact Hnd'.
    + intros e He. rewrite map_app, in_app_iff. intros [Hin | Hin].
      * exact (Hfresh e (or_intror He) Hin).
      * simpl in Hin. destruct Hin as [Heq | []].
        apply Hnotin. rewrite Heq. apply in_map. exact He.
    + lia.
Qed.

(** X18. For a key pattern of distinct field names that are single path
    components (no dot), with at least as many slots, the expression that
    rehydrates the key is newObj over the names of the pattern in their
    order, each followed by its slot: the same arguments as the raw key
    that an index scan makes for the return key. *)
Theorem flat_key_is_rehydrated_field_by_field keyPattern slots :
  (forall e, In e keyPattern -> FieldRef (fieldName e) = [fieldName e]) ->
  NoDup (map fieldName keyPattern) ->
  length keyPattern <= length slots ->
  rehydrateExpr keyPattern slots
  = Some (EFunction "newObj" (rawKeyArgs keyPattern slots)).
Proof.
  intros Hflat Hnd Hlen. unfold rehydrateExpr, buildKeyPatternTree, emptyNode.
  rewrite (@flat_tree keyPattern slots Hflat Hnd 0 []); [|intros e _ []|simpl; lia].
  cbn [option_map app skipn buildNewObjExpr]. do 2 f_equal. unfold rawKeyArgs.
  generalize slots. clear. induction keyPattern as [|e kp IH]; intros [|s sl];
    simpl; try reflexivity.
  rewrite IH. reflexivity.
Qed.

Lemma flat_key_is_rehydrated_field_by_field_witness :
  rehydrateExpr [mkElem "a" KeyAsc; mkElem "b" KeyAsc] [10; 11]
  = Some (EFunction "newObj"
            [EConstant (CString "a"); EVariable 10;
             EConstant (CString "b"); EVariable 11]).
Proof.
  apply (@flat_key_is_rehydrated_field_by_field
           [mkElem "a" KeyAsc; mkElem "b" KeyAsc] [10; 11]).
  - intros e [<- | [<- | []]]; reflexivity.
  - solve_NoDup.
  - simpl. lia.
Defined.

(* ===================================================================== *)
(** * Sort-merge *)
(* ===================================================================== *)

Lemma mergeSortDirections_inv parts :
  forall st direction st',
    mergeSortDirections parts st = (Ok direction, st') ->
    st' = st /\ direction = map sortDirectionOf parts /\
    Forall (fun part => fieldPath part <> None) parts.
Proof.
  induction parts as [|part parts IH]; intros st direction st' H; simpl in H; minv.
  - repeat split. constructor.
  - match goal with
    | Hr : mergeSortDirections _ _ = _ |- _ => destruct (IH _ _ _ Hr) as (-> & -> & Hall)
    end.
    repeat split. constructor; [|exact Hall].
    unfold hasExpression in *. destruct (fieldPath part); [discriminate | discriminate].
Qed.

Lemma sortMergeInputKeys_length parts positions indexKeys :
  forall st keys st',
    sortMergeInputKeys parts positions indexKeys st = (Ok keys, st') ->
    length keys = length parts /\ Forall (fun s => In s indexKeys) keys.
Proof.
  induction parts as [|part parts IH]; intros st keys st' H; simpl in H; minv.
  - split; [reflexivity | constructor].
  - destruct (find (fullPath a) positions) as [indexPos|] eqn:Ef; minv.
    match goal with
    | Hr : sortMergeInputKeys _ _ _ _ = _ |- _ => destruct (IH _ _ _ Hr) as (Hl & Hall)
    end.
    split; [simpl; congruence|].
    constructor; [eapply nth_error_In; eassumption | exact Hall].
Qed.

Lemma sortMergeChildren_inv children sortPattern dedup childReqs :
  forall st inputStages inputKeys inputVals st',
    sortMergeChildren children sortPattern dedup childReqs st
    = (Ok (inputStages, inputKeys, inputVals), st') ->
    length inputStages = length children /\
    length inputKeys = length children /\
    length inputVals = length children /\
    Forall (fun keys => length keys = length sortPattern) inputKeys /\
    Forall (fun vals => length vals = length (Reqs.required childReqs)) inputVals.
Proof.
  induction children as [|[child buildChild] children IH];
    intros st inputStages inputKeys inputVals st' H; simpl in H; minv.
  - repeat split; constructor.
  - match goal with
    | Hm : match Slots.getIndexKeySlots ?o with _ => _ end _ = _ |- _ =>
        destruct (Slots.getIndexKeySlots o) as [indexKeys|] eqn:Ek; minv
    end.
    match goal with
    | Hr : sortMergeChildren _ _ _ _ _ = _ |- _ =>
        destruct (IH _ _ _ _ _ Hr) as (H1 & H2 & H3 & H4 & H5)
    end.
    match goal with
    | Hk : sortMergeInputKeys _ _ _ _ = _ |- _ =>
        apply sortMergeInputKeys_length in Hk; destruct Hk as (Hk & _)
    end.
    match goal with
    | Hf : forEachSlot _ _ _ = _ |- _ => apply forEachSlot_length in Hf
    end.
    simpl. repeat split; try congruence; constructor; assumption.
Qed.

Lemma build_sortMerge X ctx nodeId dedup sort children reqs :
  build X ctx (QMergeSort nodeId dedup sort children) reqs
  = buildSortMerge nodeId dedup sort (map (fun c => (c, build X ctx c)) children) reqs.
Proof. reflexivity. Qed.

(** X19. A sort-merge that succeeds is a sorted merge with one input for
    every child, in which every input has one key slot for every part of
    the sort pattern, as many as there are directions, and as many value
    slots as the merge gives out: one for every name the parent requires,
    with the record id added if duplicates are removed.  The directions are
    those of the parts, none of which is an expression.  The bindings are
    fresh slots for exactly these names, with no index-key slots, and
    duplicates are removed by a unique stage on the record id. *)
Theorem sort_merge_is_well_formed
        X ctx nodeId dedup sort children reqs st stage outputs st' :
  build X ctx (QMergeSort nodeId dedup sort children) reqs st
  = (Ok (stage, outputs), st') ->
  let childReqs := Reqs.setIf reqs kRecordId dedup in
  exists inputStages inputKeys inputVals outputVals,
    let merge :=
      SortedMergeStage inputStages inputKeys (map sortDirectionOf sort) inputVals
                       outputVals nodeId in
    length inputStages = length children /\
    length inputKeys = length children /\
    length inputVals = length children /\
    Forall (fun keys => length keys = length (map sortDirectionOf sort)) inputKeys /\
    Forall (fun vals => length vals = length outputVals) inputVals /\
    Forall (fun part => fieldPath part <> None) sort /\
    (forall k, Slots.has outputs k = Reqs.has childReqs k) /\
    Slots.getIndexKeySlots outputs = None /\
    (if dedup
     then exists rid, Slots.getIfExists outputs kRecordId = Some rid /\
                      stage = UniqueStage merge [rid] nodeId
     else stage = merge).
Proof.
  rewrite build_sortMerge. unfold buildSortMerge. intros H. minv.
  match goal with
  | Hd : mergeSortDirections _ _ = _ |- _ =>
      apply mergeSortDirections_inv in Hd; destruct Hd as (-> & -> & Hparts)
  end.
  match goal with
  | Hc : sortMergeChildren _ _ _ _ _ = _ |- _ =>
      apply sortMergeChildren_inv in Hc; destruct Hc as (H1 & H2 & H3 & H4 & H5)
  end.
  rewrite length_map in H1, H2, H3.
  match goal with
  | Hm : makePlanStageSlots _ _ = _ |- _ =>
      apply makePlanStageSlots_ok in Hm; destruct Hm as (Hk & Hix)
  end.
  match goal with
  | Hf : forEachSlot _ _ _ = (Ok ?v, _) |- _ =>
      pose proof (forEachSlot_length _ _ _ Hf) as Hlen
  end.
  cbv zeta. do 4 eexists.
  split; [exact H1|]. split; [exact H2|]. split; [exact H3|].
  split; [rewrite length_map; exact H4|].
  split; [rewrite Hlen; exact H5|].
  split; [exact Hparts|].
  destruct dedup; minv;
    (split; [exact Hk|]); (split; [exact Hix|]);
    [eexists; split; [eassumption | reflexivity] | reflexivity].
Qed.

Lemma sort_merge_is_well_formed_witness :
  exists stage outputs st',
    build sampleCollaborators sampleContext
          (QMergeSort 7 true [ascending "b" []] [sampleIndexScan; fetchOverIndexScan])
          (reqsOf [kResult]) initialState
    = (Ok (stage, outputs), st') /\
    exists inputStages inputKeys inputVals outputVals rid,
      stage = UniqueStage
                (SortedMergeStage inputStages inputKeys [Ascending] inputVals outputVals 7)
                [rid] 7 /\
      length inputStages = 2 /\
      Forall (fun keys => length keys = 1) inputKeys.
Proof.
  assert (Hrun : exists stage outputs st',
             build sampleCollaborators sampleContext
                   (QMergeSort 7 true [ascending "b" []]
                               [sampleIndexScan; fetchOverIndexScan])
                   (reqsOf [kResult]) initialState
             = (Ok (stage, outputs), st'))
    by (eexists _, _, _; vm_compute; reflexivity).
  destruct Hrun as (stage & outputs & st' & Hrun).
  exists stage, outputs, st'. split; [exact Hrun|].
  destruct (@sort_merge_is_well_formed sampleCollaborators sampleContext 7 true
              [ascending "b" []] [sampleIndexScan; fetchOverIndexScan]
              (reqsOf [kResult]) initialState stage outputs st' Hrun)
    as (inputStages & inputKeys & inputVals & outputVals & Hl & _ & _ & Hkeys & _ & _ & _
        & _ & rid & _ & Hs).
  exists inputStages, inputKeys, inputVals, outputVals, rid.
  split; [exact Hs|]. split; [exact Hl | exact Hkeys].
Defined.

Lemma mergeSortDirections_expression parts st :
  (exists part, In part parts /\ fieldPath part = None) ->
  mergeSortDirections parts st = (Fail (Uassert 4822881%N), st).
Proof.
  induction parts as [|part parts IH]; intros (p & Hin & Hp); [destruct Hin|].
  simpl. unfold hasExpression. destruct (fieldPath part) as [fp|] eqn:E; [|reflexivity].
  destruct Hin as [-> | Hin]; [congruence|].
  unfold bind at 1. cbn [isSome negb uassert ret].
  unfold bind at 1. rewrite IH; [reflexivity | eauto].
Qed.

Lemma mergeSortDirections_run parts st :
  Forall (fun part => fieldPath part <> None) parts ->
  mergeSortDirections parts st = (Ok (map sortDirectionOf parts), st).
Proof.
  induction 1 as [|part parts Hp _ IH]; [reflexivity|].
  simpl. unfold hasExpression. destruct (fieldPath part); [|congruence].
  unfold bind at 1. cbn [isSome negb uassert ret].
  unfold bind at 1. rewrite IH. reflexivity.
Qed.

(** X20. A sort-merge that is not asked for index keys checks its input
    before it builds anything.  A sort pattern with a part that is an
    expression fails with the user assertion 4822881.  Otherwise, if the
    first child has no index scan in it, the build fails with the assertion
    5184300.  Both leave the state as it was. *)
Theorem sort_merge_turned_down X ctx nodeId dedup sort child children reqs st :
  reqs_indexKeyBitset reqs = None ->
  ((exists part, In part sort /\ fieldPath part = None) ->
   build X ctx (QMergeSort nodeId dedup sort (child :: children)) reqs st
   = (Fail (Uassert 4822881%N), st)) /\
  (Forall (fun part => fieldPath part <> None) sort ->
   getNodeByType child STAGE_IXSCAN = None ->
   build X ctx (QMergeSort nodeId dedup sort (child :: children)) reqs st
   = (Fail (Tassert 5184300%N), st)).
Proof.
  intros Hb. rewrite build_sortMerge. unfold buildSortMerge. rewrite Hb.
  cbn [isSome negb].
  rewrite (bind_run _ (eq_refl : invariant true st = (Ok tt, st))). split.
  - intros Hexp. unfold bind at 1. rewrite (@mergeSortDirections_expression sort st Hexp).
    reflexivity.
  - intros Hall Hnone. rewrite (bind_run _ (@mergeSortDirections_run sort st Hall)).
    cbn [map sortMergeChildren]. rewrite Hnone. reflexivity.
Qed.

Lemma sort_merge_turned_down_witness :
  build sampleCollaborators sampleContext
        (QMergeSort 7 false [mkPart None true] [sampleIndexScan]) (reqsOf [kResult])
        initialState
  = (Fail (Uassert 4822881%N), initialState) /\
  build sampleCollaborators sampleContext
        (QMergeSort 7 false [ascending "a" []] [sampleCollScan]) (reqsOf [kResult])
        initialState
  = (Fail (Tassert 5184300%N), initialState).
Proof.
  split.
  - apply (@sort_merge_turned_down sampleCollaborators sampleContext 7 false
             [mkPart None true] sampleIndexScan [] (reqsOf [kResult]) initialState eq_refl).
    exists (mkPart None true). split; [left; reflexivity | reflexivity].
  - apply (@sort_merge_turned_down sampleCollaborators sampleContext 7 false
             [ascending "a" []] sampleCollScan [] (reqsOf [kResult]) initialState eq_refl).
    + repeat constructor. discriminate.
    + reflexivity.
Defined.

(* ===================================================================== *)
(** * The shard filter over a document *)
(* ===================================================================== *)

Lemma shardKeyProjections_inv X outputs shardKeyPattern :
  forall projections fieldSlots projectFields st projections' fieldSlots' projectFields' st',
    shardKeyProjections X shardKeyPattern outputs projections fieldSlots projectFields st
    = (Ok (projections', fieldSlots', projectFields'), st') ->
    exists slots bindings,
      fieldSlots' = fieldSlots ++ slots /\
      length slots = length shardKeyPattern /\
      projectFields' = projectFields ++ map fieldName shardKeyPattern /\
      (shardKeyPattern <> [] -> exists r, Slots.getIfExists outputs kResult = Some r) /\
      (forall r, Slots.getIfExists outputs kResult = Some r ->
                 boundInOrder X r shardKeyPattern st slots bindings st') /\
      projections'
      = emplaceAll (combine slots (shardKeyParts shardKeyPattern bindings)) projections /\
      ((forall fieldRef e level, Grows (generateShardKeyBinding X fieldRef e level)) ->
       (forall k e, In (k, e) projections -> k <= slotIdGenerator st) ->
       projections'
       = projections ++ combine slots (shardKeyParts shardKeyPattern bindings) /\
       forall k e, In (k, e) projections' -> k <= slotIdGenerator st').
Proof.
  induction shardKeyPattern as [|elem more IH];
    intros projections fieldSlots projectFields st projections' fieldSlots' projectFields'
           st' H; simpl in H.
  - unfold ret in H. inversion H; subst. exists [], []. rewrite !app_nil_r.
    split; [reflexivity|]. split; [reflexivity|]. split; [reflexivity|].
    split; [intros Hne; congruence|]. split; [intros r _; reflexivity|].
    split; [reflexivity|].
    intros _ Hk. split; [reflexivity | exact Hk].
  - unfold bind at 1 in H. rewrite generateSlotId_run in H.
    unfold getSlot in H.
    destruct (Slots.getIfExists outputs kResult) as [r|] eqn:Er;
      [|unfold bind, fail in H; discriminate H].
    unfold bind at 1 in H. cbn [ret] in H. unfold bind at 1 in H.
    match type of H with
    | context [generateShardKeyBinding X ?f ?e ?l ?s] =>
        destruct (generateShardKeyBinding X f e l s) as [[binding|err] stB] eqn:Eb;
          [|discriminate H]
    end.
    apply IH in H.
    destruct H as (slots & bindings & -> & Hlen & -> & _ & Hall & -> & Hplain).
    exists (S (slotIdGenerator st) :: slots), (binding :: bindings).
    split; [rewrite <- app_assoc; reflexivity|].
    split; [simpl; congruence|].
    split; [rewrite <- app_assoc; reflexivity|].
    split; [intros _; exists r; reflexivity|].
    split.
    { intros r' Hr'. assert (r' = r) by congruence. subst r'. simpl.
      do 2 eexists. split; [apply generateSlotId_run|]. split; [exact Eb|].
      apply Hall. reflexivity. }
    split; [reflexivity|].
    intros HG Hk.
    assert (Hfresh : slotMapInsert (S (slotIdGenerator st)) (shardKeyPart elem binding)
                                   projections
                     = projections ++ [(S (slotIdGenerator st), shardKeyPart elem binding)]).
    { apply slotMapInsert_fresh. intros k' e' Hin. specialize (Hk _ _ Hin). lia. }
    pose proof (HG (Rehydrate.FieldRef (fieldName elem)) (EVariable r) 0
                   (mkState (S (slotIdGenerator st)) (frameIdGenerator st)
                            (spoolIdGenerator st) (env st))) as Hgrow.
    rewrite Eb in Hgrow. destruct Hgrow as (Hs & _). simpl in Hs.
    destruct (Hplain HG) as (Heq & Hkeys).
    { unfold shardKeyPart in Hfresh. rewrite Hfresh. intros k e Hin.
      apply in_app_or in Hin. destruct Hin as [Hin | [Hin | []]].
      - specialize (Hk _ _ Hin). lia.
      - inversion Hin; subst. exact Hs. }
    split; [|exact Hkeys].
    rewrite Heq. unfold shardKeyPart in Hfresh. rewrite Hfresh, <- app_assoc. reflexivity.
Qed.

(** X21. When the child of a sharding filter has an empty index key
    pattern, or the parent requires the result, the shard key is taken from
    the document: the child is built with the result required, and its
    bindings are handed to the parent unchanged.  For every element of the
    shard-key pattern the plan takes a fresh slot and the binding of the
    path of the element in the result of the child, hashed for a hashed
    element, and emplaces the two in its projection, in the order of the
    pattern; when the generator of the bindings leaves a later state behind,
    the projection has one entry for every element.  The plan makes the
    shard-key object from these slots under the names of the pattern,
    replaces it by Nothing if one of the slots is missing, and filters with
    shardFilter on that.  There is a first such slot: the shard-key pattern
    of a filter that was built this way is not empty. *)
Theorem shard_filter_from_the_document
        X ctx nodeId child reqs st stage outputs st' :
  let fromDocument := match childIndexKeyPattern child with [] => true | _ => false end in
  Reqs.has (Reqs.setIf reqs kResult fromDocument) kResult = true ->
  build X ctx (QShardingFilter nodeId child) reqs st = (Ok (stage, outputs), st') ->
  exists childStage st1 projections fieldSlots first r bindings st2,
    let shardKeySlot := S (slotIdGenerator st2) in
    let finalShardKeySlot := S (S (slotIdGenerator st2)) in
    build X ctx child (Reqs.setIf reqs kResult fromDocument) st
    = (Ok (childStage, outputs), st1) /\
    Slots.getIfExists outputs kResult = Some r /\
    boundInOrder X r (shardKeyPattern ctx) st1 fieldSlots bindings st2 /\
    length fieldSlots = length (shardKeyPattern ctx) /\
    nth_error fieldSlots 0 = Some first /\
    projections
    = emplaceAll (combine fieldSlots (shardKeyParts (shardKeyPattern ctx) bindings)) [] /\
    ((forall fieldRef e level, Grows (generateShardKeyBinding X fieldRef e level)) ->
     projections = combine fieldSlots (shardKeyParts (shardKeyPattern ctx) bindings)) /\
    stage = FilterStage false
              (makeProjectStage
                 (MakeBsonObjStage (ProjectStage childStage projections nodeId)
                                   shardKeySlot None None []
                                   (map fieldName (shardKeyPattern ctx)) fieldSlots
                                   true false nodeId)
                 nodeId finalShardKeySlot
                 (EIf (fold_left (fun acc s => makeBinaryOp logicOr acc (notExists s))
                                 (skipn 1 fieldSlots) (notExists first))
                      (EConstant CNothing) (EVariable shardKeySlot)))
              (makeFunction "shardFilter"
                            [EConstant CShardFilterer; EVariable finalShardKeySlot])
              nodeId.
Proof.
  intros fromDocument Hres. rewrite build_shardFilter. unfold buildShardFilter.
  fold fromDocument. rewrite Hres. cbn [negb]. intros H. minv.
  match goal with
  | Hp : shardKeyProjections _ _ _ _ _ _ _ = _ |- _ =>
      apply shardKeyProjections_inv in Hp;
      destruct Hp as (slots & bindings & -> & Hl & -> & Hr & Hall & -> & Hplain)
  end.
  cbn [app] in *.
  destruct Hr as (r & Hr).
  { intros Hnil. rewrite Hnil in Hl. destruct slots; [|discriminate Hl].
    match goal with Hi : nth_error [] 0 = Some _ |- _ => discriminate Hi end. }
  repeat match goal with
         | Hg : generateSlotId _ = (Ok _, _) |- _ =>
             apply generateSlotId_ok in Hg; destruct Hg as (-> & ->)
         end.
  cbn [slotIdGenerator] in *.
  do 5 eexists. exists r, bindings. eexists. cbv zeta.
  split; [eassumption|]. split; [exact Hr|]. split; [exact (Hall r Hr)|].
  split; [exact Hl|]. split; [eassumption|].
  split; [reflexivity|]. split; [|reflexivity].
  intros HG. destruct (Hplain HG) as (Heq & _); [intros k e []|]. exact Heq.
Qed.

Lemma shard_filter_from_the_document_witness :
  exists stage outputs st',
    build sampleCollaborators sampleContext (QShardingFilter 3 sampleCollScan)
          (reqsOf [kRecordId]) initialState
    = (Ok (stage, outputs), st') /\
    Slots.has outputs kResult = true /\
    exists childStage slot binding shardKeySlot rest filter,
      stage = FilterStage false
                (ProjectStage
                   (MakeBsonObjStage (ProjectStage childStage [(slot, binding)] 3)
                                     shardKeySlot None None [] ["a"] [slot] true false 3)
                   rest 3)
                filter 3.
Proof.
  assert (Hrun : exists stage outputs st',
             build sampleCollaborators sampleContext (QShardingFilter 3 sampleCollScan)
                   (reqsOf [kRecordId]) initialState
             = (Ok (stage, outputs), st') /\ Slots.has outputs kResult = true)
    by (eexists _, _, _; vm_compute; split; reflexivity).
  destruct Hrun as (stage & outputs & st' & Hrun & Hres).
  exists stage, outputs, st'. split; [exact Hrun|]. split; [exact Hres|].
  destruct (@shard_filter_from_the_document sampleCollaborators sampleContext 3
              sampleCollScan (reqsOf [kRecordId]) initialState stage outputs st'
              eq_refl Hrun)
    as (childStage & st1 & projections & fieldSlots & first & r & bindings & st2
        & _ & _ & Hall & Hlen & _ & _ & Hplain & Hs).
  rewrite (Hplain (shardKeyBinding_grows sampleCollaborators_grow)) in Hs.
  destruct fieldSlots as [|slot [|? ?]]; try discriminate Hlen.
  destruct bindings as [|binding [|? ?]]; simpl in Hall; try contradiction;
    try (destruct Hall as (? & ? & _ & _ & []); fail).
  rewrite Hs. unfold makeProjectStage. simpl.
  do 6 eexists. reflexivity.
Defined.

(* ===================================================================== *)
(** * Text match *)
(* ===================================================================== *)

Lemma makeFtsMatcher_inv coll indexName ftsQuery st matcher st' :
  makeFtsMatcher coll indexName ftsQuery st = (Ok matcher, st') ->
  st' = st /\
  exists desc entry spec query,
    findIndexByName coll indexName = Some desc /\
    getEntry coll desc = Some entry /\
    accessMethod coll entry = Some spec /\
    ftsQuery = FTSQueryImpl query /\
    matcher = CFtsMatcher query spec.
Proof.
  unfold makeFtsMatcher.
  destruct (findIndexByName coll indexName) as [desc|] eqn:Ed; [|intros H; minv].
  destruct (getEntry coll desc) as [entry|] eqn:Ee; [|intros H; minv].
  destruct (accessMethod coll entry) as [spec|] eqn:Ea; [|intros H; minv].
  destruct ftsQuery as [query|]; intros H; minv.
  split; [reflexivity|]. exists desc, entry, spec, query. repeat split; assumption.
Qed.

(** X22. A text match that succeeds has exactly one child, which is
    fetched and was built with the result required; the collection has the
    index of the node with its catalog entry and access method, and the
    query is not a no-op query.  The plan is a filter over the plan of the
    child that applies ftsMatch to the result if it is an object and fails
    with the error 4623400 otherwise; if the return key is requested, a
    projection on top binds it to an empty object.  The other bindings are
    those of the child. *)
Theorem text_match_filters_the_fetched_child
        X ctx nodeId indexName ftsQuery children reqs st stage outputs st' :
  build X ctx (QTextMatch nodeId indexName ftsQuery children) reqs st
  = (Ok (stage, outputs), st') ->
  exists child childStage childOutputs st1 r coll desc entry spec query,
    let filtered :=
      FilterStage false childStage
        (EIf (makeFunction "isObject" [makeVariable r])
             (makeFunction "ftsMatch"
                           [EConstant (CFtsMatcher query spec); makeVariable r])
             (EFail (ErrorNumber 4623400) "textmatch requires input to be an object"))
        nodeId in
    children = [child] /\
    fetched X child = true /\
    build X ctx child (Reqs.set reqs kResult) st = (Ok (childStage, childOutputs), st1) /\
    Slots.getIfExists childOutputs kResult = Some r /\
    collection ctx = Some coll /\
    findIndexByName coll indexName = Some desc /\
    getEntry coll desc = Some entry /\
    accessMethod coll entry = Some spec /\
    ftsQuery = FTSQueryImpl query /\
    (if Reqs.has reqs kReturnKey
     then exists rk,
         stage = makeProjectStage filtered nodeId rk (makeFunction "newObj" []) /\
         outputs = Slots.set childOutputs kReturnKey rk
     else stage = filtered /\ outputs = childOutputs).
Proof.
  unfold build at 1, buildWith at 1.
  cbn [getType hasStageBuilder isTailableSplitPoint andb tassert invoke].
  unfold bind at 1. cbn [ret]. unfold buildTextMatch. intros H. minv.
  match goal with
  | Hl : (length (map _ children) =? 1) = true |- _ =>
      rewrite length_map in Hl; apply Nat.eqb_eq in Hl
  end.
  destruct children as [|child [|d children]]; try discriminate.
  match goal with
  | Hn : nth_error (map _ [child]) 0 = Some _ |- _ => simpl in Hn; inversion Hn; subst; clear Hn
  end.
  match goal with
  | Hm : makeFtsMatcher _ _ _ _ = _ |- _ =>
      apply makeFtsMatcher_inv in Hm;
      destruct Hm as (-> & desc & entry & spec & query & Hd & He & Ha & -> & ->)
  end.
  do 6 eexists. exists desc, entry, spec, query. cbv zeta.
  split; [reflexivity|]. split; [eassumption|]. split; [eassumption|].
  split; [eassumption|]. split; [eassumption|].
  split; [exact Hd|]. split; [exact He|]. split; [exact Ha|]. split; [reflexivity|].
  destruct (Reqs.has reqs kReturnKey); minv.
  - rewrite getIfExists_set in *. cbn [SlotName_eqb] in *.
    match goal with
    | Hs : Some _ = Some _ |- _ => inversion Hs; subst
    end.
    eexists. split; reflexivity.
  - split; reflexivity.
Qed.

Lemma text_match_filters_the_fetched_child_witness :
  exists stage outputs st',
    build sampleCollaborators textContext sampleTextMatch (reqsOf [kResult]) initialState
    = (Ok (stage, outputs), st') /\
    exists childStage r,
      stage = FilterStage false childStage
                (EIf (makeFunction "isObject" [makeVariable r])
                     (makeFunction "ftsMatch" [EConstant (CFtsMatcher 4 3); makeVariable r])
                     (EFail (ErrorNumber 4623400)
                            "textmatch requires input to be an object"))
                6.
Proof.
  assert (Hrun : exists stage outputs st',
             build sampleCollaborators textContext sampleTextMatch (reqsOf [kResult])
                   initialState
             = (Ok (stage, outputs), st'))
    by (eexists _, _, _; vm_compute; reflexivity).
  destruct Hrun as (stage & outputs & st' & Hrun).
  exists stage, outputs, st'. split; [exact Hrun|].
  destruct (@text_match_filters_the_fetched_child sampleCollaborators textContext 6 "text"
              (FTSQueryImpl 4) [fetchOverIndexScan] (reqsOf [kResult]) initialState
              stage outputs st' Hrun)
    as (child & childStage & childOutputs & st1 & r & coll & desc & entry & spec & query
        & _ & _ & _ & _ & Hcoll & Hd & He & Ha & Hq & Hs & _).
  inversion Hcoll; subst coll. simpl in Hd, He, Ha.
  inversion Hd; subst desc. inversion He; subst entry. inversion Ha; subst spec.
  inversion Hq; subst query.
  exists childStage, r. exact Hs.
Defined.

(* ===================================================================== *)
(** * The slots of the runtime environment *)
(* ===================================================================== *)

(** X23. The constructor registers the time-zone database in the runtime
    environment, and the collator if the query has one, each under a slot of
    its own.  In every later state of the builder (one in which the id
    generators have not gone back and the environment has only been appended
    to) both are still found under these slots, and the slots are not above
    the slot-id generator, so no slot that is generated later is one of
    them.  Without a collator, the constructor registers none. *)
Theorem environment_slots_stay_reserved ctx solutionRoot st' :
  extends (_state (makeBuilder ctx solutionRoot)) st' ->
  exists tz,
    find "timeZoneDB" (env st') = Some tz /\ tz <= slotIdGenerator st' /\
    if cq_hasCollator ctx
    then exists c, find "collator" (env st') = Some c /\ c <> tz /\
                   c <= slotIdGenerator st'
    else find "collator" (env (_state (makeBuilder ctx solutionRoot))) = None.
Proof.
  unfold makeBuilder, makeRuntimeEnvironment. cbn [_state].
  destruct (cq_hasCollator ctx); intros (Hs & _ & _ & more & Henv);
    simpl in Hs, Henv; rewrite ?Henv; exists 1.
  - split; [reflexivity|]. split; [lia|]. exists 2. repeat split; [discriminate | lia].
  - split; [reflexivity|]. split; [lia | reflexivity].
Qed.

Lemma environment_slots_stay_reserved_witness :
  exists tz,
    find "timeZoneDB"
         (env (snd (build sampleCollaborators sampleContext fetchOverIndexScan
                          (reqsOf [kResult])
                          (_state (makeBuilder sampleContext fetchOverIndexScan)))))
    = Some tz /\
    tz <= slotIdGenerator
            (snd (build sampleCollaborators sampleContext fetchOverIndexScan
                        (reqsOf [kResult])
                        (_state (makeBuilder sampleContext fetchOverIndexScan)))).
Proof.
  destruct (@environment_slots_stay_reserved sampleContext fetchOverIndexScan
              (snd (build sampleCollaborators sampleContext fetchOverIndexScan
                          (reqsOf [kResult])
                          (_state (makeBuilder sampleContext fetchOverIndexScan)))))
    as (tz & Htz & Hle & _).
  - repeat split; [vm_compute; lia | vm_compute; lia | vm_compute; lia|].
    eexists. vm_compute. reflexivity.
  - exists tz. split; assumption.
Defined.

(* ===================================================================== *)
(** * The covered projection *)
(* ===================================================================== *)


Lemma build_projectionCovered X ctx nodeId proj coveredKeyObj child reqs :
  build X ctx (QProjectionCovered nodeId proj coveredKeyObj child) reqs
  = buildProjectionCovered X nodeId proj coveredKeyObj child (build X ctx child) reqs.
Proof. reflexivity. Qed.

(** X24. A covered projection over an index scan, or over a virtual scan
    that mocks one, whose key pattern is the covered key of the node (not
    empty, and of at most as many fields as an index-key bitset has bits):
    with generators that keep their contract, the object that the
    projection makes has one slot for every field name, so names and slots
    are aligned.  The names are the fields of the key pattern that the
    projection requires, in the order of the key pattern; the result is
    bound to the slot of that object, and no index-key slots are handed to
    the parent. *)
Theorem covered_projection_is_aligned
        X ctx nodeId proj coveredKeyObj child reqs st stage outputs st' :
  GeneratorsOk X ->
  childIndexKeyPattern child = coveredKeyObj ->
  coveredKeyObj <> [] ->
  length coveredKeyObj <= kMaxCompoundIndexKeys ->
  build X ctx (QProjectionCovered nodeId proj coveredKeyObj child) reqs st
  = (Ok (stage, outputs), st') ->
  exists childStage r keyFieldNames indexKeySlots,
    stage = MakeBsonObjStage childStage r None None [] keyFieldNames indexKeySlots
                             true false nodeId /\
    keyFieldNames
    = map fieldName
          (filter (fun elt => existsb (String.eqb (fieldName elt))
                                      (proj_requiredFields proj))
                  coveredKeyObj) /\
    length indexKeySlots = length keyFieldNames /\
    Slots.getIfExists outputs kResult = Some r /\
    Slots.getIndexKeySlots outputs = None.
Proof.
  intros HX Hkp Hne Hle. rewrite build_projectionCovered.
  unfold buildProjectionCovered. intros H. minv.
  match goal with
  | Hm : makeIndexKeyInclusionSet _ _ _ = _ |- _ =>
      eapply makeIndexKeyInclusionSet_aligned in Hm; [|exact Hle];
      destruct Hm as (Hnames & Hcount & Hin)
  end.
  match goal with
  | Hc : build X ctx child _ _ = _ |- _ =>
      eapply covered_child_aligned in Hc;
      [destruct Hc as (v & Hv & Hlv)
      | exact HX
      | exact Hne
      | destruct reqs as [[? ? ? ?] ? ? ?]; reflexivity
      | reflexivity
      | exact Hin]
  end.
  do 4 eexists. split; [reflexivity|]. split; [exact Hnames|].
  split; [congruence|]. split; [eassumption | reflexivity].
Qed.

Lemma covered_projection_is_aligned_witness :
  exists stage outputs st',
    build sampleCollaborators sampleContext
          (QProjectionCovered 8 (mkProjection 1 ["b"] true)
                              [mkElem "a" KeyAsc; mkElem "b" KeyAsc] sampleIndexScan)
          (reqsOf [kResult]) initialState
    = (Ok (stage, outputs), st') /\
    exists childStage r s,
      stage = MakeBsonObjStage childStage r None None [] ["b"] [s] true false 8.
Proof.
  assert (Hrun : exists stage outputs st',
             build sampleCollaborators sampleContext
                   (QProjectionCovered 8 (mkProjection 1 ["b"] true)
                                       [mkElem "a" KeyAsc; mkElem "b" KeyAsc]
                                       sampleIndexScan)
                   (reqsOf [kResult]) initialState
             = (Ok (stage, outputs), st'))
    by (eexists _, _, _; vm_compute; reflexivity).
  destruct Hrun as (stage & outputs & st' & Hrun).
  exists stage, outputs, st'. split; [exact Hrun|].
  destruct (@covered_projection_is_aligned sampleCollaborators sampleContext 8
              (mkProjection 1 ["b"] true) [mkElem "a" KeyAsc; mkElem "b" KeyAsc]
              sampleIndexScan (reqsOf [kResult]) initialState stage outputs st'
              sampleCollaborators_ok eq_refl ltac:(discriminate)
              ltac:(rewrite kMaxCompoundIndexKeys_value; simpl; lia) Hrun)
    as (childStage & r & names & slots & Hs & Hn & Hl & _).
  simpl in Hn. subst names. destruct slots as [|s [|t slots]]; try discriminate Hl.
  exists childStage, r, s. exact Hs.
Defined.

(* ===================================================================== *)
(** * Names and slots of the covered shard key *)
(* ===================================================================== *)

Lemma filter_length_sub (A : Type) (f g : A -> bool) (l : list A) :
  (forall x, g x = true -> f x = true) ->
  length (filter g l) <= length (filter f l) /\
  (length (filter f l) = length (filter g l) <->
   forall x, In x l -> f x = true -> g x = true).
Proof.
  intros Hsub. induction l as [|a l (IHle & IHeq)]; simpl.
  - split; [lia|]. split; [intros _ x [] | reflexivity].
  - destruct (g a) eqn:Eg.
    + rewrite (Hsub a Eg). simpl. split; [lia|]. split.
      * intros Hl x [<- | Hin] Hf; [exact Eg|]. apply IHeq; [lia | exact Hin | exact Hf].
      * intros Hall. f_equal. apply IHeq. intros x Hin. apply Hall. right. exact Hin.
    + destruct (f a) eqn:Ef; simpl.
      * split; [lia|]. split; [intros Hl; lia|].
        intros Hall. specialize (Hall a (or_introl eq_refl) Ef). congruence.
      * split; [exact IHle|]. split.
        -- intros Hl x [<- | Hin] Hf; [congruence|]. apply IHeq; assumption.
        -- intros Hall. apply IHeq. intros x Hin. apply Hall. right. exact Hin.
Qed.

(** The bits of a union: at least those of one side, and no more exactly
    when the other side adds none. *)
Lemma bitCount_lor p s :
  bitCount s <= bitCount (N.lor p s) /\
  (bitCount (N.lor p s) = bitCount s <->
   forall i, i < kMaxCompoundIndexKeys -> bitTest p i = true -> bitTest s i = true).
Proof.
  unfold bitCount.
  destruct (@filter_length_sub _ (bitTest (N.lor p s)) (bitTest s)
              (seq 0 kMaxCompoundIndexKeys)) as (Hle & Heq).
  { intros i Hi. rewrite bitTest_lor, Hi. apply orb_true_r. }
  split; [exact Hle|]. rewrite Heq. split.
  - intros H i Hi Hp. apply H; [apply in_seq; lia|]. rewrite bitTest_lor, Hp. reflexivity.
  - intros H i Hi Hl. rewrite bitTest_lor in Hl. apply in_seq in Hi.
    destruct (bitTest p i) eqn:Ep; [apply H; [lia | exact Ep]|exact Hl].
Qed.

(** X25. In a covered shard filter over a child with a key pattern (not
    empty, of at most as many fields as a bitset has bits), with generators
    that keep their contract: the make-object stage of the shard key gets
    the names of the fields of the key pattern that are shard-key fields,
    and the slots of the child for the whole union of these positions with
    the positions the parent asked for.  So it never has fewer slots than
    names, and it has as many slots as names exactly when every position the
    parent asked for is the position of a shard-key field. *)
Theorem covered_shard_key_names_and_slots
        X ctx nodeId child reqs st stage outputs st' :
  GeneratorsOk X ->
  childIndexKeyPattern child <> [] ->
  length (childIndexKeyPattern child) <= kMaxCompoundIndexKeys ->
  Reqs.has reqs kResult = false ->
  (forall parentBits i,
     reqs_indexKeyBitset reqs = Some parentBits -> bitTest parentBits i = true ->
     i < length (childIndexKeyPattern child)) ->
  build X ctx (QShardingFilter nodeId child) reqs st = (Ok (stage, outputs), st') ->
  exists childStage shardKeySlot projectFields projectVars filterExpr,
    stage = FilterStage false
              (MakeBsonObjStage childStage shardKeySlot None None [] projectFields
                                projectVars true false nodeId)
              filterExpr nodeId /\
    projectFields
    = map fieldName
          (filter (fun elt => existsb (String.eqb (fieldName elt))
                                      (map fieldName (shardKeyPattern ctx)))
                  (childIndexKeyPattern child)) /\
    length projectFields <= length projectVars /\
    (length projectVars = length projectFields <->
     forall parentBits i,
       reqs_indexKeyBitset reqs = Some parentBits -> bitTest parentBits i = true ->
       exists elt, nth_error (childIndexKeyPattern child) i = Some elt /\
                   In (fieldName elt) (map fieldName (shardKeyPattern ctx))).
Proof.
  intros HX Hne Hle Hres Hwf. rewrite build_shardFilter. unfold buildShardFilter.
  destruct (childIndexKeyPattern child) as [|elt0 pattern] eqn:Ekp; [congruence|].
  rewrite <- Ekp in *. clear Hne. unfold Reqs.setIf. rewrite Hres. cbn [negb].
  unfold buildShardFilterCovered, unionBitset. intros H. minv.
  match goal with
  | Hm : makeIndexKeyInclusionSet _ _ _ = _ |- _ =>
      pose proof (makeIndexKeyInclusionSet_ok _ _ _ Hm) as (_ & Hshard);
      eapply makeIndexKeyInclusionSet_aligned in Hm; [|exact Hle];
      destruct Hm as (Hnames & Hcount & Hin)
  end.
  match goal with
  | Hb : build X ctx child _ _ = (Ok (?cs, ?co), _) |- _ =>
      assert (Hal : exists v, Slots.getIndexKeySlots co = Some v /\
                              length v = bitCount
                                (N.lor match reqs_indexKeyBitset reqs with
                                       | Some b => b
                                       | None => 0%N
                                       end i))
  end.
  { eapply covered_child_aligned
      with (reqs := Reqs.setIndexKeyBitset reqs (Some _));
      [exact HX | rewrite Ekp; discriminate | exact Hres | reflexivity | | eassumption].
    intros j. rewrite bitTest_lor, orb_true_iff. intros [Hj | Hj].
    - destruct (reqs_indexKeyBitset reqs) as [parentBits|] eqn:Ep.
      + eapply Hwf; [reflexivity | exact Hj].
      + rewrite bitTest_0 in Hj. discriminate.
    - apply Hin, Hj. }
  destruct Hal as (v & Hv & Hlv).
  match goal with
  | Hd : Slots.getIndexKeySlots _ = Some ?a |- _ =>
      assert (a = v) by congruence; subst a
  end.
  match type of Hlv with
  | _ = bitCount (N.lor ?p ?s) => destruct (bitCount_lor p s) as (Hge & Heq)
  end.
  do 5 eexists.
  split; [reflexivity|]. split; [exact Hnames|]. split; [lia|].
  rewrite Hlv, Hcount, Heq. split.
  - intros Hsub parentBits j Hp Hj. apply Hshard.
    rewrite Hp in Hsub. apply Hsub; [|exact Hj].
    specialize (Hwf _ _ Hp Hj). lia.
  - intros Hall j Hj Hp.
    destruct (reqs_indexKeyBitset reqs) as [parentBits|] eqn:Ep.
    + apply Hshard. eapply Hall; [reflexivity | exact Hp].
    + rewrite bitTest_0 in Hp. discriminate.
Qed.

Lemma covered_shard_key_names_and_slots_witness :
  exists stage outputs st',
    build sampleCollaborators sampleContext shardFilterOverIndexScan
          (Reqs.setIndexKeyBitset emptyReqs (Some 2%N)) initialState
    = (Ok (stage, outputs), st') /\
    exists childStage shardKeySlot projectFields projectVars filterExpr,
      stage = FilterStage false
                (MakeBsonObjStage childStage shardKeySlot None None [] projectFields
                                  projectVars true false 3)
                filterExpr 3 /\
      length projectFields <= length projectVars.
Proof.
  assert (Hrun : exists stage outputs st',
             build sampleCollaborators sampleContext shardFilterOverIndexScan
                   (Reqs.setIndexKeyBitset emptyReqs (Some 2%N)) initialState
             = (Ok (stage, outputs), st'))
    by (eexists _, _, _; vm_compute; reflexivity).
  destruct Hrun as (stage & outputs & st' & Hrun).
  exists stage, outputs, st'. split; [exact Hrun|].
  assert (Hwf : forall parentBits i,
             reqs_indexKeyBitset (Reqs.setIndexKeyBitset emptyReqs (Some 2%N))
             = Some parentBits ->
             bitTest parentBits i = true ->
             i < length (childIndexKeyPattern sampleIndexScan)).
  { intros parentBits i Hp Hi. inversion Hp; subst.
    destruct i as [|[|i]]; [simpl; lia | simpl; lia |].
    exfalso. unfold bitTest in Hi.
    replace 2%N with (2 ^ 1)%N in Hi by reflexivity.
    rewrite N.pow2_bits_eqb in Hi. apply N.eqb_eq in Hi. lia. }
  assert (Hle : length (childIndexKeyPattern sampleIndexScan) <= kMaxCompoundIndexKeys)
    by (rewrite kMaxCompoundIndexKeys_value; simpl; lia).
  destruct (@covered_shard_key_names_and_slots sampleCollaborators sampleContext 3
              sampleIndexScan (Reqs.setIndexKeyBitset emptyReqs (Some 2%N)) _ _ _ _
              sampleCollaborators_ok ltac:(discriminate) Hle eq_refl Hwf Hrun)
    as (childStage & shardKeySlot & projectFields & projectVars & filterExpr
        & Hstage & _ & Hlen & _).
  exists childStage, shardKeySlot, projectFields, projectVars, filterExpr.
  split; [exact Hstage | exact Hlen].
Defined.
